(** * Sudoku core: validation engine, backtracking solver and puzzle generator

    A shallow embedding of the TypeScript sources under [src/core]
    (bitmask primitives, region validation, candidate computation, grid
    access, the two backtracking solvers and the puzzle generator), followed
    by the properties established about them.

    Conventions of the embedding

    - a JavaScript [number] that the code uses as a digit, a coordinate, a
      count or a millisecond timestamp is a [Z];
    - the bitwise operators work on 32-bit signed integers: the wrap-around
      of [<<], [&], [|] and [~] is written out ([to_int32]);
    - a computation that may throw returns an [outcome]; what is thrown is
      any JavaScript value, an [Error] or not ([Js.exn]); code that mutates
      a shared context threads a world record and keeps the mutations done
      before a throw, as JavaScript does;
    - the calls to the loggers are left out: they write to the console and
      the engine reads nothing back from them;
    - [Date.now()], [Math.random()] and the progress callbacks are oracles
      indexed by the number of calls made so far;
    - recursion is bounded by the depth of the call stack: running out of
      stack is the [RangeError] that the engine raises. *)

From Stdlib Require Import ZArith List Bool String Lia Arith PeanoNat.
From Stdlib Require Import DecimalString SpecFloat.
Import ListNotations.

Local Open Scope string_scope.
Local Open Scope list_scope.
Local Open Scope Z_scope.

(* ===================================================================== *)
(** ** JavaScript basics *)
(* ===================================================================== *)

Module Js.

(** A thrown value. JavaScript throws any value, and the engine reads a
    caught one only through
    [error instanceof Error ? error.message : String(error)]. A thrown value
    is therefore one of
    - [Error message]: an instance of [Error], with its message;
    - [NonError text]: a value that is no [Error] and that [String] converts
      to [text] (a string, a number, an object with a [toString]);
    - [Inconvertible raised]: a value that is no [Error] and whose
      conversion by [String] throws [raised] (an object without prototype,
      as [Object.create(null)], or one whose [toString] throws). *)
Inductive exn :=
| Error (message : string)
| NonError (text : string)
| Inconvertible (raised : exn).

(** Result of evaluating code that may throw. *)
Inductive outcome (A : Type) : Type :=
| Ret (a : A)
| Throw (e : exn).
Arguments Ret {A} a.
Arguments Throw {A} e.

(** [error instanceof Error ? error.message : String(error)] *)
Definition errorMessageOf (error : exn) : outcome string :=
  match error with
  | Error message => Ret message
  | NonError text => Ret text
  | Inconvertible raised => Throw raised
  end.

Definition bind {A B} (m : outcome A) (k : A -> outcome B) : outcome B :=
  match m with
  | Ret a => k a
  | Throw e => Throw e
  end.

Definition is_ret {A} (m : outcome A) : bool :=
  match m with Ret _ => true | Throw _ => false end.

(** Reading a property of [undefined]. *)
Definition TypeError : exn :=
  Error "Cannot read properties of undefined".

(** Exhausting the call stack. *)
Definition RangeError : exn :=
  Error "Maximum call stack size exceeded".

(** [ToInt32]: the 32-bit signed integer congruent to [z] modulo 2^32. *)
Definition to_int32 (z : Z) : Z := (z + 2 ^ 31) mod 2 ^ 32 - 2 ^ 31.

(** [a << b]: both operands are converted, the shift count is taken
    modulo 32 and the result wraps to 32 bits. *)
Definition shl (a b : Z) : Z := to_int32 (Z.shiftl (to_int32 a) (b mod 32)).

(** [a & b], [a | b], [~a] on 32-bit signed integers. *)
Definition and (a b : Z) : Z := Z.land (to_int32 a) (to_int32 b).
Definition or (a b : Z) : Z := Z.lor (to_int32 a) (to_int32 b).
Definition not (a : Z) : Z := Z.lnot (to_int32 a).

(** Decimal rendering of an integer inside a template literal. *)
Definition string_of_Z (z : Z) : string := NilZero.string_of_int (Z.to_int z).

End Js.

Import Js.

Declare Scope outcome_scope.
Delimit Scope outcome_scope with outcome.
Notation "x <- m ;; k" := (Js.bind m (fun x => k))
  (at level 100, m at next level, right associativity) : outcome_scope.
Notation "' p <- m ;; k" := (Js.bind m (fun p => k))
  (at level 100, p pattern, m at next level, right associativity) : outcome_scope.

(* ===================================================================== *)
(** ** Bitmask primitives ([validation/bitmask.ts]) *)
(* ===================================================================== *)

Definition valueToBitmask (value : Z) : Z :=
  if (value <=? 0) || (value >? 31) then 0
  else Js.shl 1 value.

Definition valuesFromBitmask (bitmask : Z) : list Z :=
  filter (fun value => negb (Js.and bitmask (Js.shl 1 value) =? 0))
         (map Z.of_nat (seq 1 31)).

Definition hasBit (bitmask value : Z) : bool :=
  if (value <=? 0) || (value >? 31) then false
  else negb (Js.and bitmask (Js.shl 1 value) =? 0).

Definition addBit (bitmask value : Z) : Z :=
  if (value <=? 0) || (value >? 31) then bitmask
  else Js.or bitmask (Js.shl 1 value).

Definition removeBit (bitmask value : Z) : Z :=
  if (value <=? 0) || (value >? 31) then bitmask
  else Js.and bitmask (Js.not (Js.shl 1 value)).

Definition countBits (bitmask : Z) : Z :=
  fold_left
    (fun count value =>
       if negb (Js.and bitmask (Js.shl 1 value) =? 0) then count + 1 else count)
    (map Z.of_nat (seq 1 31)) 0.

Definition createFullBitmask (size : Z) : outcome Z :=
  if (size <=? 0) || (size >? 31) then
    Throw (Error ("不支持的网格尺寸: " ++ Js.string_of_Z size ++ "，最大支持 31")%string)
  else
    Ret (Js.shl 1 (size + 1) - 2).

(* ===================================================================== *)
(** ** Grid model ([types/grid.ts], [types/region.ts], [types/validation.ts]) *)
(* ===================================================================== *)

Inductive HighlightType :=
| HL_selected | HL_related_peer | HL_related_value | HL_error
| HL_error_source | HL_region | HL_hint.

Inductive AnimationState := Anim_changed | Anim_cleared.

(** [notes] is a [Set<number>], kept in insertion order. *)
Record CellState := mkCell {
  value : Z;
  isPuzzle : bool;
  notes : list Z;
  error : option bool;
  highlight : option HighlightType;
  animationState : option AnimationState
}.

Definition Grid := list (list CellState).

Definition Coord := (Z * Z)%type.

Inductive RegionType :=
| RT_row | RT_column | RT_block | RT_diagonal
| RT_cage | RT_jigsaw | RT_window | RT_custom.

Record RegionProperties := mkProps {
  sum : option Z;
  color : option string;
  label : option string
}.

Record Region := mkRegion {
  id : string;
  type : RegionType;
  cells : list Coord;
  properties : option RegionProperties
}.

(** [region.properties?.sum] *)
Definition region_sum (region : Region) : option Z :=
  match properties region with
  | Some p => sum p
  | None => None
  end.

Record ValidationResult := mkValidation {
  isValid : bool;
  errorCells : list Coord;
  conflictSources : option (list Coord);
  errorMessages : option (list string)
}.

(** Array length as a number. *)
Definition len {A} (l : list A) : Z := Z.of_nat (List.length l).

(** [a[i]]: [None] stands for [undefined]. *)
Definition nth_Z {A} (l : list A) (i : Z) : option A :=
  if i <? 0 then None else nth_error l (Z.to_nat i).

(** [grid[row][col]] followed by a property read: reading a property of
    [undefined] (missing row or missing cell) throws a TypeError. *)
Definition cellAt (grid : Grid) (row col : Z) : outcome CellState :=
  match nth_Z grid row with
  | None => Throw TypeError
  | Some r =>
      match nth_Z r col with
      | None => Throw TypeError
      | Some c => Ret c
      end
  end.

Definition coord_eqb (a b : Coord) : bool :=
  (fst a =? fst b) && (snd a =? snd b).

(** [array.map((x, index) => ...)] *)
Fixpoint mapi_from {A B} (i : Z) (f : Z -> A -> B) (l : list A) : list B :=
  match l with
  | [] => []
  | x :: xs => f i x :: mapi_from (i + 1) f xs
  end.

Definition mapi {A B} (f : Z -> A -> B) (l : list A) : list B := mapi_from 0 f l.

(** [for (const x of xs) { acc = body(acc, x) }] where the body may throw. *)
Fixpoint foldM {A S} (body : S -> A -> outcome S) (xs : list A) (acc : S)
  : outcome S :=
  match xs with
  | [] => Ret acc
  | x :: rest =>
      match body acc x with
      | Ret acc' => foldM body rest acc'
      | Throw e => Throw e
      end
  end.

(** [xs.map(f)] where [f] may throw. *)
Fixpoint mapM {A B} (f : A -> outcome B) (xs : list A) : outcome (list B) :=
  match xs with
  | [] => Ret []
  | x :: rest =>
      match f x with
      | Ret y =>
          match mapM f rest with
          | Ret ys => Ret (y :: ys)
          | Throw e => Throw e
          end
      | Throw e => Throw e
      end
  end.

(** [xs.every(p)]: stops at the first element that fails. *)
Fixpoint everyM {A} (p : A -> outcome bool) (xs : list A) : outcome bool :=
  match xs with
  | [] => Ret true
  | x :: rest =>
      match p x with
      | Ret true => everyM p rest
      | Ret false => Ret false
      | Throw e => Throw e
      end
  end.

(* ===================================================================== *)
(** ** Region validation ([validation/standard.ts]) *)
(* ===================================================================== *)

(** A [Map<number, Array<[number, number]>>]: entries in insertion order. *)
Definition PosMap := list (Z * list Coord).

Fixpoint Map_has (m : PosMap) (k : Z) : bool :=
  match m with
  | [] => false
  | (k', _) :: rest => (k' =? k) || Map_has rest k
  end.

Fixpoint Map_get (m : PosMap) (k : Z) : option (list Coord) :=
  match m with
  | [] => None
  | (k', v) :: rest => if k' =? k then Some v else Map_get rest k
  end.

(** [m.set(k, v)]: an existing key keeps its place, a new key goes last. *)
Fixpoint Map_set (m : PosMap) (k : Z) (v : list Coord) : PosMap :=
  match m with
  | [] => [(k, v)]
  | (k', v') :: rest =>
      if k' =? k then (k, v) :: rest else (k', v') :: Map_set rest k v
  end.

(** One iteration of the collecting loop of [checkDuplicatesBitmask]; the
    state is [(valuePositions, usedValues)]. *)
Definition checkDuplicates_step (grid : Grid) (st : PosMap * Z) (coord : Coord)
  : outcome (PosMap * Z) :=
  let '(valuePositions, usedValues) := st in
  let row := fst coord in
  let col := snd coord in
  match cellAt grid row col with
  | Throw e => Throw e
  | Ret cell =>
      let value := value cell in
      if value =? 0 then Ret (valuePositions, usedValues)
      else
        let valuePositions :=
          if negb (Map_has valuePositions value)
          then Map_set valuePositions value []
          else valuePositions in
        let valuePositions :=
          match Map_get valuePositions value with
          | Some positions =>
              Map_set valuePositions value (positions ++ [(row, col)])
          | None => valuePositions
          end in
        let valueMask := valueToBitmask value in
        let usedValues :=
          if negb (Js.and usedValues valueMask =? 0) then usedValues
          else Js.or usedValues valueMask in
        Ret (valuePositions, usedValues)
  end.

Record Duplicates := mkDuplicates {
  duplicates : list Coord;
  sources : list Coord
}.

(** The second loop of [checkDuplicatesBitmask], over the map entries. *)
Fixpoint collectDuplicates (entries : PosMap) (acc : Duplicates) : Duplicates :=
  match entries with
  | [] => acc
  | (_, positions) :: rest =>
      if len positions >? 1 then
        match positions with
        | source :: _ =>
            collectDuplicates rest
              (mkDuplicates (duplicates acc ++ positions) (sources acc ++ [source]))
        | [] => collectDuplicates rest acc
        end
      else collectDuplicates rest acc
  end.

Definition checkDuplicatesBitmask (grid : Grid) (cellCoords : list Coord)
  : outcome Duplicates :=
  match foldM (checkDuplicates_step grid) cellCoords ([], 0) with
  | Throw e => Throw e
  | Ret (valuePositions, _) =>
      Ret (collectDuplicates valuePositions (mkDuplicates [] []))
  end.

Definition validateRegionBitmask (grid : Grid) (region : Region)
  : outcome ValidationResult :=
  match checkDuplicatesBitmask grid (cells region) with
  | Throw e => Throw e
  | Ret d =>
      Ret (mkValidation
             (len (duplicates d) =? 0)
             (duplicates d)
             (Some (sources d))
             (Some (if len (duplicates d) >? 0
                    then [("区域 " ++ id region ++ " 中存在 "
                           ++ Js.string_of_Z (len (duplicates d))
                           ++ " 个重复单元格")%string]
                    else [])))
  end.

Definition validateSum (grid : Grid) (region : Region) : outcome ValidationResult :=
  match region_sum region with
  | None => Ret (mkValidation true [] None None)
  | Some expectedSum =>
      match everyM (fun rc => match cellAt grid (fst rc) (snd rc) with
                              | Ret c => Ret (negb (value c =? 0))
                              | Throw e => Throw e
                              end) (cells region) with
      | Throw e => Throw e
      | Ret false => Ret (mkValidation true [] None None)
      | Ret true =>
          match foldM (fun actualSum rc =>
                         match cellAt grid (fst rc) (snd rc) with
                         | Ret c => Ret (actualSum + value c)
                         | Throw e => Throw e
                         end) (cells region) 0 with
          | Throw e => Throw e
          | Ret actualSum =>
              let isValid := actualSum =? expectedSum in
              Ret (mkValidation
                     isValid
                     (if isValid then [] else cells region)
                     None
                     (Some (if isValid then []
                            else [("总和错误: 期望 " ++ Js.string_of_Z expectedSum
                                   ++ ", 实际 " ++ Js.string_of_Z actualSum)%string])))
          end
      end
  end.

(** The inner loop shared by [isValidMoveBitmask] and
    [getCandidatesForCellBitmask]: the bitmask of the values used in
    [region], the cell [(row, col)] itself left out. *)
Definition usedValuesExcept (grid : Grid) (row col : Z) (region : Region)
  : outcome Z :=
  foldM (fun usedValues rc =>
           if coord_eqb rc (row, col) then Ret usedValues
           else
             match cellAt grid (fst rc) (snd rc) with
             | Throw e => Throw e
             | Ret c =>
                 if negb (value c =? 0)
                 then Ret (Js.or usedValues (valueToBitmask (value c)))
                 else Ret usedValues
             end) (cells region) 0.

(** [regions.filter(region => region.cells.some(([r, c]) => r === row && c === col))] *)
Definition regionsContaining (regions : list Region) (row col : Z) : list Region :=
  filter (fun region => existsb (fun rc => coord_eqb rc (row, col)) (cells region))
         regions.

Fixpoint isValidMove_loop (grid : Grid) (row col val : Z) (rs : list Region)
  : outcome bool :=
  match rs with
  | [] => Ret true
  | region :: rest =>
      match usedValuesExcept grid row col region with
      | Throw e => Throw e
      | Ret usedValues =>
          if negb (Js.and usedValues (valueToBitmask val) =? 0)
          then Ret false
          else isValidMove_loop grid row col val rest
      end
  end.

Definition isValidMoveBitmask (grid : Grid) (row col val : Z) (regions : list Region)
  : outcome bool :=
  if val =? 0 then Ret true
  else
    let relevantRegions := regionsContaining regions row col in
    isValidMove_loop grid row col val relevantRegions.

(* ===================================================================== *)
(** ** Collecting validation results ([validation/collector.ts]) *)
(* ===================================================================== *)

(** Coordinates pass through a [Set<string>] keyed by ["row,col"] and back:
    the first occurrence of each coordinate is kept, in order. *)
Fixpoint dedupe (seen : list Coord) (l : list Coord) : list Coord :=
  match l with
  | [] => []
  | x :: rest =>
      if existsb (coord_eqb x) seen then dedupe seen rest
      else x :: dedupe (x :: seen) rest
  end.

Definition mergeValidationResults (results : list ValidationResult)
  : ValidationResult :=
  match results with
  | [] => mkValidation true [] None None
  | _ =>
      let isValid := forallb isValid results in
      let errorCells := dedupe [] (flat_map errorCells results) in
      let conflictSources :=
        dedupe [] (flat_map (fun r => match conflictSources r with
                                      | Some l => l
                                      | None => []
                                      end) results) in
      let errorMessages :=
        flat_map (fun r => match errorMessages r with
                           | Some l => l
                           | None => []
                           end) results in
      mkValidation
        isValid
        errorCells
        (if len conflictSources >? 0 then Some conflictSources else None)
        (if len errorMessages >? 0 then Some errorMessages else None)
  end.

Definition validateRegion (grid : Grid) (region : Region) : outcome ValidationResult :=
  match validateRegionBitmask grid region with
  | Throw e => Throw e
  | Ret duplicateResult =>
      match region_sum region with
      | Some _ =>
          match validateSum grid region with
          | Throw e => Throw e
          | Ret sumResult => Ret (mergeValidationResults [duplicateResult; sumResult])
          end
      | None => Ret duplicateResult
      end
  end.

Definition validateAllRegions (grid : Grid) (regions : list Region)
  : outcome ValidationResult :=
  match mapM (validateRegion grid) regions with
  | Throw e => Throw e
  | Ret results => Ret (mergeValidationResults results)
  end.

(* ===================================================================== *)
(** ** Configuration and variant rules ([types/engine.ts], [variants/]) *)
(* ===================================================================== *)

(** What a rule's methods read of the configuration they receive. The rule
    list itself is left out, which keeps the types well-founded. *)
Record ConfigView := mkView {
  v_size : Z;
  v_blockWidth : Z;
  v_blockHeight : Z;
  v_regions : list Region
}.

(** A variant rule; optional methods are [option]s. *)
Record VariantRule := mkRule {
  rule_id : string;
  rule_name : string;
  getExcludedCandidates : option (Grid -> Z -> Z -> ConfigView -> outcome (list Z));
  validate : option (Grid -> ConfigView -> outcome ValidationResult)
}.

Record SudokuConfig := mkConfig {
  size : Z;
  blockWidth : Z;
  blockHeight : Z;
  regions : list Region;
  variantRules : list VariantRule
}.

Definition view (config : SudokuConfig) : ConfigView :=
  mkView (size config) (blockWidth config) (blockHeight config) (regions config).

(** [for (let i = 0; i < n; i++)] *)
Definition range0 (n : Z) : list Z := map Z.of_nat (seq 0 (Z.to_nat n)).

(** [for (let i = 1; i <= n; i++)] *)
Definition range1 (n : Z) : list Z := map Z.of_nat (seq 1 (Z.to_nat n)).

(** [set.add(x)] on an insertion-ordered set. *)
Definition Set_add (s : list Z) (x : Z) : list Z :=
  if existsb (Z.eqb x) s then s else s ++ [x].

Definition Set_has (s : list Z) (x : Z) : bool := existsb (Z.eqb x) s.

Module StandardVariant.

Definition getExcludedCandidates (grid : Grid) (row col : Z) (config : ConfigView)
  : outcome (list Z) := Ret [].

Definition validate (grid : Grid) (config : ConfigView) : outcome ValidationResult :=
  validateAllRegions grid
    (filter (fun region => match type region with
                           | RT_row | RT_column | RT_block => true
                           | _ => false
                           end) (v_regions config)).

Definition rule : VariantRule :=
  mkRule "standard" "标准数独" (Some getExcludedCandidates) (Some validate).

End StandardVariant.

Module DiagonalVariant.

Definition getRegions (config : ConfigView) : list Region :=
  let size := v_size config in
  [ mkRegion "diagonal-main" RT_diagonal
      (map (fun i => (i, i)) (range0 size))
      (Some (mkProps None (Some "#FFD700") (Some "主对角线")));
    mkRegion "diagonal-anti" RT_diagonal
      (map (fun i => (i, size - 1 - i)) (range0 size))
      (Some (mkProps None (Some "#FFA500") (Some "副对角线"))) ].

Definition validate (grid : Grid) (config : ConfigView) : outcome ValidationResult :=
  let diagonalRegions :=
    filter (fun region => match type region with RT_diagonal => true | _ => false end)
           (v_regions config) in
  let diagonalRegions :=
    if len diagonalRegions =? 0 then diagonalRegions ++ getRegions config
    else diagonalRegions in
  validateAllRegions grid diagonalRegions.

Definition getExcludedCandidates (grid : Grid) (row col : Z) (config : ConfigView)
  : outcome (list Z) :=
  let size := v_size config in
  let isOnMainDiagonal := row =? col in
  let isOnAntiDiagonal := row + col =? size - 1 in
  if negb isOnMainDiagonal && negb isOnAntiDiagonal then Ret []
  else
    match
      (if isOnMainDiagonal then
         foldM (fun excluded i =>
                  if negb (i =? row) then
                    match cellAt grid i i with
                    | Throw e => Throw e
                    | Ret c => if value c >? 0 then Ret (Set_add excluded (value c))
                               else Ret excluded
                    end
                  else Ret excluded) (range0 size) []
       else Ret [])
    with
    | Throw e => Throw e
    | Ret excluded =>
        if isOnAntiDiagonal then
          foldM (fun excluded i =>
                   if negb (i =? row) then
                     match cellAt grid i (size - 1 - i) with
                     | Throw e => Throw e
                     | Ret c => if value c >? 0 then Ret (Set_add excluded (value c))
                                else Ret excluded
                     end
                   else Ret excluded) (range0 size) excluded
        else Ret excluded
    end.

Definition rule : VariantRule :=
  mkRule "diagonal" "对角线数独" (Some getExcludedCandidates) (Some validate).

End DiagonalVariant.

(* ===================================================================== *)
(** ** Candidates ([candidates/optimized.ts]) *)
(* ===================================================================== *)

(** The loop over the variant rules of [getCandidatesForCellBitmask]. *)
Fixpoint applyExclusions (grid : Grid) (row col : Z) (config : SudokuConfig)
  (rules : list VariantRule) (candidatesBitmask : Z) : outcome Z :=
  match rules with
  | [] => Ret candidatesBitmask
  | rule :: rest =>
      match getExcludedCandidates rule with
      | Some f =>
          match f grid row col (view config) with
          | Throw e => Throw e
          | Ret excludedByRule =>
              applyExclusions grid row col config rest
                (fold_left (fun mask excludedValue =>
                              Js.and mask (Js.not (valueToBitmask excludedValue)))
                           excludedByRule candidatesBitmask)
          end
      | None => applyExclusions grid row col config rest candidatesBitmask
      end
  end.

Definition getCandidatesForCellBitmask (grid : Grid) (row col : Z)
  (config : SudokuConfig) : outcome (list Z) :=
  match cellAt grid row col with
  | Throw e => Throw e
  | Ret cell =>
      if negb (value cell =? 0) then Ret []
      else
        let relevantRegions := regionsContaining (regions config) row col in
        match createFullBitmask (size config) with
        | Throw e => Throw e
        | Ret full =>
            match foldM (fun candidatesBitmask region =>
                           match usedValuesExcept grid row col region with
                           | Throw e => Throw e
                           | Ret usedValues =>
                               Ret (Js.and candidatesBitmask (Js.not usedValues))
                           end) relevantRegions full with
            | Throw e => Throw e
            | Ret candidatesBitmask =>
                match applyExclusions grid row col config (variantRules config)
                        candidatesBitmask with
                | Throw e => Throw e
                | Ret candidatesBitmask => Ret (valuesFromBitmask candidatesBitmask)
                end
            end
        end
  end.

(* ===================================================================== *)
(** ** Grid creation and access ([grid/create.ts], [grid/access.ts]) *)
(* ===================================================================== *)

Definition createEmptyCell : CellState :=
  mkCell 0 false [] (Some false) None None.

Definition createEmptyGrid (size : Z) : Grid :=
  map (fun _ => map (fun _ => createEmptyCell) (range0 size)) (range0 size).

(** [{ ...cell, notes: new Set(cell.notes) }] *)
Definition cloneCell (cell : CellState) : CellState :=
  mkCell (value cell) (isPuzzle cell) (notes cell) (error cell) (highlight cell)
         (animationState cell).

Definition cloneGrid (grid : Grid) : Grid := map (map cloneCell) grid.

(** [grid[0]?.length || 0] *)
Definition firstRowLength (grid : Grid) : Z :=
  match grid with
  | [] => 0
  | r :: _ => len r
  end.

Definition isValidPosition (grid : Grid) (row col : Z) : bool :=
  (row >=? 0) && (row <? len grid) && (col >=? 0) && (col <? firstRowLength grid).

Definition setCellValue (grid : Grid) (row col val : Z) (isEditingPuzzle : bool)
  : outcome Grid :=
  if negb (isValidPosition grid row col) then Ret grid
  else
    match cellAt grid row col with
    | Throw e => Throw e
    | Ret cell =>
        if isPuzzle cell && negb isEditingPuzzle then Ret grid
        else
          Ret (mapi (fun rIndex r =>
                       mapi (fun cIndex c =>
                               if (rIndex =? row) && (cIndex =? col) then
                                 mkCell val
                                        (isEditingPuzzle && negb (val =? 0))
                                        []
                                        (error c)
                                        (highlight c)
                                        (Some Anim_changed)
                               else cloneCell c) r) grid)
    end.

(** [grid[row][col].value = v; grid[row][col].isPuzzle = p] on a private copy. *)
Definition assignCell (grid : Grid) (row col : Z) (f : CellState -> CellState)
  : outcome Grid :=
  match cellAt grid row col with
  | Throw e => Throw e
  | Ret _ =>
      Ret (mapi (fun rIndex r =>
                   mapi (fun cIndex c =>
                           if (rIndex =? row) && (cIndex =? col) then f c else c) r)
                grid)
  end.

Definition setValue (v : Z) (c : CellState) : CellState :=
  mkCell v (isPuzzle c) (notes c) (error c) (highlight c) (animationState c).

Definition setIsPuzzle (p : bool) (c : CellState) : CellState :=
  mkCell (value c) p (notes c) (error c) (highlight c) (animationState c).

(* ===================================================================== *)
(** ** Stateful code: a state-and-exception monad *)
(* ===================================================================== *)

(** A computation over a mutable world [W]: it returns or throws, and the
    world keeps every mutation made before the throw. *)
Definition M (W A : Type) : Type := W -> outcome A * W.

Definition retM {W A} (a : A) : M W A := fun w => (Ret a, w).

Definition throwM {W A} (e : exn) : M W A := fun w => (Throw e, w).

Definition bindM {W A B} (m : M W A) (k : A -> M W B) : M W B :=
  fun w =>
    match m w with
    | (Ret a, w') => k a w'
    | (Throw e, w') => (Throw e, w')
    end.

(** A pure computation that may throw. *)
Definition liftM {W A} (o : outcome A) : M W A := fun w => (o, w).

Definition modifyM {W} (f : W -> W) : M W unit := fun w => (Ret tt, f w).

Definition getsM {W A} (f : W -> A) : M W A := fun w => (Ret (f w), w).

(** [try { body } catch (error) { handler(error) } finally { finalizer }] *)
Definition try_catch_finally {W A} (body : M W A) (handler : exn -> M W A)
  (finalizer : M W unit) : M W A :=
  fun w =>
    let '(o1, w1) := body w in
    let '(o2, w2) := match o1 with
                     | Ret a => (Ret a, w1)
                     | Throw e => handler e w1
                     end in
    let '(o3, w3) := finalizer w2 in
    match o3 with
    | Throw e => (Throw e, w3)
    | Ret _ => (o2, w3)
    end.

Declare Scope M_scope.
Delimit Scope M_scope with M.
Notation "x <-- m ;; k" := (bindM m (fun x => k))
  (at level 100, m at next level, right associativity) : M_scope.
Notation "m ;;; k" := (bindM m (fun _ => k))
  (at level 100, right associativity) : M_scope.

(* ===================================================================== *)
(** ** Solver types ([types/solver.ts]) *)
(* ===================================================================== *)

Inductive DifficultyLevel := EASY | MEDIUM | HARD | EXPERT.

Record SolverStats := mkSolverStats {
  timeMs : Z;
  backtracks : Z;
  assignments : Z;
  candidateCalculations : Z;
  steps : Z
}.

(** The arguments of a [SolveCallback]. *)
Inductive SolveEvent :=
| Ev_solution (solution : Grid)
| Ev_step (row col val : Z).

(** A callback returns [true], [false] or nothing ([None]), or throws. It is
    given the number of times it has been called before. *)
Definition SolveCallback := nat -> SolveEvent -> outcome (option bool).

Inductive Strategy := Fastest | Humanlike.

Record SolverOptions := mkSolverOptions {
  o_findAllSolutions : option bool;
  o_maxSolutions : option Z;
  o_timeoutMs : option Z;
  o_collectStats : option bool;
  o_onProgress : option SolveCallback;
  o_strategy : option Strategy
}.

Inductive SolverFinishReason :=
| FR_solved | FR_no_solution | FR_timeout | FR_interrupted
| FR_interrupted_with_solution | FR_error.

Record SolverResult := mkSolverResult {
  success : bool;
  r_solutions : list Grid;
  r_stats : option SolverStats;
  finishReason : SolverFinishReason;
  failReason : option string;
  difficulty : option DifficultyLevel
}.

(* ===================================================================== *)
(** ** Backtracking context ([solvers/backtracking.ts]) *)
(* ===================================================================== *)

(** The part of the [BacktrackingContext] that the search mutates, with the
    state captured by the [getCandidatesForCell] closure (its cache; the
    statistics object is the context's) and the two oracle counters. *)
Record World := mkWorld {
  solutions : list Grid;
  interrupted : bool;
  stats : SolverStats;
  recursionCounter : option Z;
  candidatesCache : list (Coord * list Z);
  clockReads : nat;
  progressCalls : nat
}.

(** The part of the [BacktrackingContext] that the search only reads, with
    the clock behind [Date.now()]. *)
Record Context := mkContext {
  config : SudokuConfig;
  onProgress : option SolveCallback;
  findAllSolutions : bool;
  maxSolutions : Z;
  timeoutTimestamp : option Z;
  getCandidatesForCell : Z -> Z -> M World (list Z);
  now : nat -> Z
}.

Definition set_solutions (v : list Grid) (w : World) : World :=
  mkWorld v (interrupted w) (stats w) (recursionCounter w) (candidatesCache w)
          (clockReads w) (progressCalls w).

Definition set_interrupted (v : bool) (w : World) : World :=
  mkWorld (solutions w) v (stats w) (recursionCounter w) (candidatesCache w)
          (clockReads w) (progressCalls w).

Definition set_stats (v : SolverStats) (w : World) : World :=
  mkWorld (solutions w) (interrupted w) v (recursionCounter w) (candidatesCache w)
          (clockReads w) (progressCalls w).

Definition set_recursionCounter (v : option Z) (w : World) : World :=
  mkWorld (solutions w) (interrupted w) (stats w) v (candidatesCache w)
          (clockReads w) (progressCalls w).

Definition set_candidatesCache (v : list (Coord * list Z)) (w : World) : World :=
  mkWorld (solutions w) (interrupted w) (stats w) (recursionCounter w) v
          (clockReads w) (progressCalls w).

Definition set_clockReads (v : nat) (w : World) : World :=
  mkWorld (solutions w) (interrupted w) (stats w) (recursionCounter w)
          (candidatesCache w) v (progressCalls w).

Definition set_progressCalls (v : nat) (w : World) : World :=
  mkWorld (solutions w) (interrupted w) (stats w) (recursionCounter w)
          (candidatesCache w) (clockReads w) v.

Definition incr_backtracks (w : World) : World :=
  let s := stats w in
  set_stats (mkSolverStats (timeMs s) (backtracks s + 1) (assignments s)
                           (candidateCalculations s) (steps s)) w.

Definition incr_assignments (w : World) : World :=
  let s := stats w in
  set_stats (mkSolverStats (timeMs s) (backtracks s) (assignments s + 1)
                           (candidateCalculations s) (steps s)) w.

Definition incr_candidateCalculations (w : World) : World :=
  let s := stats w in
  set_stats (mkSolverStats (timeMs s) (backtracks s) (assignments s)
                           (candidateCalculations s + 1) (steps s)) w.

Definition set_timeMs (t : Z) (w : World) : World :=
  let s := stats w in
  set_stats (mkSolverStats t (backtracks s) (assignments s)
                           (candidateCalculations s) (steps s)) w.

(** [Date.now()] *)
Definition dateNow (clock : nat -> Z) : M World Z :=
  fun w => (Ret (clock (clockReads w)), set_clockReads (S (clockReads w)) w).

(** [context.onProgress(type, data)] *)
Definition callProgress (cb : SolveCallback) (ev : SolveEvent)
  : M World (option bool) :=
  fun w => (cb (progressCalls w) ev, set_progressCalls (S (progressCalls w)) w).

(** [shouldContinue === false] *)
Definition is_false (r : option bool) : bool :=
  match r with
  | Some false => true
  | _ => false
  end.

Definition TIMEOUT_CHECK_INTERVAL : Z := 100.

(** The prologue shared by both solvers: bump the recursion counter, then
    the amortised deadline check. Returns [true] when the deadline has
    passed. [Date.now()] is only read when the first two conjuncts hold. *)
Definition bumpAndCheckTimeout (context : Context) : M World bool :=
  (_ <-- modifyM (fun w =>
            match recursionCounter w with
            | None => set_recursionCounter (Some 0) w
            | Some n => set_recursionCounter (Some (n + 1)) w
            end) ;;
   counter <-- getsM recursionCounter ;;
   match timeoutTimestamp context, counter with
   | Some ts, Some n =>
       if negb (ts =? 0) && (Z.rem n TIMEOUT_CHECK_INTERVAL =? 0) then
         (t <-- dateNow (now context) ;;
          retM (t >? ts))
       else retM false
   | _, _ => retM false
   end)%M.

(* ===================================================================== *)
(** ** Cell selection heuristics ([solvers/heuristics.ts]) *)
(* ===================================================================== *)

Record CellCandidateInfo := mkInfo {
  i_row : Z;
  i_col : Z;
  i_candidates : list Z;
  i_count : Z;
  i_constraintDegree : option Z
}.

(** The cells of one row of [getAllEmptyCellsCandidates]. *)
Fixpoint emptyCellsOfRow (calcCandidates : Z -> Z -> M World (list Z))
  (row col : Z) (cellsOfRow : list CellState) : M World (list CellCandidateInfo) :=
  match cellsOfRow with
  | [] => retM []
  | cell :: rest =>
      if value cell =? 0 then
        (candidates <-- calcCandidates row col ;;
         more <-- emptyCellsOfRow calcCandidates row (col + 1) rest ;;
         retM (mkInfo row col candidates (len candidates) None :: more))%M
      else emptyCellsOfRow calcCandidates row (col + 1) rest
  end.

Fixpoint emptyCellsFrom (calcCandidates : Z -> Z -> M World (list Z))
  (row : Z) (rows : Grid) : M World (list CellCandidateInfo) :=
  match rows with
  | [] => retM []
  | r :: rest =>
      (here <-- emptyCellsOfRow calcCandidates row 0 r ;;
       more <-- emptyCellsFrom calcCandidates (row + 1) rest ;;
       retM (here ++ more))%M
  end.

Definition getAllEmptyCellsCandidates (grid : Grid) (config : SudokuConfig)
  (calcCandidates : Z -> Z -> M World (list Z)) : M World (list CellCandidateInfo) :=
  emptyCellsFrom calcCandidates 0 grid.

(** [Array.prototype.sort] is stable: elements that compare equal keep their
    order. [cmp a b <= 0] reads "a may stay before b". *)
Fixpoint insertSorted {A} (cmp : A -> A -> Z) (x : A) (l : list A) : list A :=
  match l with
  | [] => [x]
  | y :: ys => if cmp x y <=? 0 then x :: y :: ys else y :: insertSorted cmp x ys
  end.

Fixpoint stableSort {A} (cmp : A -> A -> Z) (l : list A) : list A :=
  match l with
  | [] => []
  | x :: xs => insertSorted cmp x (stableSort cmp xs)
  end.

(** Distinct coordinates, as counted by a [Set<string>] of ["r,c"] keys. *)
Definition distinctCount (l : list Coord) : Z := len (dedupe [] l).

Definition calculateConstraintDegree (grid : Grid) (config : SudokuConfig)
  (row col : Z) : outcome Z :=
  if len (regions config) =? 0 then Ret 0
  else
    let regions := regionsContaining (regions config) row col in
    match
      foldM (fun affectedCells region =>
               foldM (fun affectedCells rc =>
                        if negb (coord_eqb rc (row, col)) then
                          match cellAt grid (fst rc) (snd rc) with
                          | Throw e => Throw e
                          | Ret c => if value c =? 0 then Ret (affectedCells ++ [rc])
                                     else Ret affectedCells
                          end
                        else Ret affectedCells) (cells region) affectedCells)
            regions []
    with
    | Throw e => Throw e
    | Ret affectedCells => Ret (distinctCount affectedCells)
    end.

Definition degreeOrZero (c : CellCandidateInfo) : Z :=
  match i_constraintDegree c with
  | Some d => d
  | None => 0
  end.

Definition breakTiesByDegreeHeuristic (grid : Grid) (config : SudokuConfig)
  (tiedCells : list CellCandidateInfo) : outcome CellCandidateInfo :=
  match mapM (fun cell =>
                match calculateConstraintDegree grid config (i_row cell) (i_col cell) with
                | Throw e => Throw e
                | Ret d => Ret (mkInfo (i_row cell) (i_col cell) (i_candidates cell)
                                       (i_count cell) (Some d))
                end) tiedCells with
  | Throw e => Throw e
  | Ret tiedCells =>
      let tiedCells :=
        stableSort (fun a b => degreeOrZero b - degreeOrZero a) tiedCells in
      match tiedCells with
      | selected :: _ => Ret selected
      | [] => Throw TypeError
      end
  end.

Definition selectCellWithMRV (grid : Grid) (config : SudokuConfig)
  (calcCandidates : Z -> Z -> M World (list Z)) : M World (option CellCandidateInfo) :=
  (emptyCells <-- getAllEmptyCellsCandidates grid config calcCandidates ;;
   match emptyCells with
   | [] => retM None
   | _ =>
       let emptyCells := stableSort (fun a b => i_count a - i_count b) emptyCells in
       match emptyCells with
       | [] => throwM TypeError
       | first :: _ =>
           if i_count first =? 0 then retM (Some first)
           else
             let minCount := i_count first in
             let mrvCells := filter (fun cell => i_count cell =? minCount) emptyCells in
             match mrvCells with
             | [selected] => retM (Some selected)
             | _ =>
                 (selected <-- liftM (breakTiesByDegreeHeuristic grid config mrvCells) ;;
                  retM (Some selected))
             end
       end
   end)%M.

(* ===================================================================== *)
(** ** The two backtracking searches ([solvers/backtracking.ts]) *)
(* ===================================================================== *)

(** Recording a solution: push a clone, tell the callback. Returns [true]
    when the callback asked to stop (the context is then interrupted). *)
Definition recordSolution (context : Context) (grid : Grid) : M World bool :=
  (let solution := cloneGrid grid in
   _ <-- modifyM (fun w => set_solutions (solutions w ++ [solution]) w) ;;
   match onProgress context with
   | Some cb =>
       shouldContinue <-- callProgress cb (Ev_solution solution) ;;
       if is_false shouldContinue then
         (_ <-- modifyM (set_interrupted true) ;; retM true)
       else retM false
   | None => retM false
   end)%M.

(** Telling the callback about an assignment. Returns [true] when the
    callback asked to stop. *)
Definition notifyStep (context : Context) (row col val : Z) : M World bool :=
  match onProgress context with
  | Some cb =>
      (shouldContinue <-- callProgress cb (Ev_step row col val) ;;
       if is_false shouldContinue then
         (_ <-- modifyM (set_interrupted true) ;; retM true)
       else retM false)%M
  | None => retM false
  end.

(** [context.interrupted || context.solutions.length >= context.maxSolutions] *)
Definition mustStop (context : Context) (w : World) : bool :=
  interrupted w || (len (solutions w) >=? maxSolutions context).

(** [stack] is the depth of call stack left; a call made with none left
    throws the engine's RangeError. *)
Fixpoint solveWithBacktracking (stack : nat) (context : Context) (grid : Grid)
  {struct stack} : M World bool :=
  match stack with
  | O => throwM RangeError
  | S stack' =>
      (timedOut <-- bumpAndCheckTimeout context ;;
       if timedOut then retM false
       else
         isInterrupted <-- getsM interrupted ;;
         if isInterrupted then retM false
         else
           nextCell <-- selectCellWithMRV grid (config context)
                          (getCandidatesForCell context) ;;
           match nextCell with
           | None =>
               validation <-- liftM (validateAllRegions grid (regions (config context))) ;;
               if negb (isValid validation) then
                 (_ <-- modifyM incr_backtracks ;; retM false)
               else
                 stopped <-- recordSolution context grid ;;
                 if stopped then retM false
                 else
                   count <-- getsM (fun w => len (solutions w)) ;;
                   if count >=? maxSolutions context then retM true
                   else retM (negb (findAllSolutions context))
           | Some nextCell =>
               if len (i_candidates nextCell) =? 0 then
                 (_ <-- modifyM incr_backtracks ;; retM false)
               else
                 let row := i_row nextCell in
                 let col := i_col nextCell in
                 (fix tryCandidates (candidates : list Z) : M World bool :=
                    match candidates with
                    | [] => (_ <-- modifyM incr_backtracks ;; retM false)
                    | val :: rest =>
                        newGrid <-- liftM (setCellValue grid row col val false) ;;
                        _ <-- modifyM incr_assignments ;;
                        stopped <-- notifyStep context row col val ;;
                        if stopped then retM false
                        else
                          solved <-- solveWithBacktracking stack' context newGrid ;;
                          if solved && negb (findAllSolutions context) then retM true
                          else
                            stop <-- getsM (mustStop context) ;;
                            if stop then retM false
                            else tryCandidates rest
                    end) (i_candidates nextCell)
           end)%M
  end.

(** The scan for the first empty cell, rows then columns. *)
Fixpoint firstEmptyInRow (col : Z) (cellsOfRow : list CellState) : option Z :=
  match cellsOfRow with
  | [] => None
  | cell :: rest => if value cell =? 0 then Some col else firstEmptyInRow (col + 1) rest
  end.

Fixpoint firstEmptyFrom (row : Z) (rows : Grid) : option Coord :=
  match rows with
  | [] => None
  | r :: rest =>
      match firstEmptyInRow 0 r with
      | Some col => Some (row, col)
      | None => firstEmptyFrom (row + 1) rest
      end
  end.

Definition findFirstEmpty (grid : Grid) : option Coord := firstEmptyFrom 0 grid.

Fixpoint solveWithSimpleBacktracking (stack : nat) (context : Context) (grid : Grid)
  {struct stack} : M World bool :=
  match stack with
  | O => throwM RangeError
  | S stack' =>
      (timedOut <-- bumpAndCheckTimeout context ;;
       if timedOut then retM false
       else
         isInterrupted <-- getsM interrupted ;;
         if isInterrupted then retM false
         else
           validation <-- liftM (validateAllRegions grid (regions (config context))) ;;
           if negb (isValid validation) then
             (_ <-- modifyM incr_backtracks ;; retM false)
           else
             match findFirstEmpty grid with
             | None =>
                 validation <-- liftM (validateAllRegions grid (regions (config context))) ;;
                 if negb (isValid validation) then
                   (_ <-- modifyM incr_backtracks ;; retM false)
                 else
                   stopped <-- recordSolution context grid ;;
                   if stopped then retM false
                   else retM (negb (findAllSolutions context))
             | Some (row, col) =>
                 (fix tryNumbers (nums : list Z) : M World bool :=
                    match nums with
                    | [] => (_ <-- modifyM incr_backtracks ;; retM false)
                    | num :: rest =>
                        candidates <-- getCandidatesForCell context row col ;;
                        if negb (Set_has candidates num) then tryNumbers rest
                        else
                          newGrid <-- liftM (setCellValue grid row col num false) ;;
                          _ <-- modifyM incr_assignments ;;
                          stopped <-- notifyStep context row col num ;;
                          if stopped then retM false
                          else
                            solved <-- solveWithSimpleBacktracking stack' context newGrid ;;
                            if solved then retM true
                            else
                              stop <-- getsM (mustStop context) ;;
                              if stop then retM false
                              else tryNumbers rest
                    end) (range1 (size (config context)))
             end)%M
  end.

(* ===================================================================== *)
(** ** [solveSudoku] ([solvers/index.ts]) *)
(* ===================================================================== *)

Definition createDefaultSolverStats : SolverStats := mkSolverStats 0 0 0 0 0.

Fixpoint cache_get (cache : list (Coord * list Z)) (key : Coord) : option (list Z) :=
  match cache with
  | [] => None
  | (k, v) :: rest => if coord_eqb k key then Some v else cache_get rest key
  end.

Fixpoint cache_set (cache : list (Coord * list Z)) (key : Coord) (v : list Z)
  : list (Coord * list Z) :=
  match cache with
  | [] => [(key, v)]
  | (k, v') :: rest =>
      if coord_eqb k key then (key, v) :: rest else (k, v') :: cache_set rest key v
  end.

(** The loop of the [getCandidatesForCell] closure that tries every digit
    against the constraints. *)
Definition computeCandidates (grid : Grid) (config : SudokuConfig) (row col : Z)
  : outcome (list Z) :=
  foldM (fun candidates num =>
           match isValidMoveBitmask grid row col num (regions config) with
           | Throw e => Throw e
           | Ret true => Ret (Set_add candidates num)
           | Ret false => Ret candidates
           end) (range1 (size config)) [].

(** The [getCandidatesForCell] closure that [solveSudoku] puts in the
    context. It reads the grid that was passed to [solveSudoku]. *)
Definition candidatesClosure (grid : Grid) (config : SudokuConfig) (row col : Z)
  : M World (list Z) :=
  (_ <-- modifyM incr_candidateCalculations ;;
   cell <-- liftM (cellAt grid row col) ;;
   if negb (value cell =? 0) then retM []
   else
     cached <-- getsM (fun w => cache_get (candidatesCache w) (row, col)) ;;
     match cached with
     | Some cachedCandidates => retM cachedCandidates
     | None =>
         candidates <-- liftM (computeCandidates grid config row col) ;;
         _ <-- modifyM (fun w =>
                 set_candidatesCache (cache_set (candidatesCache w) (row, col) candidates) w) ;;
         retM candidates
     end)%M.

(** The state of a [solveSudoku] call: its [result] object and the context. *)
Definition SolveState := (SolverResult * World)%type.

Definition onWorld {A} (m : M World A) : M SolveState A :=
  fun s =>
    let '(o, w) := m (snd s) in (o, (fst s, w)).

Definition onResult (f : SolverResult -> SolverResult) : M SolveState unit :=
  fun s => (Ret tt, (f (fst s), snd s)).

Definition set_success (v : bool) (r : SolverResult) : SolverResult :=
  mkSolverResult v (r_solutions r) (r_stats r) (finishReason r) (failReason r)
                 (difficulty r).

Definition set_r_solutions (v : list Grid) (r : SolverResult) : SolverResult :=
  mkSolverResult (success r) v (r_stats r) (finishReason r) (failReason r)
                 (difficulty r).

Definition set_finishReason (v : SolverFinishReason) (r : SolverResult) : SolverResult :=
  mkSolverResult (success r) (r_solutions r) (r_stats r) v (failReason r)
                 (difficulty r).

Definition set_failReason (v : option string) (r : SolverResult) : SolverResult :=
  mkSolverResult (success r) (r_solutions r) (r_stats r) (finishReason r) v
                 (difficulty r).

Definition set_r_stats (v : option SolverStats) (r : SolverResult) : SolverResult :=
  mkSolverResult (success r) (r_solutions r) v (finishReason r) (failReason r)
                 (difficulty r).

Definition orDefault {A} (o : option A) (d : A) : A :=
  match o with
  | Some a => a
  | None => d
  end.

(** The context that [solveSudoku] builds. *)
Definition solverContext (clock : nat -> Z) (grid : Grid) (config : SudokuConfig)
  (options : SolverOptions) (startTime : Z) : Context :=
  let timeoutMs := orDefault (o_timeoutMs options) 30000 in
  mkContext
    config
    (o_onProgress options)
    (orDefault (o_findAllSolutions options) false)
    (orDefault (o_maxSolutions options) 1)
    (if negb (timeoutMs =? 0) then Some (startTime + timeoutMs) else None)
    (candidatesClosure grid config)
    clock.

(** [array[array.length - 1]] *)
Definition lastSolution (l : list Grid) : option Grid := nth_Z l (len l - 1).

(** [array.slice(0, -1)] *)
Definition dropLast {A} (l : list A) : list A := removelast l.

(** The body of the [try] block of [solveSudoku]. *)
Definition solveSudoku_try (stackLimit : nat) (context : Context) (grid : Grid)
  (strategy : Strategy) : M SolveState unit :=
  (let config := config context in
   initialValidation <-- liftM (validateAllRegions grid (regions config)) ;;
   if negb (isValid initialValidation) then
     _ <-- onResult (set_finishReason FR_no_solution) ;;
     onResult (set_failReason (Some "初始网格无效"))
   else
     let gridCopy := cloneGrid grid in
     solved <-- onWorld (match strategy with
                         | Fastest => solveWithBacktracking stackLimit context gridCopy
                         | Humanlike => solveWithSimpleBacktracking stackLimit context gridCopy
                         end) ;;
     found <-- onWorld (getsM solutions) ;;
     _ <-- onResult (set_r_solutions found) ;;
     wasInterrupted <-- onWorld (getsM interrupted) ;;
     if wasInterrupted then
       if len found >? 0 then
         match lastSolution found with
         | None => liftM (Throw TypeError)
         | Some last =>
             validation <-- liftM (validateAllRegions last (regions config)) ;;
             if isValid validation then
               _ <-- onResult (set_finishReason FR_interrupted_with_solution) ;;
               onResult (set_success true)
             else
               _ <-- onResult (set_r_solutions (dropLast found)) ;;
               _ <-- onResult (set_finishReason FR_interrupted) ;;
               onResult (set_success (len (dropLast found) >? 0))
         end
       else onResult (set_finishReason FR_interrupted)
     else
       timedOut <-- match timeoutTimestamp context with
                    | Some ts =>
                        if negb (ts =? 0) then
                          (t <-- onWorld (dateNow (now context)) ;; retM (t >? ts))
                        else retM false
                    | None => retM false
                    end ;;
       if timedOut then
         _ <-- (if len found >? 0 then
                  match lastSolution found with
                  | None => liftM (Throw TypeError)
                  | Some last =>
                      validation <-- liftM (validateAllRegions last (regions config)) ;;
                      onResult (set_success (isValid validation))
                  end
                else retM tt) ;;
         onResult (set_finishReason FR_timeout)
       else if len found >? 0 then
         _ <-- onResult (set_finishReason FR_solved) ;;
         onResult (set_success true)
       else onResult (set_finishReason FR_no_solution))%M.

(** The [catch] block: the message is computed first, and computing it
    throws when [String] cannot convert the caught value. *)
Definition solveSudoku_catch (error : exn) : M SolveState unit :=
  (errorMessage <-- liftM (errorMessageOf error) ;;
   _ <-- onResult (set_finishReason FR_error) ;;
   onResult (set_failReason (Some errorMessage)))%M.

(** The [finally] block: the statistics object is shared with the result. *)
Definition solveSudoku_finally (clock : nat -> Z) (collectStats : bool) (startTime : Z)
  : M SolveState unit :=
  (t <-- onWorld (dateNow clock) ;;
   _ <-- onWorld (modifyM (set_timeMs (t - startTime))) ;;
   finalStats <-- onWorld (getsM stats) ;;
   onResult (set_r_stats (if collectStats then Some finalStats else None)))%M.

Definition initialWorld : World :=
  mkWorld [] false createDefaultSolverStats (Some 0) [] 0 0.

(** [solveSudoku(grid, config, options)]; [clock] is the time source and
    [stackLimit] the depth of call stack available to the search. *)
Definition solveSudoku (clock : nat -> Z) (stackLimit : nat) (grid : Grid)
  (config : SudokuConfig) (options : SolverOptions) : outcome SolverResult :=
  let run : M SolveState SolverResult :=
    (startTime <-- onWorld (dateNow clock) ;;
     let collectStats := orDefault (o_collectStats options) true in
     let strategy := orDefault (o_strategy options) Fastest in
     let context := solverContext clock grid config options startTime in
     _ <-- try_catch_finally
             (solveSudoku_try stackLimit context grid strategy)
             solveSudoku_catch
             (solveSudoku_finally clock collectStats startTime) ;;
     getsM fst)%M in
  fst (run (mkSolverResult false [] None FR_error None None, initialWorld)).

(* ===================================================================== *)
(** ** Double-precision arithmetic used by the generator *)
(* ===================================================================== *)

Module JsFloat.

Definition prec : Z := 53.
Definition emax : Z := 1024.

(** The double that holds an integer (exact below 2^53). *)
Definition of_Z (z : Z) : spec_float := binary_normalize prec emax z 0 false.

(** A decimal literal [num/den] such as [0.45] reads as the double nearest
    to it, which is what the correctly rounded quotient of two exact
    integers gives. *)
Definition literal (num den : Z) : spec_float := SFdiv prec emax (of_Z num) (of_Z den).

Definition mul (x y : spec_float) : spec_float := SFmul prec emax x y.

(** [Math.floor] of a finite double, as an integer. (On an infinity or a
    NaN, which a product of an integer below 2^53 by a fraction never is,
    [Math.floor] has no integer value; 0 stands in.) *)
Definition floor (x : spec_float) : Z :=
  match x with
  | S754_finite s m e =>
      let v := if s then Z.neg m else Z.pos m in
      if e >=? 0 then v * 2 ^ e else v / 2 ^ (- e)
  | _ => 0
  end.

End JsFloat.

(* ===================================================================== *)
(** ** Puzzle generator ([generators/generator.ts]) *)
(* ===================================================================== *)

Module Generator.

Record GeneratorStats := mkStats {
  timeMs : Z;
  attempts : Z;
  fullGridsGenerated : Z;
  digAttempts : Z;
  refillAttempts : Z
}.

Inductive Phase := Phase_grid | Phase_puzzle.

(** A [GeneratorCallback]; it is given the number of earlier calls. *)
Definition GeneratorCallback := nat -> Phase -> Grid -> outcome (option bool).

Inductive SymmetryType := Rotational | Mirror | Diagonal.

Record GeneratorOptions := mkOptions {
  o_difficulty : option DifficultyLevel;
  o_uniqueSolution : option bool;
  o_minGivens : option Z;
  o_maxGivens : option Z;
  o_symmetrical : option bool;
  o_symmetryType : option SymmetryType;
  o_timeoutMs : option Z;
  o_onProgress : option GeneratorCallback
}.

Inductive FinishReason :=
| FR_success | FR_timeout | FR_interrupted | FR_error | FR_no_solution.

Record GeneratorResult := mkResult {
  success : bool;
  puzzle : option Grid;
  solution : option Grid;
  stats : GeneratorStats;
  finishReason : FinishReason;
  errorMessage : option string;
  givensCount : option Z;
  difficulty : option DifficultyLevel
}.

(** The mutable surroundings of a generation: the shared statistics object
    and the counters of the three oracles. *)
Record World := mkWorld {
  w_stats : GeneratorStats;
  clockReads : nat;
  randomCalls : nat;
  progressCalls : nat
}.

(** The time source and the random source. *)
Record Env := mkEnv {
  clock : nat -> Z;
  random : nat -> Z
}.

Definition createDefaultGeneratorStats : GeneratorStats := mkStats 0 0 0 0 0.

Definition set_stats (v : GeneratorStats) (w : World) : World :=
  mkWorld v (clockReads w) (randomCalls w) (progressCalls w).

Definition incr_attempts (w : World) : World :=
  let s := w_stats w in
  set_stats (mkStats (timeMs s) (attempts s + 1) (fullGridsGenerated s)
                     (digAttempts s) (refillAttempts s)) w.

Definition incr_fullGridsGenerated (w : World) : World :=
  let s := w_stats w in
  set_stats (mkStats (timeMs s) (attempts s) (fullGridsGenerated s + 1)
                     (digAttempts s) (refillAttempts s)) w.

Definition incr_digAttempts (w : World) : World :=
  let s := w_stats w in
  set_stats (mkStats (timeMs s) (attempts s) (fullGridsGenerated s)
                     (digAttempts s + 1) (refillAttempts s)) w.

Definition incr_refillAttempts (w : World) : World :=
  let s := w_stats w in
  set_stats (mkStats (timeMs s) (attempts s) (fullGridsGenerated s)
                     (digAttempts s) (refillAttempts s + 1)) w.

Definition set_timeMs (t : Z) (w : World) : World :=
  let s := w_stats w in
  set_stats (mkStats t (attempts s) (fullGridsGenerated s)
                     (digAttempts s) (refillAttempts s)) w.

(** [Date.now()] *)
Definition dateNow (env : Env) : M World Z :=
  fun w => (Ret (clock env (clockReads w)),
            mkWorld (w_stats w) (S (clockReads w)) (randomCalls w) (progressCalls w)).

(** [Math.floor(Math.random() * bound)]: an integer in [[0, bound)], supplied
    by the random source. *)
Definition randomBelow (env : Env) (bound : Z) : M World Z :=
  fun w => (Ret (random env (randomCalls w) mod bound),
            mkWorld (w_stats w) (clockReads w) (S (randomCalls w)) (progressCalls w)).

(** [onProgress(phase, grid)] *)
Definition callProgress (cb : GeneratorCallback) (phase : Phase) (grid : Grid)
  : M World (option bool) :=
  fun w => (cb (progressCalls w) phase grid,
            mkWorld (w_stats w) (clockReads w) (randomCalls w) (S (progressCalls w))).

(** [[a[i], a[j]] = [a[j], a[i]]] *)
Definition swap {A} (l : list A) (i j : Z) : list A :=
  match nth_Z l i, nth_Z l j with
  | Some x, Some y =>
      mapi (fun k z => if k =? i then y else if k =? j then x else z) l
  | _, _ => l
  end.

Fixpoint shuffle_loop {A} (env : Env) (i : nat) (shuffled : list A)
  : M World (list A) :=
  match i with
  | O => retM shuffled
  | S i' =>
      (j <-- randomBelow env (Z.of_nat i + 1) ;;
       shuffle_loop env i' (swap shuffled (Z.of_nat i) j))%M
  end.

Definition shuffleArray {A} (env : Env) (array : list A) : M World (list A) :=
  shuffle_loop env (List.length array - 1)%nat array.

Definition countGivens (grid : Grid) : Z :=
  fold_left (fun count row =>
               fold_left (fun count cell =>
                            if negb (value cell =? 0) then count + 1 else count)
                         row count) grid 0.

Definition getSymmetricPosition (row col size : Z) (type : SymmetryType) : Coord :=
  match type with
  | Rotational => (size - 1 - row, size - 1 - col)
  | Mirror => (size - 1 - row, col)
  | Diagonal => (col, row)
  end.

(** The [while] loop of [fillGridWithBacktracking] that looks for the next
    cell to fill. Each turn moves one cell forward in row-major order, so
    [size * size] turns are never used up. *)
Fixpoint findNextCell (turns : nat) (grid : Grid) (size row col : Z)
  : outcome Coord :=
  if row <? size then
    match cellAt grid row col with
    | Throw e => Throw e
    | Ret c =>
        if negb (value c =? 0) then
          match turns with
          | O => Throw (Error "findNextCell: more turns than cells")
          | S turns' =>
              let col := col + 1 in
              if col >=? size then findNextCell turns' grid size (row + 1) 0
              else findNextCell turns' grid size row col
          end
        else Ret (row, col)
    end
  else Ret (row, col).

(** The copy-back loop [grid[r][c] = { ...tempGrid[r][c] }] over the rows
    and cells of [grid]. (A cell missing from [tempGrid] would leave an
    object without fields; both grids have the same shape here, and the case
    is rendered as a TypeError.) *)
Definition copyBack (grid tempGrid : Grid) : outcome Grid :=
  mapM (fun rr =>
          match nth_Z tempGrid (fst rr) with
          | None => Throw TypeError
          | Some trow =>
              mapM (fun cc =>
                      match nth_Z trow (fst cc) with
                      | None => Throw TypeError
                      | Some tcell => Ret (cloneCell tcell)
                      end) (mapi (fun c cell => (c, cell)) (snd rr))
          end) (mapi (fun r row => (r, row)) grid).

Definition is_false (r : option bool) : bool :=
  match r with
  | Some false => true
  | _ => false
  end.

(** Returns whether the grid was filled, and the grid as the call leaves it
    (the caller's array is written to on success). *)
Fixpoint fillGridWithBacktracking (stack : nat) (env : Env) (grid : Grid)
  (startRow startCol : Z) (config : SudokuConfig)
  (solveCallback : option (Grid -> M World (option bool)))
  {struct stack} : M World (bool * Grid) :=
  match stack with
  | O => throwM RangeError
  | S stack' =>
      (let size := len grid in
       next <-- liftM (findNextCell (Z.to_nat (size * size)) grid size startRow startCol) ;;
       let row := fst next in
       let col := snd next in
       if row >=? size then retM (true, grid)
       else
         numbers <-- shuffleArray env (range1 size) ;;
         (fix tryNumbers (nums : list Z) : M World (bool * Grid) :=
            match nums with
            | [] => retM (false, grid)
            | num :: rest =>
                tempGrid <-- liftM (setCellValue grid row col num false) ;;
                validation <-- liftM (validateAllRegions tempGrid (regions config)) ;;
                if isValid validation then
                  shouldContinue <-- match solveCallback with
                                     | Some cb => cb tempGrid
                                     | None => retM None
                                     end ;;
                  if is_false shouldContinue then retM (false, grid)
                  else
                    let nextCol := Z.rem (col + 1) size in
                    let nextRow := if col + 1 >=? size then row + 1 else row in
                    filled <-- fillGridWithBacktracking stack' env tempGrid
                                 nextRow nextCol config solveCallback ;;
                    if fst filled then
                      grid' <-- liftM (copyBack grid (snd filled)) ;;
                      retM (true, grid')
                    else tryNumbers rest
                else tryNumbers rest
            end) numbers)%M
  end.

Definition generateFilledGrid (stackLimit : nat) (env : Env) (config : SudokuConfig)
  (solveCallback : option (Grid -> M World (option bool))) : M World (option Grid) :=
  (startTime <-- dateNow env ;;
   let size := size config in
   let grid := createEmptyGrid size in
   filled <-- fillGridWithBacktracking stackLimit env grid 0 0 config solveCallback ;;
   endTime <-- dateNow env ;;
   if fst filled then retM (Some (snd filled)) else retM None)%M.

Record DigOptions := mkDigOptions {
  d_difficulty : DifficultyLevel;
  d_uniqueSolution : bool;
  d_minGivens : Z;
  d_maxGivens : Z;
  d_symmetrical : bool;
  d_symmetryType : SymmetryType;
  d_timeoutTimestamp : Z;
  d_onProgress : option GeneratorCallback
}.

(** The alternatives tried at the first empty cell by [hasUniqueSolution]. *)
Fixpoint tryAlternatives (grid : Grid) (config : SudokuConfig) (r c correctValue : Z)
  (vs : list Z) : outcome bool :=
  match vs with
  | [] => Ret true
  | v :: rest =>
      if negb (v =? correctValue) then
        match assignCell (cloneGrid grid) r c (setValue v) with
        | Throw e => Throw e
        | Ret testGrid =>
            match validateAllRegions testGrid (regions config) with
            | Throw e => Throw e
            | Ret validation =>
                if isValid validation then Ret false
                else tryAlternatives grid config r c correctValue rest
            end
        end
      else tryAlternatives grid config r c correctValue rest
  end.

Definition hasUniqueSolution (grid solution : Grid) (config : SudokuConfig)
  : M World bool :=
  (_ <-- modifyM incr_refillAttempts ;;
   let hasEmptyCell := existsb (existsb (fun cell => value cell =? 0)) grid in
   if negb hasEmptyCell then retM true
   else
     match findFirstEmpty grid with
     | Some (r, c) =>
         cell <-- liftM (cellAt solution r c) ;;
         let correctValue := value cell in
         liftM (tryAlternatives grid config r c correctValue (range1 (len grid)))
     | None => retM true
     end)%M.

(** The difficulty-derived target, before clamping. *)
Definition targetForDifficulty (difficulty : DifficultyLevel) (totalCells : Z) : Z :=
  match difficulty with
  | EASY => JsFloat.floor (JsFloat.mul (JsFloat.of_Z totalCells) (JsFloat.literal 45 100))
  | MEDIUM => JsFloat.floor (JsFloat.mul (JsFloat.of_Z totalCells) (JsFloat.literal 35 100))
  | HARD => JsFloat.floor (JsFloat.mul (JsFloat.of_Z totalCells) (JsFloat.literal 3 10))
  | EXPERT => JsFloat.floor (JsFloat.mul (JsFloat.of_Z totalCells) (JsFloat.literal 25 100))
  end.

(** [Math.max(minGivens, Math.min(targetGivens, maxGivens))] *)
Definition targetGivens (options : DigOptions) (totalCells : Z) : Z :=
  Z.max (d_minGivens options)
        (Z.min (targetForDifficulty (d_difficulty options) totalCells)
               (d_maxGivens options)).

Definition clearCell (c : CellState) : CellState := setIsPuzzle false (setValue 0 c).

(** Clearing the symmetric counterpart, when there is one to clear. *)
Definition clearSymmetric (tempGrid : Grid) (row col size : Z) (options : DigOptions)
  : outcome Grid :=
  if d_symmetrical options then
    let '(symRow, symCol) := getSymmetricPosition row col size (d_symmetryType options) in
    if (symRow >=? 0) && (symRow <? size) && (symCol >=? 0) && (symCol <? size)
       && negb ((symRow =? row) && (symCol =? col)) then
      match cellAt tempGrid symRow symCol with
      | Throw e => Throw e
      | Ret c =>
          if negb (value c =? 0) then assignCell tempGrid symRow symCol clearCell
          else Ret tempGrid
      end
    else Ret tempGrid
  else Ret tempGrid.

(** The digging loop of [digHoles] over the shuffled positions; the loop
    state is the working grid and the set of positions that cannot be
    removed. Leaving the loop, by [break] or by [return], yields the
    working grid. *)
Fixpoint digLoop (env : Env) (solution : Grid) (config : SudokuConfig)
  (options : DigOptions) (size target : Z) (positions : list Coord)
  (workingGrid : Grid) (cannotRemove : list Coord) : M World Grid :=
  match positions with
  | [] => retM workingGrid
  | (row, col) :: rest =>
      (t <-- dateNow env ;;
       if t >? d_timeoutTimestamp options then retM workingGrid
       else
         cell <-- liftM (cellAt workingGrid row col) ;;
         if value cell =? 0 then
           digLoop env solution config options size target rest workingGrid cannotRemove
         else if existsb (coord_eqb (row, col)) cannotRemove then
           digLoop env solution config options size target rest workingGrid cannotRemove
         else
           _ <-- modifyM incr_digAttempts ;;
           let currentGivens := countGivens workingGrid in
           if currentGivens <=? target then retM workingGrid
           else
             tempGrid <-- liftM (assignCell (cloneGrid workingGrid) row col clearCell) ;;
             tempGrid <-- liftM (clearSymmetric tempGrid row col size options) ;;
             canRemove <-- (if d_uniqueSolution options
                            then hasUniqueSolution tempGrid solution config
                            else retM true) ;;
             if canRemove then
               let workingGrid := tempGrid in
               match d_onProgress options with
               | Some cb =>
                   shouldContinue <-- callProgress cb Phase_puzzle workingGrid ;;
                   if is_false shouldContinue then retM workingGrid
                   else digLoop env solution config options size target rest
                                workingGrid cannotRemove
               | None =>
                   digLoop env solution config options size target rest
                           workingGrid cannotRemove
               end
             else
               let cannotRemove := cannotRemove ++ [(row, col)] in
               let cannotRemove :=
                 if d_symmetrical options
                 then cannotRemove ++ [getSymmetricPosition row col size
                                         (d_symmetryType options)]
                 else cannotRemove in
               digLoop env solution config options size target rest
                       workingGrid cannotRemove)%M
  end.

Definition digHoles (env : Env) (grid solution : Grid) (config : SudokuConfig)
  (options : DigOptions) : M World (option Grid) :=
  (let size := len grid in
   let totalCells := size * size in
   let positions :=
     flat_map (fun row => map (fun col => (row, col)) (range0 size)) (range0 size) in
   shuffledPositions <-- shuffleArray env positions ;;
   let target := targetGivens options totalCells in
   let workingGrid := cloneGrid grid in
   final <-- digLoop env solution config options size target shuffledPositions
               workingGrid [] ;;
   retM (Some final))%M.

(** The state of a [generateSudoku] call: its [result] object and the world. *)
Definition GenState := (GeneratorResult * World)%type.

Definition onWorld {A} (m : M World A) : M GenState A :=
  fun s =>
    let '(o, w) := m (snd s) in (o, (fst s, w)).

Definition onResult (f : GeneratorResult -> GeneratorResult) : M GenState unit :=
  fun s => (Ret tt, (f (fst s), snd s)).

Definition set_success (v : bool) (r : GeneratorResult) : GeneratorResult :=
  mkResult v (puzzle r) (solution r) (stats r) (finishReason r) (errorMessage r)
           (givensCount r) (difficulty r).

Definition set_puzzle (v : option Grid) (r : GeneratorResult) : GeneratorResult :=
  mkResult (success r) v (solution r) (stats r) (finishReason r) (errorMessage r)
           (givensCount r) (difficulty r).

Definition set_solution (v : option Grid) (r : GeneratorResult) : GeneratorResult :=
  mkResult (success r) (puzzle r) v (stats r) (finishReason r) (errorMessage r)
           (givensCount r) (difficulty r).

Definition set_result_stats (v : GeneratorStats) (r : GeneratorResult) : GeneratorResult :=
  mkResult (success r) (puzzle r) (solution r) v (finishReason r) (errorMessage r)
           (givensCount r) (difficulty r).

Definition set_finishReason (v : FinishReason) (r : GeneratorResult) : GeneratorResult :=
  mkResult (success r) (puzzle r) (solution r) (stats r) v (errorMessage r)
           (givensCount r) (difficulty r).

Definition set_errorMessage (v : option string) (r : GeneratorResult) : GeneratorResult :=
  mkResult (success r) (puzzle r) (solution r) (stats r) (finishReason r) v
           (givensCount r) (difficulty r).

Definition set_givensCount (v : option Z) (r : GeneratorResult) : GeneratorResult :=
  mkResult (success r) (puzzle r) (solution r) (stats r) (finishReason r)
           (errorMessage r) v (difficulty r).

Definition set_difficulty (v : option DifficultyLevel) (r : GeneratorResult)
  : GeneratorResult :=
  mkResult (success r) (puzzle r) (solution r) (stats r) (finishReason r)
           (errorMessage r) (givensCount r) v.

(** The [while (!filledGrid && attempts < maxAttempts)] loop; [remaining]
    counts the attempts left of the ten. *)
Fixpoint synthesise (remaining : nat) (stackLimit : nat) (env : Env)
  (config : SudokuConfig) (onProgress : option GeneratorCallback)
  (timeoutTimestamp : Z) : M GenState (option Grid) :=
  match remaining with
  | O => retM None
  | S remaining' =>
      (_ <-- onWorld (modifyM incr_attempts) ;;
       t <-- onWorld (dateNow env) ;;
       if t >? timeoutTimestamp then
         _ <-- onResult (set_finishReason FR_timeout) ;;
         retM None
       else
         filledGrid <-- onWorld (generateFilledGrid stackLimit env config
                                   (Some (fun grid =>
                                            match onProgress with
                                            | Some cb => callProgress cb Phase_grid grid
                                            | None => retM None
                                            end))) ;;
         match filledGrid with
         | Some g => retM (Some g)
         | None => synthesise remaining' stackLimit env config onProgress timeoutTimestamp
         end)%M
  end.

(** [if (puzzleGrid[r][c].value !== 0) puzzleGrid[r][c].isPuzzle = true] *)
Definition markGivens (grid : Grid) : Grid :=
  map (map (fun c => if negb (value c =? 0) then setIsPuzzle true c else c)) grid.

(** The body of the [try] block of [generateSudoku]. *)
Definition generateSudoku_try (stackLimit : nat) (env : Env) (config : SudokuConfig)
  (difficulty : DifficultyLevel) (uniqueSolution : bool) (minGivens maxGivens : Z)
  (symmetrical : bool) (symmetryType : SymmetryType) (timeoutTimestamp : Z)
  (onProgress : option GeneratorCallback) : M GenState unit :=
  (filledGrid <-- synthesise 10 stackLimit env config onProgress timeoutTimestamp ;;
   match filledGrid with
   | None => onResult (set_finishReason FR_error)
   | Some filledGrid =>
       _ <-- onWorld (modifyM incr_fullGridsGenerated) ;;
       let solution := cloneGrid filledGrid in
       _ <-- onResult (set_solution (Some solution)) ;;
       let puzzleGrid := markGivens (cloneGrid solution) in
       modifiedPuzzle <-- onWorld (digHoles env puzzleGrid solution config
                                     (mkDigOptions difficulty uniqueSolution minGivens
                                        maxGivens symmetrical symmetryType
                                        timeoutTimestamp onProgress)) ;;
       match modifiedPuzzle with
       | None => onResult (set_finishReason FR_error)
       | Some modifiedPuzzle =>
           let givensCount := countGivens modifiedPuzzle in
           _ <-- onResult (set_success true) ;;
           _ <-- onResult (set_puzzle (Some modifiedPuzzle)) ;;
           _ <-- onResult (set_finishReason FR_success) ;;
           _ <-- onResult (set_givensCount (Some givensCount)) ;;
           onResult (set_difficulty (Some difficulty))
       end
   end)%M.

(** The [catch] block: the finish reason is set first; computing the
    message throws when [String] cannot convert the caught value. *)
Definition generateSudoku_catch (error : exn) : M GenState unit :=
  (_ <-- onResult (set_finishReason FR_error) ;;
   errorMessage <-- liftM (errorMessageOf error) ;;
   onResult (set_errorMessage (Some errorMessage)))%M.

(** The [finally] block; the statistics object is the result's. *)
Definition generateSudoku_finally (env : Env) (startTime : Z) : M GenState unit :=
  (t <-- onWorld (dateNow env) ;;
   _ <-- onWorld (modifyM (set_timeMs (t - startTime))) ;;
   finalStats <-- onWorld (getsM w_stats) ;;
   onResult (set_result_stats finalStats))%M.

Definition initialWorld : World := mkWorld createDefaultGeneratorStats 0 0 0.

(** [generateSudoku(config, options)]; [env] holds the time and random
    sources and [stackLimit] the depth of call stack available. *)
Definition generateSudoku (stackLimit : nat) (env : Env) (config : SudokuConfig)
  (options : GeneratorOptions) : outcome GeneratorResult :=
  let run : M GenState GeneratorResult :=
    (startTime <-- onWorld (dateNow env) ;;
     let difficulty := orDefault (o_difficulty options) MEDIUM in
     let uniqueSolution := orDefault (o_uniqueSolution options) true in
     let minGivens :=
       orDefault (o_minGivens options)
         (JsFloat.floor (JsFloat.mul (JsFloat.of_Z (size config * size config))
                                     (JsFloat.literal 25 100))) in
     let maxGivens :=
       orDefault (o_maxGivens options)
         (JsFloat.floor (JsFloat.mul (JsFloat.of_Z (size config * size config))
                                     (JsFloat.literal 5 10))) in
     let symmetrical := orDefault (o_symmetrical options) false in
     let symmetryType := orDefault (o_symmetryType options) Rotational in
     let timeoutMs := orDefault (o_timeoutMs options) 30000 in
     let onProgress := o_onProgress options in
     let timeoutTimestamp := startTime + timeoutMs in
     _ <-- try_catch_finally
             (generateSudoku_try stackLimit env config difficulty uniqueSolution
                minGivens maxGivens symmetrical symmetryType timeoutTimestamp onProgress)
             generateSudoku_catch
             (generateSudoku_finally env startTime) ;;
     getsM fst)%M in
  fst (run (mkResult false None None createDefaultGeneratorStats FR_error None None None,
            initialWorld)).

End Generator.

(* ===================================================================== *)
(** ** Factories ([grid/create.ts], [regions/helpers.ts], [engine/standard.ts]) *)
(* ===================================================================== *)

Definition createGridFromValues (values : list (list Z)) : Grid :=
  map (fun row =>
         map (fun v => mkCell v (negb (v =? 0)) [] (Some false) None None) row)
      values.

(** Rows, columns and blocks. [size / blockWidth] is read for block widths
    that divide the size, where the quotient is an integer. *)
Definition generateStandardRegions (size blockWidth blockHeight : Z) : list Region :=
  map (fun row =>
         mkRegion ("row-" ++ Js.string_of_Z row)%string RT_row
                  (map (fun col => (row, col)) (range0 size)) None)
      (range0 size)
  ++
  map (fun col =>
         mkRegion ("col-" ++ Js.string_of_Z col)%string RT_column
                  (map (fun row => (row, col)) (range0 size)) None)
      (range0 size)
  ++
  (let blocksPerRow := size / blockWidth in
   map (fun blockIndex =>
          let blockRow := blockIndex / blocksPerRow in
          let blockCol := Z.rem blockIndex blocksPerRow in
          let startRow := blockRow * blockHeight in
          let startCol := blockCol * blockWidth in
          mkRegion ("block-" ++ Js.string_of_Z blockIndex)%string RT_block
                   (flat_map (fun r => map (fun c => (startRow + r, startCol + c))
                                           (range0 blockWidth))
                             (range0 blockHeight))
                   None)
       (range0 size)).

Definition createStandardSudokuConfig (size : Z) : outcome SudokuConfig :=
  let boxSize := Z.sqrt size in
  if negb (boxSize * boxSize =? size) then
    Throw (Error ("尺寸 " ++ Js.string_of_Z size
                  ++ " 无法形成有效的标准数独，需要是完全平方数。")%string)
  else
    Ret (mkConfig size boxSize boxSize
                  (generateStandardRegions size boxSize boxSize) []).

(* ===================================================================== *)
(** * Properties *)
(* ===================================================================== *)

(* ===================================================================== *)
(** * Properties *)
(* ===================================================================== *)

(** ** Bitmask primitives *)

Lemma out_of_range_guard (v : Z) :
  v <= 0 \/ v > 31 -> (v <=? 0) || (v >? 31) = true.
Proof.
  intros [H | H].
  - apply orb_true_iff. left. now apply Z.leb_le.
  - apply orb_true_iff. right. now apply Z.gtb_lt, Z.gt_lt.
Qed.

Lemma in_range_guard (v : Z) :
  0 < v <= 31 -> (v <=? 0) || (v >? 31) = false.
Proof.
  intros H. apply orb_false_iff. split.
  - apply Z.leb_gt. lia.
  - rewrite Z.gtb_ltb. apply Z.ltb_ge. lia.
Qed.

(** C9. Outside 1..31 the primitives guard silently: [valueToBitmask] gives
    the empty mask, [hasBit] answers no, [addBit] and [removeBit] give the
    mask back, whatever the mask; [createFullBitmask] is the one primitive
    that throws, and it does so exactly when the size is outside 1..31. *)
Theorem bitmask_primitives_guard_out_of_range :
  (forall mask v : Z,
      v <= 0 \/ v > 31 ->
      valueToBitmask v = 0 /\
      hasBit mask v = false /\
      addBit mask v = mask /\
      removeBit mask v = mask) /\
  (forall size : Z,
      (exists e, createFullBitmask size = Throw e) <-> (size <= 0 \/ size > 31)).
Proof.
  split.
  - intros mask v Hv.
    unfold valueToBitmask, hasBit, addBit, removeBit.
    rewrite (out_of_range_guard v Hv). repeat split; reflexivity.
  - intros size. unfold createFullBitmask. split.
    + intros [e He].
      destruct ((size <=? 0) || (size >? 31)) eqn:G.
      * apply orb_true_iff in G. destruct G as [G | G].
        -- left. now apply Z.leb_le.
        -- right. rewrite Z.gtb_ltb in G. apply Z.ltb_lt in G. lia.
      * discriminate He.
    + intros H. rewrite (out_of_range_guard size H). eexists. reflexivity.
Qed.

Lemma bitmask_primitives_guard_witness :
  valueToBitmask 32 = 0 /\
  hasBit 1022 32 = false /\
  addBit 1022 32 = 1022 /\
  removeBit 1022 32 = 1022.
Proof.
  apply (proj1 bitmask_primitives_guard_out_of_range 1022 32).
  right. lia.
Defined.

(** ** Grid access *)

(** The value read at a coordinate; 0 where the read would throw. *)
Definition valueAt (grid : Grid) (rc : Coord) : Z :=
  match cellAt grid (fst rc) (snd rc) with
  | Ret c => value c
  | Throw _ => 0
  end.

(** A coordinate that lies inside the grid. *)
Definition inGrid (grid : Grid) (rc : Coord) : Prop :=
  exists c, cellAt grid (fst rc) (snd rc) = Ret c.

Lemma coord_eqb_eq (a b : Coord) : coord_eqb a b = true <-> a = b.
Proof.
  destruct a as [a1 a2], b as [b1 b2]. unfold coord_eqb. simpl.
  rewrite andb_true_iff, !Z.eqb_eq. split.
  - intros [-> ->]. reflexivity.
  - intros H. inversion H. auto.
Qed.

Lemma coord_eqb_refl (a : Coord) : coord_eqb a a = true.
Proof. now apply coord_eqb_eq. Qed.

Lemma coord_eqb_neq (a b : Coord) : coord_eqb a b = false <-> a <> b.
Proof.
  split.
  - intros H E. apply coord_eqb_eq in E. congruence.
  - intros H. destruct (coord_eqb a b) eqn:E; [|reflexivity].
    apply coord_eqb_eq in E. contradiction.
Qed.

Lemma foldM_cons {A S} (body : S -> A -> outcome S) x xs acc :
  foldM body (x :: xs) acc =
  match body acc x with
  | Ret acc' => foldM body xs acc'
  | Throw e => Throw e
  end.
Proof. reflexivity. Qed.

(** ** [checkDuplicatesBitmask] *)

Section CheckDuplicates.

Variable grid : Grid.

(** The listed coordinates that hold the value [v], in list order. *)
Definition occurrences (v : Z) (coords : list Coord) : list Coord :=
  filter (fun rc => valueAt grid rc =? v) coords.

Lemma occurrences_app v l1 l2 :
  occurrences v (l1 ++ l2) = occurrences v l1 ++ occurrences v l2.
Proof. apply filter_app. Qed.

(** What the position map holds once the coordinates [seen] are processed:
    one entry per non-zero value met, with its occurrences. *)
Definition grouped (m : PosMap) (seen : list Coord) : Prop :=
  NoDup (map fst m) /\
  forall k ps, In (k, ps) m <-> (k <> 0 /\ ps = occurrences k seen /\ ps <> []).

Lemma Map_get_In (m : PosMap) k ps :
  NoDup (map fst m) -> (Map_get m k = Some ps <-> In (k, ps) m).
Proof.
  induction m as [|[k' v'] m IH]; simpl; intros ND.
  - split; [discriminate | tauto].
  - inversion ND as [|? ? Hnotin ND']; subst.
    destruct (k' =? k) eqn:E.
    + apply Z.eqb_eq in E. subst k'. split.
      * intros H. inversion H. now left.
      * intros [H | H].
        -- inversion H. reflexivity.
        -- exfalso. apply Hnotin. apply in_map_iff. exists (k, ps). auto.
    + apply Z.eqb_neq in E. rewrite (IH ND'). split.
      * intros H. now right.
      * intros [H | H]; [inversion H; congruence | assumption].
Qed.

Lemma Map_has_get (m : PosMap) k :
  Map_has m k = match Map_get m k with Some _ => true | None => false end.
Proof.
  induction m as [|[k' v'] m IH]; simpl; [reflexivity|].
  destruct (k' =? k); simpl; auto.
Qed.

Lemma Map_set_set (m : PosMap) k v1 v2 :
  Map_set (Map_set m k v1) k v2 = Map_set m k v2.
Proof.
  induction m as [|[k' v'] m IH]; simpl.
  - now rewrite Z.eqb_refl.
  - destruct (k' =? k) eqn:E; simpl.
    + now rewrite Z.eqb_refl.
    + rewrite E. now rewrite IH.
Qed.

Lemma Map_get_set_same (m : PosMap) k v : Map_get (Map_set m k v) k = Some v.
Proof.
  induction m as [|[k' v'] m IH]; simpl.
  - now rewrite Z.eqb_refl.
  - destruct (k' =? k) eqn:E; simpl.
    + now rewrite Z.eqb_refl.
    + now rewrite E.
Qed.

Lemma Map_set_keys (m : PosMap) k v :
  map fst (Map_set m k v) =
  if Map_has m k then map fst m else map fst m ++ [k].
Proof.
  induction m as [|[k' v'] m IH]; simpl; [reflexivity|].
  destruct (k' =? k) eqn:E; simpl.
  - apply Z.eqb_eq in E. now subst.
  - rewrite IH. now destruct (Map_has m k).
Qed.

Lemma Map_has_keys (m : PosMap) k : Map_has m k = true <-> In k (map fst m).
Proof.
  induction m as [|[k' v'] m IH]; simpl.
  - split; [discriminate | tauto].
  - rewrite orb_true_iff, Z.eqb_eq, IH. tauto.
Qed.

Lemma Map_set_In (m : PosMap) k v k' ps :
  NoDup (map fst m) ->
  (In (k', ps) (Map_set m k v) <->
   (k' = k /\ ps = v) \/ (k' <> k /\ In (k', ps) m)).
Proof.
  induction m as [|[k0 v0] m IH]; simpl; intros ND.
  - split.
    + intros [H | []]. inversion H. auto.
    + intros [[-> ->] | [_ []]]. now left.
  - inversion ND as [|? ? Hnotin ND']; subst.
    destruct (k0 =? k) eqn:E; simpl.
    + apply Z.eqb_eq in E. subst k0. split.
      * intros [H | H].
        -- inversion H. auto.
        -- right. split; [|now right].
           intros ->. apply Hnotin. apply in_map_iff. exists (k, ps). auto.
      * intros [[-> ->] | [Hne [H | H]]].
        -- now left.
        -- inversion H. congruence.
        -- now right.
    + apply Z.eqb_neq in E. rewrite (IH ND'). split.
      * intros [H | [H | H]].
        -- inversion H; subst. right. split; [congruence | now left].
        -- now left.
        -- right. split; [tauto | right; tauto].
      * intros [H | [Hne [H | H]]].
        -- right. now left.
        -- now left.
        -- right. right. auto.
Qed.

(** The four map operations of one loop turn amount to one update. *)
Lemma push_position (m : PosMap) v rc :
  match Map_get (if negb (Map_has m v) then Map_set m v [] else m) v with
  | Some positions =>
      Map_set (if negb (Map_has m v) then Map_set m v [] else m) v (positions ++ [rc])
  | None => if negb (Map_has m v) then Map_set m v [] else m
  end
  = Map_set m v (match Map_get m v with
                 | Some ps => ps ++ [rc]
                 | None => [rc]
                 end).
Proof.
  rewrite Map_has_get. destruct (Map_get m v) as [ps|] eqn:G; simpl.
  - now rewrite G.
  - rewrite Map_get_set_same. now rewrite Map_set_set.
Qed.

Lemma grouped_nil : grouped [] [].
Proof.
  split; [constructor|]. intros k ps. simpl. split; [tauto|].
  intros (_ & -> & H). now apply H.
Qed.

Lemma grouped_step (m : PosMap) (u : Z) (seen : list Coord) (rc : Coord) :
  grouped m seen -> inGrid grid rc ->
  exists m' u', checkDuplicates_step grid (m, u) rc = Ret (m', u') /\
                grouped m' (seen ++ [rc]).
Proof.
  intros [ND G] [c Hc]. unfold checkDuplicates_step.
  assert (Hv : valueAt grid rc = value c) by (unfold valueAt; now rewrite Hc).
  rewrite Hc. rewrite <- (surjective_pairing rc). destruct (value c =? 0) eqn:Ez.
  - apply Z.eqb_eq in Ez. exists m, u. split; [reflexivity|]. split; [assumption|].
    intros k ps. rewrite G, occurrences_app. simpl.
    destruct (valueAt grid rc =? k) eqn:E.
    + apply Z.eqb_eq in E. split; intros (Hk & ? & ?); exfalso; lia.
    + now rewrite app_nil_r.
  - apply Z.eqb_neq in Ez. rewrite push_position.
    eexists. eexists. split; [reflexivity|]. split.
    + rewrite Map_set_keys. destruct (Map_has m (value c)) eqn:H; [assumption|].
      rewrite <- (rev_involutive (map fst m ++ [value c])).
      apply NoDup_rev. rewrite rev_app_distr. simpl. constructor.
      * rewrite <- in_rev. intros Hin. apply Map_has_keys in Hin. congruence.
      * now apply NoDup_rev.
    + intros k ps. rewrite (Map_set_In _ _ _ _ _ ND), occurrences_app. simpl.
      rewrite Hv. destruct (value c =? k) eqn:E.
      * apply Z.eqb_eq in E. subst k. split.
        -- intros [[_ ->] | [Hne _]]; [|congruence].
           split; [assumption|]. split.
           ++ destruct (Map_get m (value c)) as [ps0|] eqn:Gm.
              ** apply (Map_get_In _ _ _ ND) in Gm. apply G in Gm.
                 destruct Gm as (_ & -> & _). reflexivity.
              ** destruct (occurrences (value c) seen) as [|x xs] eqn:O; [reflexivity|].
                 exfalso.
                 assert (In (value c, x :: xs) m) as Hin.
                 { apply G. repeat split; auto. discriminate. }
                 apply (Map_get_In _ _ _ ND) in Hin. congruence.
           ++ destruct (Map_get m (value c)); [|discriminate].
              intros Habs. now apply app_eq_nil in Habs as [_ Habs].
        -- intros (_ & -> & _). left. split; [reflexivity|].
           destruct (Map_get m (value c)) as [ps0|] eqn:Gm.
           ++ apply (Map_get_In _ _ _ ND) in Gm. apply G in Gm.
              destruct Gm as (_ & -> & _). reflexivity.
           ++ destruct (occurrences (value c) seen) as [|x xs] eqn:O; [reflexivity|].
              exfalso.
              assert (In (value c, x :: xs) m) as Hin.
              { apply G. repeat split; auto. discriminate. }
              apply (Map_get_In _ _ _ ND) in Hin. congruence.
      * apply Z.eqb_neq in E. rewrite app_nil_r. rewrite G. split.
        -- intros [[-> _] | [_ H]]; [congruence | assumption].
        -- intros H. right. split; [congruence | assumption].
Qed.

Lemma grouped_fold (coords : list Coord) :
  forall m u seen,
    grouped m seen -> Forall (inGrid grid) coords ->
    exists m' u', foldM (checkDuplicates_step grid) coords (m, u) = Ret (m', u') /\
                  grouped m' (seen ++ coords).
Proof.
  induction coords as [|rc coords IH]; intros m u seen Hg Hall.
  - exists m, u. rewrite app_nil_r. auto.
  - inversion Hall as [|? ? Hrc Hrest]; subst.
    destruct (grouped_step m u seen rc Hg Hrc) as (m1 & u1 & E1 & G1).
    destruct (IH m1 u1 (seen ++ [rc]) G1 Hrest) as (m' & u' & E' & G').
    exists m', u'. rewrite foldM_cons, E1. rewrite <- app_assoc in G'. auto.
Qed.

Lemma collectDuplicates_spec (entries : PosMap) :
  forall acc,
    (forall rc, In rc (duplicates (collectDuplicates entries acc)) <->
                In rc (duplicates acc) \/
                exists k ps, In (k, ps) entries /\ len ps > 1 /\ In rc ps) /\
    (forall rc, In rc (sources (collectDuplicates entries acc)) <->
                In rc (sources acc) \/
                exists k ps, In (k, ps) entries /\ len ps > 1 /\ hd_error ps = Some rc).
Proof.
  induction entries as [|[k ps] entries IH]; intros acc; simpl.
  - split; intros rc; split; auto; intros [H | (? & ? & [] & _)]; auto.
  - destruct (len ps >? 1) eqn:L.
    + rewrite Z.gtb_ltb in L. apply Z.ltb_lt in L.
      destruct ps as [|source ps']; [unfold len in L; simpl in L; lia|].
      destruct (IH (mkDuplicates (duplicates acc ++ source :: ps')
                                 (sources acc ++ [source]))) as [D S].
      split; intros rc.
      * rewrite D. simpl. rewrite in_app_iff. split.
        -- intros [[H | H] | (k' & ps0 & Hin & Hl & Hrc)]; auto.
           ++ right. exists k, (source :: ps'). repeat split; auto. lia.
           ++ right. exists k', ps0. auto.
        -- intros [H | (k' & ps0 & [Heq | Hin] & Hl & Hrc)]; auto.
           ++ inversion Heq; subst. auto.
           ++ right. exists k', ps0. auto.
      * rewrite S. simpl. rewrite in_app_iff. simpl. split.
        -- intros [[H | [H | []]] | (k' & ps0 & Hin & Hl & Hrc)]; auto.
           ++ subst. right. exists k, (rc :: ps'). repeat split; auto. lia.
           ++ right. exists k', ps0. auto.
        -- intros [H | (k' & ps0 & [Heq | Hin] & Hl & Hrc)]; auto.
           ++ inversion Heq; subst. simpl in Hrc. inversion Hrc. auto.
           ++ right. exists k', ps0. auto.
    + rewrite Z.gtb_ltb in L. apply Z.ltb_ge in L.
      destruct (IH acc) as [D S]. split; intros rc.
      * rewrite D. split.
        -- intros [H | (k' & ps0 & Hin & Hl & Hrc)]; auto.
           right. exists k', ps0. auto.
        -- intros [H | (k' & ps0 & [Heq | Hin] & Hl & Hrc)]; auto.
           ++ inversion Heq; subst. lia.
           ++ right. exists k', ps0. auto.
      * rewrite S. split.
        -- intros [H | (k' & ps0 & Hin & Hl & Hrc)]; auto.
           right. exists k', ps0. auto.
        -- intros [H | (k' & ps0 & [Heq | Hin] & Hl & Hrc)]; auto.
           ++ inversion Heq; subst. lia.
           ++ right. exists k', ps0. auto.
Qed.

(** C7. Over coordinates that lie inside the grid, [checkDuplicatesBitmask]
    returns, skipping the cells that hold 0: as [duplicates] exactly the
    listed coordinates whose non-zero value is held by two or more of the
    listed coordinates, and as [sources] exactly the first listed coordinate
    of each such value. *)
Theorem checkDuplicatesBitmask_spec (coords : list Coord) :
  Forall (inGrid grid) coords ->
  exists d,
    checkDuplicatesBitmask grid coords = Ret d /\
    (forall rc,
        In rc (duplicates d) <->
        In rc coords /\ valueAt grid rc <> 0 /\
        len (occurrences (valueAt grid rc) coords) >= 2) /\
    (forall rc,
        In rc (sources d) <->
        exists v, v <> 0 /\ len (occurrences v coords) >= 2 /\
                  hd_error (occurrences v coords) = Some rc).
Proof.
  intros Hall.
  destruct (grouped_fold coords [] 0 [] grouped_nil Hall) as (m & u & E & [ND G]).
  simpl in G.
  exists (collectDuplicates m (mkDuplicates [] [])).
  split; [unfold checkDuplicatesBitmask; unfold PosMap in E |- *; now rewrite E|].
  destruct (collectDuplicates_spec m (mkDuplicates [] [])) as [D S].
  split; intros rc.
  - rewrite D. simpl. split.
    + intros [[] | (k & ps & Hin & Hl & Hrc)].
      apply G in Hin. destruct Hin as (Hk & -> & _).
      unfold occurrences in Hrc. apply filter_In in Hrc as [Hc Hv].
      apply Z.eqb_eq in Hv. subst k. repeat split; auto. lia.
    + intros (Hin & Hv & Hl). right.
      exists (valueAt grid rc), (occurrences (valueAt grid rc) coords).
      split; [|split; [lia|]].
      * apply G. repeat split; auto.
        intros Habs. rewrite Habs in Hl. unfold len in Hl. simpl in Hl. lia.
      * unfold occurrences. apply filter_In. split; [assumption|]. apply Z.eqb_refl.
  - rewrite S. simpl. split.
    + intros [[] | (k & ps & Hin & Hl & Hrc)].
      apply G in Hin. destruct Hin as (Hk & -> & _).
      exists k. repeat split; auto. lia.
    + intros (v & Hv & Hl & Hh). right.
      exists v, (occurrences v coords). split; [|split; [lia | assumption]].
      apply G. repeat split; auto.
      intros Habs. rewrite Habs in Hh. discriminate.
Qed.

End CheckDuplicates.

Lemma checkDuplicatesBitmask_spec_witness :
  exists d,
    checkDuplicatesBitmask (createGridFromValues [[1; 2; 1; 0]; [2; 1; 0; 0]])
      [(0, 0); (0, 1); (0, 2); (0, 3); (1, 0); (1, 1)] = Ret d /\
    (forall rc,
        In rc (duplicates d) <->
        In rc [(0, 0); (0, 1); (0, 2); (0, 3); (1, 0); (1, 1)] /\
        valueAt (createGridFromValues [[1; 2; 1; 0]; [2; 1; 0; 0]]) rc <> 0 /\
        len (occurrences (createGridFromValues [[1; 2; 1; 0]; [2; 1; 0; 0]])
               (valueAt (createGridFromValues [[1; 2; 1; 0]; [2; 1; 0; 0]]) rc)
               [(0, 0); (0, 1); (0, 2); (0, 3); (1, 0); (1, 1)]) >= 2) /\
    (forall rc,
        In rc (sources d) <->
        exists v, v <> 0 /\
                  len (occurrences (createGridFromValues [[1; 2; 1; 0]; [2; 1; 0; 0]]) v
                         [(0, 0); (0, 1); (0, 2); (0, 3); (1, 0); (1, 1)]) >= 2 /\
                  hd_error (occurrences (createGridFromValues [[1; 2; 1; 0]; [2; 1; 0; 0]]) v
                              [(0, 0); (0, 1); (0, 2); (0, 3); (1, 0); (1, 1)]) = Some rc).
Proof.
  apply (checkDuplicatesBitmask_spec
           (createGridFromValues [[1; 2; 1; 0]; [2; 1; 0; 0]])
           [(0, 0); (0, 1); (0, 2); (0, 3); (1, 0); (1, 1)]).
  repeat constructor; eexists; reflexivity.
Defined.

(** ** Bits of 32-bit masks *)

Lemma to_int32_range (z : Z) : - 2 ^ 31 <= to_int32 z < 2 ^ 31.
Proof.
  unfold to_int32.
  pose proof (Z.mod_pos_bound (z + 2 ^ 31) (2 ^ 32) ltac:(lia)). lia.
Qed.

Lemma to_int32_mod (z : Z) : to_int32 z mod 2 ^ 32 = z mod 2 ^ 32.
Proof.
  unfold to_int32.
  rewrite Zminus_mod, Zmod_mod, <- Zminus_mod.
  f_equal. lia.
Qed.

Lemma to_int32_testbit (z i : Z) :
  0 <= i < 32 -> Z.testbit (to_int32 z) i = Z.testbit z i.
Proof.
  intros Hi.
  rewrite <- (Z.mod_pow2_bits_low (to_int32 z) 32 i) by lia.
  rewrite to_int32_mod. apply Z.mod_pow2_bits_low. lia.
Qed.

Lemma to_int32_small (z : Z) : - 2 ^ 31 <= z < 2 ^ 31 -> to_int32 z = z.
Proof.
  intros H. unfold to_int32. rewrite Z.mod_small; lia.
Qed.

(** Above bit 31 a 32-bit signed integer repeats its sign bit. *)
Lemma int32_testbit_high (x i : Z) :
  - 2 ^ 31 <= x < 2 ^ 31 -> 31 <= i -> Z.testbit x i = Z.testbit x 31.
Proof.
  intros Hx Hi.
  destruct (Z.neg_nonneg_cases x) as [Hneg | Hpos].
  - rewrite !Z.bits_above_log2_neg; try lia; try reflexivity.
    + destruct (Z.eq_dec x (-1)) as [-> | Hne]; [simpl; lia|].
      apply Z.log2_lt_pow2; lia.
    + destruct (Z.eq_dec x (-1)) as [-> | Hne]; [simpl; lia|].
      assert (Z.log2 (Z.pred (- x)) < 31) by (apply Z.log2_lt_pow2; lia). lia.
  - destruct (Z.eq_dec x 0) as [-> | Hne]; [now rewrite !Z.bits_0|].
    assert (Z.log2 x < 31) by (apply Z.log2_lt_pow2; lia).
    rewrite !Z.bits_above_log2; try lia; reflexivity.
Qed.

Lemma shl_1 (v : Z) : 0 <= v <= 31 -> Js.shl 1 v = to_int32 (2 ^ v).
Proof.
  intros Hv. unfold Js.shl.
  rewrite (to_int32_small 1) by lia.
  rewrite Z.mod_small by lia.
  rewrite Z.shiftl_1_l. reflexivity.
Qed.

Lemma shl_1_testbit (v i : Z) :
  0 <= v <= 31 -> 0 <= i < 32 -> Z.testbit (Js.shl 1 v) i = (v =? i).
Proof.
  intros Hv Hi. rewrite shl_1 by assumption.
  rewrite to_int32_testbit by assumption.
  apply Z.pow2_bits_eqb. lia.
Qed.

(** The test [(mask & (1 << v)) !== 0] reads bit [v] of the mask. *)
Lemma and_shl_testbit (a v : Z) :
  0 <= v <= 31 -> negb (Js.and a (Js.shl 1 v) =? 0) = Z.testbit a v.
Proof.
  intros Hv. unfold Js.and.
  rewrite <- (to_int32_testbit a v) by lia.
  set (A := to_int32 a). set (B := to_int32 (Js.shl 1 v)).
  assert (HA : - 2 ^ 31 <= A < 2 ^ 31) by apply to_int32_range.
  assert (HB : - 2 ^ 31 <= B < 2 ^ 31) by apply to_int32_range.
  assert (HBlow : forall i, 0 <= i < 32 -> Z.testbit B i = (v =? i)).
  { intros i Hi. unfold B. rewrite to_int32_testbit by assumption.
    now apply shl_1_testbit. }
  destruct (Z.testbit A v) eqn:Av.
  - apply negb_true_iff, Z.eqb_neq. intros H0.
    assert (Z.testbit (Z.land A B) v = false) as Hb by (rewrite H0; apply Z.bits_0).
    rewrite Z.land_spec, Av, HBlow, Z.eqb_refl in Hb by lia. discriminate.
  - apply negb_false_iff, Z.eqb_eq. apply Z.bits_inj'. intros i Hi.
    rewrite Z.land_spec, Z.bits_0.
    destruct (Z_lt_dec i 32) as [Hlt | Hge].
    + rewrite HBlow by lia. destruct (v =? i) eqn:E.
      * apply Z.eqb_eq in E. subst i. now rewrite Av.
      * apply andb_false_r.
    + rewrite (int32_testbit_high A i), (int32_testbit_high B i) by lia.
      rewrite HBlow by lia. destruct (v =? 31) eqn:E.
      * apply Z.eqb_eq in E. subst v. now rewrite Av.
      * apply andb_false_r.
Qed.

Lemma and_not_testbit (a u v : Z) :
  0 <= v <= 31 ->
  Z.testbit (Js.and a (Js.not u)) v = Z.testbit a v && negb (Z.testbit u v).
Proof.
  intros Hv. unfold Js.and, Js.not.
  rewrite Z.land_spec, !to_int32_testbit by lia.
  rewrite Z.lnot_spec by lia. now rewrite to_int32_testbit by lia.
Qed.

Lemma or_testbit (a b v : Z) :
  0 <= v <= 31 -> Z.testbit (Js.or a b) v = Z.testbit a v || Z.testbit b v.
Proof.
  intros Hv. unfold Js.or.
  now rewrite Z.lor_spec, !to_int32_testbit by lia.
Qed.

Lemma valueToBitmask_testbit (x v : Z) :
  0 <= v <= 31 -> Z.testbit (valueToBitmask x) v = (0 <? x) && (x =? v).
Proof.
  intros Hv. unfold valueToBitmask.
  destruct ((x <=? 0) || (x >? 31)) eqn:G.
  - rewrite Z.bits_0. apply orb_true_iff in G. symmetry.
    destruct G as [G | G].
    + apply Z.leb_le in G. apply andb_false_iff. left. apply Z.ltb_ge. lia.
    + rewrite Z.gtb_ltb in G. apply Z.ltb_lt in G.
      apply andb_false_iff. right. apply Z.eqb_neq. lia.
  - apply orb_false_iff in G. destruct G as [G1 G2].
    apply Z.leb_gt in G1. rewrite Z.gtb_ltb in G2. apply Z.ltb_ge in G2.
    rewrite shl_1_testbit by lia.
    replace (0 <? x) with true by (symmetry; apply Z.ltb_lt; lia). reflexivity.
Qed.

Lemma valuesFromBitmask_In (m v : Z) :
  In v (valuesFromBitmask m) <-> 1 <= v <= 31 /\ Z.testbit m v = true.
Proof.
  unfold valuesFromBitmask. rewrite filter_In, in_map_iff. split.
  - intros [(n & <- & Hn) Hb]. apply in_seq in Hn.
    rewrite and_shl_testbit in Hb by lia. split; [lia | assumption].
  - intros [Hv Hb]. split.
    + exists (Z.to_nat v). split; [lia|]. apply in_seq. lia.
    + now rewrite and_shl_testbit by lia.
Qed.

Lemma in_range_cases (P : Z -> Prop) (lo : nat) (n : nat) :
  Forall P (map Z.of_nat (seq lo n)) ->
  forall v, Z.of_nat lo <= v < Z.of_nat lo + Z.of_nat n -> P v.
Proof.
  intros H v Hv. rewrite Forall_forall in H. apply H.
  apply in_map_iff. exists (Z.to_nat v). split; [lia|]. apply in_seq. lia.
Qed.

(** Bit [v] of the full mask of a supported size is set exactly for the
    digits up to the size. *)
Lemma createFullBitmask_testbit (size full v : Z) :
  createFullBitmask size = Ret full -> 1 <= v <= 31 ->
  1 <= size <= 31 /\ Z.testbit full v = (v <=? size).
Proof.
  unfold createFullBitmask. intros H Hv.
  destruct ((size <=? 0) || (size >? 31)) eqn:G; [discriminate|].
  apply orb_false_iff in G. destruct G as [G1 G2].
  apply Z.leb_gt in G1. rewrite Z.gtb_ltb in G2. apply Z.ltb_ge in G2.
  inversion H; subst full. split; [lia|].
  assert (Hall : Forall (fun size =>
            Forall (fun v => Z.testbit (Js.shl 1 (size + 1) - 2) v = (v <=? size))
                   (map Z.of_nat (seq 1 31)))
            (map Z.of_nat (seq 1 31))).
  { apply Forall_forall. intros s Hs. apply Forall_forall. intros v0 Hv0.
    assert (Hb : forallb (fun s => forallb (fun v =>
                   Bool.eqb (Z.testbit (Js.shl 1 (s + 1) - 2) v) (v <=? s))
                   (map Z.of_nat (seq 1 31))) (map Z.of_nat (seq 1 31)) = true)
      by (vm_compute; reflexivity).
    rewrite forallb_forall in Hb. specialize (Hb s Hs).
    rewrite forallb_forall in Hb. specialize (Hb v0 Hv0).
    now apply Bool.eqb_prop in Hb. }
  assert (Hsize := in_range_cases _ 1 31 Hall size ltac:(lia)).
  apply (in_range_cases _ 1 31 Hsize v). lia.
Qed.

(** ** Candidate soundness *)

Section Candidates.

Variables (grid : Grid) (row col : Z).

(** The used-value mask of a region around the cell; 0 where the
    computation throws. *)
Definition usedOf (region : Region) : Z :=
  match usedValuesExcept grid row col region with
  | Ret u => u
  | Throw _ => 0
  end.

Definition freeIn (v : Z) (rs : list Region) : bool :=
  forallb (fun region => negb (Z.testbit (usedOf region) v)) rs.

Lemma isValidMove_loop_spec (v : Z) (rs : list Region) :
  1 <= v <= 31 ->
  Forall (fun region => is_ret (usedValuesExcept grid row col region) = true) rs ->
  isValidMove_loop grid row col v rs = Ret (freeIn v rs).
Proof.
  intros Hv. induction rs as [|region rs IH]; intros Hall; simpl; [reflexivity|].
  inversion Hall as [|? ? Hr Hrest]; subst.
  unfold usedOf at 1.
  destruct (usedValuesExcept grid row col region) as [u|e]; [|discriminate].
  unfold valueToBitmask. rewrite in_range_guard by lia.
  rewrite and_shl_testbit by lia.
  destruct (Z.testbit u v); simpl; [reflexivity|]. now apply IH.
Qed.

Lemma region_fold_spec (rs : list Region) :
  forall m0 m,
    foldM (fun candidatesBitmask region =>
             match usedValuesExcept grid row col region with
             | Throw e => Throw e
             | Ret usedValues => Ret (Js.and candidatesBitmask (Js.not usedValues))
             end) rs m0 = Ret m ->
    Forall (fun region => is_ret (usedValuesExcept grid row col region) = true) rs /\
    forall v, 1 <= v <= 31 -> Z.testbit m v = Z.testbit m0 v && freeIn v rs.
Proof.
  induction rs as [|region rs IH]; intros m0 m H.
  - simpl in H. inversion H; subst. split; [constructor|].
    intros v _. simpl. now rewrite andb_true_r.
  - rewrite foldM_cons in H.
    destruct (usedValuesExcept grid row col region) as [u|e] eqn:E; [|discriminate].
    destruct (IH _ _ H) as [Hall Hbits]. split.
    + constructor; [now rewrite E | assumption].
    + intros v Hv. rewrite (Hbits v Hv), and_not_testbit by lia.
      simpl. unfold usedOf at 1. rewrite E. now rewrite andb_assoc.
Qed.

Variable config : SudokuConfig.

(** A value that some active rule's [getExcludedCandidates] returns. *)
Definition excludedByRule (v : Z) : Prop :=
  exists rule f excluded,
    In rule (variantRules config) /\
    getExcludedCandidates rule = Some f /\
    f grid row col (view config) = Ret excluded /\
    In v excluded.

Lemma exclusion_fold_spec (excluded : list Z) (v : Z) :
  0 <= v <= 31 ->
  forall m,
    Z.testbit (fold_left (fun mask excludedValue =>
                            Js.and mask (Js.not (valueToBitmask excludedValue)))
                         excluded m) v = true ->
    Z.testbit m v = true.
Proof.
  intros Hv. induction excluded as [|x xs IH]; intros m H; simpl in H; [assumption|].
  apply IH in H. rewrite and_not_testbit in H by lia.
  now apply andb_true_iff in H as [H _].
Qed.

Lemma exclusion_fold_lost (excluded : list Z) (v : Z) :
  1 <= v <= 31 ->
  forall m,
    Z.testbit m v = true ->
    Z.testbit (fold_left (fun mask excludedValue =>
                            Js.and mask (Js.not (valueToBitmask excludedValue)))
                         excluded m) v = false ->
    In v excluded.
Proof.
  intros Hv. induction excluded as [|x xs IH]; intros m Hm H; simpl in H.
  - congruence.
  - destruct (Z.testbit (Js.and m (Js.not (valueToBitmask x))) v) eqn:E.
    + right. now apply (IH _ E).
    + left. rewrite and_not_testbit, Hm, valueToBitmask_testbit in E by lia.
      simpl in E. apply negb_false_iff, andb_true_iff in E as [_ E].
      now apply Z.eqb_eq in E.
Qed.

Lemma applyExclusions_spec (rules : list VariantRule) :
  (forall rule, In rule rules -> In rule (variantRules config)) ->
  forall m m' v,
    applyExclusions grid row col config rules m = Ret m' ->
    1 <= v <= 31 ->
    (Z.testbit m' v = true -> Z.testbit m v = true) /\
    (Z.testbit m v = true -> Z.testbit m' v = false -> excludedByRule v).
Proof.
  induction rules as [|rule rules IH]; intros Hsub m m' v H Hv; simpl in H.
  - inversion H; subst. split; [auto | congruence].
  - assert (Hsub' : forall r, In r rules -> In r (variantRules config))
      by (intros r Hr; apply Hsub; now right).
    destruct (getExcludedCandidates rule) as [f|] eqn:Ef.
    + destruct (f grid row col (view config)) as [excluded|e] eqn:Eex; [|discriminate].
      destruct (IH Hsub' _ _ v H Hv) as [Hup Hlost]. split.
      * intros Hb. apply Hup in Hb. apply exclusion_fold_spec in Hb; [assumption | lia].
      * intros Hm Hm'.
        destruct (Z.testbit (fold_left (fun mask excludedValue =>
                    Js.and mask (Js.not (valueToBitmask excludedValue))) excluded m) v)
          eqn:Emid.
        -- now apply Hlost.
        -- exists rule, f, excluded. repeat split; auto.
           ++ apply Hsub. now left.
           ++ now apply (exclusion_fold_lost excluded v Hv m).
    + now apply IH.
Qed.

(** C2. For an empty cell, every value that
    [getCandidatesForCellBitmask] returns is a valid move for
    [isValidMoveBitmask] over the configuration's regions; and every value
    of 1..size that it does not return either is an invalid move, or is one
    that a variant rule's [getExcludedCandidates] excludes. *)
Theorem candidates_sound_up_to_variant_exclusions (cell : CellState) (candidates : list Z) :
  cellAt grid row col = Ret cell ->
  value cell = 0 ->
  getCandidatesForCellBitmask grid row col config = Ret candidates ->
  (forall v, In v candidates ->
             isValidMoveBitmask grid row col v (regions config) = Ret true) /\
  (forall v, 1 <= v <= size config -> ~ In v candidates ->
             isValidMoveBitmask grid row col v (regions config) = Ret false \/
             excludedByRule v).
Proof.
  intros Hcell Hempty H. unfold getCandidatesForCellBitmask in H.
  rewrite Hcell, Hempty in H. simpl in H.
  destruct (createFullBitmask (size config)) as [full|e] eqn:Efull; [|discriminate].
  destruct (foldM _ (regionsContaining (regions config) row col) full)
    as [m1|e] eqn:Efold; [|discriminate].
  destruct (applyExclusions grid row col config (variantRules config) m1)
    as [m2|e] eqn:Eexcl; [|discriminate].
  inversion H; subst candidates. clear H.
  destruct (region_fold_spec _ _ _ Efold) as [Hall Hbits].
  assert (Hvalid : forall v, 1 <= v <= 31 ->
            isValidMoveBitmask grid row col v (regions config)
            = Ret (freeIn v (regionsContaining (regions config) row col))).
  { intros v Hv. unfold isValidMoveBitmask.
    replace (v =? 0) with false by (symmetry; apply Z.eqb_neq; lia).
    now apply isValidMove_loop_spec. }
  split.
  - intros v Hin. apply valuesFromBitmask_In in Hin as [Hv Hb].
    destruct (applyExclusions_spec _ (fun r Hr => Hr) _ _ v Eexcl Hv) as [Hup _].
    apply Hup in Hb. rewrite (Hbits v Hv) in Hb.
    apply andb_true_iff in Hb as [_ Hfree].
    rewrite (Hvalid v Hv). now rewrite Hfree.
  - intros v Hv Hnotin.
    destruct (createFullBitmask_testbit _ _ 1 Efull ltac:(lia)) as [Hsize _].
    assert (Hv31 : 1 <= v <= 31) by lia.
    destruct (createFullBitmask_testbit _ _ v Efull Hv31) as [_ Hfullbit].
    replace (v <=? size config) with true in Hfullbit
      by (symmetry; apply Z.leb_le; lia).
    assert (Hm2 : Z.testbit m2 v = false).
    { destruct (Z.testbit m2 v) eqn:E; [|reflexivity].
      exfalso. apply Hnotin. apply valuesFromBitmask_In. auto. }
    rewrite (Hvalid v Hv31).
    destruct (freeIn v (regionsContaining (regions config) row col)) eqn:Efree.
    + right.
      destruct (applyExclusions_spec _ (fun r Hr => Hr) _ _ v Eexcl Hv31) as [_ Hlost].
      apply Hlost; [|assumption].
      rewrite (Hbits v Hv31), Hfullbit, Efree. reflexivity.
    + now left.
Qed.

End Candidates.

(** A 4x4 standard grid with a single 1 in the top-left corner, under the
    standard regions and the diagonal rule. *)
Definition diagonalExampleGrid : Grid :=
  createGridFromValues [[1; 0; 0; 0]; [0; 0; 0; 0]; [0; 0; 0; 0]; [0; 0; 0; 0]].

Definition diagonalExampleConfig : SudokuConfig :=
  mkConfig 4 2 2 (generateStandardRegions 4 2 2) [DiagonalVariant.rule].

Lemma candidates_sound_witness :
  (forall v, In v [2; 3; 4] ->
             isValidMoveBitmask diagonalExampleGrid 3 3 v
               (regions diagonalExampleConfig) = Ret true) /\
  (forall v, 1 <= v <= size diagonalExampleConfig -> ~ In v [2; 3; 4] ->
             isValidMoveBitmask diagonalExampleGrid 3 3 v
               (regions diagonalExampleConfig) = Ret false \/
             excludedByRule diagonalExampleGrid 3 3 diagonalExampleConfig v).
Proof.
  apply (candidates_sound_up_to_variant_exclusions
           diagonalExampleGrid 3 3 diagonalExampleConfig
           (mkCell 0 false [] (Some false) None None) [2; 3; 4]);
    reflexivity.
Defined.

(** The values left out need not be invalid moves. On the corner cell of
    the diagonal, 1 is not a candidate (the diagonal rule excludes it), yet
    it is a value of 1..size that [isValidMoveBitmask] accepts over the
    configuration's regions. *)
Lemma candidates_complement_not_invalid :
  exists cell candidates,
    cellAt diagonalExampleGrid 3 3 = Ret cell /\
    value cell = 0 /\
    getCandidatesForCellBitmask diagonalExampleGrid 3 3 diagonalExampleConfig
      = Ret candidates /\
    1 <= 1 <= size diagonalExampleConfig /\
    ~ In 1 candidates /\
    isValidMoveBitmask diagonalExampleGrid 3 3 1 (regions diagonalExampleConfig)
      = Ret true.
Proof.
  exists (mkCell 0 false [] (Some false) None None), [2; 3; 4].
  split; [reflexivity|]. split; [reflexivity|].
  split; [vm_compute; reflexivity|].
  split; [simpl; lia|]. split.
  - intros [H | [H | [H | []]]]; discriminate.
  - vm_compute. reflexivity.
Qed.

(** ** Grids: lookups, updates, shapes *)

Lemma cloneCell_id (c : CellState) : cloneCell c = c.
Proof. now destruct c. Qed.

Lemma cloneGrid_id (g : Grid) : cloneGrid g = g.
Proof.
  unfold cloneGrid. rewrite <- (map_id g) at 2. apply map_ext. intros row.
  rewrite <- (map_id row) at 2. apply map_ext. apply cloneCell_id.
Qed.

Lemma nth_Z_of_nat {A} (l : list A) (n : nat) : nth_Z l (Z.of_nat n) = nth_error l n.
Proof.
  unfold nth_Z. replace (Z.of_nat n <? 0) with false by (symmetry; apply Z.ltb_ge; lia).
  now rewrite Nat2Z.id.
Qed.

Lemma nth_Z_Some {A} (l : list A) (i : Z) (x : A) :
  nth_Z l i = Some x -> 0 <= i < len l /\ nth_error l (Z.to_nat i) = Some x.
Proof.
  unfold nth_Z, len. destruct (i <? 0) eqn:E; [discriminate|].
  apply Z.ltb_ge in E. intros H. split; [|assumption].
  assert (Z.to_nat i < List.length l)%nat by (apply nth_error_Some; congruence). lia.
Qed.

Lemma nth_Z_in_range {A} (l : list A) (i : Z) :
  0 <= i < len l -> exists x, nth_Z l i = Some x.
Proof.
  unfold nth_Z, len. intros H.
  replace (i <? 0) with false by (symmetry; apply Z.ltb_ge; lia).
  destruct (nth_error l (Z.to_nat i)) as [x|] eqn:E; [now exists x|].
  apply nth_error_None in E. lia.
Qed.

Lemma mapi_from_length {A B} (f : Z -> A -> B) (l : list A) :
  forall k, List.length (mapi_from k f l) = List.length l.
Proof. induction l as [|x l IH]; intros k; simpl; [reflexivity | now rewrite IH]. Qed.

Lemma mapi_from_nth {A B} (f : Z -> A -> B) (l : list A) :
  forall k n, nth_error (mapi_from k f l) n
              = option_map (f (k + Z.of_nat n)) (nth_error l n).
Proof.
  induction l as [|x l IH]; intros k n.
  - now destruct n.
  - destruct n as [|n]; simpl.
    + now rewrite Z.add_0_r.
    + rewrite IH. do 2 f_equal. lia.
Qed.

Lemma mapi_from_ext {A B} (f g : Z -> A -> B) (l : list A) :
  (forall i x, f i x = g i x) -> forall k, mapi_from k f l = mapi_from k g l.
Proof.
  intros H. induction l as [|x l IH]; intros k; simpl; [reflexivity|].
  now rewrite H, IH.
Qed.

Lemma mapi_length {A B} (f : Z -> A -> B) (l : list A) :
  List.length (mapi f l) = List.length l.
Proof. apply mapi_from_length. Qed.

Lemma nth_Z_mapi {A B} (f : Z -> A -> B) (l : list A) (i : Z) :
  nth_Z (mapi f l) i = option_map (f i) (nth_Z l i).
Proof.
  unfold nth_Z, mapi. destruct (i <? 0) eqn:E; [reflexivity|].
  apply Z.ltb_ge in E. rewrite mapi_from_nth. do 2 f_equal. lia.
Qed.

(** The grid with the cell at [(row, col)] replaced by its image under [F]. *)
Definition updGrid (g : Grid) (row col : Z) (F : CellState -> CellState) : Grid :=
  mapi (fun rIndex r =>
          mapi (fun cIndex c => if (rIndex =? row) && (cIndex =? col) then F c else c) r)
       g.

(** The cell that [setCellValue] writes outside puzzle-editing mode. *)
Definition fillCell (v : Z) (c : CellState) : CellState :=
  mkCell v false [] (error c) (highlight c) (Some Anim_changed).

Definition shape (g : Grid) : list nat := map (@List.length CellState) g.

Lemma cellAt_updGrid (g : Grid) (row col : Z) F (r c : Z) :
  cellAt (updGrid g row col F) r c =
  match cellAt g r c with
  | Ret x => Ret (if (r =? row) && (c =? col) then F x else x)
  | Throw e => Throw e
  end.
Proof.
  unfold cellAt, updGrid. rewrite nth_Z_mapi.
  destruct (nth_Z g r) as [rw|]; simpl; [|reflexivity].
  rewrite nth_Z_mapi. destruct (nth_Z rw c); reflexivity.
Qed.

Lemma shape_updGrid (g : Grid) (row col : Z) F : shape (updGrid g row col F) = shape g.
Proof.
  unfold shape, updGrid, mapi. generalize 0 at 1.
  induction g as [|rw g IH]; intros k; simpl; [reflexivity|].
  rewrite mapi_from_length. f_equal. apply IH.
Qed.

Lemma cellAt_of_nat (g : Grid) (i j : nat) :
  cellAt g (Z.of_nat i) (Z.of_nat j) =
  match nth_error g i with
  | Some rw => match nth_error rw j with
               | Some c => Ret c
               | None => Throw TypeError
               end
  | None => Throw TypeError
  end.
Proof.
  unfold cellAt. rewrite nth_Z_of_nat. destruct (nth_error g i); [|reflexivity].
  now rewrite nth_Z_of_nat.
Qed.

Lemma cellAt_Ret (g : Grid) (r c : Z) (x : CellState) :
  cellAt g r c = Ret x ->
  exists rw, nth_error g (Z.to_nat r) = Some rw /\ nth_error rw (Z.to_nat c) = Some x /\
             0 <= r /\ 0 <= c.
Proof.
  unfold cellAt. destruct (nth_Z g r) as [rw|] eqn:Er; [|discriminate].
  destruct (nth_Z rw c) as [y|] eqn:Ec; [|discriminate].
  intros H. inversion H; subst y.
  apply nth_Z_Some in Er as [? Er]. apply nth_Z_Some in Ec as [? Ec].
  exists rw. repeat split; auto; lia.
Qed.

Lemma list_ext_nth {A} (l l' : list A) :
  List.length l = List.length l' ->
  (forall n x, nth_error l n = Some x -> nth_error l' n = Some x) ->
  l = l'.
Proof.
  revert l'. induction l as [|a l IH]; intros [|b l'] Hlen H; simpl in Hlen;
    try discriminate; [reflexivity|].
  f_equal.
  - specialize (H 0%nat a eq_refl). simpl in H. congruence.
  - apply IH; [lia|]. intros n x Hn. apply (H (S n) x Hn).
Qed.

Lemma shape_nth (g g' : Grid) (i : nat) (rw : list CellState) :
  shape g = shape g' -> nth_error g i = Some rw ->
  exists rw', nth_error g' i = Some rw' /\ List.length rw' = List.length rw.
Proof.
  unfold shape. intros Hs Hn.
  assert (H : nth_error (map (@List.length CellState) g') i = Some (List.length rw)).
  { rewrite <- Hs. now rewrite nth_error_map, Hn. }
  rewrite nth_error_map in H. destruct (nth_error g' i) as [rw'|]; [|discriminate].
  exists rw'. split; [reflexivity|]. simpl in H. congruence.
Qed.

Lemma grid_ext (g g' : Grid) :
  shape g = shape g' ->
  (forall r c x, cellAt g r c = Ret x -> cellAt g' r c = Ret x) ->
  g = g'.
Proof.
  intros Hs H. apply list_ext_nth.
  - unfold shape in Hs. apply (f_equal (@List.length nat)) in Hs.
    now rewrite !length_map in Hs.
  - intros i rw Hi. destruct (shape_nth g g' i rw Hs Hi) as (rw' & Hi' & Hlen).
    rewrite Hi'. f_equal. symmetry. apply list_ext_nth; [congruence|].
    intros j x Hj. specialize (H (Z.of_nat i) (Z.of_nat j) x).
    rewrite !cellAt_of_nat, Hi, Hi', Hj in H. specialize (H eq_refl).
    destruct (nth_error rw' j); congruence.
Qed.

Lemma cellAt_same_shape (g g' : Grid) (r c : Z) (x : CellState) :
  shape g = shape g' -> cellAt g r c = Ret x -> exists x', cellAt g' r c = Ret x'.
Proof.
  intros Hs H. apply cellAt_Ret in H as (rw & Hr & Hc & Hr0 & Hc0).
  destruct (shape_nth g g' _ rw Hs Hr) as (rw' & Hr' & Hlen).
  assert (Hlt : (Z.to_nat c < List.length rw')%nat).
  { rewrite Hlen. apply nth_error_Some. congruence. }
  destruct (nth_error rw' (Z.to_nat c)) as [x'|] eqn:Ec';
    [|apply nth_error_None in Ec'; lia].
  exists x'. rewrite <- (Z2Nat.id r), <- (Z2Nat.id c) by assumption.
  now rewrite cellAt_of_nat, Hr', Ec'.
Qed.

Lemma inGrid_same_shape (g g' : Grid) (rc : Coord) :
  shape g = shape g' -> inGrid g rc -> inGrid g' rc.
Proof. intros Hs [x Hx]. exact (cellAt_same_shape g g' _ _ x Hs Hx). Qed.

(** Every row is as long as the first. *)
Definition rectangular (g : Grid) : Prop :=
  forall rw, In rw g -> len rw = firstRowLength g.

Lemma firstRowLength_shape (g g' : Grid) :
  shape g = shape g' -> firstRowLength g = firstRowLength g'.
Proof.
  unfold shape, firstRowLength, len.
  destruct g, g'; simpl; intros H; try discriminate; [reflexivity|].
  inversion H. congruence.
Qed.

Lemma len_shape (g g' : Grid) : shape g = shape g' -> len g = len g'.
Proof.
  unfold shape, len. intros H. apply (f_equal (@List.length nat)) in H.
  rewrite !length_map in H. congruence.
Qed.

Lemma rectangular_shape (g g' : Grid) :
  shape g = shape g' -> rectangular g -> rectangular g'.
Proof.
  intros Hs Hr rw' Hin. rewrite <- (firstRowLength_shape g g' Hs).
  apply In_nth_error in Hin as [i Hi].
  destruct (shape_nth g' g i rw' (eq_sym Hs) Hi) as (rw & Hrw & Hlen).
  unfold len. rewrite <- Hlen. apply Hr. eapply nth_error_In; eauto.
Qed.

Lemma isValidPosition_cellAt (g : Grid) (r c : Z) (x : CellState) :
  rectangular g -> cellAt g r c = Ret x -> isValidPosition g r c = true.
Proof.
  intros Hrect H. apply cellAt_Ret in H as (rw & Hr & Hc & Hr0 & Hc0).
  unfold isValidPosition.
  assert (Hrlt : (Z.to_nat r < List.length g)%nat) by (apply nth_error_Some; congruence).
  assert (Hclt : (Z.to_nat c < List.length rw)%nat) by (apply nth_error_Some; congruence).
  assert (Hlen : len rw = firstRowLength g) by (apply Hrect; eapply nth_error_In; eauto).
  unfold len in *.
  repeat (apply andb_true_iff; split);
    try (apply Z.geb_le; lia); apply Z.ltb_lt; lia.
Qed.

(** Outside puzzle-editing mode [setCellValue] writes a cell that is not a
    given, and only that cell. *)
Lemma setCellValue_fill (g : Grid) (r c v : Z) (x : CellState) :
  rectangular g -> cellAt g r c = Ret x -> isPuzzle x = false ->
  setCellValue g r c v false = Ret (updGrid g r c (fillCell v)).
Proof.
  intros Hrect Hx Hp. unfold setCellValue.
  rewrite (isValidPosition_cellAt g r c x Hrect Hx), Hx, Hp. simpl.
  f_equal. unfold updGrid, mapi. apply mapi_from_ext. intros i rw.
  apply mapi_from_ext. intros j y. now rewrite cloneCell_id.
Qed.

Lemma setCellValue_cases (g : Grid) (r c v : Z) (g' : Grid) :
  setCellValue g r c v false = Ret g' ->
  g' = g \/
  (exists x, cellAt g r c = Ret x /\ isPuzzle x = false /\
             g' = updGrid g r c (fillCell v)).
Proof.
  unfold setCellValue. destruct (isValidPosition g r c); simpl; [|intros H; left; congruence].
  destruct (cellAt g r c) as [x|e] eqn:Ex; [|discriminate].
  destruct (isPuzzle x) eqn:Ep; simpl; intros H; inversion H; subst; [now left|].
  right. exists x. repeat split; auto.
  unfold updGrid, mapi. apply mapi_from_ext. intros i rw.
  apply mapi_from_ext. intros j y. now rewrite cloneCell_id.
Qed.

(** ** What [validateAllRegions] decides *)

Fixpoint sumValues (g : Grid) (coords : list Coord) : Z :=
  match coords with
  | [] => 0
  | rc :: rest => valueAt g rc + sumValues g rest
  end.

(** A region is satisfied: no non-zero value is held twice among its
    listed cells, and a completely filled region with a sum meets it. *)
Definition regionOK (g : Grid) (region : Region) : Prop :=
  (forall rc, In rc (cells region) -> valueAt g rc <> 0 ->
              len (occurrences g (valueAt g rc) (cells region)) < 2) /\
  (forall s, region_sum region = Some s ->
             (forall rc, In rc (cells region) -> valueAt g rc <> 0) ->
             sumValues g (cells region) = s).

Definition regionsInGrid (g : Grid) (rs : list Region) : Prop :=
  forall region, In region rs -> Forall (inGrid g) (cells region).

Lemma everyM_filled (g : Grid) (coords : list Coord) :
  Forall (inGrid g) coords ->
  everyM (fun rc => match cellAt g (fst rc) (snd rc) with
                    | Ret c => Ret (negb (value c =? 0))
                    | Throw e => Throw e
                    end) coords
  = Ret (forallb (fun rc => negb (valueAt g rc =? 0)) coords).
Proof.
  induction coords as [|rc coords IH]; intros H; simpl; [reflexivity|].
  inversion H as [|? ? [c Hc] Hrest]; subst.
  unfold valueAt at 1. rewrite Hc.
  destruct (value c =? 0); simpl; [reflexivity|]. now apply IH.
Qed.

Lemma foldM_sum (g : Grid) (coords : list Coord) :
  Forall (inGrid g) coords ->
  forall acc,
    foldM (fun actualSum rc => match cellAt g (fst rc) (snd rc) with
                               | Ret c => Ret (actualSum + value c)
                               | Throw e => Throw e
                               end) coords acc
    = Ret (acc + sumValues g coords).
Proof.
  induction coords as [|rc coords IH]; intros H acc; simpl.
  - now rewrite Z.add_0_r.
  - inversion H as [|? ? [c Hc] Hrest]; subst.
    unfold valueAt at 1. rewrite Hc. rewrite IH by assumption. f_equal. lia.
Qed.

Lemma len_zero_nil {A} (l : list A) : (len l =? 0) = true <-> l = [].
Proof.
  unfold len. destruct l; simpl; split; intros H; try reflexivity; discriminate.
Qed.

Lemma mergeValidationResults_isValid (results : list ValidationResult) :
  isValid (mergeValidationResults results) = forallb isValid results.
Proof. destruct results; reflexivity. Qed.

Lemma validateRegion_spec (g : Grid) (region : Region) :
  Forall (inGrid g) (cells region) ->
  exists vr, validateRegion g region = Ret vr /\
             (isValid vr = true <-> regionOK g region).
Proof.
  intros Hin. unfold validateRegion, validateRegionBitmask.
  destruct (checkDuplicatesBitmask_spec g (cells region) Hin) as (d & Ed & Hdup & _).
  rewrite Ed.
  assert (Hnodup : (len (duplicates d) =? 0) = true <->
                   (forall rc, In rc (cells region) -> valueAt g rc <> 0 ->
                               len (occurrences g (valueAt g rc) (cells region)) < 2)).
  { rewrite len_zero_nil. split.
    - intros Hnil rc Hrc Hv.
      destruct (Z_lt_dec (len (occurrences g (valueAt g rc) (cells region))) 2);
        [assumption|].
      exfalso. assert (In rc (duplicates d)) as Hd by (apply Hdup; repeat split; auto; lia).
      rewrite Hnil in Hd. destruct Hd.
    - intros H. destruct (duplicates d) as [|rc l] eqn:E; [reflexivity|].
      exfalso. assert (In rc (rc :: l)) as Hd by now left.
      apply Hdup in Hd as (Hrc & Hv & Hl). specialize (H rc Hrc Hv). lia. }
  unfold regionOK. destruct (region_sum region) as [expected|] eqn:Es.
  - unfold validateSum. rewrite Es, (everyM_filled g _ Hin).
    destruct (forallb (fun rc => negb (valueAt g rc =? 0)) (cells region)) eqn:Efill.
    + rewrite (foldM_sum g _ Hin).
      eexists. split; [reflexivity|].
      rewrite mergeValidationResults_isValid. simpl.
      rewrite andb_true_r, andb_true_iff, Hnodup, Z.eqb_eq. split.
      * intros [H1 H2]. split; [assumption|]. intros s Hs _. congruence.
      * intros [H1 H2]. split; [assumption|]. apply H2; [reflexivity|].
        intros rc Hrc. rewrite forallb_forall in Efill. specialize (Efill rc Hrc).
        apply negb_true_iff in Efill. now apply Z.eqb_neq.
    + eexists. split; [reflexivity|].
      rewrite mergeValidationResults_isValid. simpl.
      rewrite !andb_true_r, Hnodup. split.
      * intros H1. split; [assumption|]. intros s _ Hall. exfalso.
        assert (forallb (fun rc => negb (valueAt g rc =? 0)) (cells region) = true);
          [|congruence].
        apply forallb_forall. intros rc Hrc. apply negb_true_iff, Z.eqb_neq. auto.
      * now intros [H1 _].
  - eexists. split; [reflexivity|]. simpl. rewrite Hnodup. split.
    + intros H. split; [assumption|]. discriminate.
    + now intros [H _].
Qed.

Lemma mapM_validateRegion (g : Grid) (rs : list Region) :
  regionsInGrid g rs ->
  exists results,
    mapM (validateRegion g) rs = Ret results /\
    (forallb isValid results = true <-> forall region, In region rs -> regionOK g region).
Proof.
  induction rs as [|region rs IH]; intros Hin.
  - exists []. split; [reflexivity|]. simpl. split; [intros _ ? [] | reflexivity].
  - destruct (validateRegion_spec g region (Hin region (or_introl eq_refl)))
      as (vr & Evr & Hvr).
    destruct IH as (results & Eres & Hres).
    { intros r Hr. apply Hin. now right. }
    exists (vr :: results). simpl. rewrite Evr, Eres. split; [reflexivity|].
    rewrite andb_true_iff, Hvr, Hres. split.
    + intros [H1 H2] r [<- | Hr]; auto.
    + intros H. split; [apply H; now left | intros r Hr; apply H; now right].
Qed.

(** The grid satisfies every region. *)
Definition gridOK (g : Grid) (rs : list Region) : Prop :=
  forall region, In region rs -> regionOK g region.

Lemma validateAllRegions_spec (g : Grid) (rs : list Region) :
  regionsInGrid g rs ->
  exists vr, validateAllRegions g rs = Ret vr /\ (isValid vr = true <-> gridOK g rs).
Proof.
  intros Hin. destruct (mapM_validateRegion g rs Hin) as (results & E & H).
  unfold validateAllRegions. rewrite E. eexists. split; [reflexivity|].
  now rewrite mergeValidationResults_isValid.
Qed.

(** [g'] keeps every filled cell of [g]. *)
Definition keepsFilled (g g' : Grid) : Prop :=
  shape g = shape g' /\
  forall r c x, cellAt g r c = Ret x -> value x <> 0 -> cellAt g' r c = Ret x.

Lemma keepsFilled_valueAt (g g' : Grid) (rc : Coord) :
  keepsFilled g g' -> valueAt g rc <> 0 -> valueAt g' rc = valueAt g rc.
Proof.
  intros [_ H] Hv. unfold valueAt in *.
  destruct (cellAt g (fst rc) (snd rc)) as [x|e] eqn:E; [|congruence].
  now rewrite (H _ _ x E Hv).
Qed.

Lemma filter_length_mono {A} (p q : A -> bool) (l : list A) :
  (forall x, In x l -> p x = true -> q x = true) ->
  (List.length (filter p l) <= List.length (filter q l))%nat.
Proof.
  induction l as [|a l IH]; intros H; simpl; [lia|].
  assert (IH' := IH (fun x Hx => H x (or_intror Hx))).
  destruct (p a) eqn:Ep.
  - rewrite (H a (or_introl eq_refl) Ep). simpl. lia.
  - destruct (q a); simpl; lia.
Qed.

Lemma sumValues_ext (g g' : Grid) (coords : list Coord) :
  (forall rc, In rc coords -> valueAt g' rc = valueAt g rc) ->
  sumValues g' coords = sumValues g coords.
Proof.
  induction coords as [|rc coords IH]; intros H; simpl; [reflexivity|].
  rewrite (H rc (or_introl eq_refl)), IH; [reflexivity|].
  intros rc' Hrc'. apply H. now right.
Qed.

(** A violated region stays violated however the empty cells are filled. *)
Lemma regionOK_keepsFilled (g g' : Grid) (region : Region) :
  keepsFilled g g' -> regionOK g' region -> regionOK g region.
Proof.
  intros Hk [Hdup Hsum]. split.
  - intros rc Hrc Hv.
    assert (Hv' := keepsFilled_valueAt g g' rc Hk Hv).
    specialize (Hdup rc Hrc). rewrite Hv' in Hdup. specialize (Hdup Hv).
    assert (List.length (occurrences g (valueAt g rc) (cells region)) <=
            List.length (occurrences g' (valueAt g rc) (cells region)))%nat.
    { apply filter_length_mono. intros rc' _ E. apply Z.eqb_eq in E.
      apply Z.eqb_eq. rewrite (keepsFilled_valueAt g g' rc' Hk); congruence. }
    unfold len in *. lia.
  - intros s Hs Hfilled.
    rewrite <- (Hsum s Hs).
    + symmetry. apply sumValues_ext. intros rc Hrc.
      apply (keepsFilled_valueAt g g' rc Hk); auto.
    + intros rc Hrc. rewrite (keepsFilled_valueAt g g' rc Hk); auto.
Qed.

Lemma gridOK_keepsFilled (g g' : Grid) (rs : list Region) :
  keepsFilled g g' -> gridOK g' rs -> gridOK g rs.
Proof.
  intros Hk H region Hr. eapply regionOK_keepsFilled; eauto.
Qed.

Lemma regionsInGrid_shape (g g' : Grid) (rs : list Region) :
  shape g = shape g' -> regionsInGrid g rs -> regionsInGrid g' rs.
Proof.
  intros Hs H region Hr. specialize (H region Hr).
  rewrite Forall_forall in *. intros rc Hrc.
  eapply inGrid_same_shape; eauto.
Qed.

(** ** The empty cells of a grid, in row-major order *)

Fixpoint emptyPositionsOfRow (row col : Z) (cellsOfRow : list CellState) : list Coord :=
  match cellsOfRow with
  | [] => []
  | cell :: rest =>
      if value cell =? 0 then (row, col) :: emptyPositionsOfRow row (col + 1) rest
      else emptyPositionsOfRow row (col + 1) rest
  end.

Fixpoint emptyPositionsFrom (row : Z) (rows : Grid) : list Coord :=
  match rows with
  | [] => []
  | r :: rest => emptyPositionsOfRow row 0 r ++ emptyPositionsFrom (row + 1) rest
  end.

Definition emptyPositions (g : Grid) : list Coord := emptyPositionsFrom 0 g.

(** The number of empty cells: the depth the search can reach. *)
Definition countEmpty (g : Grid) : nat := List.length (emptyPositions g).

Lemma emptyPositionsOfRow_In (row : Z) (cellsOfRow : list CellState) :
  forall col r c,
    In (r, c) (emptyPositionsOfRow row col cellsOfRow) <->
    r = row /\ exists j x, c = col + Z.of_nat j /\
                           nth_error cellsOfRow j = Some x /\ value x = 0.
Proof.
  induction cellsOfRow as [|cell rest IH]; intros col r c; simpl.
  - split; [tauto|]. intros (_ & j & x & _ & H & _). now destruct j.
  - assert (Hrest : In (r, c) (emptyPositionsOfRow row (col + 1) rest) <->
                    r = row /\ exists j x, c = col + Z.of_nat (S j) /\
                                           nth_error rest j = Some x /\ value x = 0).
    { rewrite IH. split; intros (-> & j & x & Hc & Hn & Hv); (split; [reflexivity|]);
        exists j, x; repeat split; auto; lia. }
    destruct (value cell =? 0) eqn:E.
    + apply Z.eqb_eq in E. simpl. rewrite Hrest. split.
      * intros [H | (-> & j & x & Hc & Hn & Hv)].
        -- inversion H; subst. split; [reflexivity|].
           exists 0%nat, cell. repeat split; auto. simpl. lia.
        -- split; [reflexivity|]. exists (S j), x. auto.
      * intros (-> & [|j] & x & Hc & Hn & Hv).
        -- left. f_equal. simpl in Hc. lia.
        -- right. split; [reflexivity|]. exists j, x. auto.
    + apply Z.eqb_neq in E. rewrite Hrest. split.
      * intros (-> & j & x & Hc & Hn & Hv). split; [reflexivity|].
        exists (S j), x. auto.
      * intros (-> & [|j] & x & Hc & Hn & Hv).
        -- simpl in Hn. inversion Hn; subst. contradiction.
        -- split; [reflexivity|]. exists j, x. auto.
Qed.

Lemma emptyPositionsFrom_In (rows : Grid) :
  forall row r c,
    In (r, c) (emptyPositionsFrom row rows) <->
    exists i j rw x, r = row + Z.of_nat i /\ c = Z.of_nat j /\
                     nth_error rows i = Some rw /\ nth_error rw j = Some x /\
                     value x = 0.
Proof.
  induction rows as [|rw0 rest IH]; intros row r c; simpl.
  - split; [tauto|]. intros (i & j & rw & x & _ & _ & H & _). now destruct i.
  - rewrite in_app_iff, emptyPositionsOfRow_In, IH. split.
    + intros [(-> & j & x & Hc & Hn & Hv) | (i & j & rw & x & Hr & Hc & Hi & Hj & Hv)].
      * exists 0%nat, j, rw0, x. repeat split; auto; simpl; lia.
      * exists (S i), j, rw, x. repeat split; auto. lia.
    + intros ([|i] & j & rw & x & Hr & Hc & Hi & Hj & Hv).
      * left. simpl in Hi. inversion Hi; subst rw. split; [simpl in Hr; lia|].
        exists j, x. repeat split; auto.
      * right. exists i, j, rw, x. repeat split; auto. lia.
Qed.

Lemma emptyPositions_In (g : Grid) (r c : Z) :
  In (r, c) (emptyPositions g) <-> exists x, cellAt g r c = Ret x /\ value x = 0.
Proof.
  unfold emptyPositions. rewrite emptyPositionsFrom_In. split.
  - intros (i & j & rw & x & -> & -> & Hi & Hj & Hv). exists x. split; [|assumption].
    simpl. now rewrite cellAt_of_nat, Hi, Hj.
  - intros (x & Hx & Hv). apply cellAt_Ret in Hx as (rw & Hr & Hc & Hr0 & Hc0).
    exists (Z.to_nat r), (Z.to_nat c), rw, x. repeat split; auto; lia.
Qed.

Lemma emptyPositionsOfRow_NoDup (row : Z) (cellsOfRow : list CellState) :
  forall col, NoDup (emptyPositionsOfRow row col cellsOfRow).
Proof.
  induction cellsOfRow as [|cell rest IH]; intros col; simpl; [constructor|].
  destruct (value cell =? 0); [|apply IH].
  constructor; [|apply IH].
  intros H. apply emptyPositionsOfRow_In in H as (_ & j & x & Hc & _). lia.
Qed.

Lemma emptyPositionsFrom_NoDup (rows : Grid) :
  forall row, NoDup (emptyPositionsFrom row rows).
Proof.
  induction rows as [|rw rest IH]; intros row; simpl; [constructor|].
  apply NoDup_app.
  - apply emptyPositionsOfRow_NoDup.
  - apply IH.
  - intros [r c] H1 H2.
    apply emptyPositionsOfRow_In in H1 as (-> & _).
    apply emptyPositionsFrom_In in H2 as (i & j & rw' & x & Hr & _). lia.
Qed.

Lemma firstEmptyInRow_spec (row : Z) (cellsOfRow : list CellState) :
  forall col,
    option_map (fun c => (row, c)) (firstEmptyInRow col cellsOfRow)
    = hd_error (emptyPositionsOfRow row col cellsOfRow).
Proof.
  induction cellsOfRow as [|cell rest IH]; intros col; simpl; [reflexivity|].
  destruct (value cell =? 0); [reflexivity | apply IH].
Qed.

Lemma firstEmptyFrom_spec (rows : Grid) :
  forall row, firstEmptyFrom row rows = hd_error (emptyPositionsFrom row rows).
Proof.
  induction rows as [|rw rest IH]; intros row; simpl; [reflexivity|].
  pose proof (firstEmptyInRow_spec row rw 0) as H.
  destruct (firstEmptyInRow 0 rw) as [c|]; simpl in H.
  - destruct (emptyPositionsOfRow row 0 rw); simpl in *; congruence.
  - destruct (emptyPositionsOfRow row 0 rw); simpl in *; [apply IH | discriminate].
Qed.

Lemma findFirstEmpty_spec (g : Grid) : findFirstEmpty g = hd_error (emptyPositions g).
Proof. apply firstEmptyFrom_spec. Qed.

(** Filling one empty cell leaves one empty cell fewer. *)
Lemma countEmpty_fill (g : Grid) (r c v : Z) (x : CellState) :
  cellAt g r c = Ret x -> value x = 0 -> v <> 0 ->
  (countEmpty (updGrid g r c (fillCell v)) < countEmpty g)%nat.
Proof.
  intros Hx Hv Hnz. unfold countEmpty.
  assert (Hincl : incl ((r, c) :: emptyPositions (updGrid g r c (fillCell v)))
                       (emptyPositions g)).
  { intros [r' c'] [H | H].
    - inversion H; subst. apply emptyPositions_In. eauto.
    - apply emptyPositions_In in H as (y & Hy & Hyv).
      rewrite cellAt_updGrid in Hy. apply emptyPositions_In.
      destruct (cellAt g r' c') as [z|] eqn:Ez; [|discriminate].
      destruct ((r' =? r) && (c' =? c)); inversion Hy as [Hy']; rewrite <- Hy' in Hyv.
      + simpl in Hyv. lia.
      + eauto. }
  assert (Hnd : NoDup ((r, c) :: emptyPositions (updGrid g r c (fillCell v)))).
  { constructor; [|apply emptyPositionsFrom_NoDup].
    intros H. apply emptyPositions_In in H as (y & Hy & Hyv).
    rewrite cellAt_updGrid, Hx, !Z.eqb_refl in Hy. simpl in Hy.
    inversion Hy as [Hy']. rewrite <- Hy' in Hyv. simpl in Hyv. lia. }
  exact (NoDup_incl_length Hnd Hincl).
Qed.

(** ** Reasoning about stateful code that does not throw *)

(** From every world that satisfies [P], [m] returns a value and a world
    that satisfy [Q]. *)
Definition hoare {W A} (P : W -> Prop) (m : M W A) (Q : A -> W -> Prop) : Prop :=
  forall w, P w -> exists a w', m w = (Ret a, w') /\ Q a w'.

Lemma hoare_ret {W A} (P : W -> Prop) (a : A) (Q : A -> W -> Prop) :
  (forall w, P w -> Q a w) -> hoare P (retM a) Q.
Proof. intros H w Hw. exists a, w. split; [reflexivity | auto]. Qed.

Lemma hoare_bind {W A B} (P : W -> Prop) (m : M W A) (R : A -> W -> Prop)
  (k : A -> M W B) (Q : B -> W -> Prop) :
  hoare P m R -> (forall a, hoare (R a) (k a) Q) -> hoare P (bindM m k) Q.
Proof.
  intros Hm Hk w Hw. destruct (Hm w Hw) as (a & w1 & E1 & H1).
  destruct (Hk a w1 H1) as (b & w2 & E2 & H2).
  exists b, w2. split; [|assumption]. unfold bindM. now rewrite E1.
Qed.

Lemma hoare_lift {W A} (P : W -> Prop) (o : outcome A) (a : A) (Q : A -> W -> Prop) :
  o = Ret a -> (forall w, P w -> Q a w) -> hoare P (liftM o) Q.
Proof. intros -> H w Hw. exists a, w. split; [reflexivity | auto]. Qed.

Lemma hoare_modify {W} (P : W -> Prop) (f : W -> W) (Q : unit -> W -> Prop) :
  (forall w, P w -> Q tt (f w)) -> hoare P (modifyM f) Q.
Proof. intros H w Hw. exists tt, (f w). split; [reflexivity | auto]. Qed.

Lemma hoare_gets {W A} (P : W -> Prop) (f : W -> A) (Q : A -> W -> Prop) :
  (forall w, P w -> Q (f w) w) -> hoare P (getsM f) Q.
Proof. intros H w Hw. exists (f w), w. split; [reflexivity | auto]. Qed.

Lemma hoare_conseq {W A} (P P' : W -> Prop) (m : M W A) (Q Q' : A -> W -> Prop) :
  hoare P' m Q' -> (forall w, P w -> P' w) -> (forall a w, Q' a w -> Q a w) ->
  hoare P m Q.
Proof.
  intros H HP HQ w Hw. destruct (H w (HP w Hw)) as (a & w' & E & Hq).
  exists a, w'. auto.
Qed.

Lemma hoare_pre {W A} (P : W -> Prop) (X : Prop) (m : M W A) (Q : A -> W -> Prop) :
  (X -> hoare P m Q) -> hoare (fun w => P w /\ X) m Q.
Proof. intros H w [Hw HX]. exact (H HX w Hw). Qed.

(** ** Stable sorting keeps the elements *)

Lemma insertSorted_In {A} (cmp : A -> A -> Z) (x y : A) (l : list A) :
  In y (insertSorted cmp x l) <-> y = x \/ In y l.
Proof.
  induction l as [|z l IH]; simpl.
  - split; intros [H | H]; auto.
  - destruct (cmp x z <=? 0); simpl.
    + split; intros [H | H]; auto.
    + rewrite IH. split; intros H; tauto.
Qed.

Lemma stableSort_In {A} (cmp : A -> A -> Z) (y : A) (l : list A) :
  In y (stableSort cmp l) <-> In y l.
Proof.
  induction l as [|x l IH]; simpl; [tauto|].
  rewrite insertSorted_In, IH. split; intros [H | H]; auto.
Qed.

Lemma stableSort_nil {A} (cmp : A -> A -> Z) (l : list A) :
  stableSort cmp l = [] -> l = [].
Proof.
  destruct l as [|x l]; [reflexivity|]. intros H.
  assert (In x (stableSort cmp (x :: l))) as Hin by (apply stableSort_In; now left).
  rewrite H in Hin. destruct Hin.
Qed.

(** ** Totality of the move test on well-formed regions *)

Lemma usedValuesExcept_total (g : Grid) (r c : Z) (region : Region) :
  Forall (inGrid g) (cells region) ->
  exists u, usedValuesExcept g r c region = Ret u.
Proof.
  unfold usedValuesExcept.
  assert (H : forall l acc,
             Forall (inGrid g) l ->
             exists u,
               foldM (fun usedValues rc =>
                        if coord_eqb rc (r, c) then Ret usedValues
                        else
                          match cellAt g (fst rc) (snd rc) with
                          | Throw e => Throw e
                          | Ret c =>
                              if negb (value c =? 0)
                              then Ret (Js.or usedValues (valueToBitmask (value c)))
                              else Ret usedValues
                          end) l acc = Ret u).
  { induction l as [|rc l IH]; intros acc H.
    - now exists acc.
    - inversion H as [|? ? [x Hx] Hrest]; subst. rewrite foldM_cons.
      destruct (coord_eqb rc (r, c)); [now apply IH|].
      rewrite Hx. destruct (negb (value x =? 0)); now apply IH. }
  apply H.
Qed.

Lemma regionsContaining_incl (rs : list Region) (r c : Z) (region : Region) :
  In region (regionsContaining rs r c) -> In region rs.
Proof. unfold regionsContaining. intros H. now apply filter_In in H. Qed.

Lemma isValidMove_loop_total (g : Grid) (r c v : Z) (rs : list Region) :
  regionsInGrid g rs -> exists b, isValidMove_loop g r c v rs = Ret b.
Proof.
  induction rs as [|region rs IH]; intros H; simpl; [now exists true|].
  destruct (usedValuesExcept_total g r c region (H region (or_introl eq_refl)))
    as [u ->].
  destruct (negb (Js.and u (valueToBitmask v) =? 0)); [now exists false|].
  apply IH. intros x Hx. apply H. now right.
Qed.

Lemma isValidMoveBitmask_total (g : Grid) (r c v : Z) (rs : list Region) :
  regionsInGrid g rs -> exists b, isValidMoveBitmask g r c v rs = Ret b.
Proof.
  intros H. unfold isValidMoveBitmask. destruct (v =? 0); [now exists true|].
  apply isValidMove_loop_total. intros x Hx. apply H.
  eapply regionsContaining_incl; eauto.
Qed.

Lemma Set_add_In (s : list Z) (x y : Z) : In y (Set_add s x) <-> In y s \/ y = x.
Proof.
  unfold Set_add. destruct (existsb (Z.eqb x) s) eqn:E.
  - apply existsb_exists in E as (z & Hz & Ez). apply Z.eqb_eq in Ez. subst z.
    split; [auto | intros [H | ->]; auto].
  - rewrite in_app_iff. simpl. split; intros [H | H]; auto.
    + destruct H as [H | []]. auto.
Qed.

Lemma Set_add_NoDup (s : list Z) (x : Z) : NoDup s -> NoDup (Set_add s x).
Proof.
  intros H. unfold Set_add. destruct (existsb (Z.eqb x) s) eqn:E; [assumption|].
  rewrite <- (rev_involutive (s ++ [x])). apply NoDup_rev.
  rewrite rev_app_distr. simpl. constructor; [|now apply NoDup_rev].
  rewrite <- in_rev. intros Hin.
  assert (existsb (Z.eqb x) s = true); [|congruence].
  apply existsb_exists. exists x. split; [assumption | apply Z.eqb_refl].
Qed.

Lemma Set_has_In (s : list Z) (x : Z) : Set_has s x = true <-> In x s.
Proof.
  unfold Set_has. rewrite existsb_exists. split.
  - intros (y & Hy & E). apply Z.eqb_eq in E. now subst.
  - intros H. exists x. split; [assumption | apply Z.eqb_refl].
Qed.

Lemma computeCandidates_total (g : Grid) (config : SudokuConfig) (r c : Z) :
  regionsInGrid g (regions config) ->
  exists l, computeCandidates g config r c = Ret l /\ NoDup l /\
            forall v, In v l -> In v (range1 (size config)).
Proof.
  intros Hin. unfold computeCandidates.
  assert (H : forall nums acc,
             NoDup acc ->
             exists l,
               foldM (fun candidates num =>
                        match isValidMoveBitmask g r c num (regions config) with
                        | Throw e => Throw e
                        | Ret true => Ret (Set_add candidates num)
                        | Ret false => Ret candidates
                        end) nums acc = Ret l /\
               NoDup l /\ forall v, In v l -> In v acc \/ In v nums).
  { induction nums as [|num nums IH]; intros acc Hacc.
    - exists acc. repeat split; auto.
    - rewrite foldM_cons.
      destruct (isValidMoveBitmask_total g r c num (regions config) Hin) as [b ->].
      destruct b.
      + destruct (IH (Set_add acc num) (Set_add_NoDup acc num Hacc)) as (l & E & Hnd & Hl).
        exists l. repeat split; auto. intros v Hv.
        destruct (Hl v Hv) as [H | H]; [|right; now right].
        apply Set_add_In in H as [H | ->]; [now left | right; now left].
      + destruct (IH acc Hacc) as (l & E & Hnd & Hl).
        exists l. repeat split; auto. intros v Hv.
        destruct (Hl v Hv) as [H | H]; [now left | right; now right]. }
  destruct (H (range1 (size config)) [] (NoDup_nil Z)) as (l & E & Hnd & Hl).
  exists l. repeat split; auto. intros v Hv. destruct (Hl v Hv) as [[] | Hr]; assumption.
Qed.

Lemma range1_In (n v : Z) : In v (range1 n) <-> 1 <= v <= n.
Proof.
  unfold range1. rewrite in_map_iff. split.
  - intros (k & <- & Hk). apply in_seq in Hk. lia.
  - intros H. exists (Z.to_nat v). split; [lia|]. apply in_seq. lia.
Qed.

Lemma range1_NoDup (n : Z) : NoDup (range1 n).
Proof.
  unfold range1. generalize 1%nat as lo.
  induction (Z.to_nat n) as [|k IH]; intros lo; simpl; constructor.
  - rewrite in_map_iff. intros (j & Hj & Hin). apply in_seq in Hin. lia.
  - apply IH.
Qed.

Lemma cache_get_set (cache : list (Coord * list Z)) (key key' : Coord) (l : list Z) :
  cache_get (cache_set cache key l) key' =
  if coord_eqb key key' then Some l else cache_get cache key'.
Proof.
  induction cache as [|[k v] cache IH]; simpl.
  - reflexivity.
  - destruct (coord_eqb k key) eqn:E; simpl.
    + apply coord_eqb_eq in E. subst k. destruct (coord_eqb key key'); reflexivity.
    + destruct (coord_eqb k key') eqn:E'.
      * apply coord_eqb_eq in E'. subst k.
        destruct (coord_eqb key key') eqn:E2; [|reflexivity].
        apply coord_eqb_eq in E2. subst key'. now rewrite coord_eqb_refl in E.
      * apply IH.
Qed.

(** ** Counting the valid completions of a puzzle *)

(** What may stand in a cell of a completion: the cell itself if it is
    filled, else the cell filled with a digit of 1..size. *)
Definition cellOptions (size : Z) (x : CellState) : list CellState :=
  if value x =? 0 then map (fun v => fillCell v x) (range1 size) else [x].

(** All the ways to pick one element from each list. *)
Fixpoint product {A} (options : list (list A)) : list (list A) :=
  match options with
  | [] => [[]]
  | o :: rest => flat_map (fun a => map (cons a) (product rest)) o
  end.

Definition allCompletions (size : Z) (g : Grid) : list Grid :=
  product (map (fun row => product (map (cellOptions size) row)) g).

Definition satisfies (rs : list Region) (s : Grid) : bool :=
  match validateAllRegions s rs with
  | Ret vr => isValid vr
  | Throw _ => false
  end.

(** The completions of [g] that satisfy every region of the configuration;
    its length is the number of valid completions. *)
Definition validCompletions (g : Grid) (config : SudokuConfig) : list Grid :=
  filter (satisfies (regions config)) (allCompletions (size config) g).

Lemma product_map_In {A B} (f : B -> list A) (bs : list B) :
  forall l, Forall2 (fun a b => In a (f b)) l bs -> In l (product (map f bs)).
Proof.
  induction bs as [|b rest IH]; intros l H; inversion H; subst; simpl.
  - now left.
  - apply in_flat_map. eexists. split; [eassumption|].
    apply in_map. now apply IH.
Qed.

Lemma Forall2_nth {A B} (R : A -> B -> Prop) (l : list A) :
  forall l' : list B,
    List.length l = List.length l' ->
    (forall n x y, nth_error l n = Some x -> nth_error l' n = Some y -> R x y) ->
    Forall2 R l l'.
Proof.
  induction l as [|a l IH]; intros [|b l'] Hlen H; simpl in Hlen; try discriminate.
  - constructor.
  - constructor.
    + exact (H 0%nat a b eq_refl eq_refl).
    + apply IH; [lia|]. intros n x y Hx Hy. exact (H (S n) x y Hx Hy).
Qed.

Lemma allCompletions_In (size : Z) (g s : Grid) :
  shape g = shape s ->
  (forall r c x, cellAt g r c = Ret x ->
                 exists y, cellAt s r c = Ret y /\ In y (cellOptions size x)) ->
  In s (allCompletions size g).
Proof.
  intros Hs H. unfold allCompletions. apply product_map_In.
  apply Forall2_nth.
  - unfold shape in Hs. apply (f_equal (@List.length nat)) in Hs.
    rewrite !length_map in Hs. congruence.
  - intros i srow grow Hsrow Hgrow. apply product_map_In.
    destruct (shape_nth g s i grow Hs Hgrow) as (srow' & Hsrow' & Hlen).
    assert (srow' = srow) by congruence. subst srow'.
    apply Forall2_nth; [assumption|].
    intros j y x Hy Hx.
    destruct (H (Z.of_nat i) (Z.of_nat j) x) as (y' & Hy' & Hin).
    { now rewrite cellAt_of_nat, Hgrow, Hx. }
    rewrite cellAt_of_nat, Hsrow, Hy in Hy'. inversion Hy'; subst. assumption.
Qed.

(** ** Checking the well-formedness of concrete inputs *)

Definition inGridb (g : Grid) (rc : Coord) : bool := is_ret (cellAt g (fst rc) (snd rc)).

Definition regionsInGridb (g : Grid) (rs : list Region) : bool :=
  forallb (fun region => forallb (inGridb g) (cells region)) rs.

Definition rectangularb (g : Grid) : bool :=
  forallb (fun rw => len rw =? firstRowLength g) g.

Definition emptiesNotGivenb (g : Grid) : bool :=
  forallb (forallb (fun x => negb (value x =? 0) || negb (isPuzzle x))) g.

Lemma regionsInGridb_sound (g : Grid) (rs : list Region) :
  regionsInGridb g rs = true -> regionsInGrid g rs.
Proof.
  unfold regionsInGridb. rewrite forallb_forall. intros H region Hr.
  specialize (H region Hr). rewrite forallb_forall in H.
  apply Forall_forall. intros rc Hrc. specialize (H rc Hrc).
  unfold inGridb in H. unfold inGrid.
  destruct (cellAt g (fst rc) (snd rc)) as [x|]; [now exists x | discriminate].
Qed.

Lemma rectangularb_sound (g : Grid) : rectangularb g = true -> rectangular g.
Proof.
  unfold rectangularb. rewrite forallb_forall. intros H rw Hrw.
  now apply Z.eqb_eq, H.
Qed.

Lemma emptiesNotGivenb_sound (g : Grid) :
  emptiesNotGivenb g = true ->
  forall r c x, cellAt g r c = Ret x -> value x = 0 -> isPuzzle x = false.
Proof.
  unfold emptiesNotGivenb. rewrite forallb_forall. intros H r c x Hx Hv.
  apply cellAt_Ret in Hx as (rw & Hr & Hc & _).
  specialize (H rw (nth_error_In _ _ Hr)). rewrite forallb_forall in H.
  specialize (H x (nth_error_In _ _ Hc)). rewrite Hv in H. simpl in H.
  now apply negb_true_iff in H.
Qed.

(** ** The search space of the two solvers *)

Section Search.

Variable context : Context.

(** The grid given to [solveSudoku], which the candidate closure reads. *)
Variable g0 : Grid.

Hypothesis Hclosure :
  getCandidatesForCell context = candidatesClosure g0 (config context).
Hypothesis Hregions : regionsInGrid g0 (regions (config context)).
Hypothesis Hrect : rectangular g0.
Hypothesis Hnongiven :
  forall r c x, cellAt g0 r c = Ret x -> value x = 0 -> isPuzzle x = false.
Hypothesis Hnotimeout :
  forall ts n, timeoutTimestamp context = Some ts -> now context n <= ts.
Hypothesis Hcallback :
  forall cb n ev, onProgress context = Some cb ->
                  exists r, cb n ev = Ret r /\ is_false r = false.

(** The candidates of a cell, as the closure computes them on [g0]. *)
Definition cand (r c : Z) : list Z :=
  match computeCandidates g0 (config context) r c with
  | Ret l => l
  | Throw _ => []
  end.

Lemma cand_computed (r c : Z) :
  computeCandidates g0 (config context) r c = Ret (cand r c).
Proof.
  unfold cand.
  destruct (computeCandidates_total g0 (config context) r c Hregions) as (l & -> & _).
  reflexivity.
Qed.

Lemma cand_NoDup (r c : Z) : NoDup (cand r c).
Proof.
  unfold cand.
  destruct (computeCandidates_total g0 (config context) r c Hregions) as (l & -> & H & _).
  assumption.
Qed.

Lemma cand_range (r c v : Z) : In v (cand r c) -> 1 <= v <= size (config context).
Proof.
  unfold cand.
  destruct (computeCandidates_total g0 (config context) r c Hregions) as (l & -> & _ & H).
  intros Hv. now apply range1_In, H.
Qed.

(** A cell of a search node against the same cell further down: it is
    left as it was, or it was empty and holds one of its candidates. *)
Definition cellFills (r c : Z) (x y : CellState) : Prop :=
  y = x \/ (value x = 0 /\ exists v, In v (cand r c) /\ y = fillCell v x).

(** [g'] is reached from [g] by filling empty cells with candidates. *)
Definition fills (g g' : Grid) : Prop :=
  shape g = shape g' /\
  forall r c x, cellAt g r c = Ret x ->
                exists y, cellAt g' r c = Ret y /\ cellFills r c x y.

Lemma fills_refl (g : Grid) : fills g g.
Proof. split; [reflexivity|]. intros r c x Hx. exists x. split; [assumption | now left]. Qed.

Lemma fills_trans (g1 g2 g3 : Grid) : fills g1 g2 -> fills g2 g3 -> fills g1 g3.
Proof.
  intros [S12 H12] [S23 H23]. split; [congruence|].
  intros r c x Hx. destruct (H12 r c x Hx) as (y & Hy & Fxy).
  destruct (H23 r c y Hy) as (z & Hz & Fyz). exists z. split; [assumption|].
  destruct Fxy as [-> | (Hx0 & v & Hv & ->)]; [assumption|].
  destruct Fyz as [-> | (Hy0 & _)].
  - right. split; [assumption|]. exists v. auto.
  - simpl in Hy0. apply cand_range in Hv. lia.
Qed.

Lemma fills_keepsFilled (g g' : Grid) : fills g g' -> keepsFilled g g'.
Proof.
  intros [Hs H]. split; [assumption|]. intros r c x Hx Hv.
  destruct (H r c x Hx) as (y & Hy & [-> | (H0 & _)]); [assumption | contradiction].
Qed.

Lemma fills_child (g : Grid) (r c v : Z) (x : CellState) :
  cellAt g r c = Ret x -> value x = 0 -> In v (cand r c) ->
  fills g (updGrid g r c (fillCell v)).
Proof.
  intros Hx Hv Hin. split; [symmetry; apply shape_updGrid|].
  intros r' c' y Hy. rewrite cellAt_updGrid, Hy.
  destruct ((r' =? r) && (c' =? c)) eqn:E.
  - apply andb_true_iff in E as [Er Ec]. apply Z.eqb_eq in Er, Ec. subst r' c'.
    assert (y = x) by congruence. subst y.
    eexists. split; [reflexivity|]. right. split; [assumption|]. exists v. auto.
  - eexists. split; [reflexivity|]. now left.
Qed.

(** An empty cell of a node is the cell that [g0] has there. *)
Lemma fills_empty_cell (g : Grid) (r c : Z) (x : CellState) :
  fills g0 g -> cellAt g r c = Ret x -> value x = 0 -> cellAt g0 r c = Ret x.
Proof.
  intros [Hs H] Hx Hv.
  destruct (cellAt_same_shape g g0 r c x (eq_sym Hs) Hx) as [x0 Hx0].
  destruct (H r c x0 Hx0) as (y & Hy & F).
  assert (y = x) by congruence. subst y.
  destruct F as [-> | (_ & v & Hin & ->)]; [assumption|].
  simpl in Hv. apply cand_range in Hin. lia.
Qed.

(** The solutions below a node: the complete, rule-satisfying grids that
    are reached from it. *)
Definition Sols (g s : Grid) : Prop :=
  fills g s /\ emptyPositions s = [] /\ gridOK s (regions (config context)).

Lemma Sols_value (g : Grid) (r c v : Z) (x : CellState) (s : Grid) :
  cellAt g r c = Ret x -> value x = v -> v <> 0 -> Sols g s ->
  valueAt s (r, c) = v.
Proof.
  intros Hx Hv Hnz [[_ H] _]. destruct (H r c x Hx) as (y & Hy & F).
  unfold valueAt. simpl. rewrite Hy.
  destruct F as [-> | (H0 & _)]; [assumption | lia].
Qed.

(** Below a node with an empty cell, the solutions are those below its
    children, one child per candidate of the cell. *)
Lemma Sols_split (g : Grid) (r c : Z) (x : CellState) (s : Grid) :
  cellAt g r c = Ret x -> value x = 0 ->
  (Sols g s <-> exists v, In v (cand r c) /\ Sols (updGrid g r c (fillCell v)) s).
Proof.
  intros Hx Hv. split.
  - intros [[Hs H] [Hfull Hok]].
    destruct (H r c x Hx) as (y & Hy & F).
    destruct F as [-> | (_ & v & Hin & ->)].
    + exfalso. assert (In (r, c) (emptyPositions s)) as Hin
        by (apply emptyPositions_In; eauto).
      rewrite Hfull in Hin. destruct Hin.
    + exists v. split; [assumption|]. split; [|split; assumption]. split.
      * rewrite shape_updGrid. assumption.
      * intros r' c' z Hz. rewrite cellAt_updGrid in Hz.
        destruct (cellAt g r' c') as [z0|] eqn:Ez0; [|discriminate].
        destruct ((r' =? r) && (c' =? c)) eqn:E.
        -- apply andb_true_iff in E as [Er Ec]. apply Z.eqb_eq in Er, Ec. subst r' c'.
           assert (z0 = x) by congruence. subst z0. inversion Hz; subst z.
           exists (fillCell v x). split; [assumption | now left].
        -- inversion Hz; subst z. apply (H r' c' z0 Ez0).
  - intros (v & Hin & [Hf Hrest]). split; [|assumption].
    eapply fills_trans; [|exact Hf]. eapply fills_child; eauto.
Qed.

(** Below a complete node there is the node itself, if it satisfies the
    rules, and nothing else. *)
Lemma Sols_leaf (g s : Grid) :
  emptyPositions g = [] ->
  (Sols g s <-> s = g /\ gridOK g (regions (config context))).
Proof.
  intros Hfull. split.
  - intros [[Hs H] [_ Hok]].
    assert (s = g); [|subst; auto].
    symmetry. apply grid_ext; [assumption|].
    intros r c x Hx. destruct (H r c x Hx) as (y & Hy & [-> | (H0 & _)]); [assumption|].
    exfalso. assert (In (r, c) (emptyPositions g)) as Hin
      by (apply emptyPositions_In; eauto).
    rewrite Hfull in Hin. destruct Hin.
  - intros [-> Hok]. split; [apply fills_refl | auto].
Qed.

(** *** The mutable world along the search *)

Definition cacheOK (w : World) : Prop :=
  forall key l, cache_get (candidatesCache w) key = Some l ->
                computeCandidates g0 (config context) (fst key) (snd key) = Ret l.

(** The world of an undisturbed search that has found [sols] so far. *)
Definition St (sols : list Grid) (w : World) : Prop :=
  solutions w = sols /\ interrupted w = false /\ cacheOK w.

Lemma closure_spec (sols : list Grid) (r c : Z) (x : CellState) :
  cellAt g0 r c = Ret x -> value x = 0 ->
  hoare (St sols) (candidatesClosure g0 (config context) r c)
        (fun l w => St sols w /\ l = cand r c).
Proof.
  intros Hx Hv w (Hs & Hi & Hc). unfold candidatesClosure, bindM, modifyM, liftM, getsM.
  rewrite Hx, Hv. simpl.
  destruct (cache_get (candidatesCache w) (r, c)) as [l|] eqn:E.
  - eexists. eexists. split; [reflexivity|]. split.
    + repeat split; auto.
    + apply Hc in E. simpl in E. rewrite cand_computed in E. congruence.
  - rewrite cand_computed. simpl. eexists. eexists. split; [reflexivity|].
    split; [|reflexivity]. repeat split; auto.
    intros key l. simpl. rewrite cache_get_set.
    destruct (coord_eqb (r, c) key) eqn:Ek.
    + apply coord_eqb_eq in Ek. subst key. intros H. inversion H; subst.
      apply cand_computed.
    + apply Hc.
Qed.

Lemma bump_spec (sols : list Grid) :
  hoare (St sols) (bumpAndCheckTimeout context) (fun b w => St sols w /\ b = false).
Proof.
  intros w (Hs & Hi & Hc). unfold bumpAndCheckTimeout, bindM, modifyM, getsM, retM, dateNow.
  destruct (recursionCounter w) as [n|]; simpl;
    (destruct (timeoutTimestamp context) as [ts|] eqn:Ets;
     [|eexists; eexists; split; [reflexivity|]; repeat split; auto]).
  - destruct (negb (ts =? 0) && (Z.rem (n + 1) TIMEOUT_CHECK_INTERVAL =? 0)); simpl.
    + eexists. eexists. split; [reflexivity|]. split; [repeat split; auto|].
      rewrite Z.gtb_ltb. apply Z.ltb_ge. now apply Hnotimeout.
    + eexists. eexists. split; [reflexivity|]. repeat split; auto.
  - destruct (negb (ts =? 0)); simpl.
    + eexists. eexists. split; [reflexivity|]. split; [repeat split; auto|].
      rewrite Z.gtb_ltb. apply Z.ltb_ge. now apply Hnotimeout.
    + eexists. eexists. split; [reflexivity|]. repeat split; auto.
Qed.

Lemma recordSolution_spec (sols : list Grid) (g : Grid) :
  hoare (St sols) (recordSolution context g)
        (fun stopped w => St (sols ++ [g]) w /\ stopped = false).
Proof.
  intros w (Hs & Hi & Hc). unfold recordSolution, bindM, modifyM, retM, callProgress.
  rewrite cloneGrid_id.
  destruct (onProgress context) as [cb|] eqn:Ecb; simpl.
  - destruct (Hcallback cb (progressCalls w) (Ev_solution g) eq_refl) as (res & -> & Hres).
    rewrite Hres. eexists. eexists. split; [reflexivity|].
    split; [|reflexivity]. repeat split; simpl; auto. now rewrite Hs.
  - eexists. eexists. split; [reflexivity|].
    split; [|reflexivity]. repeat split; simpl; auto. now rewrite Hs.
Qed.

Lemma notifyStep_spec (sols : list Grid) (r c v : Z) :
  hoare (St sols) (notifyStep context r c v) (fun stopped w => St sols w /\ stopped = false).
Proof.
  intros w (Hs & Hi & Hc). unfold notifyStep, bindM, modifyM, retM, callProgress.
  destruct (onProgress context) as [cb|] eqn:Ecb.
  - destruct (Hcallback cb (progressCalls w) (Ev_step r c v) eq_refl) as (res & -> & Hres).
    rewrite Hres. eexists. eexists. split; [reflexivity|].
    split; [|reflexivity]. repeat split; simpl; auto.
  - eexists. eexists. split; [reflexivity|].
    split; [|reflexivity]. repeat split; simpl; auto.
Qed.

Lemma incr_backtracks_St (sols : list Grid) (w : World) :
  St sols w -> St sols (incr_backtracks w).
Proof. intros (Hs & Hi & Hc). repeat split; auto. Qed.

Lemma incr_assignments_St (sols : list Grid) (w : World) :
  St sols w -> St sols (incr_assignments w).
Proof. intros (Hs & Hi & Hc). repeat split; auto. Qed.

(** *** Cell selection *)

Lemma calculateConstraintDegree_total (g : Grid) (r c : Z) :
  regionsInGrid g (regions (config context)) ->
  exists d, calculateConstraintDegree g (config context) r c = Ret d.
Proof.
  intros Hin. unfold calculateConstraintDegree.
  destruct (len (regions (config context)) =? 0); [now exists 0|].
  assert (Hinner : forall l acc,
             Forall (inGrid g) l ->
             exists acc',
               foldM (fun affectedCells rc =>
                        if negb (coord_eqb rc (r, c)) then
                          match cellAt g (fst rc) (snd rc) with
                          | Throw e => Throw e
                          | Ret c => if value c =? 0 then Ret (affectedCells ++ [rc])
                                     else Ret affectedCells
                          end
                        else Ret affectedCells) l acc = Ret acc').
  { induction l as [|rc l IH]; intros acc H.
    - now exists acc.
    - inversion H as [|? ? [x Hx] Hrest]; subst. rewrite foldM_cons.
      destruct (negb (coord_eqb rc (r, c))); [|now apply IH].
      rewrite Hx. destruct (value x =? 0); now apply IH. }
  assert (Houter : forall rs acc,
             regionsInGrid g rs ->
             exists acc',
               foldM (fun affectedCells region =>
                        foldM (fun affectedCells rc =>
                                 if negb (coord_eqb rc (r, c)) then
                                   match cellAt g (fst rc) (snd rc) with
                                   | Throw e => Throw e
                                   | Ret c => if value c =? 0 then Ret (affectedCells ++ [rc])
                                              else Ret affectedCells
                                   end
                                 else Ret affectedCells) (cells region) affectedCells)
                     rs acc = Ret acc').
  { induction rs as [|region rs IH]; intros acc H.
    - now exists acc.
    - rewrite foldM_cons.
      destruct (Hinner (cells region) acc (H region (or_introl eq_refl))) as [acc1 ->].
      apply IH. intros x Hx. apply H. now right. }
  destruct (Houter (regionsContaining (regions (config context)) r c) []) as [acc ->].
  { intros x Hx. apply Hin. eapply regionsContaining_incl; eauto. }
  eexists. reflexivity.
Qed.

(** Two records that name the same cell with the same candidates. *)
Definition sameCell (a b : CellCandidateInfo) : Prop :=
  i_row a = i_row b /\ i_col a = i_col b /\ i_candidates a = i_candidates b.

Lemma breakTies_spec (g : Grid) (tied : list CellCandidateInfo) :
  regionsInGrid g (regions (config context)) -> tied <> [] ->
  exists selected,
    breakTiesByDegreeHeuristic g (config context) tied = Ret selected /\
    exists info, In info tied /\ sameCell selected info.
Proof.
  intros Hin Hne. unfold breakTiesByDegreeHeuristic.
  assert (Hmap : forall l,
             exists l',
               mapM (fun cell =>
                       match calculateConstraintDegree g (config context)
                               (i_row cell) (i_col cell) with
                       | Throw e => Throw e
                       | Ret d => Ret (mkInfo (i_row cell) (i_col cell) (i_candidates cell)
                                              (i_count cell) (Some d))
                       end) l = Ret l' /\
               (l = [] <-> l' = []) /\
               forall y, In y l' -> exists x, In x l /\ sameCell y x).
  { induction l as [|a l IH].
    - exists []. repeat split; auto. intros y [].
    - simpl.
      destruct (calculateConstraintDegree_total g (i_row a) (i_col a) Hin) as [d ->].
      destruct IH as (l' & -> & _ & Hl'). eexists. split; [reflexivity|].
      split; [split; discriminate|].
      intros y [<- | Hy].
      + exists a. split; [now left | repeat split].
      + destruct (Hl' y Hy) as (x & Hx & Hs). exists x. split; [now right | assumption]. }
  destruct (Hmap tied) as (tied' & -> & Hnil & Hrel).
  destruct (stableSort (fun a b => degreeOrZero b - degreeOrZero a) tied')
    as [|selected rest] eqn:Es.
  - apply stableSort_nil in Es. apply Hnil in Es. contradiction.
  - exists selected. split; [reflexivity|]. apply Hrel.
    apply (stableSort_In (fun a b => degreeOrZero b - degreeOrZero a)).
    rewrite Es. now left.
Qed.

(** The record that [getAllEmptyCellsCandidates] builds for an empty cell. *)
Definition infoOf (rc : Coord) : CellCandidateInfo :=
  mkInfo (fst rc) (snd rc) (cand (fst rc) (snd rc)) (len (cand (fst rc) (snd rc))) None.

Definition emptyInG0 (rc : Coord) : Prop :=
  exists x, cellAt g0 (fst rc) (snd rc) = Ret x /\ value x = 0.

Lemma emptyCellsOfRow_spec (sols : list Grid) (row : Z) (cellsOfRow : list CellState) :
  forall col,
    (forall rc, In rc (emptyPositionsOfRow row col cellsOfRow) -> emptyInG0 rc) ->
    hoare (St sols)
          (emptyCellsOfRow (candidatesClosure g0 (config context)) row col cellsOfRow)
          (fun infos w => St sols w /\
                          infos = map infoOf (emptyPositionsOfRow row col cellsOfRow)).
Proof.
  induction cellsOfRow as [|cell rest IH]; intros col Hempty; simpl.
  - apply hoare_ret. auto.
  - simpl in Hempty. destruct (value cell =? 0).
    + destruct (Hempty (row, col) (or_introl eq_refl)) as (x & Hx & Hv).
      eapply hoare_bind; [exact (closure_spec sols row col x Hx Hv)|].
      intros l. apply hoare_pre. intros ->.
      eapply hoare_bind; [apply (IH (col + 1)); intros rc Hrc; apply Hempty; now right|].
      intros more. apply hoare_pre. intros ->.
      apply hoare_ret. intros w Hw. split; [assumption | reflexivity].
    + apply IH. assumption.
Qed.

Lemma emptyCellsFrom_spec (sols : list Grid) (rows : Grid) :
  forall row,
    (forall rc, In rc (emptyPositionsFrom row rows) -> emptyInG0 rc) ->
    hoare (St sols)
          (emptyCellsFrom (candidatesClosure g0 (config context)) row rows)
          (fun infos w => St sols w /\
                          infos = map infoOf (emptyPositionsFrom row rows)).
Proof.
  induction rows as [|rw rest IH]; intros row Hempty; simpl.
  - apply hoare_ret. auto.
  - simpl in Hempty.
    eapply hoare_bind.
    { apply (emptyCellsOfRow_spec sols row rw 0).
      intros rc Hrc. apply Hempty. apply in_app_iff. now left. }
    intros here. apply hoare_pre. intros ->.
    eapply hoare_bind.
    { apply (IH (row + 1)). intros rc Hrc. apply Hempty. apply in_app_iff. now right. }
    intros more. apply hoare_pre. intros ->.
    apply hoare_ret. intros w Hw. split; [assumption|]. now rewrite map_app.
Qed.

Lemma selectCellWithMRV_spec (sols : list Grid) (g : Grid) :
  fills g0 g ->
  hoare (St sols)
        (selectCellWithMRV g (config context) (getCandidatesForCell context))
        (fun res w =>
           St sols w /\
           match res with
           | None => emptyPositions g = []
           | Some info =>
               In (i_row info, i_col info) (emptyPositions g) /\
               i_candidates info = cand (i_row info) (i_col info)
           end).
Proof.
  intros Hf. rewrite Hclosure. unfold selectCellWithMRV, getAllEmptyCellsCandidates.
  eapply hoare_bind.
  { apply (emptyCellsFrom_spec sols g 0). intros [r c] Hrc.
    apply emptyPositions_In in Hrc as (x & Hx & Hv). exists x. split; [|assumption].
    simpl. eapply fills_empty_cell; eauto. }
  intros infos. apply hoare_pre. intros ->.
  fold (emptyPositions g).
  assert (Hinfo : forall info, In info (map infoOf (emptyPositions g)) ->
                               In (i_row info, i_col info) (emptyPositions g) /\
                               i_candidates info = cand (i_row info) (i_col info)).
  { intros info Hin. apply in_map_iff in Hin as ([r c] & <- & Hrc). simpl. auto. }
  destruct (map infoOf (emptyPositions g)) as [|i0 infos] eqn:Einfos.
  - apply hoare_ret. intros w Hw. split; [assumption|].
    destruct (emptyPositions g); [reflexivity | discriminate].
  - set (sorted := stableSort (fun a b => i_count a - i_count b) (i0 :: infos)).
    assert (Hsorted : forall info, In info sorted ->
                                   In (i_row info, i_col info) (emptyPositions g) /\
                                   i_candidates info = cand (i_row info) (i_col info)).
    { intros info Hin. apply Hinfo. unfold sorted in Hin.
      now apply stableSort_In in Hin. }
    destruct sorted as [|first rest] eqn:Esorted.
    + exfalso. unfold sorted in Esorted. apply stableSort_nil in Esorted. discriminate.
    + destruct (i_count first =? 0).
      * apply hoare_ret. intros w Hw. split; [assumption|]. apply Hsorted. now left.
      * set (mrvCells := filter (fun cell => i_count cell =? i_count first) (first :: rest)).
        assert (Hmrv : forall info, In info mrvCells ->
                                    In (i_row info, i_col info) (emptyPositions g) /\
                                    i_candidates info = cand (i_row info) (i_col info)).
        { intros info Hin. apply Hsorted. unfold mrvCells in Hin.
          now apply filter_In in Hin. }
        assert (Hne : mrvCells <> []).
        { unfold mrvCells. simpl. rewrite Z.eqb_refl. discriminate. }
        assert (Hties : hoare (St sols)
                  (bindM (liftM (breakTiesByDegreeHeuristic g (config context) mrvCells))
                         (fun selected => retM (Some selected)))
                  (fun res w =>
                     St sols w /\
                     match res with
                     | None => emptyPositions g = []
                     | Some info =>
                         In (i_row info, i_col info) (emptyPositions g) /\
                         i_candidates info = cand (i_row info) (i_col info)
                     end)).
        { destruct (breakTies_spec g mrvCells) as (sel & Esel & info & Hin & Hsame); auto.
          { eapply regionsInGrid_shape; [|exact Hregions]. apply Hf. }
          eapply hoare_bind with (R := fun a w => St sols w /\ a = sel).
          - eapply hoare_lift; [exact Esel | auto].
          - intros a. apply hoare_pre. intros ->. apply hoare_ret.
            intros w Hw. split; [assumption|].
            destruct Hsame as (Hr & Hc & Hcand). rewrite Hr, Hc, Hcand.
            now apply Hmrv. }
        destruct mrvCells as [|sel [|y ys]].
        -- contradiction.
        -- apply hoare_ret. intros w Hw. split; [assumption|]. apply Hmrv. now left.
        -- exact Hties.
Qed.

(** *** The search with the MRV heuristic *)

Hypothesis HfindAll : findAllSolutions context = true.

(** What a search below node [g] leaves behind when it started with the
    solutions [sols]: it has added solutions below [g], each once; and it
    has added all of them unless the solution cap is reached. *)
Definition Post (g : Grid) (sols : list Grid) (w : World) : Prop :=
  exists new,
    St (sols ++ new) w /\ NoDup new /\
    (forall s, In s new -> Sols g s) /\
    (len (sols ++ new) >= maxSolutions context \/ forall s, Sols g s -> In s new).

Lemma fills_regionsInGrid (g : Grid) :
  fills g0 g -> regionsInGrid g (regions (config context)).
Proof. intros [Hs _]. eapply regionsInGrid_shape; eauto. Qed.

Lemma fills_rectangular (g : Grid) : fills g0 g -> rectangular g.
Proof. intros [Hs _]. eapply rectangular_shape; eauto. Qed.

Lemma child_setCellValue (g : Grid) (r c v : Z) (x : CellState) :
  fills g0 g -> cellAt g r c = Ret x -> value x = 0 ->
  setCellValue g r c v false = Ret (updGrid g r c (fillCell v)).
Proof.
  intros Hf Hx Hv. apply (setCellValue_fill g r c v x); auto.
  - now apply fills_rectangular.
  - apply (Hnongiven r c); [|assumption]. eapply fills_empty_cell; eauto.
Qed.

Lemma Sols_child_value (g : Grid) (r c v : Z) (x : CellState) (s : Grid) :
  cellAt g r c = Ret x -> In v (cand r c) ->
  Sols (updGrid g r c (fillCell v)) s -> valueAt s (r, c) = v.
Proof.
  intros Hx Hv Hs.
  apply (Sols_value (updGrid g r c (fillCell v)) r c v (fillCell v x)); auto.
  - rewrite cellAt_updGrid, Hx, !Z.eqb_refl. reflexivity.
  - apply cand_range in Hv. lia.
Qed.

Lemma Post_leaf_invalid (g : Grid) (sols : list Grid) (w : World) :
  St sols w -> (forall s, ~ Sols g s) -> Post g sols w.
Proof.
  intros Hw Hnone. exists []. rewrite app_nil_r.
  split; [assumption|]. split; [constructor|]. split; [intros s []|].
  right. intros s Hs. now apply Hnone in Hs.
Qed.

Lemma Post_leaf_valid (g : Grid) (sols : list Grid) (w : World) :
  St (sols ++ [g]) w -> emptyPositions g = [] ->
  gridOK g (regions (config context)) -> Post g sols w.
Proof.
  intros Hw Hfull Hok. exists [g].
  split; [assumption|]. split; [constructor; [intros [] | constructor]|]. split.
  - intros s [<- | []]. apply Sols_leaf; auto.
  - right. intros s Hs. apply Sols_leaf in Hs as [-> _]; [now left | assumption].
Qed.

Lemma mrv_spec (stack : nat) :
  forall g sols,
    fills g0 g -> (countEmpty g < stack)%nat ->
    hoare (St sols) (solveWithBacktracking stack context g) (fun _ w => Post g sols w).
Proof.
  induction stack as [|stack' IH]; intros g sols Hf Hdepth; [lia|].
  simpl.
  eapply hoare_bind; [apply bump_spec|]. intros timedOut. apply hoare_pre. intros ->.
  eapply hoare_bind with (R := fun a w => St sols w /\ a = false).
  { apply hoare_gets. intros w Hw. split; [assumption | apply Hw]. }
  intros isInterrupted. apply hoare_pre. intros ->.
  eapply hoare_bind; [apply (selectCellWithMRV_spec sols g Hf)|].
  intros [info|]; apply hoare_pre.
  - intros [Hin Hcand]. apply emptyPositions_In in Hin as (x & Hx & Hv).
    set (r := i_row info) in *. set (c := i_col info) in *.
    destruct (len (i_candidates info) =? 0) eqn:Elen.
    + eapply hoare_bind with (R := fun _ w => St sols w).
      { apply hoare_modify. intros w Hw. now apply incr_backtracks_St. }
      intros _. apply hoare_ret. intros w Hw. apply Post_leaf_invalid; [assumption|].
      intros s Hs. apply (Sols_split g r c x s Hx Hv) in Hs as (v & Hvin & _).
      rewrite <- Hcand in Hvin. apply len_zero_nil in Elen. rewrite Elen in Hvin.
      destruct Hvin.
    + rewrite Hcand.
      assert (Hloop : forall vs sols',
                 (forall v, In v vs -> In v (cand r c)) -> NoDup vs ->
                 hoare (St sols')
                   ((fix tryCandidates (candidates : list Z) : M World bool :=
                       match candidates with
                       | [] => bindM (modifyM incr_backtracks) (fun _ => retM false)
                       | val :: rest =>
                           bindM (liftM (setCellValue g r c val false)) (fun newGrid =>
                           bindM (modifyM incr_assignments) (fun _ =>
                           bindM (notifyStep context r c val) (fun stopped =>
                           if stopped then retM false
                           else
                             bindM (solveWithBacktracking stack' context newGrid)
                               (fun solved =>
                                  if solved && negb (findAllSolutions context) then retM true
                                  else
                                    bindM (getsM (mustStop context)) (fun stop =>
                                    if stop then retM false else tryCandidates rest)))))
                       end) vs)
                   (fun _ w =>
                      exists new,
                        St (sols' ++ new) w /\ NoDup new /\
                        (forall s, In s new ->
                                   exists v, In v vs /\ Sols (updGrid g r c (fillCell v)) s) /\
                        (len (sols' ++ new) >= maxSolutions context \/
                         forall v s, In v vs -> Sols (updGrid g r c (fillCell v)) s ->
                                     In s new))).
      { induction vs as [|v rest IHvs]; intros sols' Hsub Hnd.
        - eapply hoare_bind with (R := fun _ w => St sols' w).
          { apply hoare_modify. intros w Hw. now apply incr_backtracks_St. }
          intros _. apply hoare_ret. intros w Hw. exists []. rewrite app_nil_r.
          split; [assumption|]. split; [constructor|]. split; [intros s []|].
          right. intros v s [].
        - assert (Hv_in : In v (cand r c)) by (apply Hsub; now left).
          inversion Hnd as [|? ? Hnotin Hnd']; subst.
          eapply hoare_bind with
            (R := fun a w => St sols' w /\ a = updGrid g r c (fillCell v)).
          { eapply hoare_lift; [apply (child_setCellValue g r c v x); auto | auto]. }
          intros newGrid. apply hoare_pre. intros ->.
          eapply hoare_bind with (R := fun _ w => St sols' w).
          { apply hoare_modify. intros w Hw. now apply incr_assignments_St. }
          intros _.
          eapply hoare_bind; [apply notifyStep_spec|].
          intros stopped. apply hoare_pre. intros ->.
          eapply hoare_bind.
          { apply (IH (updGrid g r c (fillCell v)) sols').
            - eapply fills_trans; [exact Hf|]. eapply fills_child; eauto.
            - pose proof (countEmpty_fill g r c v x Hx Hv) as Hlt.
              apply cand_range in Hv_in. lia. }
          intros solved.
          replace (solved && negb (findAllSolutions context)) with false
            by (rewrite HfindAll; now rewrite andb_false_r).
          intros w (new1 & Hw1 & Hnd1 & Hsound1 & Hcomp1).
          unfold bindM at 1, getsM at 1.
          assert (Hstop : mustStop context w = (len (sols' ++ new1) >=? maxSolutions context)).
          { unfold mustStop. destruct Hw1 as (-> & -> & _). reflexivity. }
          rewrite Hstop.
          destruct (len (sols' ++ new1) >=? maxSolutions context) eqn:Ecap.
          + eexists. eexists. split; [reflexivity|].
            exists new1. split; [assumption|]. split; [assumption|]. split.
            * intros s Hs. exists v. split; [now left | auto].
            * left. rewrite Z.geb_leb in Ecap. apply Z.leb_le in Ecap. lia.
          + assert (Hcomplete : forall s, Sols (updGrid g r c (fillCell v)) s -> In s new1).
            { destruct Hcomp1 as [Hcap | Hall]; [|assumption].
              rewrite Z.geb_leb in Ecap. apply Z.leb_gt in Ecap. lia. }
            destruct (IHvs (sols' ++ new1)
                           (fun u Hu => Hsub u (or_intror Hu)) Hnd' w Hw1)
              as (b & w' & Erun & new2 & Hw2 & Hnd2 & Hsound2 & Hcomp2).
            exists b, w'. split; [exact Erun|].
            exists (new1 ++ new2). rewrite app_assoc.
            split; [assumption|]. split; [|split].
            * apply NoDup_app; auto.
              intros s Hs1 Hs2. apply Hsound1 in Hs1.
              destruct (Hsound2 s Hs2) as (u & Hu & Hsu).
              pose proof (Sols_child_value g r c v x s Hx Hv_in Hs1) as E1.
              pose proof (Sols_child_value g r c u x s Hx (Hsub u (or_intror Hu)) Hsu) as E2.
              apply Hnotin. congruence.
            * intros s Hs. apply in_app_iff in Hs as [Hs | Hs].
              -- exists v. split; [now left | auto].
              -- destruct (Hsound2 s Hs) as (u & Hu & Hsu). exists u. split; [now right | auto].
            * destruct Hcomp2 as [Hcap | Hall]; [left; assumption|].
              right. intros u s [<- | Hu] Hsu; apply in_app_iff.
              -- left. auto.
              -- right. eauto. }
      eapply hoare_conseq; [apply (Hloop (cand r c) sols (fun v H => H) (cand_NoDup r c)) | auto |].
      intros b w (new & Hw & Hnd & Hsound & Hcomp). exists new.
      split; [assumption|]. split; [assumption|]. split.
      * intros s Hs. destruct (Hsound s Hs) as (v & Hvin & Hsv).
        apply (Sols_split g r c x s Hx Hv). eauto.
      * destruct Hcomp as [Hcap | Hall]; [now left | right].
        intros s Hs. apply (Sols_split g r c x s Hx Hv) in Hs as (v & Hvin & Hsv). eauto.
  - intros Hfull.
    destruct (validateAllRegions_spec g (regions (config context))
                (fills_regionsInGrid g Hf)) as (vr & Evr & Hvr).
    eapply hoare_bind with (R := fun a w => St sols w /\ a = vr).
    { eapply hoare_lift; [exact Evr | auto]. }
    intros validation. apply hoare_pre. intros ->.
    destruct (isValid vr) eqn:Evalid; simpl.
    + eapply hoare_bind; [apply recordSolution_spec|].
      intros stopped. apply hoare_pre. intros ->.
      eapply hoare_bind with (R := fun _ w => St (sols ++ [g]) w).
      { apply hoare_gets. auto. }
      intros count.
      assert (Hok : gridOK g (regions (config context))) by now apply Hvr.
      destruct (count >=? maxSolutions context);
        apply hoare_ret; intros w Hw; now apply Post_leaf_valid.
    + eapply hoare_bind with (R := fun _ w => St sols w).
      { apply hoare_modify. intros w Hw. now apply incr_backtracks_St. }
      intros _. apply hoare_ret. intros w Hw. apply Post_leaf_invalid; [assumption|].
      intros s Hs. apply Sols_leaf in Hs as [_ Hok]; [|assumption].
      apply Hvr in Hok. congruence.
Qed.

(** *** The simple search *)

Lemma simple_spec (stack : nat) :
  forall g sols,
    fills g0 g -> (countEmpty g < stack)%nat ->
    hoare (St sols) (solveWithSimpleBacktracking stack context g)
          (fun b w => b = false /\ Post g sols w).
Proof.
  induction stack as [|stack' IH]; intros g sols Hf Hdepth; [lia|].
  simpl.
  eapply hoare_bind; [apply bump_spec|]. intros timedOut. apply hoare_pre. intros ->.
  eapply hoare_bind with (R := fun a w => St sols w /\ a = false).
  { apply hoare_gets. intros w Hw. split; [assumption | apply Hw]. }
  intros isInterrupted. apply hoare_pre. intros ->.
  destruct (validateAllRegions_spec g (regions (config context))
              (fills_regionsInGrid g Hf)) as (vr & Evr & Hvr).
  eapply hoare_bind with (R := fun a w => St sols w /\ a = vr).
  { eapply hoare_lift; [exact Evr | auto]. }
  intros validation. apply hoare_pre. intros ->.
  destruct (isValid vr) eqn:Evalid; simpl.
  2:{ eapply hoare_bind with (R := fun _ w => St sols w).
      { apply hoare_modify. intros w Hw. now apply incr_backtracks_St. }
      intros _. apply hoare_ret. intros w Hw. split; [reflexivity|].
      apply Post_leaf_invalid; [assumption|].
      intros s [Hfs [_ Hoks]].
      assert (gridOK g (regions (config context))) as Hok.
      { eapply gridOK_keepsFilled; [|exact Hoks]. now apply fills_keepsFilled. }
      apply Hvr in Hok. congruence. }
  assert (Hok : gridOK g (regions (config context))) by now apply Hvr.
  rewrite findFirstEmpty_spec.
  destruct (emptyPositions g) as [|[r c] others] eqn:Eempty; simpl.
  - eapply hoare_bind with (R := fun a w => St sols w /\ a = vr).
    { eapply hoare_lift; [exact Evr | auto]. }
    intros validation. apply hoare_pre. intros ->. rewrite Evalid. simpl.
    eapply hoare_bind; [apply recordSolution_spec|].
    intros stopped. apply hoare_pre. intros ->.
    apply hoare_ret. intros w Hw. split; [now rewrite HfindAll|].
    now apply Post_leaf_valid.
  - assert (Hin : In (r, c) (emptyPositions g)) by (rewrite Eempty; now left).
    apply emptyPositions_In in Hin as (x & Hx & Hv).
    assert (Hloop : forall nums sols',
               NoDup nums ->
               hoare (St sols')
                 ((fix tryNumbers (nums : list Z) : M World bool :=
                     match nums with
                     | [] => bindM (modifyM incr_backtracks) (fun _ => retM false)
                     | num :: rest =>
                         bindM (getCandidatesForCell context r c) (fun candidates =>
                         if negb (Set_has candidates num) then tryNumbers rest
                         else
                           bindM (liftM (setCellValue g r c num false)) (fun newGrid =>
                           bindM (modifyM incr_assignments) (fun _ =>
                           bindM (notifyStep context r c num) (fun stopped =>
                           if stopped then retM false
                           else
                             bindM (solveWithSimpleBacktracking stack' context newGrid)
                               (fun solved =>
                                  if solved then retM true
                                  else
                                    bindM (getsM (mustStop context)) (fun stop =>
                                    if stop then retM false else tryNumbers rest))))))
                     end) nums)
                 (fun b w =>
                    b = false /\
                    exists new,
                      St (sols' ++ new) w /\ NoDup new /\
                      (forall s, In s new ->
                                 exists v, In v nums /\ In v (cand r c) /\
                                           Sols (updGrid g r c (fillCell v)) s) /\
                      (len (sols' ++ new) >= maxSolutions context \/
                       forall v s, In v nums -> In v (cand r c) ->
                                   Sols (updGrid g r c (fillCell v)) s -> In s new))).
    { induction nums as [|v rest IHnums]; intros sols' Hnd.
      - eapply hoare_bind with (R := fun _ w => St sols' w).
        { apply hoare_modify. intros w Hw. now apply incr_backtracks_St. }
        intros _. apply hoare_ret. intros w Hw. split; [reflexivity|].
        exists []. rewrite app_nil_r.
        split; [assumption|]. split; [constructor|]. split; [intros s []|].
        right. intros v s [].
      - inversion Hnd as [|? ? Hnotin Hnd']; subst.
        eapply hoare_bind.
        { rewrite Hclosure. apply (closure_spec sols' r c x); [|assumption].
          eapply fills_empty_cell; eauto. }
        intros candidates. apply hoare_pre. intros ->.
        destruct (Set_has (cand r c) v) eqn:Ehas; simpl.
        + assert (Hv_in : In v (cand r c)) by now apply Set_has_In.
          eapply hoare_bind with
            (R := fun a w => St sols' w /\ a = updGrid g r c (fillCell v)).
          { eapply hoare_lift; [apply (child_setCellValue g r c v x); auto | auto]. }
          intros newGrid. apply hoare_pre. intros ->.
          eapply hoare_bind with (R := fun _ w => St sols' w).
          { apply hoare_modify. intros w Hw. now apply incr_assignments_St. }
          intros _.
          eapply hoare_bind; [apply notifyStep_spec|].
          intros stopped. apply hoare_pre. intros ->.
          eapply hoare_bind.
          { apply (IH (updGrid g r c (fillCell v)) sols').
            - eapply fills_trans; [exact Hf|]. eapply fills_child; eauto.
            - pose proof (countEmpty_fill g r c v x Hx Hv) as Hlt.
              apply cand_range in Hv_in. lia. }
          intros solved w (-> & new1 & Hw1 & Hnd1 & Hsound1 & Hcomp1).
          unfold bindM at 1, getsM at 1.
          assert (Hstop : mustStop context w = (len (sols' ++ new1) >=? maxSolutions context)).
          { unfold mustStop. destruct Hw1 as (-> & -> & _). reflexivity. }
          rewrite Hstop.
          destruct (len (sols' ++ new1) >=? maxSolutions context) eqn:Ecap.
          * eexists. eexists. split; [reflexivity|]. split; [reflexivity|].
            exists new1. split; [assumption|]. split; [assumption|]. split.
            -- intros s Hs. exists v. split; [now left | auto].
            -- left. rewrite Z.geb_leb in Ecap. apply Z.leb_le in Ecap. lia.
          * assert (Hcomplete : forall s, Sols (updGrid g r c (fillCell v)) s -> In s new1).
            { destruct Hcomp1 as [Hcap | Hall]; [|assumption].
              rewrite Z.geb_leb in Ecap. apply Z.leb_gt in Ecap. lia. }
            destruct (IHnums (sols' ++ new1) Hnd' w Hw1)
              as (b & w' & Erun & -> & new2 & Hw2 & Hnd2 & Hsound2 & Hcomp2).
            exists false, w'. split; [exact Erun|]. split; [reflexivity|].
            exists (new1 ++ new2). rewrite app_assoc.
            split; [assumption|]. split; [|split].
            -- apply NoDup_app; auto.
               intros s Hs1 Hs2. apply Hsound1 in Hs1.
               destruct (Hsound2 s Hs2) as (u & Hu & Hucand & Hsu).
               pose proof (Sols_child_value g r c v x s Hx Hv_in Hs1) as E1.
               pose proof (Sols_child_value g r c u x s Hx Hucand Hsu) as E2.
               apply Hnotin. congruence.
            -- intros s Hs. apply in_app_iff in Hs as [Hs | Hs].
               ++ exists v. split; [now left | auto].
               ++ destruct (Hsound2 s Hs) as (u & Hu & Hucand & Hsu).
                  exists u. split; [now right | auto].
            -- destruct Hcomp2 as [Hcap | Hall]; [left; assumption|].
               right. intros u s [<- | Hu] Hucand Hsu; apply in_app_iff.
               ++ left. auto.
               ++ right. eauto.
        + assert (Hv_out : ~ In v (cand r c)).
          { intros Hin. apply Set_has_In in Hin. congruence. }
          eapply hoare_conseq; [apply (IHnums sols' Hnd') | auto |].
          intros b w (-> & new & Hw & Hndn & Hsound & Hcomp). split; [reflexivity|].
          exists new. split; [assumption|]. split; [assumption|]. split.
          * intros s Hs. destruct (Hsound s Hs) as (u & Hu & Hrest).
            exists u. split; [now right | assumption].
          * destruct Hcomp as [Hcap | Hall]; [now left | right].
            intros u s [<- | Hu] Hucand Hsu; [contradiction | eauto]. }
    eapply hoare_conseq;
      [apply (Hloop (range1 (size (config context))) sols (range1_NoDup _)) | auto |].
    intros b w (-> & new & Hw & Hnd & Hsound & Hcomp). split; [reflexivity|].
    exists new. split; [assumption|]. split; [assumption|]. split.
    + intros s Hs. destruct (Hsound s Hs) as (v & _ & Hvin & Hsv).
      apply (Sols_split g r c x s Hx Hv). eauto.
    + destruct Hcomp as [Hcap | Hall]; [now left | right].
      intros s Hs. apply (Sols_split g r c x s Hx Hv) in Hs as (v & Hvin & Hsv).
      apply (Hall v s); auto. apply range1_In. now apply (cand_range r c).
Qed.

(** *** Both searches find every valid completion *)

Lemma Sols_validCompletion (s : Grid) :
  Sols g0 s -> In s (validCompletions g0 (config context)).
Proof.
  intros [Hf [Hfull Hok]]. unfold validCompletions. apply filter_In. split.
  - apply allCompletions_In; [apply Hf|].
    intros r c x Hx. destruct (proj2 Hf r c x Hx) as (y & Hy & F).
    exists y. split; [assumption|]. unfold cellOptions.
    destruct F as [-> | (Hx0 & v & Hv & ->)].
    + destruct (value x =? 0) eqn:E; [|now left].
      exfalso. apply Z.eqb_eq in E.
      assert (In (r, c) (emptyPositions s)) as Hin by (apply emptyPositions_In; eauto).
      rewrite Hfull in Hin. destruct Hin.
    + rewrite Hx0. simpl. apply (in_map (fun u => fillCell u x)).
      apply range1_In. now apply (cand_range r c).
  - unfold satisfies.
    destruct (validateAllRegions_spec s (regions (config context))
                (fills_regionsInGrid s Hf)) as (vr & -> & Hvr).
    now apply Hvr.
Qed.

Lemma Post_all (w : World) :
  len (validCompletions g0 (config context)) <= maxSolutions context ->
  Post g0 [] w -> forall s, In s (solutions w) <-> Sols g0 s.
Proof.
  intros Hbound (new & Hw & Hnd & Hsound & Hcomp) s.
  destruct Hw as (Hsol & _). simpl in Hsol. rewrite Hsol.
  split; [apply Hsound|].
  destruct Hcomp as [Hcap | Hall]; [|apply Hall].
  intros Hs. apply Sols_validCompletion in Hs. revert s Hs.
  apply NoDup_length_incl; [assumption | |].
  - simpl in Hcap. unfold len in *. lia.
  - intros s Hs. apply Sols_validCompletion. now apply Hsound.
Qed.

(** C3. With [findAllSolutions] on, a solution cap no smaller than the
    number of valid completions, a deadline that never passes and a
    callback that never stops the search, the search with the MRV heuristic
    and the simple search both run to completion on a well-formed puzzle
    (regions inside a rectangular grid, empty cells that are not givens,
    enough stack for one frame per empty cell) and collect the same set of
    solution grids. *)
Theorem solvers_collect_same_solutions (stack : nat) (w0 : World) :
  len (validCompletions g0 (config context)) <= maxSolutions context ->
  (countEmpty g0 < stack)%nat ->
  solutions w0 = [] -> interrupted w0 = false -> candidatesCache w0 = [] ->
  exists b1 w1 b2 w2,
    solveWithBacktracking stack context (cloneGrid g0) w0 = (Ret b1, w1) /\
    solveWithSimpleBacktracking stack context (cloneGrid g0) w0 = (Ret b2, w2) /\
    forall s, In s (solutions w1) <-> In s (solutions w2).
Proof.
  intros Hbound Hdepth Hsol Hint Hcache.
  assert (Hw0 : St [] w0).
  { repeat split; auto. intros key l. rewrite Hcache. discriminate. }
  rewrite cloneGrid_id.
  destruct (mrv_spec stack g0 [] (fills_refl g0) Hdepth w0 Hw0) as (b1 & w1 & E1 & P1).
  destruct (simple_spec stack g0 [] (fills_refl g0) Hdepth w0 Hw0)
    as (b2 & w2 & E2 & _ & P2).
  exists b1, w1, b2, w2. split; [assumption|]. split; [assumption|].
  intros s. rewrite (Post_all w1 Hbound P1 s), (Post_all w2 Hbound P2 s). tauto.
Qed.

End Search.

(** A 4x4 standard puzzle with five empty cells, searched for all its
    solutions with a cap of ten, no deadline and no callback. *)
Definition fourByFourPuzzle : Grid :=
  createGridFromValues [[1; 2; 3; 4]; [3; 4; 0; 0]; [2; 0; 4; 0]; [4; 3; 0; 1]].

Definition fourByFourConfig : SudokuConfig :=
  mkConfig 4 2 2 (generateStandardRegions 4 2 2) [].

Definition findAllOptions : SolverOptions :=
  mkSolverOptions (Some true) (Some 10) (Some 0) None None None.

Lemma solvers_collect_same_solutions_witness :
  exists b1 w1 b2 w2,
    solveWithBacktracking 6
      (solverContext (fun n => Z.of_nat n) fourByFourPuzzle fourByFourConfig
                     findAllOptions 0)
      (cloneGrid fourByFourPuzzle) initialWorld = (Ret b1, w1) /\
    solveWithSimpleBacktracking 6
      (solverContext (fun n => Z.of_nat n) fourByFourPuzzle fourByFourConfig
                     findAllOptions 0)
      (cloneGrid fourByFourPuzzle) initialWorld = (Ret b2, w2) /\
    forall s, In s (solutions w1) <-> In s (solutions w2).
Proof.
  apply (solvers_collect_same_solutions
           (solverContext (fun n => Z.of_nat n) fourByFourPuzzle fourByFourConfig
                          findAllOptions 0)
           fourByFourPuzzle).
  - reflexivity.
  - apply regionsInGridb_sound. vm_compute. reflexivity.
  - apply rectangularb_sound. vm_compute. reflexivity.
  - apply emptiesNotGivenb_sound. vm_compute. reflexivity.
  - intros ts n H. discriminate H.
  - intros cb n ev H. discriminate H.
  - reflexivity.
  - apply Z.leb_le. vm_compute. reflexivity.
  - vm_compute. lia.
  - reflexivity.
  - reflexivity.
  - reflexivity.
Defined.

(** ** Reasoning about stateful code that may throw *)

(** From a state that satisfies [Pre], [m] leaves a state that satisfies
    [I] whether it returns or throws, and [R] relates what it returns to
    the state it leaves. *)
Definition ispec {S A} (Pre I : S -> Prop) (m : M S A) (R : A -> S -> Prop) : Prop :=
  forall s, Pre s -> I (snd (m s)) /\ forall a, fst (m s) = Ret a -> R a (snd (m s)).

Lemma ispec_ret {S A} (Pre I : S -> Prop) (a : A) (R : A -> S -> Prop) :
  (forall s, Pre s -> I s /\ R a s) -> ispec Pre I (retM a) R.
Proof.
  intros H s Hs. destruct (H s Hs). simpl. split; [assumption|].
  intros b Hb. inversion Hb; subst. assumption.
Qed.

Lemma ispec_bind {S A B} (Pre I : S -> Prop) (m : M S A) (R : A -> S -> Prop)
  (k : A -> M S B) (R' : B -> S -> Prop) :
  ispec Pre I m R -> (forall a, ispec (R a) I (k a) R') -> ispec Pre I (bindM m k) R'.
Proof.
  intros Hm Hk s Hs. destruct (Hm s Hs) as [HI HR]. unfold bindM.
  destruct (m s) as [[a|e] s1]; simpl in *.
  - apply Hk. now apply HR.
  - split; [assumption | discriminate].
Qed.

Lemma ispec_lift {S A} (Pre I : S -> Prop) (o : outcome A) (R : A -> S -> Prop) :
  (forall s, Pre s -> I s /\ forall a, o = Ret a -> R a s) -> ispec Pre I (liftM o) R.
Proof. intros H s Hs. exact (H s Hs). Qed.

Lemma ispec_modify {S} (Pre I : S -> Prop) (f : S -> S) (R : unit -> S -> Prop) :
  (forall s, Pre s -> I (f s) /\ R tt (f s)) -> ispec Pre I (modifyM f) R.
Proof.
  intros H s Hs. destruct (H s Hs). simpl. split; [assumption|].
  intros [] _. assumption.
Qed.

Lemma ispec_gets {S A} (Pre I : S -> Prop) (f : S -> A) (R : A -> S -> Prop) :
  (forall s, Pre s -> I s /\ R (f s) s) -> ispec Pre I (getsM f) R.
Proof.
  intros H s Hs. destruct (H s Hs). simpl. split; [assumption|].
  intros a Ha. inversion Ha; subst. assumption.
Qed.

Lemma ispec_weaken {S A} (Pre Pre' I : S -> Prop) (m : M S A) (R R' : A -> S -> Prop) :
  ispec Pre' I m R' -> (forall s, Pre s -> Pre' s) -> (forall a s, R' a s -> R a s) ->
  ispec Pre I m R.
Proof.
  intros H HP HR s Hs. destruct (H s (HP s Hs)) as [HI HR']. split; [assumption|].
  intros a Ha. apply HR. now apply HR'.
Qed.

Lemma ispec_pre {S A} (Pre I : S -> Prop) (X : Prop) (m : M S A) (R : A -> S -> Prop) :
  (X -> ispec Pre I m R) -> ispec (fun s => Pre s /\ X) I m R.
Proof. intros H s [Hs HX]. exact (H HX s Hs). Qed.

(** ** Given cells are never altered *)

(** [s] has every given cell of [g], unchanged. *)
Definition agreesOnGivens (g s : Grid) : Prop :=
  forall r c x, cellAt g r c = Ret x -> isPuzzle x = true -> cellAt s r c = Ret x.

Lemma agreesOnGivens_refl (g : Grid) : agreesOnGivens g g.
Proof. intros r c x Hx _. assumption. Qed.

Lemma agreesOnGivens_trans (g1 g2 g3 : Grid) :
  agreesOnGivens g1 g2 -> agreesOnGivens g2 g3 -> agreesOnGivens g1 g3.
Proof. intros H12 H23 r c x Hx Hp. apply H23; auto. Qed.

Lemma setCellValue_given_unchanged (g : Grid) (r c v : Z) (x : CellState) :
  cellAt g r c = Ret x -> isPuzzle x = true -> setCellValue g r c v false = Ret g.
Proof.
  intros Hx Hp. unfold setCellValue.
  destruct (isValidPosition g r c); simpl; [|reflexivity].
  now rewrite Hx, Hp.
Qed.

Lemma setCellValue_agreesOnGivens (g : Grid) (r c v : Z) (g' : Grid) :
  setCellValue g r c v false = Ret g' -> agreesOnGivens g g'.
Proof.
  intros H. apply setCellValue_cases in H as [-> | (x & Hx & Hp & ->)].
  - apply agreesOnGivens_refl.
  - intros r' c' y Hy Hyp. rewrite cellAt_updGrid, Hy.
    destruct ((r' =? r) && (c' =? c)) eqn:E; [|reflexivity].
    apply andb_true_iff in E as [Er Ec]. apply Z.eqb_eq in Er, Ec. subst r' c'.
    congruence.
Qed.

Section Givens.

Variable context : Context.

(** The grid that the solve call was given. *)
Variable g0 : Grid.

(** Every solution recorded so far keeps the givens of [g0]. *)
Definition AllKeep (w : World) : Prop := Forall (agreesOnGivens g0) (solutions w).

Hypothesis Hcalc :
  forall r c, ispec AllKeep AllKeep (getCandidatesForCell context r c) (fun _ => AllKeep).

Lemma keep_closure (grid : Grid) (config : SudokuConfig) (r c : Z) :
  ispec AllKeep AllKeep (candidatesClosure grid config r c) (fun _ => AllKeep).
Proof.
  intros w Hw. unfold candidatesClosure, bindM, modifyM, liftM, getsM, retM. simpl.
  destruct (cellAt grid r c) as [x|e]; simpl; [|split; [exact Hw | discriminate]].
  destruct (negb (value x =? 0)); simpl; [split; [exact Hw | intros; exact Hw]|].
  destruct (cache_get (candidatesCache w) (r, c)); simpl;
    [split; [exact Hw | intros; exact Hw]|].
  destruct (computeCandidates grid config r c); simpl;
    split; try exact Hw; try discriminate; intros; exact Hw.
Qed.

Lemma keep_bump : ispec AllKeep AllKeep (bumpAndCheckTimeout context) (fun _ => AllKeep).
Proof.
  intros w Hw. unfold bumpAndCheckTimeout, bindM, modifyM, getsM, retM, dateNow.
  destruct (recursionCounter w); simpl;
    destruct (timeoutTimestamp context); simpl;
    try (split; [exact Hw | intros; exact Hw]).
  - destruct (negb (z0 =? 0) && (Z.rem (z + 1) TIMEOUT_CHECK_INTERVAL =? 0)); simpl;
      split; try exact Hw; intros; exact Hw.
  - destruct (negb (z =? 0)); simpl; split; try exact Hw; intros; exact Hw.
Qed.

Lemma keep_emptyCellsOfRow (row : Z) (cellsOfRow : list CellState) :
  forall col,
    ispec AllKeep AllKeep
          (emptyCellsOfRow (getCandidatesForCell context) row col cellsOfRow)
          (fun _ => AllKeep).
Proof.
  induction cellsOfRow as [|cell rest IH]; intros col; simpl.
  - apply ispec_ret. auto.
  - destruct (value cell =? 0); [|apply IH].
    eapply ispec_bind; [apply Hcalc|]. intros l.
    eapply ispec_bind; [apply IH|]. intros more.
    apply ispec_ret. auto.
Qed.

Lemma keep_emptyCellsFrom (rows : Grid) :
  forall row,
    ispec AllKeep AllKeep
          (emptyCellsFrom (getCandidatesForCell context) row rows)
          (fun _ => AllKeep).
Proof.
  induction rows as [|rw rest IH]; intros row; simpl.
  - apply ispec_ret. auto.
  - eapply ispec_bind; [apply keep_emptyCellsOfRow|]. intros here.
    eapply ispec_bind; [apply IH|]. intros more.
    apply ispec_ret. auto.
Qed.

Lemma keep_select (g : Grid) :
  ispec AllKeep AllKeep
        (selectCellWithMRV g (config context) (getCandidatesForCell context))
        (fun _ => AllKeep).
Proof.
  unfold selectCellWithMRV, getAllEmptyCellsCandidates.
  eapply ispec_bind; [apply keep_emptyCellsFrom|]. intros infos.
  destruct infos as [|i0 infos]; [apply ispec_ret; auto|].
  destruct (stableSort (fun a b => i_count a - i_count b) (i0 :: infos)) as [|first rest].
  - intros w Hw. split; [exact Hw | discriminate].
  - destruct (i_count first =? 0); [apply ispec_ret; auto|].
    destruct (filter (fun cell => i_count cell =? i_count first) (first :: rest))
      as [|sel [|y ys]].
    + eapply ispec_bind; [apply ispec_lift; intros w Hw; split; [exact Hw | intros; exact Hw]|].
      intros a. apply ispec_ret. auto.
    + apply ispec_ret. auto.
    + eapply ispec_bind; [apply ispec_lift; intros w Hw; split; [exact Hw | intros; exact Hw]|].
      intros a. apply ispec_ret. auto.
Qed.

Lemma keep_record (g : Grid) :
  agreesOnGivens g0 g ->
  ispec AllKeep AllKeep (recordSolution context g) (fun _ => AllKeep).
Proof.
  intros Hg w Hw. unfold recordSolution, bindM, modifyM, retM, callProgress.
  rewrite cloneGrid_id.
  assert (Hw' : Forall (agreesOnGivens g0) (solutions w ++ [g])).
  { apply Forall_app. split; [exact Hw | now constructor]. }
  destruct (onProgress context) as [cb|]; simpl.
  - destruct (cb (progressCalls w) (Ev_solution g)) as [res|e]; simpl.
    + destruct (is_false res); simpl; split; try exact Hw'; intros; exact Hw'.
    + split; [exact Hw' | discriminate].
  - split; [exact Hw' | intros; exact Hw'].
Qed.

Lemma keep_notify (r c v : Z) :
  ispec AllKeep AllKeep (notifyStep context r c v) (fun _ => AllKeep).
Proof.
  intros w Hw. unfold notifyStep, bindM, modifyM, retM, callProgress.
  destruct (onProgress context) as [cb|]; simpl.
  - destruct (cb (progressCalls w) (Ev_step r c v)) as [res|e]; simpl.
    + destruct (is_false res); simpl; split; try exact Hw; intros; exact Hw.
    + split; [exact Hw | discriminate].
  - split; [exact Hw | intros; exact Hw].
Qed.

Lemma keep_incr (f : World -> World) :
  (forall w, solutions (f w) = solutions w) ->
  ispec AllKeep AllKeep (modifyM f) (fun _ => AllKeep).
Proof.
  intros Hf. apply ispec_modify. intros w Hw. unfold AllKeep. rewrite Hf. auto.
Qed.

Lemma keep_validate (g : Grid) (rs : list Region) :
  ispec AllKeep AllKeep (liftM (validateAllRegions g rs)) (fun _ => AllKeep).
Proof. apply ispec_lift. intros w Hw. split; [exact Hw | intros; exact Hw]. Qed.

Lemma keep_mrv (stack : nat) :
  forall g, agreesOnGivens g0 g ->
            ispec AllKeep AllKeep (solveWithBacktracking stack context g)
                  (fun _ => AllKeep).
Proof.
  induction stack as [|stack' IH]; intros g Hg.
  - intros w Hw. split; [exact Hw | discriminate].
  - simpl.
    eapply ispec_bind; [apply keep_bump|]. intros [|]; [apply ispec_ret; auto|].
    eapply ispec_bind with (R := fun _ => AllKeep); [apply ispec_gets; auto|].
    intros [|]; [apply ispec_ret; auto|].
    eapply ispec_bind; [apply keep_select|]. intros [info|].
    + destruct (len (i_candidates info) =? 0).
      * eapply ispec_bind; [apply keep_incr; reflexivity|]. intros ?.
        apply ispec_ret. auto.
      * induction (i_candidates info) as [|v rest IHvs].
        -- eapply ispec_bind; [apply keep_incr; reflexivity|]. intros ?.
           apply ispec_ret. auto.
        -- eapply ispec_bind with
             (R := fun newGrid w => AllKeep w /\ agreesOnGivens g0 newGrid).
           { apply ispec_lift. intros w Hw. split; [exact Hw|].
             intros g' Hg'. split; [exact Hw|].
             eapply agreesOnGivens_trans; [exact Hg|].
             eapply setCellValue_agreesOnGivens; eauto. }
           intros newGrid. apply ispec_pre. intros Hnew.
           eapply ispec_bind; [apply keep_incr; reflexivity|]. intros ?.
           eapply ispec_bind; [apply keep_notify|]. intros [|]; [apply ispec_ret; auto|].
           eapply ispec_bind; [apply (IH newGrid Hnew)|]. intros solved.
           destruct (solved && negb (findAllSolutions context)); [apply ispec_ret; auto|].
           eapply ispec_bind with (R := fun _ => AllKeep); [apply ispec_gets; auto|].
           intros [|]; [apply ispec_ret; auto|]. exact IHvs.
    + eapply ispec_bind; [apply keep_validate|]. intros validation.
      destruct (negb (isValid validation)).
      * eapply ispec_bind; [apply keep_incr; reflexivity|]. intros ?.
        apply ispec_ret. auto.
      * eapply ispec_bind; [apply (keep_record g Hg)|]. intros [|]; [apply ispec_ret; auto|].
        eapply ispec_bind with (R := fun _ => AllKeep); [apply ispec_gets; auto|].
        intros count. destruct (count >=? maxSolutions context); apply ispec_ret; auto.
Qed.

Lemma keep_simple (stack : nat) :
  forall g, agreesOnGivens g0 g ->
            ispec AllKeep AllKeep (solveWithSimpleBacktracking stack context g)
                  (fun _ => AllKeep).
Proof.
  induction stack as [|stack' IH]; intros g Hg.
  - intros w Hw. split; [exact Hw | discriminate].
  - simpl.
    eapply ispec_bind; [apply keep_bump|]. intros [|]; [apply ispec_ret; auto|].
    eapply ispec_bind with (R := fun _ => AllKeep); [apply ispec_gets; auto|].
    intros [|]; [apply ispec_ret; auto|].
    eapply ispec_bind; [apply keep_validate|]. intros validation.
    destruct (negb (isValid validation)).
    { eapply ispec_bind; [apply keep_incr; reflexivity|]. intros ?.
      apply ispec_ret. auto. }
    destruct (findFirstEmpty g) as [[r c]|].
    + induction (range1 (size (config context))) as [|v rest IHvs].
      * eapply ispec_bind; [apply keep_incr; reflexivity|]. intros ?.
        apply ispec_ret. auto.
      * eapply ispec_bind; [apply Hcalc|]. intros candidates.
        destruct (negb (Set_has candidates v)); [exact IHvs|].
        eapply ispec_bind with
          (R := fun newGrid w => AllKeep w /\ agreesOnGivens g0 newGrid).
        { apply ispec_lift. intros w Hw. split; [exact Hw|].
          intros g' Hg'. split; [exact Hw|].
          eapply agreesOnGivens_trans; [exact Hg|].
          eapply setCellValue_agreesOnGivens; eauto. }
        intros newGrid. apply ispec_pre. intros Hnew.
        eapply ispec_bind; [apply keep_incr; reflexivity|]. intros ?.
        eapply ispec_bind; [apply keep_notify|]. intros [|]; [apply ispec_ret; auto|].
        eapply ispec_bind; [apply (IH newGrid Hnew)|]. intros [|]; [apply ispec_ret; auto|].
        eapply ispec_bind with (R := fun _ => AllKeep); [apply ispec_gets; auto|].
        intros [|]; [apply ispec_ret; auto|]. exact IHvs.
    + eapply ispec_bind; [apply keep_validate|]. intros validation'.
      destruct (negb (isValid validation')).
      * eapply ispec_bind; [apply keep_incr; reflexivity|]. intros ?.
        apply ispec_ret. auto.
      * eapply ispec_bind; [apply (keep_record g Hg)|]. intros stopped.
        destruct stopped; apply ispec_ret; auto.
Qed.

End Givens.

(** ** [solveSudoku]: solutions keep the givens *)

Section SolveGivens.

Variable grid : Grid.

(** The solutions in the result object and in the context keep the givens
    of the input grid. *)
Definition BothKeep (st : SolveState) : Prop :=
  Forall (agreesOnGivens grid) (r_solutions (fst st)) /\ AllKeep grid (snd st).

Lemma both_onWorld {A} (m : M World A) :
  ispec (AllKeep grid) (AllKeep grid) m (fun _ => AllKeep grid) ->
  ispec BothKeep BothKeep (onWorld m) (fun _ => BothKeep).
Proof.
  intros Hm [r w] [Hr Hw]. unfold onWorld. simpl.
  destruct (Hm w Hw) as [HI HR]. destruct (m w) as [o w']. simpl in *.
  split; [split; assumption|]. intros a Ha. split; assumption.
Qed.

Lemma both_onResult (f : SolverResult -> SolverResult) :
  (forall r, r_solutions (f r) = r_solutions r) ->
  ispec BothKeep BothKeep (onResult f) (fun _ => BothKeep).
Proof.
  intros Hf [r w] [Hr Hw]. unfold onResult, BothKeep. simpl. rewrite Hf. auto.
Qed.

Lemma both_set_solutions (l : list Grid) :
  Forall (agreesOnGivens grid) l ->
  ispec BothKeep BothKeep (onResult (set_r_solutions l)) (fun _ => BothKeep).
Proof. intros Hl [r w] [Hr Hw]. unfold onResult, BothKeep. simpl. auto. Qed.

Lemma both_lift {A} (o : outcome A) :
  ispec BothKeep BothKeep (liftM o) (fun _ => BothKeep).
Proof. apply ispec_lift. intros st Hst. split; [exact Hst | intros; exact Hst]. Qed.

Lemma keep_dateNow (clock : nat -> Z) :
  ispec (AllKeep grid) (AllKeep grid) (dateNow clock) (fun _ => AllKeep grid).
Proof. intros w Hw. unfold dateNow. simpl. split; [exact Hw | intros; exact Hw]. Qed.

Lemma Forall_removelast {A} (P : A -> Prop) (l : list A) :
  Forall P l -> Forall P (removelast l).
Proof.
  induction l as [|a l IH]; intros H; simpl; [constructor|].
  inversion H; subst. destruct l; [constructor|]. constructor; auto.
Qed.

Lemma both_try (stackLimit : nat) (context : Context) (strategy : Strategy) :
  getCandidatesForCell context = candidatesClosure grid (config context) ->
  ispec BothKeep BothKeep (solveSudoku_try stackLimit context grid strategy)
        (fun _ => BothKeep).
Proof.
  intros Hclosure. unfold solveSudoku_try.
  assert (Hcalc : forall r c,
             ispec (AllKeep grid) (AllKeep grid) (getCandidatesForCell context r c)
                   (fun _ => AllKeep grid)).
  { intros r c. rewrite Hclosure. apply keep_closure. }
  eapply ispec_bind; [apply both_lift|]. intros initialValidation.
  destruct (negb (isValid initialValidation)).
  { eapply ispec_bind; [apply both_onResult; reflexivity|]. intros ?.
    apply both_onResult. reflexivity. }
  eapply ispec_bind.
  { apply both_onWorld. rewrite cloneGrid_id. destruct strategy.
    - apply keep_mrv; [assumption | apply agreesOnGivens_refl].
    - apply keep_simple; [assumption | apply agreesOnGivens_refl]. }
  intros solved.
  eapply ispec_bind with
    (R := fun found st => BothKeep st /\ Forall (agreesOnGivens grid) found).
  { intros [r w] [Hr Hw]. unfold onWorld, getsM. simpl.
    split; [split; assumption|]. intros val Hval. inversion Hval; subst.
    split; [split; assumption | exact Hw]. }
  intros found. apply ispec_pre. intros Hfound.
  eapply ispec_bind; [apply (both_set_solutions found Hfound)|]. intros ?.
  eapply ispec_bind with (R := fun _ => BothKeep).
  { intros [r w] [Hr Hw]. unfold onWorld, getsM. simpl.
    split; [split; assumption|]. intros val Hval. split; assumption. }
  intros [|].
  - destruct (len found >? 0); [|apply both_onResult; reflexivity].
    destruct (lastSolution found) as [last|]; [|apply both_lift].
    eapply ispec_bind; [apply both_lift|]. intros validation.
    destruct (isValid validation).
    + eapply ispec_bind; [apply both_onResult; reflexivity|]. intros ?.
      apply both_onResult. reflexivity.
    + eapply ispec_bind;
        [apply (both_set_solutions _ (Forall_removelast _ _ Hfound))|]. intros ?.
      eapply ispec_bind; [apply both_onResult; reflexivity|]. intros ?.
      apply both_onResult. reflexivity.
  - eapply ispec_bind with (R := fun _ => BothKeep).
    { destruct (timeoutTimestamp context) as [ts|]; [|apply ispec_ret; auto].
      destruct (negb (ts =? 0)); [|apply ispec_ret; auto].
      eapply ispec_bind; [apply both_onWorld, keep_dateNow|]. intros t.
      apply ispec_ret. auto. }
    intros [|].
    + eapply ispec_bind with (R := fun _ => BothKeep).
      { destruct (len found >? 0); [|apply ispec_ret; auto].
        destruct (lastSolution found) as [last|]; [|apply both_lift].
        eapply ispec_bind; [apply both_lift|]. intros validation.
        apply both_onResult. reflexivity. }
      intros ?. apply both_onResult. reflexivity.
    + destruct (len found >? 0).
      * eapply ispec_bind; [apply both_onResult; reflexivity|]. intros ?.
        apply both_onResult. reflexivity.
      * apply both_onResult. reflexivity.
Qed.

Lemma both_try_catch_finally {A} (body : M SolveState A) (handler : exn -> M SolveState A)
  (finalizer : M SolveState unit) :
  ispec BothKeep BothKeep body (fun _ => BothKeep) ->
  (forall e, ispec BothKeep BothKeep (handler e) (fun _ => BothKeep)) ->
  ispec BothKeep BothKeep finalizer (fun _ => BothKeep) ->
  ispec BothKeep BothKeep (try_catch_finally body handler finalizer) (fun _ => BothKeep).
Proof.
  intros Hb Hh Hf st Hst. unfold try_catch_finally.
  destruct (Hb st Hst) as [H1 _]. destruct (body st) as [[a|e] st1]; simpl in H1.
  - destruct (Hf st1 H1) as [H3 _]. destruct (finalizer st1) as [[u|e3] st3];
      simpl in *; split; auto.
  - destruct (Hh e st1 H1) as [H2 _]. destruct (handler e st1) as [o2 st2]. simpl in H2.
    destruct (Hf st2 H2) as [H3 _]. destruct (finalizer st2) as [[u|e3] st3];
      simpl in *; split; auto.
Qed.

Lemma solveSudoku_keeps (clock : nat -> Z) (stackLimit : nat) (config : SudokuConfig)
  (options : SolverOptions) (result : SolverResult) :
  solveSudoku clock stackLimit grid config options = Ret result ->
  Forall (agreesOnGivens grid) (r_solutions result).
Proof.
  unfold solveSudoku.
  set (run := bindM (onWorld (dateNow clock)) _).
  assert (Hrun : ispec BothKeep BothKeep run
                       (fun r st => Forall (agreesOnGivens grid) (r_solutions r))).
  { unfold run. eapply ispec_bind; [apply both_onWorld, keep_dateNow|]. intros startTime.
    eapply ispec_bind.
    { apply both_try_catch_finally.
      - apply both_try. reflexivity.
      - intros e. unfold solveSudoku_catch.
        eapply ispec_bind; [apply both_lift|]. intros errorMessage.
        eapply ispec_bind; [apply both_onResult; reflexivity|]. intros ?.
        apply both_onResult. reflexivity.
      - unfold solveSudoku_finally.
        eapply ispec_bind; [apply both_onWorld, keep_dateNow|]. intros t.
        eapply ispec_bind.
        { apply both_onWorld. apply keep_incr. reflexivity. }
        intros ?.
        eapply ispec_bind with (R := fun _ => BothKeep).
        { intros [r w] [Hr Hw]. unfold onWorld, getsM. simpl.
          split; [split; assumption|]. intros val Hval. split; assumption. }
        intros finalStats. apply both_onResult. reflexivity. }
    intros ?. apply ispec_gets. intros [r w] [Hr Hw]. split; [split; assumption | exact Hr]. }
  intros H.
  destruct (Hrun (mkSolverResult false [] None FR_error None None, initialWorld)) as [_ HR].
  { split; constructor. }
  now apply HR.
Qed.

End SolveGivens.


(** The result of searching [fourByFourPuzzle] for all its solutions. *)
Definition fourByFourResult : SolverResult :=
  match solveSudoku (fun n => Z.of_nat n) 30 fourByFourPuzzle fourByFourConfig
                    findAllOptions with
  | Ret r => r
  | Throw _ => mkSolverResult false [] None FR_error None None
  end.


(* --------------------------------------------------------------------- *)
(** *** What the engine throws *)

(** A thrown value from which the [catch] blocks can compute a message. *)
Definition convertible (e : exn) : Prop := exists text, errorMessageOf e = Ret text.

(** Whatever [o] throws is convertible. *)
Definition throws {A} (o : outcome A) : Prop := forall e, o = Throw e -> convertible e.

(** Whatever [m] throws, in whatever world, is convertible. *)
Definition raises {W A} (m : M W A) : Prop := forall w, throws (fst (m w)).

Lemma convertible_Error (message : string) : convertible (Error message).
Proof. exists message. reflexivity. Qed.

Lemma convertible_NonError (text : string) : convertible (NonError text).
Proof. exists text. reflexivity. Qed.

Lemma throws_Ret {A} (a : A) : throws (Ret a).
Proof. intros e H. discriminate H. Qed.

Lemma throws_Error {A} (message : string) : throws (@Throw A (Error message)).
Proof. intros e H. injection H as <-. apply convertible_Error. Qed.

Lemma throws_TypeError {A} : throws (@Throw A TypeError).
Proof. apply throws_Error. Qed.

Lemma throws_RangeError {A} : throws (@Throw A RangeError).
Proof. apply throws_Error. Qed.

Lemma throws_rethrow {A B} (o : outcome A) (e : exn) :
  throws o -> o = Throw e -> throws (@Throw B e).
Proof. intros Ho Ho' e' H. injection H as <-. exact (Ho e Ho'). Qed.

Lemma throws_retype {A B} (e : exn) : throws (@Throw A e) -> throws (@Throw B e).
Proof. intros H e' He'. injection He' as <-. exact (H e eq_refl). Qed.

Create HintDb throws.
#[local] Hint Resolve throws_Ret throws_Error throws_TypeError throws_RangeError : throws.

(** One step through a pure computation: a returned value throws nothing,
    a rethrown value comes from a computation known to throw convertible
    values only, and a [match] or [if] is followed into its branches. *)
Ltac throws_step :=
  match goal with
  | |- throws _ => assumption
  | H : throws (Throw ?e) |- throws (Throw ?e) => exact (throws_retype e H)
  | |- throws (Ret _) => apply throws_Ret
  | |- throws (Throw (Error _)) => apply throws_Error
  | |- throws (Throw TypeError) => apply throws_TypeError
  | |- throws (Throw RangeError) => apply throws_RangeError
  | E : ?o = Throw ?e |- throws (Throw ?e) =>
      apply (throws_rethrow o e); [solve [auto with throws] | exact E]
  | |- throws (match ?x with _ => _ end) => destruct x eqn:?
  | |- throws (if ?x then _ else _) => destruct x eqn:?
  | |- throws (let '(_, _) := ?x in _) => destruct x eqn:?
  | |- throws _ => solve [auto with throws]
  end.

Ltac throws_tac := repeat throws_step.

Lemma foldM_throws {A S} (body : S -> A -> outcome S) (xs : list A) :
  (forall acc x, throws (body acc x)) -> forall acc, throws (foldM body xs acc).
Proof.
  intros Hbody. induction xs as [|x rest IH]; intros acc; simpl.
  - apply throws_Ret.
  - pose proof (Hbody acc x). throws_tac.
Qed.

Lemma mapM_throws {A B} (f : A -> outcome B) (xs : list A) :
  (forall x, throws (f x)) -> throws (mapM f xs).
Proof.
  intros Hf. induction xs as [|x rest IH]; simpl.
  - apply throws_Ret.
  - pose proof (Hf x). throws_tac.
Qed.

Lemma everyM_throws {A} (p : A -> outcome bool) (xs : list A) :
  (forall x, throws (p x)) -> throws (everyM p xs).
Proof.
  intros Hp. induction xs as [|x rest IH]; simpl.
  - apply throws_Ret.
  - pose proof (Hp x). throws_tac.
Qed.

Lemma cellAt_throws (grid : Grid) (row col : Z) : throws (cellAt grid row col).
Proof. unfold cellAt. throws_tac. Qed.

#[local] Hint Resolve cellAt_throws : throws.

Lemma checkDuplicates_step_throws (grid : Grid) (st : PosMap * Z) (coord : Coord) :
  throws (checkDuplicates_step grid st coord).
Proof. unfold checkDuplicates_step. throws_tac. Qed.

Lemma checkDuplicatesBitmask_throws (grid : Grid) (cellCoords : list Coord) :
  throws (checkDuplicatesBitmask grid cellCoords).
Proof.
  unfold checkDuplicatesBitmask.
  pose proof (foldM_throws (checkDuplicates_step grid) cellCoords
                (checkDuplicates_step_throws grid) ([], 0)).
  throws_tac.
Qed.

#[local] Hint Resolve checkDuplicatesBitmask_throws : throws.

Lemma validateRegionBitmask_throws (grid : Grid) (region : Region) :
  throws (validateRegionBitmask grid region).
Proof. unfold validateRegionBitmask. throws_tac. Qed.

Lemma validateSum_throws (grid : Grid) (region : Region) :
  throws (validateSum grid region).
Proof.
  unfold validateSum. destruct (region_sum region) as [expectedSum|]; [|apply throws_Ret].
  match goal with
  | |- throws (match everyM ?p ?xs with _ => _ end) =>
      assert (Hevery : throws (everyM p xs))
        by (apply everyM_throws; intros rc; throws_tac)
  end.
  match goal with
  | |- context [foldM ?body ?xs ?acc] =>
      assert (Hfold : throws (foldM body xs acc))
        by (apply foldM_throws; intros a rc; throws_tac)
  end.
  throws_tac.
Qed.

#[local] Hint Resolve validateRegionBitmask_throws validateSum_throws : throws.

Lemma validateRegion_throws (grid : Grid) (region : Region) :
  throws (validateRegion grid region).
Proof. unfold validateRegion. throws_tac. Qed.

Lemma validateAllRegions_throws (grid : Grid) (regions : list Region) :
  throws (validateAllRegions grid regions).
Proof.
  unfold validateAllRegions.
  pose proof (mapM_throws (validateRegion grid) regions (validateRegion_throws grid)).
  throws_tac.
Qed.

#[local] Hint Resolve validateAllRegions_throws : throws.

Lemma usedValuesExcept_throws (grid : Grid) (row col : Z) (region : Region) :
  throws (usedValuesExcept grid row col region).
Proof. unfold usedValuesExcept. apply foldM_throws. intros acc rc. throws_tac. Qed.

#[local] Hint Resolve usedValuesExcept_throws : throws.

Lemma isValidMove_loop_throws (grid : Grid) (row col val : Z) (rs : list Region) :
  throws (isValidMove_loop grid row col val rs).
Proof. induction rs as [|region rest IH]; simpl; throws_tac. Qed.

Lemma isValidMoveBitmask_throws (grid : Grid) (row col val : Z) (regions : list Region) :
  throws (isValidMoveBitmask grid row col val regions).
Proof.
  unfold isValidMoveBitmask. destruct (val =? 0); [apply throws_Ret|].
  apply isValidMove_loop_throws.
Qed.

#[local] Hint Resolve isValidMoveBitmask_throws : throws.

Lemma computeCandidates_throws (grid : Grid) (config : SudokuConfig) (row col : Z) :
  throws (computeCandidates grid config row col).
Proof. unfold computeCandidates. apply foldM_throws. intros acc num. throws_tac. Qed.

Lemma setCellValue_throws (grid : Grid) (row col val : Z) (isEditingPuzzle : bool) :
  throws (setCellValue grid row col val isEditingPuzzle).
Proof. unfold setCellValue. throws_tac. Qed.

Lemma assignCell_throws (grid : Grid) (row col : Z) (f : CellState -> CellState) :
  throws (assignCell grid row col f).
Proof. unfold assignCell. throws_tac. Qed.

#[local] Hint Resolve computeCandidates_throws setCellValue_throws assignCell_throws
  : throws.

Lemma calculateConstraintDegree_throws (grid : Grid) (config : SudokuConfig)
  (row col : Z) :
  throws (calculateConstraintDegree grid config row col).
Proof.
  unfold calculateConstraintDegree.
  destruct (len (regions config) =? 0); [apply throws_Ret|].
  match goal with
  | |- throws (match foldM ?body ?xs ?acc with _ => _ end) =>
      assert (Hfold : throws (foldM body xs acc))
  end.
  { apply foldM_throws. intros acc region. apply foldM_throws. intros acc' rc.
    throws_tac. }
  throws_tac.
Qed.

#[local] Hint Resolve calculateConstraintDegree_throws : throws.

Lemma breakTiesByDegreeHeuristic_throws (grid : Grid) (config : SudokuConfig)
  (tiedCells : list CellCandidateInfo) :
  throws (breakTiesByDegreeHeuristic grid config tiedCells).
Proof.
  unfold breakTiesByDegreeHeuristic.
  match goal with
  | |- throws (match mapM ?f ?xs with _ => _ end) =>
      assert (Hmap : throws (mapM f xs))
        by (apply mapM_throws; intros cell; throws_tac)
  end.
  throws_tac.
Qed.

#[local] Hint Resolve breakTiesByDegreeHeuristic_throws : throws.

Lemma findNextCell_throws (turns : nat) (grid : Grid) (size : Z) :
  forall row col, throws (Generator.findNextCell turns grid size row col).
Proof.
  induction turns as [|turns' IH]; intros row col; simpl; throws_tac.
Qed.

Lemma copyBack_throws (grid tempGrid : Grid) : throws (Generator.copyBack grid tempGrid).
Proof.
  unfold Generator.copyBack. apply mapM_throws. intros rr.
  destruct (nth_Z tempGrid (fst rr)) as [trow|]; [|apply throws_TypeError].
  apply mapM_throws. intros cc. throws_tac.
Qed.

Lemma tryAlternatives_throws (grid : Grid) (config : SudokuConfig) (r c correctValue : Z)
  (vs : list Z) :
  throws (Generator.tryAlternatives grid config r c correctValue vs).
Proof. induction vs as [|v rest IH]; simpl; throws_tac. Qed.

Lemma clearSymmetric_throws (tempGrid : Grid) (row col size : Z)
  (options : Generator.DigOptions) :
  throws (Generator.clearSymmetric tempGrid row col size options).
Proof. unfold Generator.clearSymmetric. throws_tac. Qed.

#[local] Hint Resolve findNextCell_throws copyBack_throws tryAlternatives_throws
  clearSymmetric_throws : throws.

Lemma raises_ret {W A} (a : A) : raises (@retM W A a).
Proof. intros w. apply throws_Ret. Qed.

Lemma raises_gets {W A} (f : W -> A) : raises (getsM f).
Proof. intros w. apply throws_Ret. Qed.

Lemma raises_modify {W} (f : W -> W) : raises (modifyM f).
Proof. intros w. apply throws_Ret. Qed.

Lemma raises_throw {W A} (e : exn) : convertible e -> raises (@throwM W A e).
Proof. intros He w e' H. injection H as <-. exact He. Qed.

Lemma raises_lift {W A} (o : outcome A) : throws o -> raises (@liftM W A o).
Proof. intros Ho w. exact Ho. Qed.

Lemma raises_bind {W A B} (m : M W A) (k : A -> M W B) :
  raises m -> (forall a, raises (k a)) -> raises (bindM m k).
Proof.
  intros Hm Hk w e H. unfold bindM in H.
  destruct (m w) as [[a|e0] w1] eqn:E.
  - exact (Hk a w1 e H).
  - simpl in H. injection H as <-. apply (Hm w). rewrite E. reflexivity.
Qed.

Lemma convertible_TypeError : convertible TypeError.
Proof. apply convertible_Error. Qed.

Lemma convertible_RangeError : convertible RangeError.
Proof. apply convertible_Error. Qed.

#[local] Hint Resolve convertible_Error convertible_NonError convertible_TypeError
  convertible_RangeError : throws.
#[local] Hint Resolve raises_ret raises_gets raises_modify : throws.

(** One step through a stateful computation, as [throws_step]. *)
Ltac raises_step :=
  match goal with
  | |- raises _ => assumption
  | |- raises (retM _) => apply raises_ret
  | |- raises (getsM _) => apply raises_gets
  | |- raises (modifyM _) => apply raises_modify
  | |- raises (throwM _) => apply raises_throw; solve [auto with throws]
  | |- raises (liftM _) => apply raises_lift; solve [throws_tac]
  | |- raises (bindM _ _) => apply raises_bind; [ | intros ? ]
  | |- raises (match ?x with _ => _ end) => destruct x eqn:?
  | |- raises _ => solve [auto with throws]
  end.

Ltac raises_tac := repeat raises_step.

Lemma raises_dateNow (clock : nat -> Z) : raises (dateNow clock).
Proof. intros w. apply throws_Ret. Qed.

Lemma raises_callProgress (cb : SolveCallback) (ev : SolveEvent) :
  (forall calls, throws (cb calls ev)) -> raises (callProgress cb ev).
Proof. intros Hcb w. apply Hcb. Qed.

Lemma raises_onWorld {A} (m : M World A) : raises m -> raises (onWorld m).
Proof.
  intros Hm [r w] e H. unfold onWorld in H. simpl in H.
  apply (Hm w). destruct (m w) as [o w1]. exact H.
Qed.

Lemma raises_onResult (f : SolverResult -> SolverResult) : raises (onResult f).
Proof. intros st. apply throws_Ret. Qed.

#[local] Hint Resolve raises_dateNow raises_onResult : throws.

Section SolverThrows.

Variable context : Context.

(** The candidate computation of the context and its progress callback
    throw convertible values only. *)
Hypothesis Hcalc : forall r c, raises (getCandidatesForCell context r c).

Hypothesis Hprogress :
  forall cb, onProgress context = Some cb -> forall calls ev, throws (cb calls ev).

Lemma raises_bump : raises (bumpAndCheckTimeout context).
Proof. unfold bumpAndCheckTimeout. raises_tac. Qed.

Lemma raises_emptyCellsOfRow (row : Z) (cellsOfRow : list CellState) :
  forall col, raises (emptyCellsOfRow (getCandidatesForCell context) row col cellsOfRow).
Proof.
  induction cellsOfRow as [|cell rest IH]; intros col; simpl.
  - apply raises_ret.
  - pose proof (Hcalc row col). pose proof (IH (col + 1)). raises_tac.
Qed.

Lemma raises_emptyCellsFrom (rows : Grid) :
  forall row, raises (emptyCellsFrom (getCandidatesForCell context) row rows).
Proof.
  induction rows as [|r rest IH]; intros row; simpl.
  - apply raises_ret.
  - pose proof (raises_emptyCellsOfRow row r 0). pose proof (IH (row + 1)). raises_tac.
Qed.

Lemma raises_select (grid : Grid) :
  raises (selectCellWithMRV grid (config context) (getCandidatesForCell context)).
Proof.
  unfold selectCellWithMRV, getAllEmptyCellsCandidates.
  pose proof (raises_emptyCellsFrom grid 0). raises_tac.
Qed.

Lemma raises_record (grid : Grid) : raises (recordSolution context grid).
Proof.
  unfold recordSolution.
  destruct (onProgress context) as [cb|] eqn:Ecb; [|raises_tac].
  pose proof (raises_callProgress cb (Ev_solution (cloneGrid grid))
                (fun calls => Hprogress cb eq_refl calls _)).
  raises_tac.
Qed.

Lemma raises_notify (row col val : Z) : raises (notifyStep context row col val).
Proof.
  unfold notifyStep.
  destruct (onProgress context) as [cb|] eqn:Ecb; [|raises_tac].
  pose proof (raises_callProgress cb (Ev_step row col val)
                (fun calls => Hprogress cb eq_refl calls _)).
  raises_tac.
Qed.

Lemma raises_mrv (stack : nat) :
  forall grid, raises (solveWithBacktracking stack context grid).
Proof.
  induction stack as [|stack' IH]; intros grid.
  - simpl. raises_tac.
  - simpl.
    apply raises_bind; [apply raises_bump|]. intros [|]; [apply raises_ret|].
    apply raises_bind; [apply raises_gets|]. intros [|]; [apply raises_ret|].
    apply raises_bind; [apply raises_select|]. intros [info|].
    + destruct (len (i_candidates info) =? 0); [raises_tac|].
      induction (i_candidates info) as [|v rest IHvs]; [raises_tac|].
      apply raises_bind; [raises_tac|]. intros newGrid.
      apply raises_bind; [raises_tac|]. intros ?.
      apply raises_bind; [apply raises_notify|]. intros [|]; [apply raises_ret|].
      apply raises_bind; [apply IH|]. intros solved.
      destruct (solved && negb (findAllSolutions context)); [apply raises_ret|].
      apply raises_bind; [apply raises_gets|]. intros [|]; [apply raises_ret|].
      exact IHvs.
    + pose proof (raises_record grid). raises_tac.
Qed.

Lemma raises_simple (stack : nat) :
  forall grid, raises (solveWithSimpleBacktracking stack context grid).
Proof.
  induction stack as [|stack' IH]; intros grid.
  - simpl. raises_tac.
  - simpl.
    apply raises_bind; [apply raises_bump|]. intros [|]; [apply raises_ret|].
    apply raises_bind; [apply raises_gets|]. intros [|]; [apply raises_ret|].
    apply raises_bind; [raises_tac|]. intros validation.
    destruct (negb (isValid validation)); [raises_tac|].
    destruct (findFirstEmpty grid) as [[row col]|].
    + induction (range1 (size (config context))) as [|num rest IHnums]; [raises_tac|].
      apply raises_bind; [apply Hcalc|]. intros candidates.
      destruct (negb (Set_has candidates num)); [exact IHnums|].
      apply raises_bind; [raises_tac|]. intros newGrid.
      apply raises_bind; [raises_tac|]. intros ?.
      apply raises_bind; [apply raises_notify|]. intros [|]; [apply raises_ret|].
      apply raises_bind; [apply IH|]. intros [|]; [apply raises_ret|].
      apply raises_bind; [apply raises_gets|]. intros [|]; [apply raises_ret|].
      exact IHnums.
    + pose proof (raises_record grid). raises_tac.
Qed.

End SolverThrows.

Lemma raises_closure (grid : Grid) (config : SudokuConfig) (row col : Z) :
  raises (candidatesClosure grid config row col).
Proof. unfold candidatesClosure. raises_tac. Qed.

(** The progress callback of a [solveSudoku] call throws convertible values
    only: instances of [Error], or values that [String] converts. *)
Definition solveCallbackConvertible (options : SolverOptions) : Prop :=
  forall cb calls ev e,
    o_onProgress options = Some cb -> cb calls ev = Throw e -> convertible e.

Lemma raises_solveSudoku_try (clock : nat -> Z) (stackLimit : nat) (grid : Grid)
  (config : SudokuConfig) (options : SolverOptions) (startTime : Z) (strategy : Strategy) :
  solveCallbackConvertible options ->
  raises (solveSudoku_try stackLimit
            (solverContext clock grid config options startTime) grid strategy).
Proof.
  intros Hcb. set (context := solverContext clock grid config options startTime).
  assert (Hcalc : forall r c, raises (getCandidatesForCell context r c))
    by (intros r c; apply raises_closure).
  assert (Hprogress : forall cb, onProgress context = Some cb ->
                                 forall calls ev, throws (cb calls ev)).
  { intros cb Ecb calls ev e He. exact (Hcb cb calls ev e Ecb He). }
  assert (Hsearch : raises (onWorld (match strategy with
                                     | Fastest => solveWithBacktracking stackLimit context
                                                    (cloneGrid grid)
                                     | Humanlike => solveWithSimpleBacktracking stackLimit
                                                      context (cloneGrid grid)
                                     end))).
  { apply raises_onWorld. destruct strategy.
    - apply raises_mrv; assumption.
    - apply raises_simple; assumption. }
  unfold solveSudoku_try.
  apply raises_bind; [raises_tac|]. intros initialValidation.
  destruct (negb (isValid initialValidation)); [raises_tac|].
  apply raises_bind; [exact Hsearch|]. intros solved.
  apply raises_bind; [apply raises_onWorld, raises_gets|]. intros found.
  apply raises_bind; [raises_tac|]. intros ?.
  apply raises_bind; [apply raises_onWorld, raises_gets|]. intros wasInterrupted.
  pose proof (raises_onWorld _ (raises_dateNow (now context))).
  clear Hsearch. raises_tac.
Qed.

Lemma raises_gen_dateNow (env : Generator.Env) : raises (Generator.dateNow env).
Proof. intros w. apply throws_Ret. Qed.

Lemma raises_randomBelow (env : Generator.Env) (bound : Z) :
  raises (Generator.randomBelow env bound).
Proof. intros w. apply throws_Ret. Qed.

Lemma raises_gen_callProgress (cb : Generator.GeneratorCallback) (phase : Generator.Phase)
  (grid : Grid) :
  (forall calls, throws (cb calls phase grid)) ->
  raises (Generator.callProgress cb phase grid).
Proof. intros Hcb w. apply Hcb. Qed.

Lemma raises_gen_onWorld {A} (m : M Generator.World A) :
  raises m -> raises (Generator.onWorld m).
Proof.
  intros Hm [r w] e H. unfold Generator.onWorld in H. simpl in H.
  apply (Hm w). destruct (m w) as [o w1]. exact H.
Qed.

Lemma raises_gen_onResult (f : Generator.GeneratorResult -> Generator.GeneratorResult) :
  raises (Generator.onResult f).
Proof. intros st. apply throws_Ret. Qed.

#[local] Hint Resolve raises_gen_dateNow raises_randomBelow raises_gen_onResult : throws.

Lemma raises_shuffle_loop {A} (env : Generator.Env) (i : nat) :
  forall shuffled : list A, raises (Generator.shuffle_loop env i shuffled).
Proof.
  induction i as [|i' IH]; intros shuffled.
  - apply raises_ret.
  - cbn [Generator.shuffle_loop].
    apply raises_bind; [apply raises_randomBelow|]. intros j. apply IH.
Qed.

Lemma raises_shuffleArray {A} (env : Generator.Env) (array : list A) :
  raises (Generator.shuffleArray env array).
Proof. apply raises_shuffle_loop. Qed.

#[local] Hint Resolve raises_shuffleArray : throws.

Lemma raises_fill (env : Generator.Env) (config : SudokuConfig)
  (solveCallback : option (Grid -> M Generator.World (option bool))) :
  (forall cb, solveCallback = Some cb -> forall grid, raises (cb grid)) ->
  forall stack grid startRow startCol,
    raises (Generator.fillGridWithBacktracking stack env grid startRow startCol config
              solveCallback).
Proof.
  intros Hcb. induction stack as [|stack' IH]; intros grid startRow startCol.
  - simpl. raises_tac.
  - simpl.
    apply raises_bind; [raises_tac|]. intros next.
    destruct (fst next >=? len grid); [apply raises_ret|].
    apply raises_bind; [apply raises_shuffleArray|]. intros numbers.
    induction numbers as [|num rest IHnums]; [apply raises_ret|].
    apply raises_bind; [raises_tac|]. intros tempGrid.
    apply raises_bind; [raises_tac|]. intros validation.
    destruct (isValid validation); [|exact IHnums].
    apply raises_bind.
    { destruct solveCallback as [cb|]; [apply (Hcb cb eq_refl) | apply raises_ret]. }
    intros shouldContinue.
    destruct (Generator.is_false shouldContinue); [apply raises_ret|].
    apply raises_bind; [apply IH|]. intros filled.
    destruct (fst filled); [raises_tac | exact IHnums].
Qed.

Lemma raises_generateFilledGrid (stackLimit : nat) (env : Generator.Env)
  (config : SudokuConfig)
  (solveCallback : option (Grid -> M Generator.World (option bool))) :
  (forall cb, solveCallback = Some cb -> forall grid, raises (cb grid)) ->
  raises (Generator.generateFilledGrid stackLimit env config solveCallback).
Proof.
  intros Hcb. unfold Generator.generateFilledGrid.
  pose proof (raises_fill env config solveCallback Hcb stackLimit
                (createEmptyGrid (size config)) 0 0).
  raises_tac.
Qed.

Lemma raises_hasUniqueSolution (grid solution : Grid) (config : SudokuConfig) :
  raises (Generator.hasUniqueSolution grid solution config).
Proof. unfold Generator.hasUniqueSolution. raises_tac. Qed.

#[local] Hint Resolve raises_hasUniqueSolution : throws.

Lemma raises_digLoop (env : Generator.Env) (solution : Grid) (config : SudokuConfig)
  (options : Generator.DigOptions) (size target : Z) :
  (forall cb, Generator.d_onProgress options = Some cb ->
              forall calls phase grid, throws (cb calls phase grid)) ->
  forall positions workingGrid cannotRemove,
    raises (Generator.digLoop env solution config options size target positions
              workingGrid cannotRemove).
Proof.
  intros Hcb. induction positions as [|[row col] rest IH];
    intros workingGrid cannotRemove.
  - apply raises_ret.
  - cbn [Generator.digLoop].
    apply raises_bind; [apply raises_gen_dateNow|]. intros t.
    destruct (t >? Generator.d_timeoutTimestamp options); [apply raises_ret|].
    apply raises_bind; [raises_tac|]. intros cell.
    destruct (value cell =? 0); [apply IH|].
    destruct (existsb (coord_eqb (row, col)) cannotRemove); [apply IH|].
    apply raises_bind; [apply raises_modify|]. intros ?.
    destruct (Generator.countGivens workingGrid <=? target); [apply raises_ret|].
    apply raises_bind; [raises_tac|]. intros tempGrid.
    apply raises_bind; [raises_tac|]. intros tempGrid'.
    apply raises_bind; [raises_tac|]. intros [|]; [|apply IH].
    destruct (Generator.d_onProgress options) as [cb|] eqn:Ecb; [|apply IH].
    apply raises_bind.
    { apply raises_gen_callProgress. intros calls. exact (Hcb cb eq_refl calls _ _). }
    intros shouldContinue.
    destruct (Generator.is_false shouldContinue); [apply raises_ret | apply IH].
Qed.

Lemma raises_digHoles (env : Generator.Env) (grid solution : Grid)
  (config : SudokuConfig) (options : Generator.DigOptions) :
  (forall cb, Generator.d_onProgress options = Some cb ->
              forall calls phase grid, throws (cb calls phase grid)) ->
  raises (Generator.digHoles env grid solution config options).
Proof.
  intros Hcb. unfold Generator.digHoles.
  apply raises_bind; [apply raises_shuffleArray|]. intros shuffledPositions.
  apply raises_bind; [apply raises_digLoop; exact Hcb|]. intros final.
  apply raises_ret.
Qed.

Lemma raises_synthesise (stackLimit : nat) (env : Generator.Env) (config : SudokuConfig)
  (onProgress : option Generator.GeneratorCallback) (timeoutTimestamp : Z) :
  (forall cb, onProgress = Some cb ->
              forall calls phase grid, throws (cb calls phase grid)) ->
  forall remaining,
    raises (Generator.synthesise remaining stackLimit env config onProgress
              timeoutTimestamp).
Proof.
  intros Hcb. induction remaining as [|remaining' IH].
  - apply raises_ret.
  - cbn [Generator.synthesise].
    apply raises_bind; [apply raises_gen_onWorld, raises_modify|]. intros ?.
    apply raises_bind; [apply raises_gen_onWorld, raises_gen_dateNow|]. intros t.
    destruct (t >? timeoutTimestamp); [raises_tac|].
    apply raises_bind.
    { apply raises_gen_onWorld. apply raises_generateFilledGrid.
      intros cb' Ecb' grid. injection Ecb' as <-.
      destruct onProgress as [cb|]; [|apply raises_ret].
      apply raises_gen_callProgress. intros calls. exact (Hcb cb eq_refl calls _ _). }
    intros [g|]; [apply raises_ret | exact IH].
Qed.

(** The progress callback of a [generateSudoku] call throws convertible
    values only. *)
Definition generatorCallbackConvertible (options : Generator.GeneratorOptions) : Prop :=
  forall cb calls phase grid e,
    Generator.o_onProgress options = Some cb -> cb calls phase grid = Throw e ->
    convertible e.

Lemma raises_generateSudoku_try (stackLimit : nat) (env : Generator.Env)
  (config : SudokuConfig) (difficulty : DifficultyLevel) (uniqueSolution : bool)
  (minGivens maxGivens : Z) (symmetrical : bool) (symmetryType : Generator.SymmetryType)
  (timeoutTimestamp : Z) (onProgress : option Generator.GeneratorCallback) :
  (forall cb, onProgress = Some cb ->
              forall calls phase grid, throws (cb calls phase grid)) ->
  raises (Generator.generateSudoku_try stackLimit env config difficulty uniqueSolution
            minGivens maxGivens symmetrical symmetryType timeoutTimestamp onProgress).
Proof.
  intros Hcb. unfold Generator.generateSudoku_try.
  apply raises_bind; [apply raises_synthesise; exact Hcb|]. intros [filledGrid|];
    [|apply raises_gen_onResult].
  apply raises_bind; [apply raises_gen_onWorld, raises_modify|]. intros ?.
  apply raises_bind; [apply raises_gen_onResult|]. intros ?.
  apply raises_bind.
  { apply raises_gen_onWorld, raises_digHoles. exact Hcb. }
  intros [modifiedPuzzle|]; raises_tac.
Qed.

(* --------------------------------------------------------------------- *)
(** *** The solve and generate boundaries *)

(** The result object and the world in which the [try] block of
    [solveSudoku] starts, and how the block ends there. *)
Definition solveSudoku_entry (clock : nat -> Z) : SolveState :=
  (mkSolverResult false [] None FR_error None None, snd (dateNow clock initialWorld)).

Definition solveSudoku_tryOutcome (clock : nat -> Z) (stackLimit : nat) (grid : Grid)
  (config : SudokuConfig) (options : SolverOptions) : outcome unit :=
  fst (solveSudoku_try stackLimit
         (solverContext clock grid config options (clock 0%nat)) grid
         (orDefault (o_strategy options) Fastest)
         (solveSudoku_entry clock)).

(** The same for [generateSudoku]. *)
Definition generateSudoku_entry (env : Generator.Env) : Generator.GenState :=
  (Generator.mkResult false None None Generator.createDefaultGeneratorStats
                      Generator.FR_error None None None,
   snd (Generator.dateNow env Generator.initialWorld)).

Definition generateSudoku_tryOutcome (stackLimit : nat) (env : Generator.Env)
  (config : SudokuConfig) (options : Generator.GeneratorOptions) : outcome unit :=
  fst (Generator.generateSudoku_try stackLimit env config
         (orDefault (Generator.o_difficulty options) MEDIUM)
         (orDefault (Generator.o_uniqueSolution options) true)
         (orDefault (Generator.o_minGivens options)
            (JsFloat.floor (JsFloat.mul (JsFloat.of_Z (size config * size config))
                                        (JsFloat.literal 25 100))))
         (orDefault (Generator.o_maxGivens options)
            (JsFloat.floor (JsFloat.mul (JsFloat.of_Z (size config * size config))
                                        (JsFloat.literal 5 10))))
         (orDefault (Generator.o_symmetrical options) false)
         (orDefault (Generator.o_symmetryType options) Generator.Rotational)
         (Generator.clock env 0%nat + orDefault (Generator.o_timeoutMs options) 30000)
         (Generator.o_onProgress options)
         (generateSudoku_entry env)).

(** How a call of [solveSudoku] ends, from how its [try] block ends: a
    block that returns gives a result; a block that throws gives the error
    result when the [catch] block can compute the message, and otherwise
    the exception of the [catch] block leaves the function. *)
Lemma solveSudoku_boundary clock stackLimit grid config options :
  match solveSudoku_tryOutcome clock stackLimit grid config options with
  | Ret _ => exists result, solveSudoku clock stackLimit grid config options = Ret result
  | Throw e =>
      match errorMessageOf e with
      | Ret text =>
          exists result,
            solveSudoku clock stackLimit grid config options = Ret result /\
            finishReason result = FR_error /\ failReason result = Some text
      | Throw raised =>
          solveSudoku clock stackLimit grid config options = Throw raised
      end
  end.
Proof.
  remember (solveSudoku clock stackLimit grid config options) as o eqn:Ho.
  revert Ho.
  unfold solveSudoku, solveSudoku_tryOutcome, solveSudoku_entry.
  unfold bindM at 1. unfold onWorld at 1. unfold dateNow.
  cbn [snd fst initialWorld clockReads].
  unfold bindM at 1. unfold try_catch_finally.
  match goal with
  | |- context [solveSudoku_try ?a ?b ?c ?d ?s] =>
      destruct (solveSudoku_try a b c d s) as [[u|e] [r w]]
  end.
  - cbn. intros ->. eexists. reflexivity.
  - cbn [fst]. unfold solveSudoku_catch. unfold bindM at 1. unfold liftM.
    destruct (errorMessageOf e) as [text|raised].
    + cbn. intros ->. eexists. split; [reflexivity|]. split; reflexivity.
    + cbn. intros ->. reflexivity.
Qed.

Lemma generateSudoku_boundary stackLimit env config options :
  match generateSudoku_tryOutcome stackLimit env config options with
  | Ret _ =>
      exists result, Generator.generateSudoku stackLimit env config options = Ret result
  | Throw e =>
      match errorMessageOf e with
      | Ret text =>
          exists result,
            Generator.generateSudoku stackLimit env config options = Ret result /\
            Generator.finishReason result = Generator.FR_error /\
            Generator.errorMessage result = Some text
      | Throw raised =>
          Generator.generateSudoku stackLimit env config options = Throw raised
      end
  end.
Proof.
  remember (Generator.generateSudoku stackLimit env config options) as o eqn:Ho.
  revert Ho.
  unfold Generator.generateSudoku, generateSudoku_tryOutcome, generateSudoku_entry.
  unfold bindM at 1. unfold Generator.onWorld at 1. unfold Generator.dateNow.
  cbn [snd fst Generator.initialWorld Generator.clockReads Generator.clock].
  unfold bindM at 1. unfold try_catch_finally.
  match goal with
  | |- context [Generator.generateSudoku_try ?a ?b ?c ?d ?e ?f ?g ?h ?i ?j ?k ?s] =>
      destruct (Generator.generateSudoku_try a b c d e f g h i j k s) as [[u|e0] [r w]]
  end.
  - cbn. intros ->. eexists. reflexivity.
  - cbn [fst]. unfold Generator.generateSudoku_catch.
    unfold bindM at 1. unfold Generator.onResult at 1. unfold bindM at 1.
    unfold liftM.
    destruct (errorMessageOf e0) as [text|raised].
    + cbn. intros ->. eexists. split; [reflexivity|]. split; reflexivity.
    + cbn. intros ->. reflexivity.
Qed.

(** C4. [solveSudoku] and [generateSudoku] return a result, and no
    exception leaves them, for every grid, configuration and options whose
    progress callback throws nothing but instances of [Error] and values
    that [String] converts, whatever the clock, the random source and the
    stack available. Whenever the body of the [try] block ends with an
    exception, raised by validation, by candidate computation, by the
    exhausted stack or by the callback, the result has finish reason error
    and carries the message computed from the exception. *)
Theorem solve_and_generate_return_on_convertible_throws :
  (forall clock stackLimit grid config options,
      solveCallbackConvertible options ->
      exists result,
        solveSudoku clock stackLimit grid config options = Ret result /\
        forall e, solveSudoku_tryOutcome clock stackLimit grid config options = Throw e ->
                  finishReason result = FR_error /\
                  exists text, errorMessageOf e = Ret text /\
                               failReason result = Some text) /\
  (forall stackLimit env config options,
      generatorCallbackConvertible options ->
      exists result,
        Generator.generateSudoku stackLimit env config options = Ret result /\
        forall e, generateSudoku_tryOutcome stackLimit env config options = Throw e ->
                  Generator.finishReason result = Generator.FR_error /\
                  exists text, errorMessageOf e = Ret text /\
                               Generator.errorMessage result = Some text).
Proof.
  split.
  - intros clock stackLimit grid config options Hcb.
    pose proof (solveSudoku_boundary clock stackLimit grid config options) as Hend.
    pose proof (raises_solveSudoku_try clock stackLimit grid config options
                  (clock 0%nat) (orDefault (o_strategy options) Fastest) Hcb
                  (solveSudoku_entry clock)) as Hthrows.
    fold (solveSudoku_tryOutcome clock stackLimit grid config options) in Hthrows.
    destruct (solveSudoku_tryOutcome clock stackLimit grid config options) as [u|e].
    + destruct Hend as [result Hrun]. exists result. split; [exact Hrun|].
      intros e H. discriminate H.
    + destruct (Hthrows e eq_refl) as [text Htext]. rewrite Htext in Hend.
      destruct Hend as (result & Hrun & Hreason & Hfail).
      exists result. split; [exact Hrun|]. intros e' H. injection H as <-.
      split; [exact Hreason|]. exists text. split; assumption.
  - intros stackLimit env config options Hcb.
    pose proof (generateSudoku_boundary stackLimit env config options) as Hend.
    assert (Hthrows : throws (generateSudoku_tryOutcome stackLimit env config options)).
    { apply raises_generateSudoku_try.
      intros cb Ecb calls phase grid e He. exact (Hcb cb calls phase grid e Ecb He). }
    destruct (generateSudoku_tryOutcome stackLimit env config options) as [u|e].
    + destruct Hend as [result Hrun]. exists result. split; [exact Hrun|].
      intros e H. discriminate H.
    + destruct (Hthrows e eq_refl) as [text Htext]. rewrite Htext in Hend.
      destruct Hend as (result & Hrun & Hreason & Hfail).
      exists result. split; [exact Hrun|]. intros e' H. injection H as <-.
      split; [exact Hreason|]. exists text. split; assumption.
Qed.

(** A configuration whose only region names a cell outside a 4x4 grid:
    validating it reads a cell of a row that does not exist. *)
Definition strayConfig : SudokuConfig :=
  mkConfig 4 2 2 [mkRegion "stray" RT_row [(0, 0); (7, 7)] None] [].

(** A clock that advances by one millisecond at each reading, and a random
    source that always gives 0. *)
Definition steadyEnv : Generator.Env :=
  Generator.mkEnv (fun n => Z.of_nat n) (fun _ => 0).

(** The default options, with the uniqueness check asked for. *)
Definition uniqueOptions : Generator.GeneratorOptions :=
  Generator.mkOptions None (Some true) None None None None None None.

(** Options whose callback throws a string: [throw "stop"]. *)
Definition stringThrowingOptions : SolverOptions :=
  mkSolverOptions None None None None (Some (fun _ _ => Throw (NonError "stop"))) None.

Lemma solve_and_generate_return_on_convertible_throws_witness :
  (exists result,
      solveSudoku (fun n => Z.of_nat n) 30 fourByFourPuzzle strayConfig findAllOptions
        = Ret result /\
      finishReason result = FR_error /\
      failReason result = Some "Cannot read properties of undefined") /\
  (exists result,
      solveSudoku (fun n => Z.of_nat n) 30 fourByFourPuzzle fourByFourConfig
        stringThrowingOptions = Ret result /\
      finishReason result = FR_error /\
      failReason result = Some "stop") /\
  (exists result,
      Generator.generateSudoku 30 steadyEnv strayConfig uniqueOptions = Ret result /\
      Generator.finishReason result = Generator.FR_error /\
      Generator.errorMessage result = Some "Cannot read properties of undefined") /\
  (exists result,
      Generator.generateSudoku 3 steadyEnv fourByFourConfig uniqueOptions = Ret result /\
      Generator.finishReason result = Generator.FR_error /\
      Generator.errorMessage result = Some "Maximum call stack size exceeded").
Proof.
  split; [|split; [|split]].
  - destruct (proj1 solve_and_generate_return_on_convertible_throws
                (fun n => Z.of_nat n) 30%nat fourByFourPuzzle strayConfig findAllOptions)
      as (result & Hrun & Herr).
    { intros cb calls ev e Hcb. discriminate Hcb. }
    exists result. split; [exact Hrun|].
    destruct (Herr TypeError) as (Hreason & text & Htext & Hfail).
    { vm_compute. reflexivity. }
    injection Htext as <-. split; assumption.
  - destruct (proj1 solve_and_generate_return_on_convertible_throws
                (fun n => Z.of_nat n) 30%nat fourByFourPuzzle fourByFourConfig
                stringThrowingOptions)
      as (result & Hrun & Herr).
    { intros cb calls ev e Hcb He. injection Hcb as <-. injection He as <-.
      exists "stop". reflexivity. }
    exists result. split; [exact Hrun|].
    destruct (Herr (NonError "stop")) as (Hreason & text & Htext & Hfail).
    { vm_compute. reflexivity. }
    injection Htext as <-. split; assumption.
  - destruct (proj2 solve_and_generate_return_on_convertible_throws 30%nat steadyEnv
                strayConfig uniqueOptions) as (result & Hrun & Herr).
    { intros cb calls phase grid e Hcb. discriminate Hcb. }
    exists result. split; [exact Hrun|].
    destruct (Herr TypeError) as (Hreason & text & Htext & Hfail).
    { vm_compute. reflexivity. }
    injection Htext as <-. split; assumption.
  - destruct (proj2 solve_and_generate_return_on_convertible_throws 3%nat steadyEnv
                fourByFourConfig uniqueOptions) as (result & Hrun & Herr).
    { intros cb calls phase grid e Hcb. discriminate Hcb. }
    exists result. split; [exact Hrun|].
    destruct (Herr RangeError) as (Hreason & text & Htext & Hfail).
    { vm_compute. reflexivity. }
    injection Htext as <-. split; assumption.
Defined.

(** What [throw Object.create(null)] throws: an object that is no [Error]
    and that [String] cannot convert, the conversion ending in a
    TypeError. *)
Definition nullPrototypeObject : exn :=
  Inconvertible (Error "Cannot convert object to primitive value").

(** Options whose progress callback throws that object at every call. *)
Definition objectThrowingOptions : SolverOptions :=
  mkSolverOptions None None None None (Some (fun _ _ => Throw nullPrototypeObject)) None.

Definition objectThrowingGeneratorOptions : Generator.GeneratorOptions :=
  Generator.mkOptions None None None None None None None
                      (Some (fun _ _ _ => Throw nullPrototypeObject)).

(** When the progress callback throws an object that [String] cannot
    convert, the [catch] block throws in turn, and the TypeError of the
    conversion leaves [solveSudoku] and [generateSudoku]. *)
Lemma inconvertible_throw_leaves_solve_and_generate :
  solveSudoku (fun n => Z.of_nat n) 30 fourByFourPuzzle fourByFourConfig
    objectThrowingOptions
  = Throw (Error "Cannot convert object to primitive value") /\
  Generator.generateSudoku 30 steadyEnv fourByFourConfig objectThrowingGeneratorOptions
  = Throw (Error "Cannot convert object to primitive value").
Proof. split; vm_compute; reflexivity. Qed.

(* --------------------------------------------------------------------- *)
(** *** The generator: what a returned value satisfies *)

(** Whatever the world, a value returned by [m] satisfies [R]. *)
Definition returns {W A} (m : M W A) (R : A -> Prop) : Prop :=
  forall w a, fst (m w) = Ret a -> R a.

Lemma returns_ret {W A} (a : A) (R : A -> Prop) : R a -> returns (@retM W A a) R.
Proof. intros H w b Hb. inversion Hb; subst. exact H. Qed.

Lemma returns_bind {W A B} (m : M W A) (R : A -> Prop) (k : A -> M W B)
  (R' : B -> Prop) :
  returns m R -> (forall a, R a -> returns (k a) R') -> returns (bindM m k) R'.
Proof.
  intros Hm Hk w b. unfold bindM. specialize (Hm w).
  destruct (m w) as [[a|e] w1]; simpl in *; [|discriminate].
  apply Hk. apply Hm. reflexivity.
Qed.

Lemma returns_lift {W A} (o : outcome A) (R : A -> Prop) :
  (forall a, o = Ret a -> R a) -> returns (@liftM W A o) R.
Proof. intros H w a Ha. apply H. exact Ha. Qed.

Lemma returns_true {W A} (m : M W A) : returns m (fun _ => True).
Proof. intros w a _. exact I. Qed.

(** No cell of the grid is a given. *)
Definition noGivens (g : Grid) : Prop :=
  forall r c x, cellAt g r c = Ret x -> isPuzzle x = false.

Lemma cellAt_In (g : Grid) (r c : Z) (x : CellState) :
  cellAt g r c = Ret x -> exists rw, In rw g /\ In x rw.
Proof.
  intros H. apply cellAt_Ret in H as (rw & Hr & Hc & _).
  exists rw. split; eapply nth_error_In; eauto.
Qed.

Lemma noGivens_createEmptyGrid (size : Z) : noGivens (createEmptyGrid size).
Proof.
  intros r c x H. apply cellAt_In in H as (rw & Hrw & Hx).
  unfold createEmptyGrid in Hrw. apply in_map_iff in Hrw as (i & <- & _).
  apply in_map_iff in Hx as (j & <- & _). reflexivity.
Qed.

Lemma noGivens_setCellValue (g : Grid) (r c v : Z) (g' : Grid) :
  noGivens g -> setCellValue g r c v false = Ret g' -> noGivens g'.
Proof.
  intros Hg H. apply setCellValue_cases in H as [-> | (x & Hx & Hp & ->)]; [assumption|].
  intros r' c' x' H'. rewrite cellAt_updGrid in H'.
  destruct (cellAt g r' c') as [y|] eqn:Ey; [|discriminate].
  inversion H'; subst. destruct ((r' =? r) && (c' =? c)); [reflexivity|].
  eapply Hg; eauto.
Qed.

Lemma mapM_nth {A B} (f : A -> outcome B) (xs : list A) :
  forall ys, mapM f xs = Ret ys ->
  forall n y, nth_error ys n = Some y ->
              exists x, nth_error xs n = Some x /\ f x = Ret y.
Proof.
  induction xs as [|a xs IH]; simpl; intros ys H n y Hn.
  - inversion H; subst. destruct n; discriminate.
  - destruct (f a) as [b|] eqn:Ef; [|discriminate].
    destruct (mapM f xs) as [bs|] eqn:Em; [|discriminate].
    inversion H; subst. destruct n as [|n]; simpl in *.
    + inversion Hn; subst. eauto.
    + eapply IH; eauto.
Qed.

Lemma mapM_length {A B} (f : A -> outcome B) (xs : list A) :
  forall ys, mapM f xs = Ret ys -> List.length ys = List.length xs.
Proof.
  induction xs as [|a xs IH]; simpl; intros ys H.
  - inversion H; reflexivity.
  - destruct (f a) as [b|]; [|discriminate].
    destruct (mapM f xs) as [bs|]; [|discriminate].
    inversion H; subst. simpl. f_equal. now apply IH.
Qed.

(** The cells that the copy-back loop writes are those of [tempGrid]. *)
Lemma copyBack_cells (grid tempGrid g' : Grid) :
  Generator.copyBack grid tempGrid = Ret g' ->
  forall r c x, cellAt g' r c = Ret x -> cellAt tempGrid r c = Ret x.
Proof.
  unfold Generator.copyBack. intros H r c x Hx.
  apply cellAt_Ret in Hx as (rw & Hr & Hc & Hr0 & Hc0).
  destruct (mapM_nth _ _ _ H _ _ Hr) as ([i row] & Hi & Hf).
  unfold mapi in Hi. rewrite mapi_from_nth in Hi.
  destruct (nth_error grid (Z.to_nat r)) as [row0|]; [|discriminate].
  simpl in Hi. inversion Hi; subst i row0. clear Hi.
  rewrite Z2Nat.id in Hf by assumption. simpl in Hf.
  unfold cellAt. destruct (nth_Z tempGrid r) as [trow|]; [|discriminate].
  destruct (mapM_nth _ _ _ Hf _ _ Hc) as ([j cell] & Hj & Hg).
  unfold mapi in Hj. rewrite mapi_from_nth in Hj.
  destruct (nth_error row (Z.to_nat c)) as [cell0|]; [|discriminate].
  simpl in Hj. inversion Hj; subst j cell0. clear Hj.
  rewrite Z2Nat.id in Hg by assumption. simpl in Hg.
  destruct (nth_Z trow c) as [tcell|]; [|discriminate].
  inversion Hg. now rewrite cloneCell_id.
Qed.

Lemma fill_noGivens (env : Generator.Env) (config : SudokuConfig)
  (solveCallback : option (Grid -> M Generator.World (option bool))) (stack : nat) :
  forall grid startRow startCol,
    noGivens grid ->
    returns (Generator.fillGridWithBacktracking stack env grid startRow startCol
               config solveCallback)
            (fun filled => noGivens (snd filled)).
Proof.
  induction stack as [|stack IH]; intros grid startRow startCol Hg.
  - intros w a H. discriminate.
  - simpl.
    eapply returns_bind; [apply returns_true|]. intros next _.
    destruct (fst next >=? len grid); [apply returns_ret; assumption|].
    eapply returns_bind; [apply returns_true|]. intros numbers _.
    induction numbers as [|num rest IHn]; [apply returns_ret; assumption|].
    eapply returns_bind with (R := noGivens).
    { apply returns_lift. intros t Ht. eapply noGivens_setCellValue; eauto. }
    intros tempGrid Ht.
    eapply returns_bind; [apply returns_true|]. intros validation _.
    destruct (isValid validation); [|exact IHn].
    eapply returns_bind; [apply returns_true|]. intros shouldContinue _.
    destruct (Generator.is_false shouldContinue); [apply returns_ret; assumption|].
    eapply returns_bind; [apply (IH tempGrid _ _ Ht)|]. intros filled Hf.
    destruct (fst filled); [|exact IHn].
    eapply returns_bind with (R := noGivens).
    { apply returns_lift. intros g' Hg' r c x Hx. eapply Hf.
      eapply copyBack_cells; eauto. }
    intros g' Hg'. apply returns_ret. assumption.
Qed.

Lemma generateFilledGrid_noGivens (stackLimit : nat) (env : Generator.Env)
  (config : SudokuConfig) solveCallback :
  returns (Generator.generateFilledGrid stackLimit env config solveCallback)
          (fun filledGrid => forall g, filledGrid = Some g -> noGivens g).
Proof.
  unfold Generator.generateFilledGrid.
  eapply returns_bind; [apply returns_true|]. intros startTime _.
  eapply returns_bind;
    [apply fill_noGivens, noGivens_createEmptyGrid|]. intros filled Hf.
  eapply returns_bind; [apply returns_true|]. intros endTime _.
  destruct (fst filled); apply returns_ret; intros g Hg; [|discriminate].
  inversion Hg; subst. assumption.
Qed.

(** Marking one cell as a given, as the loop of [generateSudoku] does. *)
Definition markCell (c : CellState) : CellState :=
  if negb (value c =? 0) then setIsPuzzle true c else c.

(** A puzzle cell [x] that comes from the solution cell [y]: marked, or
    marked and then cleared. *)
Definition dug (y x : CellState) : Prop :=
  x = markCell y \/ x = Generator.clearCell (markCell y).

Definition Dug (s p : Grid) : Prop :=
  shape p = shape s /\
  forall r c x, cellAt p r c = Ret x -> exists y, cellAt s r c = Ret y /\ dug y x.

Lemma cellAt_map_map (f : CellState -> CellState) (g : Grid) (r c : Z) :
  cellAt (map (map f) g) r c =
  match cellAt g r c with
  | Ret x => Ret (f x)
  | Throw e => Throw e
  end.
Proof.
  unfold cellAt, nth_Z. destruct (r <? 0); [reflexivity|].
  rewrite nth_error_map. destruct (nth_error g (Z.to_nat r)) as [rw|]; [|reflexivity].
  simpl. destruct (c <? 0); [reflexivity|].
  rewrite nth_error_map. destruct (nth_error rw (Z.to_nat c)); reflexivity.
Qed.

Lemma shape_map_map (f : CellState -> CellState) (g : Grid) :
  shape (map (map f) g) = shape g.
Proof.
  unfold shape. rewrite map_map. apply map_ext. intros rw. apply length_map.
Qed.

Lemma Dug_markGivens (s : Grid) : Dug s (Generator.markGivens s).
Proof.
  split; [apply shape_map_map|].
  intros r c x H. unfold Generator.markGivens in H. rewrite cellAt_map_map in H.
  destruct (cellAt s r c) as [y|]; [|discriminate].
  exists y. split; [reflexivity|]. left. inversion H. reflexivity.
Qed.

Lemma Dug_clear (s p : Grid) (row col : Z) :
  Dug s p -> Dug s (updGrid p row col Generator.clearCell).
Proof.
  intros [Hs Hp]. split; [now rewrite shape_updGrid|].
  intros r c x H. rewrite cellAt_updGrid in H.
  destruct (cellAt p r c) as [x0|] eqn:E; [|discriminate].
  destruct (Hp r c x0 E) as (y & Hy & Hd). exists y. split; [assumption|].
  inversion H; subst. destruct ((r =? row) && (c =? col)); [|assumption].
  right. destruct Hd as [-> | ->]; reflexivity.
Qed.

Lemma assignCell_upd (g : Grid) (r c : Z) (f : CellState -> CellState) (g' : Grid) :
  assignCell g r c f = Ret g' -> g' = updGrid g r c f.
Proof.
  unfold assignCell. destruct (cellAt g r c); [|discriminate].
  intros H. inversion H. reflexivity.
Qed.

Lemma clearSymmetric_Dug (s t : Grid) (row col size : Z)
  (options : Generator.DigOptions) (t' : Grid) :
  Dug s t -> Generator.clearSymmetric t row col size options = Ret t' -> Dug s t'.
Proof.
  intros Ht. unfold Generator.clearSymmetric.
  destruct (Generator.d_symmetrical options); [|intros H; inversion H; subst; assumption].
  destruct (Generator.getSymmetricPosition row col size
              (Generator.d_symmetryType options)) as [symRow symCol].
  match goal with |- (if ?b then _ else _) = _ -> _ => destruct b end;
    [|intros H; inversion H; subst; assumption].
  destruct (cellAt t symRow symCol) as [x|]; [|discriminate].
  destruct (negb (value x =? 0)); [|intros H; inversion H; subst; assumption].
  intros H. apply assignCell_upd in H. subst. apply Dug_clear. assumption.
Qed.

Lemma digLoop_Dug (env : Generator.Env) (solution : Grid) (config : SudokuConfig)
  (options : Generator.DigOptions) (size target : Z) (s : Grid) :
  forall positions workingGrid cannotRemove,
    Dug s workingGrid ->
    returns (Generator.digLoop env solution config options size target positions
               workingGrid cannotRemove)
            (Dug s).
Proof.
  induction positions as [|[row col] rest IH]; intros wg cannot Hwg; simpl.
  - apply returns_ret; assumption.
  - eapply returns_bind; [apply returns_true|]. intros t _.
    destruct (t >? Generator.d_timeoutTimestamp options);
      [apply returns_ret; assumption|].
    eapply returns_bind; [apply returns_true|]. intros cell _.
    destruct (value cell =? 0); [apply IH; assumption|].
    destruct (existsb (coord_eqb (row, col)) cannot); [apply IH; assumption|].
    eapply returns_bind; [apply returns_true|]. intros [] _.
    destruct (Generator.countGivens wg <=? target); [apply returns_ret; assumption|].
    eapply returns_bind with (R := Dug s).
    { apply returns_lift. intros t1 H1. apply assignCell_upd in H1. subst.
      rewrite cloneGrid_id. apply Dug_clear; assumption. }
    intros t1 H1.
    eapply returns_bind with (R := Dug s).
    { apply returns_lift. intros t2 H2. eapply clearSymmetric_Dug; eauto. }
    intros t2 H2.
    eapply returns_bind; [apply returns_true|]. intros canRemove _.
    destruct canRemove.
    + destruct (Generator.d_onProgress options).
      * eapply returns_bind; [apply returns_true|]. intros shouldContinue _.
        destruct (Generator.is_false shouldContinue);
          [apply returns_ret; assumption | apply IH; assumption].
      * apply IH; assumption.
    + apply IH; assumption.
Qed.

Lemma digHoles_Dug (env : Generator.Env) (grid solution : Grid)
  (config : SudokuConfig) (options : Generator.DigOptions) (s : Grid) :
  Dug s grid ->
  returns (Generator.digHoles env grid solution config options)
          (fun modified => exists p, modified = Some p /\ Dug s p).
Proof.
  intros Hg. unfold Generator.digHoles.
  eapply returns_bind; [apply returns_true|]. intros shuffledPositions _.
  eapply returns_bind; [apply digLoop_Dug; rewrite cloneGrid_id; exact Hg|].
  intros final Hf. apply returns_ret. exists final. auto.
Qed.

(** The solution [s] has no givens, and the puzzle [p] is [s] with its
    filled cells marked and some of them cleared. *)
Definition PuzzleOf (s p : Grid) : Prop := noGivens s /\ Dug s p.

Definition Unsuccessful (r : Generator.GeneratorResult) : Prop :=
  Generator.success r = false.

(** What holds of the result object of [generateSudoku] at every point
    where the [try] block may be left. *)
Definition Final (st : Generator.GenState) : Prop :=
  Generator.success (fst st) = true ->
  exists p s, Generator.puzzle (fst st) = Some p /\
              Generator.solution (fst st) = Some s /\ PuzzleOf s p.

Lemma Unsuccessful_Final (st : Generator.GenState) : Unsuccessful (fst st) -> Final st.
Proof. unfold Unsuccessful, Final. intros H H'. congruence. Qed.

Lemma gen_onWorld {A} (m : M Generator.World A) (R : A -> Prop)
  (Q : Generator.GeneratorResult -> Prop) :
  returns m R -> (forall r, Q r -> Unsuccessful r) ->
  ispec (fun st => Q (fst st)) Final (Generator.onWorld m)
        (fun a st => Q (fst st) /\ R a).
Proof.
  intros Hm HQ [r w] Hs. unfold Generator.onWorld. simpl in *.
  specialize (Hm w). destruct (m w) as [o w']. simpl in *. split.
  - apply Unsuccessful_Final. simpl. auto.
  - intros a Ha. split; [assumption|]. apply Hm. assumption.
Qed.

Lemma gen_onResult (f : Generator.GeneratorResult -> Generator.GeneratorResult)
  (Q Q' : Generator.GeneratorResult -> Prop) :
  (forall r, Q r -> Q' (f r)) -> (forall r, Q' r -> Unsuccessful r) ->
  ispec (fun st => Q (fst st)) Final (Generator.onResult f) (fun _ st => Q' (fst st)).
Proof.
  intros Hf HQ [r w] Hs. unfold Generator.onResult. simpl in *. split.
  - apply Unsuccessful_Final. simpl. auto.
  - intros _ _. auto.
Qed.

Lemma synthesise_spec (stackLimit : nat) (env : Generator.Env) (config : SudokuConfig)
  (onProgress : option Generator.GeneratorCallback) (timeoutTimestamp : Z)
  (remaining : nat) :
  ispec (fun st => Unsuccessful (fst st)) Final
        (Generator.synthesise remaining stackLimit env config onProgress timeoutTimestamp)
        (fun filledGrid st =>
           Unsuccessful (fst st) /\ forall g, filledGrid = Some g -> noGivens g).
Proof.
  induction remaining as [|remaining IH]; simpl.
  - apply ispec_ret. intros st Hst. split; [now apply Unsuccessful_Final|].
    split; [assumption | discriminate].
  - eapply ispec_bind.
    { apply (gen_onWorld _ (fun _ => True) Unsuccessful); [apply returns_true | auto]. }
    intros []. eapply ispec_weaken with (Pre' := fun st => Unsuccessful (fst st));
      [| intros st [H _]; exact H | intros a st H; exact H].
    eapply ispec_bind.
    { apply (gen_onWorld _ (fun _ => True) Unsuccessful); [apply returns_true | auto]. }
    intros t. eapply ispec_weaken with (Pre' := fun st => Unsuccessful (fst st));
      [| intros st [H _]; exact H | intros a st H; exact H].
    destruct (t >? timeoutTimestamp).
    + eapply ispec_bind.
      { apply (gen_onResult _ Unsuccessful Unsuccessful); [|auto].
        intros r Hr. exact Hr. }
      intros []. apply ispec_ret. intros st Hst.
      split; [now apply Unsuccessful_Final|]. split; [assumption | discriminate].
    + eapply ispec_bind.
      { apply (gen_onWorld _ (fun filledGrid => forall g, filledGrid = Some g -> noGivens g)
                 Unsuccessful);
          [apply generateFilledGrid_noGivens | auto]. }
      intros [g|].
      * apply ispec_ret. intros st [Hst Hg].
        split; [now apply Unsuccessful_Final|]. split; [assumption|].
        intros g' Hg'. apply Hg. assumption.
      * eapply ispec_weaken with (Pre' := fun st => Unsuccessful (fst st));
          [exact IH | intros st [H _]; exact H | intros a st H; exact H].
Qed.

Lemma generateSudoku_try_spec (stackLimit : nat) (env : Generator.Env)
  (config : SudokuConfig) difficulty uniqueSolution minGivens maxGivens symmetrical
  symmetryType timeoutTimestamp onProgress :
  ispec (fun st => Unsuccessful (fst st)) Final
        (Generator.generateSudoku_try stackLimit env config difficulty uniqueSolution
           minGivens maxGivens symmetrical symmetryType timeoutTimestamp onProgress)
        (fun _ _ => True).
Proof.
  unfold Generator.generateSudoku_try.
  eapply ispec_bind; [apply synthesise_spec|]. intros [filledGrid|].
  - apply ispec_pre. intros Hfilled. specialize (Hfilled filledGrid eq_refl).
    eapply ispec_bind.
    { apply (gen_onWorld _ (fun _ => True) Unsuccessful); [apply returns_true | auto]. }
    intros []. eapply ispec_weaken with (Pre' := fun st => Unsuccessful (fst st));
      [| intros st [H _]; exact H | intros a st H; exact H].
    eapply ispec_bind.
    { apply (gen_onResult _ Unsuccessful
               (fun r => Unsuccessful r /\
                         Generator.solution r = Some (cloneGrid filledGrid))).
      - intros r Hr. split; [exact Hr | reflexivity].
      - intros r [Hr _]. exact Hr. }
    intros []. eapply ispec_bind.
    { apply (gen_onWorld _
               (fun modified => exists p, modified = Some p /\
                                          Dug (cloneGrid filledGrid) p)
               (fun r => Unsuccessful r /\
                         Generator.solution r = Some (cloneGrid filledGrid))).
      - apply (digHoles_Dug _ _ _ _ _ (cloneGrid filledGrid)).
        rewrite !cloneGrid_id. apply Dug_markGivens.
      - intros r [Hr _]. exact Hr. }
    intros [modifiedPuzzle|].
    + intros [r w] [[Hr Hsol] (p & Hp & Hdug)]. inversion Hp; subst p. simpl in *.
      split; [|trivial]. intros _. exists modifiedPuzzle, (cloneGrid filledGrid).
      split; [reflexivity|]. split; [assumption|]. split; [|assumption].
      rewrite cloneGrid_id. assumption.
    + eapply ispec_weaken with (Pre' := fun st => Unsuccessful (fst st)).
      * apply (gen_onResult _ Unsuccessful Unsuccessful); [|auto].
        intros r Hr. exact Hr.
      * intros st [[H _] _]. exact H.
      * trivial.
  - eapply ispec_weaken with (Pre' := fun st => Unsuccessful (fst st)).
    + apply (gen_onResult _ Unsuccessful Unsuccessful); [|auto].
      intros r Hr. exact Hr.
    + intros st [H _]. exact H.
    + trivial.
Qed.

Lemma generateSudoku_Final (stackLimit : nat) (env : Generator.Env)
  (config : SudokuConfig) (options : Generator.GeneratorOptions)
  (result : Generator.GeneratorResult) :
  Generator.generateSudoku stackLimit env config options = Ret result ->
  Generator.success result = true ->
  exists p s, Generator.puzzle result = Some p /\
              Generator.solution result = Some s /\ PuzzleOf s p.
Proof.
  unfold Generator.generateSudoku.
  unfold bindM at 1. unfold Generator.onWorld at 1. unfold Generator.dateNow at 1.
  cbn [snd fst Generator.initialWorld Generator.clockReads Generator.clock].
  unfold bindM at 1. unfold try_catch_finally.
  match goal with
  | |- context [Generator.generateSudoku_try ?a ?b ?c ?d ?e ?f ?g ?h ?i ?j ?k ?s] =>
      pose proof (generateSudoku_try_spec a b c d e f g h i j k s eq_refl) as [HF _];
      destruct (Generator.generateSudoku_try a b c d e f g h i j k s) as [[u|e0] [r w]]
  end.
  - cbn. intros H. inversion H; subst result. clear H. exact HF.
  - cbn [fst]. unfold Generator.generateSudoku_catch.
    unfold bindM at 1. unfold Generator.onResult at 1. unfold bindM at 1.
    unfold liftM.
    destruct (errorMessageOf e0) as [text|raised]; cbn; intros H; [|discriminate H].
    inversion H; subst result. clear H. exact HF.
Qed.

Lemma PuzzleOf_cells (s p : Grid) :
  PuzzleOf s p ->
  shape p = shape s /\
  forall r c x,
    cellAt p r c = Ret x ->
    exists y, cellAt s r c = Ret y /\
              (value x <> 0 -> value x = value y /\ isPuzzle x = true) /\
              (value x = 0 -> isPuzzle x = false) /\
              notes x = notes y /\ error x = error y /\
              highlight x = highlight y /\ animationState x = animationState y.
Proof.
  intros [Hs [Hshape Hd]]. split; [assumption|].
  intros r c x Hx. destruct (Hd r c x Hx) as (y & Hy & Hdug).
  exists y. split; [assumption|]. specialize (Hs r c y Hy).
  destruct Hdug as [-> | ->]; unfold markCell;
    destruct (value y =? 0) eqn:E; simpl; repeat split; auto; try congruence.
  - apply Z.eqb_eq in E. congruence.
  - apply Z.eqb_neq in E. intros H. congruence.
Qed.

(** The puzzle generated for the 4x4 standard configuration. *)
Definition generatedResult : Generator.GeneratorResult :=
  match Generator.generateSudoku 30 steadyEnv fourByFourConfig uniqueOptions with
  | Ret r => r
  | Throw _ =>
      Generator.mkResult false None None Generator.createDefaultGeneratorStats
                         Generator.FR_error None None None
  end.

Definition generatedPuzzle : Grid :=
  match Generator.puzzle generatedResult with
  | Some p => p
  | None => []
  end.

(* --------------------------------------------------------------------- *)
(** *** The target of the digging *)

(** The fraction of the cells that a difficulty asks to keep. *)
Definition fraction (d : DifficultyLevel) : Z * Z :=
  match d with
  | EASY => (45, 100)
  | MEDIUM => (35, 100)
  | HARD => (30, 100)
  | EXPERT => (25, 100)
  end.

(** The floor of [totalCells] times the fraction, in exact arithmetic. *)
Definition exactTarget (d : DifficultyLevel) (totalCells : Z) : Z :=
  totalCells * fst (fraction d) / snd (fraction d).

Definition targetsAgree (bound : Z) : bool :=
  forallb (fun size =>
             forallb (fun d =>
                        Generator.targetForDifficulty d (size * size)
                        =? exactTarget d (size * size))
                     [EASY; MEDIUM; HARD; EXPERT])
          (range0 bound).

Lemma range0_In (n i : Z) : 0 <= i < n -> In i (range0 n).
Proof.
  intros H. unfold range0. apply in_map_iff. exists (Z.to_nat i).
  split; [lia|]. apply in_seq. lia.
Qed.

Lemma targetForDifficulty_exact (d : DifficultyLevel) (size : Z) :
  0 <= size < 150 ->
  Generator.targetForDifficulty d (size * size) = exactTarget d (size * size).
Proof.
  intros H. assert (Hall : targetsAgree 150 = true) by (vm_compute; reflexivity).
  unfold targetsAgree in Hall. rewrite forallb_forall in Hall.
  specialize (Hall size (range0_In 150 size H)). rewrite forallb_forall in Hall.
  apply Z.eqb_eq. apply Hall. destruct d; simpl; auto.
Qed.

(** From 150 rows on the product computed in double precision can fall
    just short of the exact one: 22500 * 0.35 is 7875, and the code gets
    7874. *)
Remark targetForDifficulty_rounds_at_150 :
  Generator.targetForDifficulty MEDIUM (150 * 150) = 7874 /\
  exactTarget MEDIUM (150 * 150) = 7875.
Proof. split; vm_compute; reflexivity. Qed.

Lemma digLoop_at_target (env : Generator.Env) (solution : Grid) (config : SudokuConfig)
  (options : Generator.DigOptions) (size target : Z) (workingGrid : Grid) :
  Generator.countGivens workingGrid <= target ->
  forall positions cannotRemove w,
    Forall (inGrid workingGrid) positions ->
    exists w',
      Generator.digLoop env solution config options size target positions
                        workingGrid cannotRemove w = (Ret workingGrid, w').
Proof.
  intros Hcount. induction positions as [|[row col] rest IH]; intros cannot w Hin.
  - eexists. reflexivity.
  - inversion Hin as [|? ? [cell Hcell] Hrest]; subst. simpl in Hcell.
    simpl. unfold bindM at 1. unfold Generator.dateNow at 1.
    destruct (_ >? Generator.d_timeoutTimestamp options); [eexists; reflexivity|].
    unfold bindM at 1. unfold liftM at 1. rewrite Hcell.
    destruct (value cell =? 0); [apply IH; assumption|].
    destruct (existsb (coord_eqb (row, col)) cannot); [apply IH; assumption|].
    unfold bindM at 1. unfold modifyM at 1.
    apply Z.leb_le in Hcount. rewrite Hcount. eexists. reflexivity.
Qed.

(* --------------------------------------------------------------------- *)
(** *** The deadline while digging *)

(** The options that [generateSudoku] hands to [digHoles]. *)
Definition digOptionsOf (env : Generator.Env) (config : SudokuConfig)
  (options : Generator.GeneratorOptions) : Generator.DigOptions :=
  Generator.mkDigOptions
    (orDefault (Generator.o_difficulty options) MEDIUM)
    (orDefault (Generator.o_uniqueSolution options) true)
    (orDefault (Generator.o_minGivens options)
       (JsFloat.floor (JsFloat.mul (JsFloat.of_Z (size config * size config))
                                   (JsFloat.literal 25 100))))
    (orDefault (Generator.o_maxGivens options)
       (JsFloat.floor (JsFloat.mul (JsFloat.of_Z (size config * size config))
                                   (JsFloat.literal 5 10))))
    (orDefault (Generator.o_symmetrical options) false)
    (orDefault (Generator.o_symmetryType options) Generator.Rotational)
    (Generator.clock env 0%nat + orDefault (Generator.o_timeoutMs options) 30000)
    (Generator.o_onProgress options).

(** The filled grid and the world with which a run of [generateSudoku]
    gets to the digging, when it does. *)
Definition diggingStart (stackLimit : nat) (env : Generator.Env)
  (config : SudokuConfig) (options : Generator.GeneratorOptions)
  : option (Grid * Generator.World) :=
  match Generator.synthesise 10 stackLimit env config (Generator.o_onProgress options)
          (Generator.clock env 0%nat + orDefault (Generator.o_timeoutMs options) 30000)
          (generateSudoku_entry env) with
  | (Ret (Some filledGrid), st) =>
      Some (filledGrid, Generator.incr_fullGridsGenerated (snd st))
  | _ => None
  end.

(** How the call of [digHoles] ends in that run. *)
Definition diggingOutcome (stackLimit : nat) (env : Generator.Env)
  (config : SudokuConfig) (options : Generator.GeneratorOptions)
  : option (outcome (option Grid)) :=
  match diggingStart stackLimit env config options with
  | Some (filledGrid, w) =>
      Some (fst (Generator.digHoles env
                   (Generator.markGivens (cloneGrid (cloneGrid filledGrid)))
                   (cloneGrid filledGrid) config
                   (digOptionsOf env config options) w))
  | None => None
  end.

Lemma digLoop_past_deadline (env : Generator.Env) (solution : Grid)
  (config : SudokuConfig) (options : Generator.DigOptions) (size target : Z)
  (position : Coord) (rest : list Coord) (workingGrid : Grid)
  (cannotRemove : list Coord) (w : Generator.World) :
  Generator.clock env (Generator.clockReads w) > Generator.d_timeoutTimestamp options ->
  fst (Generator.digLoop env solution config options size target (position :: rest)
         workingGrid cannotRemove w) = Ret workingGrid.
Proof.
  intros H. destruct position as [row col]. simpl.
  unfold bindM at 1. unfold Generator.dateNow at 1.
  apply Z.gtb_gt in H. rewrite H. reflexivity.
Qed.

Lemma digging_returns_success (stackLimit : nat) (env : Generator.Env)
  (config : SudokuConfig) (options : Generator.GeneratorOptions) (p : Grid) :
  diggingOutcome stackLimit env config options = Some (Ret (Some p)) ->
  exists result,
    Generator.generateSudoku stackLimit env config options = Ret result /\
    Generator.success result = true /\
    Generator.finishReason result = Generator.FR_success /\
    Generator.puzzle result = Some p.
Proof.
  unfold diggingOutcome, diggingStart, Generator.generateSudoku, generateSudoku_entry.
  unfold bindM at 1. unfold Generator.onWorld at 1. unfold Generator.dateNow.
  cbn [snd fst Generator.initialWorld Generator.clockReads Generator.clock].
  unfold bindM at 1. unfold try_catch_finally.
  unfold Generator.generateSudoku_try. unfold bindM at 1.
  match goal with
  | |- context [Generator.synthesise ?a ?b ?c ?d ?e ?f ?s] =>
      destruct (Generator.synthesise a b c d e f s) as [[[filledGrid|]|e0] [r1 w1]]
  end; try discriminate.
  cbn [snd fst]. unfold digOptionsOf.
  unfold bindM at 1. unfold Generator.onWorld at 1. unfold modifyM at 1.
  cbn [snd fst].
  unfold bindM at 1. unfold Generator.onResult at 1. cbn [snd fst].
  unfold bindM at 1. unfold Generator.onWorld at 1. cbn [snd fst].
  match goal with
  | |- context [Generator.digHoles ?a ?b ?c ?d ?e ?w] =>
      destruct (Generator.digHoles a b c d e w) as [[[q|]|e1] w2]
  end; try discriminate.
  cbn. intros H. inversion H; subst q. eexists. split; [reflexivity|].
  repeat split.
Qed.

(** C10. In every successful result of [generateSudoku] the puzzle has the
    shape of the solution, and each of its cells comes from the solution
    cell at the same place: a cell with a non-zero value holds the value of
    the solution cell and is a given, every other cell holds 0 and is not a
    given, and the notes, error, highlight and animation state are those of
    the solution cell. *)
Theorem puzzle_is_solution_with_cells_cleared (stackLimit : nat)
  (env : Generator.Env) (config : SudokuConfig) (options : Generator.GeneratorOptions)
  (result : Generator.GeneratorResult) :
  Generator.generateSudoku stackLimit env config options = Ret result ->
  Generator.success result = true ->
  exists p s,
    Generator.puzzle result = Some p /\ Generator.solution result = Some s /\
    shape p = shape s /\
    forall r c x,
      cellAt p r c = Ret x ->
      exists y, cellAt s r c = Ret y /\
                (value x <> 0 -> value x = value y /\ isPuzzle x = true) /\
                (value x = 0 -> isPuzzle x = false) /\
                notes x = notes y /\ error x = error y /\
                highlight x = highlight y /\ animationState x = animationState y.
Proof.
  intros Hrun Hok.
  destruct (generateSudoku_Final _ _ _ _ _ Hrun Hok) as (p & s & Hp & Hs & Hps).
  exists p, s. split; [assumption|]. split; [assumption|].
  apply PuzzleOf_cells. assumption.
Qed.

Lemma puzzle_is_solution_with_cells_cleared_witness :
  exists p s,
    Generator.puzzle generatedResult = Some p /\
    Generator.solution generatedResult = Some s /\
    shape p = shape s /\
    forall r c x,
      cellAt p r c = Ret x ->
      exists y, cellAt s r c = Ret y /\
                (value x <> 0 -> value x = value y /\ isPuzzle x = true) /\
                (value x = 0 -> isPuzzle x = false) /\
                notes x = notes y /\ error x = error y /\
                highlight x = highlight y /\ animationState x = animationState y.
Proof.
  apply (puzzle_is_solution_with_cells_cleared 30%nat steadyEnv fourByFourConfig
           uniqueOptions generatedResult).
  - vm_compute. reflexivity.
  - vm_compute. reflexivity.
Defined.

(** C8. For grids of fewer than 150 rows, the target that [digHoles] digs
    to is the floor of the number of cells times 0.45 (easy), 0.35 (medium),
    0.30 (hard) or 0.25 (expert), brought into the range from [minGivens] to
    [maxGivens]; and once the working grid has no more givens than the
    target, the digging loop returns that grid as it is, whatever positions
    are left to visit. *)
Theorem digging_target_and_stop (options : Generator.DigOptions) (size : Z) :
  0 <= size < 150 ->
  Generator.targetGivens options (size * size) =
    Z.max (Generator.d_minGivens options)
          (Z.min (exactTarget (Generator.d_difficulty options) (size * size))
                 (Generator.d_maxGivens options)) /\
  (Generator.d_minGivens options <= Generator.d_maxGivens options ->
   Generator.d_minGivens options <= Generator.targetGivens options (size * size)
                                 <= Generator.d_maxGivens options) /\
  (forall env solution config positions workingGrid cannotRemove w,
      Forall (inGrid workingGrid) positions ->
      Generator.countGivens workingGrid <= Generator.targetGivens options (size * size) ->
      exists w',
        Generator.digLoop env solution config options size
          (Generator.targetGivens options (size * size)) positions workingGrid
          cannotRemove w = (Ret workingGrid, w')).
Proof.
  intros Hsize. split; [|split].
  - unfold Generator.targetGivens. now rewrite targetForDifficulty_exact.
  - unfold Generator.targetGivens. lia.
  - intros env solution config positions workingGrid cannotRemove w Hin Hcount.
    apply digLoop_at_target; assumption.
Qed.

(** The options with which a medium 4x4 puzzle is dug by default, and a
    grid that holds four givens. *)
Definition mediumDigOptions : Generator.DigOptions :=
  Generator.mkDigOptions MEDIUM true 4 8 false Generator.Rotational 30000 None.

Definition fourGivens : Grid :=
  createGridFromValues [[1; 0; 0; 0]; [0; 2; 0; 0]; [0; 0; 3; 0]; [0; 0; 0; 4]].

Lemma digging_target_and_stop_witness :
  Generator.targetGivens mediumDigOptions (4 * 4) = 5 /\
  exists w',
    Generator.digLoop steadyEnv fourGivens fourByFourConfig mediumDigOptions 4
      (Generator.targetGivens mediumDigOptions (4 * 4)) [(0, 0); (1, 1)] fourGivens []
      Generator.initialWorld = (Ret fourGivens, w').
Proof.
  assert (Hsize : 0 <= 4 < 150) by lia.
  destruct (digging_target_and_stop mediumDigOptions 4 Hsize) as (Htarget & _ & Hstop).
  split.
  - rewrite Htarget. reflexivity.
  - apply Hstop.
    + repeat constructor; eexists; reflexivity.
    + vm_compute. discriminate.
Defined.

(** A clock that shows 0 for the four readings made before the digging and
    100000 from then on, past the default deadline of 30000. *)
Definition lateEnv : Generator.Env :=
  Generator.mkEnv (fun n => if (n <? 4)%nat then 0 else 100000) (fun _ => 0).

Definition lateStart : Grid * Generator.World :=
  match diggingStart 30 lateEnv fourByFourConfig uniqueOptions with
  | Some x => x
  | None => ([], Generator.initialWorld)
  end.

Definition lateResult : Generator.GeneratorResult :=
  match Generator.generateSudoku 30 lateEnv fourByFourConfig uniqueOptions with
  | Ret r => r
  | Throw _ =>
      Generator.mkResult false None None Generator.createDefaultGeneratorStats
                         Generator.FR_error None None None
  end.

Definition latePuzzle : Grid :=
  match Generator.puzzle lateResult with
  | Some p => p
  | None => []
  end.

(** The deadline in the digging loop. When the loop reads a time past the
    deadline it stops there and yields the grid dug so far; and whenever
    [digHoles] returns a grid, [generateSudoku] returns it as the puzzle of
    a successful result whose finish reason is success. *)
Lemma digging_past_deadline_is_success :
  (forall env solution config options size target position rest workingGrid
          cannotRemove w,
      Generator.clock env (Generator.clockReads w)
        > Generator.d_timeoutTimestamp options ->
      fst (Generator.digLoop env solution config options size target
             (position :: rest) workingGrid cannotRemove w) = Ret workingGrid) /\
  (forall stackLimit env config options p,
      diggingOutcome stackLimit env config options = Some (Ret (Some p)) ->
      exists result,
        Generator.generateSudoku stackLimit env config options = Ret result /\
        Generator.success result = true /\
        Generator.finishReason result = Generator.FR_success /\
        Generator.puzzle result = Some p).
Proof.
  split.
  - intros. apply digLoop_past_deadline. assumption.
  - intros. apply digging_returns_success. assumption.
Qed.

Lemma digging_past_deadline_is_success_example :
  fst (Generator.digLoop lateEnv (fst lateStart) fourByFourConfig
         (digOptionsOf lateEnv fourByFourConfig uniqueOptions) 4 5
         [(0, 0); (0, 1)] (Generator.markGivens (fst lateStart)) []
         (snd lateStart)) = Ret (Generator.markGivens (fst lateStart)) /\
  exists result,
    Generator.generateSudoku 30 lateEnv fourByFourConfig uniqueOptions = Ret result /\
    Generator.success result = true /\
    Generator.finishReason result = Generator.FR_success /\
    Generator.puzzle result = Some latePuzzle.
Proof.
  split.
  - apply (proj1 digging_past_deadline_is_success). vm_compute. reflexivity.
  - apply (proj2 digging_past_deadline_is_success 30%nat lateEnv fourByFourConfig
             uniqueOptions latePuzzle).
    vm_compute. reflexivity.
Defined.

(** The run with [lateEnv] gets to the digging, the first reading of the
    clock in the digging loop is past the deadline, and the result has
    finish reason success, with all sixteen givens still in place. *)
Lemma timeout_while_digging_reports_success :
  diggingStart 30 lateEnv fourByFourConfig uniqueOptions = Some lateStart /\
  Generator.clock lateEnv (Generator.clockReads (snd lateStart))
    > Generator.clock lateEnv 0 + 30000 /\
  Generator.generateSudoku 30 lateEnv fourByFourConfig uniqueOptions = Ret lateResult /\
  Generator.success lateResult = true /\
  Generator.finishReason lateResult = Generator.FR_success /\
  Generator.givensCount lateResult = Some 16.
Proof.
  split; [vm_compute; reflexivity|]. split; [vm_compute; reflexivity|].
  split; [vm_compute; reflexivity|]. split; [vm_compute; reflexivity|].
  split; vm_compute; reflexivity.
Qed.

(** Options whose deadline has passed when the call starts: [timeoutMs: -1]. *)
Definition expiredOptions : Generator.GeneratorOptions :=
  Generator.mkOptions None None None None None None (Some (-1)) None.

(** C5. A call whose deadline passes during the synthesis of the full grid
    does not report timeout. With [timeoutMs = -1] the first deadline
    check of the synthesis loop finds the deadline passed: the loop sets
    the finish reason timeout and stops without a grid. The branch that
    follows the loop, taken when there is no grid, overwrites the finish
    reason with error, and the result of [generateSudoku] has finish reason
    error. *)
Theorem synthesis_timeout_is_reported_as_error :
  fst (Generator.synthesise 10 30 steadyEnv fourByFourConfig None
         (Generator.clock steadyEnv 0%nat + -1) (generateSudoku_entry steadyEnv))
  = Ret None /\
  Generator.finishReason
    (fst (snd (Generator.synthesise 10 30 steadyEnv fourByFourConfig None
                 (Generator.clock steadyEnv 0%nat + -1)
                 (generateSudoku_entry steadyEnv))))
  = Generator.FR_timeout /\
  generateSudoku_tryOutcome 30 steadyEnv fourByFourConfig expiredOptions = Ret tt /\
  Generator.generateSudoku 30 steadyEnv fourByFourConfig expiredOptions
  = Ret (Generator.mkResult false None None (Generator.mkStats 2 1 0 0 0)
                            Generator.FR_error None None None).
Proof. repeat split; vm_compute; reflexivity. Qed.

(** Whenever the [try] block of [generateSudoku] runs to its end, the
    finish reason it leaves is success or error. *)
Lemma generateSudoku_try_reason (stackLimit : nat) (env : Generator.Env)
  (config : SudokuConfig) difficulty uniqueSolution minGivens maxGivens symmetrical
  symmetryType timeoutTimestamp onProgress (st st' : Generator.GenState) (u : unit) :
  Generator.generateSudoku_try stackLimit env config difficulty uniqueSolution
    minGivens maxGivens symmetrical symmetryType timeoutTimestamp onProgress st
  = (Ret u, st') ->
  Generator.finishReason (fst st') = Generator.FR_success \/
  Generator.finishReason (fst st') = Generator.FR_error.
Proof.
  unfold Generator.generateSudoku_try. unfold bindM at 1.
  destruct (Generator.synthesise 10 stackLimit env config onProgress timeoutTimestamp st)
    as [[[filledGrid|]|e] [r1 w1]]; [| |discriminate].
  - unfold bindM at 1. unfold Generator.onWorld at 1. unfold modifyM at 1.
    cbn [snd fst].
    unfold bindM at 1. unfold Generator.onResult at 1. cbn [snd fst].
    unfold bindM at 1. unfold Generator.onWorld at 1. cbn [snd fst].
    match goal with
    | |- context [Generator.digHoles ?a ?b ?c ?d ?e ?w] =>
        destruct (Generator.digHoles a b c d e w) as [[[q|]|e1] w2]
    end; cbn; intros H; inversion H; subst; cbn; auto.
  - cbn. intros H. inversion H; subst. cbn. auto.
Qed.

(** No result of [generateSudoku] has the finish reason timeout. *)
Lemma generateSudoku_reason (stackLimit : nat) (env : Generator.Env)
  (config : SudokuConfig) (options : Generator.GeneratorOptions)
  (result : Generator.GeneratorResult) :
  Generator.generateSudoku stackLimit env config options = Ret result ->
  Generator.finishReason result = Generator.FR_success \/
  Generator.finishReason result = Generator.FR_error.
Proof.
  unfold Generator.generateSudoku.
  unfold bindM at 1. unfold Generator.onWorld at 1. unfold Generator.dateNow at 1.
  cbn [snd fst Generator.initialWorld Generator.clockReads Generator.clock].
  unfold bindM at 1. unfold try_catch_finally.
  match goal with
  | |- context [Generator.generateSudoku_try ?a ?b ?c ?d ?e ?f ?g ?h ?i ?j ?k ?s] =>
      destruct (Generator.generateSudoku_try a b c d e f g h i j k s)
        as [[u|e0] [r w]] eqn:E
  end.
  - apply generateSudoku_try_reason in E. cbn in E.
    cbn. intros H. inversion H; subst result. clear H. exact E.
  - cbn [fst]. unfold Generator.generateSudoku_catch.
    unfold bindM at 1. unfold Generator.onResult at 1. unfold bindM at 1.
    unfold liftM.
    destruct (errorMessageOf e0) as [text|raised]; cbn; intros H; [|discriminate H].
    inversion H; subst result. clear H. right. reflexivity.
Qed.

(** The options of a search for all solutions that stops at the second. *)
Definition capAtTwoOptions : SolverOptions :=
  mkSolverOptions (Some true) (Some 2) (Some 0) None None None.

(** C1. The generator, asked for a puzzle with a unique solution, returns
    for the 4x4 standard configuration a successful result whose puzzle has
    two solutions: the search for all solutions capped at 2 finds both. *)
Theorem generated_puzzle_has_two_solutions :
  exists result puzzle resolved first second,
    Generator.generateSudoku 30 steadyEnv fourByFourConfig uniqueOptions = Ret result /\
    Generator.success result = true /\
    Generator.puzzle result = Some puzzle /\
    map (map value) puzzle = [[2; 0; 0; 0]; [0; 1; 0; 0]; [0; 0; 0; 0]; [0; 4; 3; 2]] /\
    solveSudoku (fun n => Z.of_nat n) 30 puzzle fourByFourConfig capAtTwoOptions
      = Ret resolved /\
    r_solutions resolved = [first; second] /\
    map (map value) first = [[2; 3; 1; 4]; [4; 1; 2; 3]; [3; 2; 4; 1]; [1; 4; 3; 2]] /\
    map (map value) second = [[2; 3; 4; 1]; [4; 1; 2; 3]; [3; 2; 1; 4]; [1; 4; 3; 2]].
Proof.
  exists generatedResult, generatedPuzzle.
  destruct (solveSudoku (fun n => Z.of_nat n) 30 generatedPuzzle fourByFourConfig
              capAtTwoOptions) as [resolved|e] eqn:E.
  - exists resolved.
    assert (H : Ret resolved =
                solveSudoku (fun n => Z.of_nat n) 30 generatedPuzzle fourByFourConfig
                  capAtTwoOptions) by (symmetry; exact E).
    vm_compute in H. inversion H; subst resolved. clear H E.
    eexists. eexists.
    split; [vm_compute; reflexivity|]. split; [vm_compute; reflexivity|].
    split; [vm_compute; reflexivity|]. split; [vm_compute; reflexivity|].
    split; [reflexivity|]. split; [reflexivity|].
    split; vm_compute; reflexivity.
  - exfalso. vm_compute in E. discriminate E.
Qed.

From Stdlib Require Import Sorted Permutation.


(* ===================================================================== *)
(** * Further properties of the engine *)
(* ===================================================================== *)

(* --------------------------------------------------------------------- *)
(** ** Bitmasks as sets of digits *)

Lemma hasBit_testbit (mask v : Z) :
  1 <= v <= 31 -> hasBit mask v = Z.testbit mask v.
Proof.
  intros Hv. unfold hasBit. rewrite in_range_guard by lia.
  apply and_shl_testbit. lia.
Qed.

Lemma hasBit_out_of_range (mask v : Z) :
  v <= 0 \/ v > 31 -> hasBit mask v = false.
Proof. intros Hv. unfold hasBit. now rewrite out_of_range_guard. Qed.

(** X1. For a digit [v] of 1..31 and any mask: after [addBit] the digit is
    in the mask, after [removeBit] it is not, and neither operation changes
    whether another digit is in the mask. *)
Theorem bitmask_add_remove_lookup (mask v u : Z) :
  1 <= v <= 31 ->
  hasBit (addBit mask v) v = true /\
  hasBit (removeBit mask v) v = false /\
  (u <> v ->
   hasBit (addBit mask v) u = hasBit mask u /\
   hasBit (removeBit mask v) u = hasBit mask u).
Proof.
  intros Hv.
  assert (Hadd : forall i, 1 <= i <= 31 ->
                   Z.testbit (addBit mask v) i = Z.testbit mask i || (v =? i)).
  { intros i Hi. unfold addBit. rewrite in_range_guard by lia.
    rewrite or_testbit by lia. rewrite shl_1_testbit by lia. reflexivity. }
  assert (Hrem : forall i, 1 <= i <= 31 ->
                   Z.testbit (removeBit mask v) i = Z.testbit mask i && negb (v =? i)).
  { intros i Hi. unfold removeBit. rewrite in_range_guard by lia.
    rewrite and_not_testbit by lia. rewrite shl_1_testbit by lia. reflexivity. }
  split; [|split].
  - rewrite hasBit_testbit, Hadd by lia. rewrite Z.eqb_refl. apply orb_true_r.
  - rewrite hasBit_testbit, Hrem by lia. rewrite Z.eqb_refl. apply andb_false_r.
  - intros Hu.
    destruct (Z_le_gt_dec u 0) as [Hlo|Hlo];
      [rewrite !hasBit_out_of_range by lia; auto|].
    destruct (Z_le_gt_dec u 31) as [Hhi|Hhi];
      [|rewrite !hasBit_out_of_range by lia; auto].
    rewrite !hasBit_testbit, Hadd, Hrem by lia.
    assert (E : (v =? u) = false) by (apply Z.eqb_neq; congruence).
    rewrite E. simpl. rewrite orb_false_r, andb_true_r. auto.
Qed.

Lemma bitmask_add_remove_lookup_witness :
  hasBit (addBit 0 5) 5 = true /\
  hasBit (removeBit 1022 5) 5 = false /\
  (7 <> 5 ->
   hasBit (addBit 0 5) 7 = hasBit 0 7 /\
   hasBit (removeBit 1022 5) 7 = hasBit 1022 7).
Proof.
  assert (H5 : 1 <= 5 <= 31) by lia.
  destruct (bitmask_add_remove_lookup 0 5 7 H5) as (Ha & _ & Hother).
  destruct (bitmask_add_remove_lookup 1022 5 7 H5) as (_ & Hr & Hother').
  split; [exact Ha|]. split; [exact Hr|].
  intros Hne. split; [apply Hother | apply Hother']; exact Hne.
Defined.

Lemma range_from_sorted (lo n : nat) :
  StronglySorted Z.lt (map Z.of_nat (seq lo n)).
Proof.
  revert lo. induction n as [|n IH]; intros lo; simpl; constructor.
  - apply IH.
  - apply Forall_forall. intros x Hx. apply in_map_iff in Hx as (k & <- & Hk).
    apply in_seq in Hk. lia.
Qed.

Lemma filter_sorted {A} (R : A -> A -> Prop) (f : A -> bool) (l : list A) :
  StronglySorted R l -> StronglySorted R (filter f l).
Proof.
  induction 1 as [|a l Hs IH Hall]; simpl; [constructor|].
  destruct (f a); [|assumption]. constructor; [assumption|].
  apply Forall_forall. intros x Hx. apply filter_In in Hx as [Hx _].
  rewrite Forall_forall in Hall. now apply Hall.
Qed.

Lemma count_fold_filter {A} (f : A -> bool) (l : list A) :
  forall acc,
    fold_left (fun count x => if f x then count + 1 else count) l acc
    = acc + len (filter f l).
Proof.
  unfold len. induction l as [|a l IH]; intros acc; simpl; [lia|].
  rewrite IH. destruct (f a); simpl; lia.
Qed.

(** X2. [valuesFromBitmask] lists exactly the digits that [hasBit] finds in
    the mask, each once and in ascending order, and [countBits] is the
    number of digits in that list. *)
Theorem valuesFromBitmask_lists_the_set (mask : Z) :
  (forall v, In v (valuesFromBitmask mask) <-> hasBit mask v = true) /\
  StronglySorted Z.lt (valuesFromBitmask mask) /\
  countBits mask = len (valuesFromBitmask mask).
Proof.
  split; [|split].
  - intros v. rewrite valuesFromBitmask_In. split.
    + intros [Hv Hb]. now rewrite hasBit_testbit.
    + intros H. destruct (Z_le_gt_dec v 0) as [Hlo|Hlo];
        [rewrite hasBit_out_of_range in H by lia; discriminate|].
      destruct (Z_le_gt_dec v 31) as [Hhi|Hhi];
        [|rewrite hasBit_out_of_range in H by lia; discriminate].
      split; [lia|]. now rewrite <- hasBit_testbit by lia.
  - unfold valuesFromBitmask. apply filter_sorted. apply range_from_sorted.
  - unfold countBits, valuesFromBitmask. rewrite count_fold_filter. lia.
Qed.

(** X3. Whenever [createFullBitmask] returns, for every size of 1..31 (the
    shift [1 << 32] of size 31 wraps), the mask holds exactly the digits
    1..size. *)
Theorem createFullBitmask_holds_all_digits (size full : Z) :
  createFullBitmask size = Ret full ->
  valuesFromBitmask full = range1 size.
Proof.
  intros H.
  assert (Hsize : 1 <= size < 1 + 31).
  { unfold createFullBitmask in H.
    destruct ((size <=? 0) || (size >? 31)) eqn:E; [discriminate|].
    apply orb_false_iff in E as [E1 E2].
    apply Z.leb_gt in E1. rewrite Z.gtb_ltb in E2. apply Z.ltb_ge in E2. lia. }
  revert full H.
  apply (in_range_cases
           (fun size => forall full, createFullBitmask size = Ret full ->
                                     valuesFromBitmask full = range1 size)
           1%nat 31%nat); [|exact Hsize].
  repeat constructor; intros full H; vm_compute in H; inversion H; reflexivity.
Qed.

Lemma createFullBitmask_holds_all_digits_witness :
  valuesFromBitmask 1022 = range1 9 /\ valuesFromBitmask (-1) = range1 31.
Proof.
  split.
  - apply (createFullBitmask_holds_all_digits 9 1022). reflexivity.
  - apply (createFullBitmask_holds_all_digits 31 (-1)). reflexivity.
Defined.

(* --------------------------------------------------------------------- *)
(** ** Moves and regions *)

(** Some cell of the region other than [(row, col)] holds [v]. *)
Definition heldElsewhere (grid : Grid) (row col v : Z) (region : Region) : bool :=
  existsb (fun rc => negb (coord_eqb rc (row, col)) && (valueAt grid rc =? v))
          (cells region).

Lemma usedValuesExcept_bits (grid : Grid) (row col v : Z) (region : Region) :
  1 <= v <= 31 ->
  Forall (inGrid grid) (cells region) ->
  exists u, usedValuesExcept grid row col region = Ret u /\
            Z.testbit u v = heldElsewhere grid row col v region.
Proof.
  intros Hv Hall. unfold usedValuesExcept, heldElsewhere.
  assert (H : forall coords acc,
             Forall (inGrid grid) coords ->
             exists u,
               foldM (fun usedValues rc =>
                        if coord_eqb rc (row, col) then Ret usedValues
                        else
                          match cellAt grid (fst rc) (snd rc) with
                          | Throw e => Throw e
                          | Ret c =>
                              if negb (value c =? 0)
                              then Ret (Js.or usedValues (valueToBitmask (value c)))
                              else Ret usedValues
                          end) coords acc = Ret u /\
               Z.testbit u v =
               Z.testbit acc v
               || existsb (fun rc => negb (coord_eqb rc (row, col))
                                     && (valueAt grid rc =? v)) coords).
  { induction coords as [|rc coords IH]; intros acc Hc.
    - exists acc. simpl. now rewrite orb_false_r.
    - inversion Hc as [|? ? [c Hcell] Hrest]; subst. rewrite foldM_cons.
      simpl existsb. unfold valueAt at 1. rewrite Hcell.
      destruct (coord_eqb rc (row, col)); simpl.
      + apply IH. assumption.
      + destruct (value c =? 0) eqn:E0; simpl.
        * destruct (IH acc Hrest) as (u & Eu & Hu). exists u. split; [assumption|].
          rewrite Hu. apply Z.eqb_eq in E0.
          assert (E : (value c =? v) = false) by (apply Z.eqb_neq; lia).
          rewrite E. reflexivity.
        * destruct (IH (Js.or acc (valueToBitmask (value c))) Hrest) as (u & Eu & Hu).
          exists u. split; [assumption|]. rewrite Hu.
          rewrite or_testbit by lia. rewrite valueToBitmask_testbit by lia.
          destruct (value c =? v) eqn:E.
          -- apply Z.eqb_eq in E.
             assert (E' : (0 <? value c) = true) by (apply Z.ltb_lt; lia).
             rewrite E'. simpl. now rewrite orb_true_r.
          -- rewrite andb_false_r, orb_false_r. reflexivity. }
  destruct (H (cells region) 0 Hall) as (u & Eu & Hu).
  exists u. split; [assumption|]. rewrite Hu. now rewrite Z.bits_0.
Qed.

Lemma regionsContaining_In (regions : list Region) (row col : Z) (region : Region) :
  In region (regionsContaining regions row col) <->
  In region regions /\ In (row, col) (cells region).
Proof.
  unfold regionsContaining. rewrite filter_In. split; intros [H1 H2]; split; auto.
  - apply existsb_exists in H2 as (rc & Hrc & E). apply coord_eqb_eq in E. now subst.
  - apply existsb_exists. exists (row, col). split; [assumption|]. apply coord_eqb_refl.
Qed.

Lemma isValidMove_loop_rejects (grid : Grid) (row col v : Z) (rs : list Region) :
  1 <= v <= 31 ->
  (forall region, In region rs -> Forall (inGrid grid) (cells region)) ->
  isValidMove_loop grid row col v rs
  = Ret (negb (existsb (heldElsewhere grid row col v) rs)).
Proof.
  intros Hv. induction rs as [|region rs IH]; intros Hall; simpl; [reflexivity|].
  destruct (usedValuesExcept_bits grid row col v region Hv (Hall region (or_introl eq_refl)))
    as (u & Eu & Hu).
  rewrite Eu. unfold valueToBitmask. rewrite in_range_guard by lia.
  rewrite and_shl_testbit by lia. rewrite Hu.
  destruct (heldElsewhere grid row col v region); simpl; [reflexivity|].
  apply IH. intros r Hr. apply Hall. now right.
Qed.

Lemma isValidMove_loop_out_of_range (grid : Grid) (row col v : Z) (rs : list Region) :
  v <= 0 \/ v > 31 ->
  (forall region, In region rs -> Forall (inGrid grid) (cells region)) ->
  isValidMove_loop grid row col v rs = Ret true.
Proof.
  intros Hv. induction rs as [|region rs IH]; intros Hall; simpl; [reflexivity|].
  destruct (usedValuesExcept_total grid row col region (Hall region (or_introl eq_refl)))
    as (u & Eu).
  rewrite Eu. unfold valueToBitmask. rewrite out_of_range_guard by assumption.
  unfold Js.and. change (to_int32 0) with 0. rewrite Z.land_0_r. simpl.
  apply IH. intros r Hr. apply Hall. now right.
Qed.

(** X4. Over regions that lie inside the grid, [isValidMoveBitmask] rejects
    a digit [v] of 1..31 at [(row, col)] exactly when some region that lists
    the cell has another cell holding [v]; and it accepts every value
    outside 1..31, whatever the grid holds. *)
Theorem isValidMoveBitmask_rejects_exactly_conflicts (grid : Grid) (row col v : Z)
  (regions : list Region) :
  regionsInGrid grid regions ->
  exists accepted,
    isValidMoveBitmask grid row col v regions = Ret accepted /\
    (1 <= v <= 31 ->
     (accepted = false <->
      exists region rc,
        In region regions /\ In (row, col) (cells region) /\ In rc (cells region) /\
        rc <> (row, col) /\ valueAt grid rc = v)) /\
    (v <= 0 \/ v > 31 -> accepted = true).
Proof.
  intros Hin.
  assert (Hrel : forall region, In region (regionsContaining regions row col) ->
                                Forall (inGrid grid) (cells region)).
  { intros region Hr. apply Hin. now apply regionsContaining_In in Hr. }
  unfold isValidMoveBitmask. destruct (v =? 0) eqn:E0.
  - apply Z.eqb_eq in E0. exists true. split; [reflexivity|]. split; [lia | auto].
  - apply Z.eqb_neq in E0.
    destruct (Z_le_gt_dec v 0) as [Hlo|Hlo];
      [exists true; split; [apply isValidMove_loop_out_of_range; auto|];
       split; [lia | auto]|].
    destruct (Z_le_gt_dec v 31) as [Hhi|Hhi];
      [|exists true; split; [apply isValidMove_loop_out_of_range; auto|];
        split; [lia | auto]].
    eexists. split; [apply isValidMove_loop_rejects; [lia | exact Hrel]|].
    split; [|lia]. intros _. rewrite negb_false_iff, existsb_exists. split.
    + intros (region & Hr & Hheld). apply regionsContaining_In in Hr as [Hr Hcell].
      unfold heldElsewhere in Hheld. apply existsb_exists in Hheld as (rc & Hrc & Hb).
      apply andb_true_iff in Hb as [Hne Hval].
      exists region, rc. repeat split; auto.
      * intros ->. rewrite coord_eqb_refl in Hne. discriminate.
      * now apply Z.eqb_eq.
    + intros (region & rc & Hr & Hcell & Hrc & Hne & Hval).
      exists region. split; [apply regionsContaining_In; auto|].
      unfold heldElsewhere. apply existsb_exists. exists rc. split; [assumption|].
      apply andb_true_iff. split; [|now apply Z.eqb_eq].
      apply negb_true_iff. apply coord_eqb_neq. assumption.
Qed.

Lemma isValidMoveBitmask_rejects_exactly_conflicts_witness :
  exists accepted,
    isValidMoveBitmask fourByFourPuzzle 1 2 1 (regions fourByFourConfig) = Ret accepted /\
    (1 <= 1 <= 31 ->
     (accepted = false <->
      exists region rc,
        In region (regions fourByFourConfig) /\ In (1, 2) (cells region) /\
        In rc (cells region) /\ rc <> (1, 2) /\ valueAt fourByFourPuzzle rc = 1)) /\
    (1 <= 0 \/ 1 > 31 -> accepted = true).
Proof.
  apply (isValidMoveBitmask_rejects_exactly_conflicts fourByFourPuzzle 1 2 1
           (regions fourByFourConfig)).
  apply regionsInGridb_sound. vm_compute. reflexivity.
Defined.

(* --------------------------------------------------------------------- *)
(** ** Validation results *)

(** [isGridComplete(grid, regions)] of [validation/collector.ts]. The call
    that logs the grid's dimensions reads [grid[0].length], which throws on
    a grid without rows. *)
Definition isGridComplete (grid : Grid) (regions : list Region) : outcome bool :=
  match grid with
  | [] => Throw TypeError
  | _ :: _ =>
      let allFilled := forallb (forallb (fun cell => negb (value cell =? 0))) grid in
      if negb allFilled then Ret false
      else
        match validateAllRegions grid regions with
        | Throw e => Throw e
        | Ret validation => Ret (allFilled && isValid validation)
        end
  end.

(** No cell of the grid is empty. *)
Definition filled (g : Grid) : Prop :=
  forall r c x, cellAt g r c = Ret x -> value x <> 0.

Lemma In_cellAt (g : Grid) (rw : list CellState) (x : CellState) :
  In rw g -> In x rw -> exists r c, cellAt g r c = Ret x.
Proof.
  intros Hrw Hx. apply In_nth_error in Hrw as [i Hi]. apply In_nth_error in Hx as [j Hj].
  exists (Z.of_nat i), (Z.of_nat j). now rewrite cellAt_of_nat, Hi, Hj.
Qed.

Lemma allFilled_filled (g : Grid) :
  forallb (forallb (fun cell => negb (value cell =? 0))) g = true <-> filled g.
Proof.
  rewrite forallb_forall. split.
  - intros H r c x Hx. apply cellAt_In in Hx as (rw & Hrw & Hin).
    specialize (H rw Hrw). rewrite forallb_forall in H. specialize (H x Hin).
    apply negb_true_iff, Z.eqb_neq in H. assumption.
  - intros H rw Hrw. apply forallb_forall. intros x Hx.
    destruct (In_cellAt g rw x Hrw Hx) as (r & c & Hc).
    apply negb_true_iff, Z.eqb_neq. eapply H; eauto.
Qed.

Lemma dedupe_In (l : list Coord) :
  forall seen x,
    In x (dedupe seen l) <-> In x l /\ existsb (coord_eqb x) seen = false.
Proof.
  induction l as [|a l IH]; intros seen x; cbn [dedupe In]; [tauto|].
  destruct (existsb (coord_eqb a) seen) eqn:E.
  - rewrite IH. split.
    + intros [H1 H2]. auto.
    + intros [[<- | H1] H2]; [congruence | auto].
  - cbn [In]. rewrite IH. cbn [existsb]. split.
    + intros [<- | [H1 H2]]; [auto|]. apply orb_false_iff in H2 as [_ H2]. auto.
    + intros [[<- | H1] H2]; [now left|].
      destruct (coord_eqb x a) eqn:Exa.
      * apply coord_eqb_eq in Exa. subst. now left.
      * right. split; [assumption|]. exact H2.
Qed.

Lemma dedupe_NoDup (l : list Coord) : forall seen, NoDup (dedupe seen l).
Proof.
  induction l as [|a l IH]; intros seen; simpl; [constructor|].
  destruct (existsb (coord_eqb a) seen); [apply IH|].
  constructor; [|apply IH]. rewrite dedupe_In. cbn [existsb]. rewrite coord_eqb_refl.
  intros [_ H]. discriminate.
Qed.

Lemma checkDuplicates_within (g : Grid) (coords : list Coord) (d : Duplicates) :
  Forall (inGrid g) coords -> checkDuplicatesBitmask g coords = Ret d ->
  forall rc, In rc (duplicates d) -> In rc coords.
Proof.
  intros Hall Hd rc Hrc.
  destruct (grouped_fold g coords [] 0 [] (grouped_nil g) Hall) as (m & u & E & [ND G]).
  simpl in G. unfold checkDuplicatesBitmask in Hd. unfold PosMap in *.
  rewrite E in Hd. inversion Hd; subst d. clear Hd.
  apply (collectDuplicates_spec m (mkDuplicates [] [])) in Hrc.
  destruct Hrc as [[] | (k & ps & Hin & _ & Hps)].
  apply G in Hin as (_ & -> & _). unfold occurrences in Hps.
  now apply filter_In in Hps.
Qed.

Lemma validateRegion_errorCells (g : Grid) (region : Region) (vr : ValidationResult) :
  Forall (inGrid g) (cells region) -> validateRegion g region = Ret vr ->
  (forall rc, In rc (errorCells vr) -> In rc (cells region)) /\
  (isValid vr = true -> errorCells vr = []).
Proof.
  intros Hall. unfold validateRegion, validateRegionBitmask.
  destruct (checkDuplicatesBitmask g (cells region)) as [d|] eqn:Ed; [|discriminate].
  pose proof (checkDuplicates_within g (cells region) d Hall Ed) as Hsub.
  destruct (region_sum region) as [s|] eqn:Es.
  - unfold validateSum. rewrite Es.
    match goal with
    | |- context [everyM ?f ?l] => destruct (everyM f l) as [[|]|]
    end; [| |discriminate].
    + match goal with
      | |- context [foldM ?f ?l ?a] => destruct (foldM f l a) as [actual|]
      end; [|discriminate].
      intros H. inversion H; subst vr. clear H. split.
      * intros rc Hrc. simpl in Hrc. apply dedupe_In in Hrc as [Hrc _].
        rewrite app_nil_r in Hrc. apply in_app_or in Hrc as [Hrc | Hrc]; [auto|].
        destruct (actual =? s); [destruct Hrc | assumption].
      * cbn [isValid errorCells]. rewrite andb_true_r.
        intros Hv. apply andb_true_iff in Hv as [Hd Hs].
        apply len_zero_nil in Hd. rewrite Hd, Hs. reflexivity.
    + intros H. inversion H; subst vr. clear H. split.
      * intros rc Hrc. simpl in Hrc. apply dedupe_In in Hrc as [Hrc _].
        rewrite !app_nil_r in Hrc. auto.
      * cbn [isValid errorCells]. rewrite andb_true_r.
        intros Hd. apply len_zero_nil in Hd. rewrite Hd. reflexivity.
  - intros H. inversion H; subst vr. clear H. simpl. split; [assumption|].
    intros Hd. now apply len_zero_nil in Hd.
Qed.

Lemma flat_map_all_nil {A B} (f : A -> list B) (l : list A) :
  (forall x, In x l -> f x = []) -> flat_map f l = [].
Proof.
  induction l as [|a l IH]; intros H; simpl; [reflexivity|].
  rewrite (H a (or_introl eq_refl)). simpl. apply IH. intros x Hx. apply H. now right.
Qed.

Lemma mapM_In {A B} (f : A -> outcome B) (xs : list A) :
  forall ys, mapM f xs = Ret ys ->
             forall y, In y ys -> exists x, In x xs /\ f x = Ret y.
Proof.
  intros ys H y Hy. apply In_nth_error in Hy as [n Hn].
  destruct (mapM_nth f xs ys H n y Hn) as (x & Hx & Hf).
  exists x. split; [eapply nth_error_In; eauto | assumption].
Qed.

(** X5. Over regions that lie inside the grid, [validateAllRegions] returns
    a result that is valid exactly when no region holds a digit twice and
    every filled cage has its sum; a valid result lists no error cell, and
    the error cells of any result are distinct cells of the regions. *)
Theorem validateAllRegions_reports_violations (g : Grid) (rs : list Region) :
  regionsInGrid g rs ->
  exists vr,
    validateAllRegions g rs = Ret vr /\
    (isValid vr = true <-> gridOK g rs) /\
    (isValid vr = true -> errorCells vr = []) /\
    NoDup (errorCells vr) /\
    (forall rc, In rc (errorCells vr) ->
                exists region, In region rs /\ In rc (cells region)).
Proof.
  intros Hin. destruct (validateAllRegions_spec g rs Hin) as (vr & Hvr & Hok).
  exists vr. split; [assumption|]. split; [assumption|].
  unfold validateAllRegions in Hvr.
  destruct (mapM (validateRegion g) rs) as [results|] eqn:Em; [|discriminate].
  inversion Hvr; subst vr. clear Hvr.
  assert (Heach : forall r, In r results ->
                    exists region, In region rs /\
                      (forall rc, In rc (errorCells r) -> In rc (cells region)) /\
                      (isValid r = true -> errorCells r = [])).
  { intros r Hr. destruct (mapM_In _ _ _ Em r Hr) as (region & Hreg & Hf).
    exists region. split; [assumption|].
    apply (validateRegion_errorCells g region r); auto. }
  destruct results as [|r0 results]; [simpl; repeat split; [constructor | tauto]|].
  split; [|split].
  - rewrite mergeValidationResults_isValid. intros Hv.
    rewrite forallb_forall in Hv. unfold mergeValidationResults. cbn [errorCells].
    replace (flat_map errorCells (r0 :: results)) with (@nil Coord); [reflexivity|].
    symmetry. apply flat_map_all_nil. intros r Hr.
    destruct (Heach r Hr) as (_ & _ & _ & Hnil). apply Hnil. now apply Hv.
  - unfold mergeValidationResults. cbn [errorCells]. apply dedupe_NoDup.
  - intros rc Hrc. unfold mergeValidationResults in Hrc. cbn [errorCells] in Hrc.
    apply dedupe_In in Hrc as [Hrc _]. apply in_flat_map in Hrc as (r & Hr & Hrc).
    destruct (Heach r Hr) as (region & Hreg & Hsub & _).
    exists region. auto.
Qed.

Lemma validateAllRegions_reports_violations_witness :
  exists vr,
    validateAllRegions fourByFourPuzzle (regions fourByFourConfig) = Ret vr /\
    (isValid vr = true <-> gridOK fourByFourPuzzle (regions fourByFourConfig)) /\
    (isValid vr = true -> errorCells vr = []) /\
    NoDup (errorCells vr) /\
    (forall rc, In rc (errorCells vr) ->
                exists region, In region (regions fourByFourConfig) /\
                               In rc (cells region)).
Proof.
  apply (validateAllRegions_reports_violations fourByFourPuzzle
           (regions fourByFourConfig)).
  apply regionsInGridb_sound. vm_compute. reflexivity.
Defined.

(** X6. [isGridComplete] throws on a grid without rows; on any other grid
    whose regions lie inside it, it answers yes exactly when no cell is
    empty and the regions hold no violation, and it answers no without
    validating anything as soon as one cell is empty. *)
Theorem isGridComplete_means_filled_and_valid (g : Grid) (rs : list Region) :
  isGridComplete [] rs = Throw TypeError /\
  (g <> [] -> ~ filled g -> isGridComplete g rs = Ret false) /\
  (g <> [] -> regionsInGrid g rs ->
   exists complete,
     isGridComplete g rs = Ret complete /\
     (complete = true <-> filled g /\ gridOK g rs)).
Proof.
  split; [reflexivity|]. split.
  - intros Hne Hnf. destruct g as [|rw g']; [congruence|]. unfold isGridComplete.
    destruct (forallb (forallb (fun cell => negb (value cell =? 0))) (rw :: g')) eqn:E;
      [|reflexivity].
    exfalso. apply Hnf. now apply allFilled_filled.
  - intros Hne Hin. destruct g as [|rw g']; [congruence|]. unfold isGridComplete.
    destruct (forallb (forallb (fun cell => negb (value cell =? 0))) (rw :: g')) eqn:E.
    + destruct (validateAllRegions_spec _ rs Hin) as (vr & Hvr & Hok).
      rewrite Hvr. simpl. exists (isValid vr). split; [reflexivity|].
      rewrite Hok. apply allFilled_filled in E. tauto.
    + exists false. split; [reflexivity|]. split; [discriminate|].
      intros [Hf _]. apply allFilled_filled in Hf. congruence.
Qed.

Lemma isGridComplete_means_filled_and_valid_witness :
  isGridComplete [] (regions fourByFourConfig) = Throw TypeError /\
  isGridComplete fourByFourPuzzle (regions fourByFourConfig) = Ret false.
Proof.
  destruct (isGridComplete_means_filled_and_valid fourByFourPuzzle
              (regions fourByFourConfig)) as (Hempty & Hpartial & _).
  split; [exact Hempty|]. apply Hpartial.
  - discriminate.
  - intros Hf. apply (Hf 1 2 (mkCell 0 false [] (Some false) None None)); reflexivity.
Defined.

(* --------------------------------------------------------------------- *)
(** ** The validation context ([validation/context.ts]) *)

(** A [Map<string, V>] keyed by ["row,col"]; the rendering of two integers
    separated by a comma determines them, so the key is the coordinate.
    Entries are in insertion order. *)
Fixpoint CellMap_get {V} (m : list (Coord * V)) (key : Coord) : option V :=
  match m with
  | [] => None
  | (k, v) :: rest => if coord_eqb k key then Some v else CellMap_get rest key
  end.

Fixpoint CellMap_set {V} (m : list (Coord * V)) (key : Coord) (v : V)
  : list (Coord * V) :=
  match m with
  | [] => [(key, v)]
  | (k, v') :: rest =>
      if coord_eqb k key then (key, v) :: rest else (k, v') :: CellMap_set rest key v
  end.

Definition CellMap_has {V} (m : list (Coord * V)) (key : Coord) : bool :=
  match CellMap_get m key with
  | Some _ => true
  | None => false
  end.

(** [findRegionsContainingCell] of [regions/helpers.ts]. *)
Definition findRegionsContainingCell (regions : list Region) (row col : Z)
  : list Region :=
  filter (fun region => existsb (fun rc => coord_eqb rc (row, col)) (cells region))
         regions.

(** One turn of the inner loop of [precalculateRegionMaps]. *)
Definition recordRegion (region : Region) (regionsByCell : list (Coord * list Region))
  (rc : Coord) : list (Coord * list Region) :=
  let regionsByCell :=
    if negb (CellMap_has regionsByCell rc) then CellMap_set regionsByCell rc []
    else regionsByCell in
  match CellMap_get regionsByCell rc with
  | Some listed => CellMap_set regionsByCell rc (listed ++ [region])
  | None => regionsByCell
  end.

Definition precalculateRegionMaps (config : SudokuConfig)
  : list (Coord * list Region) :=
  fold_left (fun regionsByCell region =>
               fold_left (recordRegion region) (cells region) regionsByCell)
            (regions config) [].

Record ValidationContext := mkValidationContext {
  vc_isValidMove : Grid -> Z -> Z -> Z -> outcome bool;
  vc_getCellCandidates : Grid -> Z -> Z -> outcome (list Z);
  vc_isGridComplete : Grid -> outcome bool;
  vc_findEmptyCells : Grid -> list Coord;
  vc_applyVariantRules : Grid -> outcome bool
}.

(** The loop of [applyVariantRules]. *)
Fixpoint applyVariantRules_loop (config : SudokuConfig) (grid : Grid)
  (rules : list VariantRule) : outcome bool :=
  match rules with
  | [] => Ret true
  | rule :: rest =>
      match validate rule with
      | Some f =>
          match f grid (view config) with
          | Throw e => Throw e
          | Ret result =>
              if negb (isValid result) then Ret false
              else applyVariantRules_loop config grid rest
          end
      | None => applyVariantRules_loop config grid rest
      end
  end.

(** The loop of [isGridComplete] over the regions. *)
Fixpoint regionsPass (grid : Grid) (regions : list Region) : outcome bool :=
  match regions with
  | [] => Ret true
  | region :: rest =>
      match isValidMoveBitmask grid (-1) (-1) (-1) [region] with
      | Throw e => Throw e
      | Ret false => Ret false
      | Ret true => regionsPass grid rest
      end
  end.

Definition createValidationContext (config : SudokuConfig) : ValidationContext :=
  let regionsByCell := precalculateRegionMaps config in
  let applyVariantRules := fun grid =>
    applyVariantRules_loop config grid (variantRules config) in
  mkValidationContext
    (fun grid row col val =>
       if val =? 0 then Ret true
       else
         let regions :=
           match CellMap_get regionsByCell (row, col) with
           | Some listed => listed
           | None => findRegionsContainingCell (regions config) row col
           end in
         isValidMoveBitmask grid row col val regions)
    (fun grid row col => getCandidatesForCellBitmask grid row col config)
    (fun grid =>
       match everyM (fun r =>
                       everyM (fun c =>
                                 match cellAt grid r c with
                                 | Throw e => Throw e
                                 | Ret cell => Ret (negb (value cell =? 0))
                                 end) (range0 (size config)))
                    (range0 (size config)) with
       | Throw e => Throw e
       | Ret false => Ret false
       | Ret true =>
           match regionsPass grid (regions config) with
           | Throw e => Throw e
           | Ret false => Ret false
           | Ret true => applyVariantRules grid
           end
       end)
    (fun grid =>
       flat_map (fun rr =>
                   flat_map (fun cc => if value (snd cc) =? 0
                                       then [(fst rr, fst cc)] else [])
                            (mapi (fun c cell => (c, cell)) (snd rr)))
                (mapi (fun r row => (r, row)) grid))
    applyVariantRules.

Lemma CellMap_get_set {V} (m : list (Coord * V)) (k k' : Coord) (v : V) :
  CellMap_get (CellMap_set m k v) k' = if coord_eqb k k' then Some v else CellMap_get m k'.
Proof.
  induction m as [|[k0 v0] m IH]; cbn [CellMap_get CellMap_set].
  - reflexivity.
  - destruct (coord_eqb k0 k) eqn:E; cbn [CellMap_get].
    + apply coord_eqb_eq in E. subst k0. destruct (coord_eqb k k'); reflexivity.
    + destruct (coord_eqb k0 k') eqn:E'.
      * apply coord_eqb_eq in E'. subst k0.
        assert (E2 : coord_eqb k k' = false).
        { apply coord_eqb_neq. intros ->. rewrite coord_eqb_refl in E. discriminate. }
        now rewrite E2.
      * apply IH.
Qed.

(** The regions that list the cell [key], once for each time they list it,
    in the order of the configuration. *)
Definition listings (regions : list Region) (key : Coord) : list Region :=
  flat_map (fun region =>
              map (fun _ => region) (filter (fun rc => coord_eqb rc key) (cells region)))
           regions.

Definition asEntry (l : list Region) : option (list Region) :=
  match l with
  | [] => None
  | _ :: _ => Some l
  end.

Lemma asEntry_app (l : list Region) (region : Region) :
  asEntry (l ++ [region]) = Some (l ++ [region]).
Proof. destruct l; reflexivity. Qed.

Lemma recordRegion_spec (region : Region) (m : list (Coord * list Region)) (rc : Coord)
  (L : Coord -> list Region) :
  (forall key, CellMap_get m key = asEntry (L key)) ->
  forall key,
    CellMap_get (recordRegion region m rc) key
    = asEntry (L key ++ if coord_eqb rc key then [region] else []).
Proof.
  intros H key. unfold recordRegion, CellMap_has. rewrite (H rc).
  destruct (L rc) as [|r0 l0] eqn:El; cbn [asEntry negb].
  - rewrite CellMap_get_set, coord_eqb_refl. cbv iota. rewrite CellMap_get_set.
    destruct (coord_eqb rc key) eqn:E.
    + apply coord_eqb_eq in E. subst key. now rewrite El.
    + rewrite CellMap_get_set, E, H, app_nil_r. reflexivity.
  - rewrite H, El. cbn [asEntry]. rewrite CellMap_get_set.
    destruct (coord_eqb rc key) eqn:E.
    + apply coord_eqb_eq in E. subst key. rewrite El. reflexivity.
    + rewrite H, app_nil_r. reflexivity.
Qed.

Lemma recordCells_spec (region : Region) (coords : list Coord) :
  forall (m : list (Coord * list Region)) (L : Coord -> list Region),
    (forall key, CellMap_get m key = asEntry (L key)) ->
    forall key,
      CellMap_get (fold_left (recordRegion region) coords m) key
      = asEntry (L key ++ map (fun _ => region)
                              (filter (fun rc => coord_eqb rc key) coords)).
Proof.
  induction coords as [|rc coords IH]; intros m L H key; simpl.
  - now rewrite app_nil_r.
  - rewrite (IH _ (fun key => L key ++ if coord_eqb rc key then [region] else [])).
    + rewrite <- app_assoc. destruct (coord_eqb rc key); reflexivity.
    + apply recordRegion_spec. assumption.
Qed.

Lemma precalculate_spec (regions : list Region) :
  forall (m : list (Coord * list Region)) (L : Coord -> list Region),
    (forall key, CellMap_get m key = asEntry (L key)) ->
    forall key,
      CellMap_get (fold_left (fun regionsByCell region =>
                                fold_left (recordRegion region) (cells region)
                                          regionsByCell) regions m) key
      = asEntry (L key ++ listings regions key).
Proof.
  induction regions as [|region regions IH]; intros m L H key; simpl.
  - now rewrite app_nil_r.
  - rewrite (IH _ (fun key => L key ++ map (fun _ => region)
                                (filter (fun rc => coord_eqb rc key) (cells region)))).
    + now rewrite <- app_assoc.
    + apply recordCells_spec. assumption.
Qed.

Lemma regionsContaining_idem (regions : list Region) (row col : Z) :
  regionsContaining (regionsContaining regions row col) row col
  = regionsContaining regions row col.
Proof.
  unfold regionsContaining. induction regions as [|r rs IH]; simpl; [reflexivity|].
  destruct (existsb (fun rc => coord_eqb rc (row, col)) (cells r)) eqn:E; simpl.
  - rewrite E. now rewrite IH.
  - assumption.
Qed.

Lemma isValidMove_loop_repeat (grid : Grid) (row col v : Z) (region : Region)
  (n : nat) (rest : list Region) :
  isValidMove_loop grid row col v (repeat region (S n) ++ rest)
  = isValidMove_loop grid row col v (region :: rest).
Proof.
  induction n as [|n IH]; [reflexivity|].
  change (repeat region (S (S n)) ++ rest)
    with (region :: (repeat region (S n) ++ rest)).
  cbn [isValidMove_loop]. rewrite IH. cbn [isValidMove_loop].
  destruct (usedValuesExcept grid row col region) as [u|]; [|reflexivity].
  destruct (negb (Js.and u (valueToBitmask v) =? 0)); reflexivity.
Qed.

Lemma map_const_repeat {A B} (b : B) (l : list A) :
  map (fun _ => b) l = repeat b (List.length l).
Proof. induction l; simpl; congruence. Qed.

Lemma listings_loop (grid : Grid) (row col v : Z) (regions : list Region) :
  isValidMove_loop grid row col v
    (regionsContaining (listings regions (row, col)) row col)
  = isValidMove_loop grid row col v (regionsContaining regions row col).
Proof.
  induction regions as [|region regions IH]; [reflexivity|].
  unfold listings. cbn [flat_map]. fold (listings regions (row, col)).
  unfold regionsContaining at 1. rewrite filter_app.
  fold (regionsContaining (listings regions (row, col)) row col).
  unfold regionsContaining at 2. cbn [filter].
  fold (regionsContaining regions row col).
  rewrite map_const_repeat.
  destruct (existsb (fun rc => coord_eqb rc (row, col)) (cells region)) eqn:E.
  - assert (Hlen : exists n, List.length (filter (fun rc => coord_eqb rc (row, col))
                                                 (cells region)) = S n).
    { apply existsb_exists in E as (rc & Hrc & Hb).
      destruct (filter (fun rc => coord_eqb rc (row, col)) (cells region)) eqn:Ef.
      - assert (Hin : In rc []) by (rewrite <- Ef; apply filter_In; auto). destruct Hin.
      - simpl. eauto. }
    destruct Hlen as [n Hn]. rewrite Hn.
    replace (filter _ (repeat region (S n))) with (repeat region (S n)).
    + rewrite isValidMove_loop_repeat. cbn [isValidMove_loop]. rewrite IH. reflexivity.
    + symmetry. apply forallb_filter_id. apply forallb_forall.
      intros x Hx. apply repeat_spec in Hx. subst x. exact E.
  - replace (filter (fun rc => coord_eqb rc (row, col)) (cells region)) with (@nil Coord).
    + simpl. exact IH.
    + symmetry. destruct (filter (fun rc => coord_eqb rc (row, col)) (cells region))
        as [|rc l] eqn:Ef; [reflexivity|].
      assert (Hin : In rc (rc :: l)) by now left. rewrite <- Ef in Hin.
      apply filter_In in Hin as [Hin Hb].
      assert (existsb (fun rc => coord_eqb rc (row, col)) (cells region) = true)
        by (apply existsb_exists; eauto).
      congruence.
Qed.

(** X7. The [isValidMove] of a validation context, which looks the regions
    of a cell up in the map computed when the context is created, gives in
    every case the outcome of [isValidMoveBitmask] over all the regions of
    the configuration: the same answer, or the same exception. *)
Theorem context_isValidMove_agrees (config : SudokuConfig) (grid : Grid)
  (row col v : Z) :
  vc_isValidMove (createValidationContext config) grid row col v
  = isValidMoveBitmask grid row col v (regions config).
Proof.
  unfold createValidationContext. cbn [vc_isValidMove].
  unfold isValidMoveBitmask. destruct (v =? 0); [reflexivity|].
  unfold precalculateRegionMaps.
  rewrite (precalculate_spec (regions config) [] (fun _ => [])) by reflexivity.
  cbn [app]. destruct (listings (regions config) (row, col)) as [|r0 l0] eqn:El.
  - cbn [asEntry]. unfold findRegionsContainingCell.
    fold (regionsContaining (regions config) row col).
    now rewrite regionsContaining_idem.
  - cbn [asEntry]. rewrite <- El. apply listings_loop.
Qed.

Lemma everyM_all {A} (p : A -> outcome bool) (xs : list A) :
  (forall x, In x xs -> p x = Ret true) -> everyM p xs = Ret true.
Proof.
  induction xs as [|x xs IH]; intros H; simpl; [reflexivity|].
  rewrite (H x (or_introl eq_refl)). apply IH. intros y Hy. apply H. now right.
Qed.

Lemma range0_bounds (n i : Z) : In i (range0 n) -> 0 <= i < n.
Proof.
  unfold range0. intros H. apply in_map_iff in H as (k & <- & Hk).
  apply in_seq in Hk. lia.
Qed.

Lemma regionsPass_always (grid : Grid) (regions : list Region) :
  regionsInGrid grid regions -> regionsPass grid regions = Ret true.
Proof.
  induction regions as [|region regions IH]; intros Hin; simpl; [reflexivity|].
  assert (E : isValidMoveBitmask grid (-1) (-1) (-1) [region] = Ret true).
  { unfold isValidMoveBitmask. simpl (-1 =? 0).
    apply isValidMove_loop_out_of_range; [lia|].
    intros r Hr. apply regionsContaining_In in Hr as [[<- | []] _].
    apply Hin. now left. }
  rewrite E. apply IH. intros r Hr. apply Hin. now right.
Qed.

(** X8. The [isGridComplete] of a validation context checks its regions
    with a move that no region lists, so the regions never reject: on a
    grid whose cells within the configured size are all filled (and whose
    regions lie inside it) the answer is that of the variant rules alone,
    whatever digits the regions hold. *)
Theorem context_isGridComplete_skips_regions (config : SudokuConfig) (grid : Grid) :
  regionsInGrid grid (regions config) ->
  (forall r c, 0 <= r < size config -> 0 <= c < size config ->
               exists x, cellAt grid r c = Ret x /\ value x <> 0) ->
  vc_isGridComplete (createValidationContext config) grid
  = vc_applyVariantRules (createValidationContext config) grid.
Proof.
  intros Hin Hfilled. unfold createValidationContext.
  cbn [vc_isGridComplete vc_applyVariantRules].
  rewrite everyM_all.
  - now rewrite regionsPass_always.
  - intros r Hr. apply everyM_all. intros c Hc.
    apply range0_bounds in Hr. apply range0_bounds in Hc.
    destruct (Hfilled r c Hr Hc) as (x & Hx & Hv). rewrite Hx.
    apply Z.eqb_neq in Hv. now rewrite Hv.
Qed.

(** A 4x4 grid that holds 1 in every cell. *)
Definition allOnes : Grid :=
  createGridFromValues [[1; 1; 1; 1]; [1; 1; 1; 1]; [1; 1; 1; 1]; [1; 1; 1; 1]].

Lemma context_isGridComplete_skips_regions_witness :
  vc_isGridComplete (createValidationContext fourByFourConfig) allOnes = Ret true /\
  isGridComplete allOnes (regions fourByFourConfig) = Ret false.
Proof.
  split; [|vm_compute; reflexivity].
  rewrite (context_isGridComplete_skips_regions fourByFourConfig allOnes).
  - reflexivity.
  - apply regionsInGridb_sound. vm_compute. reflexivity.
  - intros r c Hr Hc. change (size fourByFourConfig) with 4 in Hr, Hc.
    exists (mkCell 1 true [] (Some false) None None).
    assert (Hcases : (r = 0 \/ r = 1 \/ r = 2 \/ r = 3) /\
                     (c = 0 \/ c = 1 \/ c = 2 \/ c = 3)) by lia.
    destruct Hcases as [[-> | [-> | [-> | ->]]] [-> | [-> | [-> | ->]]]];
      split; (reflexivity || discriminate).
Defined.

(* --------------------------------------------------------------------- *)
(** ** Candidates: the set-based and the map-based computations
       ([candidates/basic.ts], [candidates/optimized.ts]) *)

(** [set.delete(x)] *)
Definition Set_delete (s : list Z) (x : Z) : list Z :=
  filter (fun y => negb (y =? x)) s.

Module Basic.

(** [getCandidatesForCell] of [candidates/basic.ts]. *)
Definition getCandidatesForCell (grid : Grid) (row col size : Z)
  (regions : list Region) : outcome (list Z) :=
  match cellAt grid row col with
  | Throw e => Throw e
  | Ret cell =>
      if negb (value cell =? 0) then Ret []
      else
        let relevantRegions :=
          filter (fun region =>
                    existsb (fun rc => coord_eqb rc (row, col)) (cells region))
                 regions in
        let candidates := fold_left Set_add (range1 size) [] in
        foldM (fun candidates region =>
                 foldM (fun candidates rc =>
                          if coord_eqb rc (row, col) then Ret candidates
                          else
                            match cellAt grid (fst rc) (snd rc) with
                            | Throw e => Throw e
                            | Ret c =>
                                if negb (value c =? 0)
                                then Ret (Set_delete candidates (value c))
                                else Ret candidates
                            end) (cells region) candidates)
              relevantRegions candidates
  end.

End Basic.

Lemma valuesFromBitmask_filter (m : Z) :
  valuesFromBitmask m = filter (fun v => Z.testbit m v) (map Z.of_nat (seq 1 31)).
Proof.
  unfold valuesFromBitmask. apply filter_ext_in. intros v Hv.
  apply in_map_iff in Hv as (k & <- & Hk). apply in_seq in Hk.
  apply and_shl_testbit. lia.
Qed.

Lemma filter_filter {A} (f g : A -> bool) (l : list A) :
  filter f (filter g l) = filter (fun x => g x && f x) l.
Proof.
  induction l as [|a l IH]; simpl; [reflexivity|].
  destruct (g a); simpl; [destruct (f a); simpl|]; now rewrite IH.
Qed.

Lemma fold_Set_add_range (n : nat) :
  forall lo acc,
    (forall x, In x acc -> x < Z.of_nat lo) ->
    fold_left Set_add (map Z.of_nat (seq lo n)) acc
    = acc ++ map Z.of_nat (seq lo n).
Proof.
  induction n as [|n IH]; intros lo acc Hacc; simpl; [now rewrite app_nil_r|].
  assert (E : Set_add acc (Z.of_nat lo) = acc ++ [Z.of_nat lo]).
  { unfold Set_add. destruct (existsb (Z.eqb (Z.of_nat lo)) acc) eqn:Ex; [|reflexivity].
    apply existsb_exists in Ex as (x & Hx & Hb). apply Z.eqb_eq in Hb.
    specialize (Hacc x Hx). lia. }
  rewrite E, IH.
  - now rewrite <- app_assoc.
  - intros x Hx. apply in_app_or in Hx as [Hx | [<- | []]]; [specialize (Hacc x Hx)|]; lia.
Qed.

Lemma full_values (size full : Z) :
  createFullBitmask size = Ret full -> valuesFromBitmask full = range1 size.
Proof.
  intros H.
  assert (Hsize : 1 <= size < 1 + 31).
  { unfold createFullBitmask in H.
    destruct ((size <=? 0) || (size >? 31)) eqn:E; [discriminate|].
    apply orb_false_iff in E as [E1 E2].
    apply Z.leb_gt in E1. rewrite Z.gtb_ltb in E2. apply Z.ltb_ge in E2. lia. }
  revert full H.
  apply (in_range_cases
           (fun size => forall full, createFullBitmask size = Ret full ->
                                     valuesFromBitmask full = range1 size)
           1%nat 31%nat); [|exact Hsize].
  repeat constructor; intros full H; vm_compute in H; inversion H; reflexivity.
Qed.

(** The deletions of the set-based loop over one region amount to removing
    the digits that the bitmask loop marks as used. *)
Lemma region_deletions (grid : Grid) (row col : Z) (coords : list Coord) :
  forall (used : Z) (cands0 : list Z),
    (forall v, In v cands0 -> 1 <= v <= 31) ->
    match
      foldM (fun usedValues rc =>
               if coord_eqb rc (row, col) then Ret usedValues
               else
                 match cellAt grid (fst rc) (snd rc) with
                 | Throw e => Throw e
                 | Ret c =>
                     if negb (value c =? 0)
                     then Ret (Js.or usedValues (valueToBitmask (value c)))
                     else Ret usedValues
                 end) coords used
    with
    | Ret used' =>
        foldM (fun candidates rc =>
                 if coord_eqb rc (row, col) then Ret candidates
                 else
                   match cellAt grid (fst rc) (snd rc) with
                   | Throw e => Throw e
                   | Ret c =>
                       if negb (value c =? 0)
                       then Ret (Set_delete candidates (value c))
                       else Ret candidates
                   end) coords
              (filter (fun v => negb (Z.testbit used v)) cands0)
        = Ret (filter (fun v => negb (Z.testbit used' v)) cands0)
    | Throw e =>
        foldM (fun candidates rc =>
                 if coord_eqb rc (row, col) then Ret candidates
                 else
                   match cellAt grid (fst rc) (snd rc) with
                   | Throw e => Throw e
                   | Ret c =>
                       if negb (value c =? 0)
                       then Ret (Set_delete candidates (value c))
                       else Ret candidates
                   end) coords
              (filter (fun v => negb (Z.testbit used v)) cands0)
        = Throw e
    end.
Proof.
  induction coords as [|rc coords IH]; intros used cands0 Hrange; [reflexivity|].
  rewrite !foldM_cons.
  destruct (coord_eqb rc (row, col)); [apply IH; assumption|].
  destruct (cellAt grid (fst rc) (snd rc)) as [c|e]; [|reflexivity].
  destruct (negb (value c =? 0)) eqn:E0; [|apply IH; assumption].
  replace (Set_delete (filter (fun v => negb (Z.testbit used v)) cands0) (value c))
    with (filter (fun v => negb (Z.testbit (Js.or used (valueToBitmask (value c))) v))
                 cands0); [apply IH; assumption|].
  unfold Set_delete. rewrite filter_filter. apply filter_ext_in. intros v Hv.
  specialize (Hrange v Hv). rewrite or_testbit by lia.
  rewrite valueToBitmask_testbit by lia. rewrite negb_orb. f_equal.
  destruct (Z.eqb_spec (value c) v) as [E|E], (Z.eqb_spec v (value c)) as [E2|E2];
    try congruence.
  - assert (E' : (0 <? value c) = true) by (apply Z.ltb_lt; lia).
    now rewrite E'.
  - now rewrite andb_false_r.
Qed.

Lemma valuesFromBitmask_range (m v : Z) : In v (valuesFromBitmask m) -> 1 <= v <= 31.
Proof. intros H. now apply valuesFromBitmask_In in H. Qed.

Lemma masked_values (m used : Z) :
  valuesFromBitmask (Js.and m (Js.not used))
  = filter (fun v => negb (Z.testbit used v)) (valuesFromBitmask m).
Proof.
  rewrite !valuesFromBitmask_filter, filter_filter. apply filter_ext_in.
  intros v Hv. apply in_map_iff in Hv as (k & <- & Hk). apply in_seq in Hk.
  apply and_not_testbit. lia.
Qed.

Lemma regions_deletions (grid : Grid) (row col : Z) (rs : list Region) :
  forall mask,
    match
      foldM (fun candidatesBitmask region =>
               match usedValuesExcept grid row col region with
               | Throw e => Throw e
               | Ret usedValues => Ret (Js.and candidatesBitmask (Js.not usedValues))
               end) rs mask
    with
    | Ret mask' =>
        foldM (fun candidates region =>
                 foldM (fun candidates rc =>
                          if coord_eqb rc (row, col) then Ret candidates
                          else
                            match cellAt grid (fst rc) (snd rc) with
                            | Throw e => Throw e
                            | Ret c =>
                                if negb (value c =? 0)
                                then Ret (Set_delete candidates (value c))
                                else Ret candidates
                            end) (cells region) candidates)
              rs (valuesFromBitmask mask)
        = Ret (valuesFromBitmask mask')
    | Throw e =>
        foldM (fun candidates region =>
                 foldM (fun candidates rc =>
                          if coord_eqb rc (row, col) then Ret candidates
                          else
                            match cellAt grid (fst rc) (snd rc) with
                            | Throw e => Throw e
                            | Ret c =>
                                if negb (value c =? 0)
                                then Ret (Set_delete candidates (value c))
                                else Ret candidates
                            end) (cells region) candidates)
              rs (valuesFromBitmask mask)
        = Throw e
    end.
Proof.
  induction rs as [|region rs IH]; intros mask; [reflexivity|].
  rewrite !foldM_cons.
  pose proof (region_deletions grid row col (cells region) 0 (valuesFromBitmask mask)
                (valuesFromBitmask_range mask)) as Hreg.
  fold (usedValuesExcept grid row col region) in Hreg.
  replace (filter (fun v => negb (Z.testbit 0 v)) (valuesFromBitmask mask))
    with (valuesFromBitmask mask) in Hreg.
  - destruct (usedValuesExcept grid row col region) as [used|e].
    + rewrite Hreg. rewrite <- masked_values. apply IH.
    + rewrite Hreg. reflexivity.
  - symmetry. apply forallb_filter_id. apply forallb_forall. intros v _.
    now rewrite Z.bits_0.
Qed.

(** X9. For a configuration of size 1..31 without variant rules, the
    set-based [getCandidatesForCell] and the bitmask-based
    [getCandidatesForCellBitmask] have the same outcome on every grid and
    cell: the same candidates in the same order, or the same exception. *)
Theorem candidates_basic_and_bitmask_agree (grid : Grid) (row col : Z)
  (config : SudokuConfig) :
  1 <= size config <= 31 -> variantRules config = [] ->
  getCandidatesForCellBitmask grid row col config
  = Basic.getCandidatesForCell grid row col (size config) (regions config).
Proof.
  intros Hsize Hrules. unfold getCandidatesForCellBitmask, Basic.getCandidatesForCell.
  destruct (cellAt grid row col) as [cell|e]; [|reflexivity].
  destruct (negb (value cell =? 0)); [reflexivity|].
  destruct (createFullBitmask (size config)) as [full|e] eqn:Efull.
  - fold (regionsContaining (regions config) row col).
    unfold range1. rewrite fold_Set_add_range by (intros x []). cbn [app].
    fold (range1 (size config)). rewrite <- (full_values _ _ Efull).
    pose proof (regions_deletions grid row col
                  (regionsContaining (regions config) row col) full) as H.
    match type of H with
    | match ?scrutinee with _ => _ end =>
        destruct scrutinee as [mask|e] eqn:Em
    end.
    + rewrite H, Hrules. reflexivity.
    + rewrite H. reflexivity.
  - exfalso. unfold createFullBitmask in Efull. rewrite in_range_guard in Efull by lia.
    discriminate.
Qed.

Lemma candidates_basic_and_bitmask_agree_witness :
  getCandidatesForCellBitmask fourByFourPuzzle 1 2 fourByFourConfig
  = Basic.getCandidatesForCell fourByFourPuzzle 1 2 4 (regions fourByFourConfig).
Proof.
  apply (candidates_basic_and_bitmask_agree fourByFourPuzzle 1 2 fourByFourConfig).
  - change (size fourByFourConfig) with 4. lia.
  - reflexivity.
Defined.

(** A [Map<string, number>] keyed by region id, in insertion order. *)
Fixpoint IdMap_get (m : list (string * Z)) (key : string) : option Z :=
  match m with
  | [] => None
  | (k, v) :: rest => if String.eqb k key then Some v else IdMap_get rest key
  end.

Fixpoint IdMap_set (m : list (string * Z)) (key : string) (v : Z)
  : list (string * Z) :=
  match m with
  | [] => [(key, v)]
  | (k, v') :: rest =>
      if String.eqb k key then (key, v) :: rest else (k, v') :: IdMap_set rest key v
  end.

(** The first loop of [getAllCandidatesBitmask] over one region: the mask
    of all the values the region holds. *)
Definition usedValuesOf (grid : Grid) (region : Region) : outcome Z :=
  foldM (fun usedValues rc =>
           match cellAt grid (fst rc) (snd rc) with
           | Throw e => Throw e
           | Ret c =>
               if negb (value c =? 0)
               then Ret (Js.or usedValues (valueToBitmask (value c)))
               else Ret usedValues
           end) (cells region) 0.

(** What [getAllCandidatesBitmask] computes for one empty cell from the
    masks of the regions; [regionUsedValues.get(region.id) || 0] reads 0
    for an id that is not in the map. *)
Definition candidatesFromUsed (grid : Grid) (config : SudokuConfig)
  (regionUsedValues : list (string * Z)) (row col : Z) : outcome (list Z) :=
  let relevantRegions :=
    filter (fun region => existsb (fun rc => coord_eqb rc (row, col)) (cells region))
           (regions config) in
  match createFullBitmask (size config) with
  | Throw e => Throw e
  | Ret full =>
      let candidatesBitmask :=
        fold_left (fun candidatesBitmask region =>
                     let usedValues :=
                       match IdMap_get regionUsedValues (id region) with
                       | Some used => used
                       | None => 0
                       end in
                     Js.and candidatesBitmask (Js.not usedValues))
                  relevantRegions full in
      match applyExclusions grid row col config (variantRules config)
              candidatesBitmask with
      | Throw e => Throw e
      | Ret candidatesBitmask => Ret (valuesFromBitmask candidatesBitmask)
      end
  end.

(** [getAllCandidatesBitmask]: the map from the empty cells, keyed by
    ["row,col"], to their candidates. *)
Definition getAllCandidatesBitmask (grid : Grid) (config : SudokuConfig)
  : outcome (list (Coord * list Z)) :=
  match foldM (fun regionUsedValues region =>
                 match usedValuesOf grid region with
                 | Throw e => Throw e
                 | Ret usedValues =>
                     Ret (IdMap_set regionUsedValues (id region) usedValues)
                 end) (regions config) [] with
  | Throw e => Throw e
  | Ret regionUsedValues =>
      foldM (fun candidatesMap rr =>
               foldM (fun candidatesMap cc =>
                        if negb (value (snd cc) =? 0) then Ret candidatesMap
                        else
                          match candidatesFromUsed grid config regionUsedValues
                                  (fst rr) (fst cc) with
                          | Throw e => Throw e
                          | Ret finalCandidates =>
                              Ret (CellMap_set candidatesMap (fst rr, fst cc)
                                               finalCandidates)
                          end)
                     (mapi (fun c cell => (c, cell)) (snd rr)) candidatesMap)
            (mapi (fun r row => (r, row)) grid) []
  end.

Lemma IdMap_get_set (m : list (string * Z)) (k k' : string) (v : Z) :
  IdMap_get (IdMap_set m k v) k' = if String.eqb k k' then Some v else IdMap_get m k'.
Proof.
  induction m as [|[k0 v0] m IH]; cbn [IdMap_get IdMap_set].
  - reflexivity.
  - destruct (String.eqb k0 k) eqn:E; cbn [IdMap_get].
    + apply String.eqb_eq in E. subst k0. destruct (String.eqb k k'); reflexivity.
    + destruct (String.eqb k0 k') eqn:E'.
      * apply String.eqb_eq in E'. subst k0.
        assert (E2 : String.eqb k k' = false).
        { apply String.eqb_neq. intros ->. rewrite String.eqb_refl in E. discriminate. }
        now rewrite E2.
      * apply IH.
Qed.

(** The loop body of [usedValuesOf]. *)
Definition markUsed (grid : Grid) (usedValues : Z) (rc : Coord) : outcome Z :=
  match cellAt grid (fst rc) (snd rc) with
  | Throw e => Throw e
  | Ret c =>
      if negb (value c =? 0)
      then Ret (Js.or usedValues (valueToBitmask (value c)))
      else Ret usedValues
  end.

Lemma usedValuesOf_total (grid : Grid) (region : Region) :
  Forall (inGrid grid) (cells region) -> exists u, usedValuesOf grid region = Ret u.
Proof.
  unfold usedValuesOf. fold (markUsed grid).
  assert (H : forall coords acc, Forall (inGrid grid) coords ->
                                 exists u, foldM (markUsed grid) coords acc = Ret u).
  { induction coords as [|rc coords IH]; intros acc Hall; [now exists acc|].
    inversion Hall as [|? ? [c Hc] Hrest]; subst. rewrite foldM_cons.
    unfold markUsed at 1. rewrite Hc.
    destruct (negb (value c =? 0)); apply IH; assumption. }
  apply H.
Qed.

(** Leaving out an empty cell changes nothing in the mask of a region. *)
Lemma usedValuesOf_except (grid : Grid) (row col : Z) (x : CellState) (region : Region) :
  cellAt grid row col = Ret x -> value x = 0 ->
  usedValuesExcept grid row col region = usedValuesOf grid region.
Proof.
  intros Hx Hv. unfold usedValuesExcept, usedValuesOf. fold (markUsed grid).
  assert (H : forall coords acc,
             foldM (fun usedValues rc =>
                      if coord_eqb rc (row, col) then Ret usedValues
                      else
                        match cellAt grid (fst rc) (snd rc) with
                        | Throw e => Throw e
                        | Ret c =>
                            if negb (value c =? 0)
                            then Ret (Js.or usedValues (valueToBitmask (value c)))
                            else Ret usedValues
                        end) coords acc
             = foldM (markUsed grid) coords acc).
  { induction coords as [|rc coords IH]; intros acc; [reflexivity|].
    rewrite !foldM_cons. unfold markUsed at 1.
    destruct (coord_eqb rc (row, col)) eqn:E.
    - apply coord_eqb_eq in E. subst rc. cbn [fst snd]. rewrite Hx, Hv.
      cbn [Z.eqb negb]. apply IH.
    - destruct (cellAt grid (fst rc) (snd rc)) as [c|e]; [|reflexivity].
      destruct (negb (value c =? 0)); apply IH. }
  apply H.
Qed.

Lemma regionMasks_spec (grid : Grid) (rs : list Region) :
  (forall region, In region rs -> Forall (inGrid grid) (cells region)) ->
  NoDup (map id rs) ->
  forall m,
  exists m',
    foldM (fun regionUsedValues region =>
             match usedValuesOf grid region with
             | Throw e => Throw e
             | Ret usedValues => Ret (IdMap_set regionUsedValues (id region) usedValues)
             end) rs m = Ret m' /\
    (forall region, In region rs ->
                    exists u, usedValuesOf grid region = Ret u /\
                              IdMap_get m' (id region) = Some u) /\
    (forall key, ~ In key (map id rs) -> IdMap_get m' key = IdMap_get m key).
Proof.
  induction rs as [|region rs IH]; intros Hin Hnd m.
  - exists m. split; [reflexivity|]. split; [intros r []|reflexivity].
  - inversion Hnd as [|? ? Hfresh Hnd']; subst.
    destruct (usedValuesOf_total grid region (Hin region (or_introl eq_refl))) as [u Eu].
    destruct (IH (fun r Hr => Hin r (or_intror Hr)) Hnd' (IdMap_set m (id region) u))
      as (m' & Em' & Hin' & Hout').
    exists m'. rewrite foldM_cons, Eu. split; [assumption|]. split.
    + intros r [<- | Hr]; [|now apply Hin'].
      exists u. split; [assumption|]. rewrite (Hout' _ Hfresh), IdMap_get_set.
      now rewrite String.eqb_refl.
    + intros key Hkey. cbn [map In] in Hkey.
      rewrite Hout' by tauto. rewrite IdMap_get_set.
      destruct (String.eqb (id region) key) eqn:E; [|reflexivity].
      apply String.eqb_eq in E. exfalso. apply Hkey. now left.
Qed.

Lemma candidatesFromUsed_cell (grid : Grid) (config : SudokuConfig)
  (m : list (string * Z)) (row col : Z) (x : CellState) :
  (forall region, In region (regions config) ->
                  exists u, usedValuesOf grid region = Ret u /\
                            IdMap_get m (id region) = Some u) ->
  cellAt grid row col = Ret x -> value x = 0 ->
  candidatesFromUsed grid config m row col
  = getCandidatesForCellBitmask grid row col config.
Proof.
  intros Hm Hx Hv. unfold candidatesFromUsed, getCandidatesForCellBitmask.
  rewrite Hx, Hv. cbn [Z.eqb negb].
  fold (regionsContaining (regions config) row col).
  destruct (createFullBitmask (size config)) as [full|e]; [|reflexivity].
  assert (Hfold : forall rs mask,
            (forall region, In region rs -> In region (regions config)) ->
            foldM (fun candidatesBitmask region =>
                     match usedValuesExcept grid row col region with
                     | Throw e => Throw e
                     | Ret usedValues => Ret (Js.and candidatesBitmask (Js.not usedValues))
                     end) rs mask
            = Ret (fold_left (fun candidatesBitmask region =>
                                let usedValues :=
                                  match IdMap_get m (id region) with
                                  | Some used => used
                                  | None => 0
                                  end in
                                Js.and candidatesBitmask (Js.not usedValues)) rs mask)).
  { induction rs as [|region rs IH]; intros mask Hsub; [reflexivity|].
    rewrite foldM_cons. cbn [fold_left].
    destruct (Hm region (Hsub region (or_introl eq_refl))) as (u & Eu & Eg).
    rewrite (usedValuesOf_except grid row col x region Hx Hv), Eu, Eg.
    apply IH. intros r Hr. apply Hsub. now right. }
  rewrite Hfold; [reflexivity|].
  intros region Hr. now apply regionsContaining_In in Hr.
Qed.

(** Filling a map with one entry per position. *)
Definition collectM (f : Coord -> outcome (list Z)) (positions : list Coord)
  (acc : list (Coord * list Z)) : outcome (list (Coord * list Z)) :=
  foldM (fun candidatesMap rc =>
           match f rc with
           | Throw e => Throw e
           | Ret v => Ret (CellMap_set candidatesMap rc v)
           end) positions acc.

Lemma foldM_app {A S} (body : S -> A -> outcome S) (l1 l2 : list A) (acc : S) :
  foldM body (l1 ++ l2) acc =
  match foldM body l1 acc with
  | Ret acc' => foldM body l2 acc'
  | Throw e => Throw e
  end.
Proof.
  revert acc. induction l1 as [|a l1 IH]; intros acc; [reflexivity|].
  cbn [app]. rewrite !foldM_cons. destruct (body acc a); [apply IH | reflexivity].
Qed.

Lemma collectM_app (f : Coord -> outcome (list Z)) (l1 l2 : list Coord)
  (acc : list (Coord * list Z)) :
  collectM f (l1 ++ l2) acc =
  match collectM f l1 acc with
  | Ret acc' => collectM f l2 acc'
  | Throw e => Throw e
  end.
Proof. apply foldM_app. Qed.

Lemma collectM_cons (f : Coord -> outcome (list Z)) (rc : Coord) (l : list Coord)
  (acc : list (Coord * list Z)) :
  collectM f (rc :: l) acc =
  match f rc with
  | Ret v => collectM f l (CellMap_set acc rc v)
  | Throw e => Throw e
  end.
Proof. unfold collectM. rewrite foldM_cons. destruct (f rc); reflexivity. Qed.

Lemma rowLoop_collect (f : Coord -> outcome (list Z)) (row : Z)
  (cellsOfRow : list CellState) :
  forall col acc,
    foldM (fun candidatesMap cc =>
             if negb (value (snd cc) =? 0) then Ret candidatesMap
             else
               match f (row, fst cc) with
               | Throw e => Throw e
               | Ret v => Ret (CellMap_set candidatesMap (row, fst cc) v)
               end)
          (mapi_from col (fun c cell => (c, cell)) cellsOfRow) acc
    = collectM f (emptyPositionsOfRow row col cellsOfRow) acc.
Proof.
  induction cellsOfRow as [|cell rest IH]; intros col acc; [reflexivity|].
  cbn [mapi_from emptyPositionsOfRow]. rewrite foldM_cons. cbn [fst snd].
  destruct (value cell =? 0); cbn [negb].
  - unfold collectM. rewrite foldM_cons.
    destruct (f (row, col)) as [v|e]; [exact (IH (col + 1) _) | reflexivity].
  - exact (IH (col + 1) acc).
Qed.

Lemma gridLoop_collect (f : Coord -> outcome (list Z)) (rows : Grid) :
  forall row acc,
    foldM (fun candidatesMap rr =>
             foldM (fun candidatesMap cc =>
                      if negb (value (snd cc) =? 0) then Ret candidatesMap
                      else
                        match f (fst rr, fst cc) with
                        | Throw e => Throw e
                        | Ret v => Ret (CellMap_set candidatesMap (fst rr, fst cc) v)
                        end)
                   (mapi (fun c cell => (c, cell)) (snd rr)) candidatesMap)
          (mapi_from row (fun r rw => (r, rw)) rows) acc
    = collectM f (emptyPositionsFrom row rows) acc.
Proof.
  induction rows as [|rw rest IH]; intros row acc; [reflexivity|].
  cbn [mapi_from emptyPositionsFrom]. rewrite foldM_cons. cbn [fst snd].
  rewrite collectM_app. unfold mapi. rewrite rowLoop_collect.
  destruct (collectM f (emptyPositionsOfRow row 0 rw) acc) as [acc'|e];
    [exact (IH (row + 1) acc') | reflexivity].
Qed.

Lemma CellMap_set_fresh {V} (m : list (Coord * V)) (k : Coord) (v : V) :
  CellMap_get m k = None -> CellMap_set m k v = m ++ [(k, v)].
Proof.
  induction m as [|[k0 v0] m IH]; cbn [CellMap_get CellMap_set app]; [reflexivity|].
  destruct (coord_eqb k0 k); [discriminate|]. intros H. now rewrite IH.
Qed.

Lemma collectM_fresh (f : Coord -> outcome (list Z)) (positions : list Coord) :
  NoDup positions ->
  forall acc,
    (forall rc, In rc positions -> CellMap_get acc rc = None) ->
    collectM f positions acc =
    match mapM f positions with
    | Ret l => Ret (acc ++ combine positions l)
    | Throw e => Throw e
    end.
Proof.
  induction 1 as [|rc positions Hfresh Hnd IH]; intros acc Hacc.
  - simpl. now rewrite app_nil_r.
  - rewrite collectM_cons. cbn [mapM].
    destruct (f rc) as [v|e]; [|reflexivity].
    rewrite CellMap_set_fresh by (apply Hacc; now left).
    rewrite IH.
    + destruct (mapM f positions) as [l|e]; [|reflexivity].
      cbn [combine]. now rewrite <- app_assoc.
    + intros rc' Hrc'. rewrite <- (CellMap_set_fresh acc rc v) by (apply Hacc; now left).
      rewrite CellMap_get_set.
      destruct (coord_eqb rc rc') eqn:E; [|apply Hacc; now right].
      apply coord_eqb_eq in E. subst rc'. contradiction.
Qed.

Lemma mapM_ext_in {A B} (f g : A -> outcome B) (l : list A) :
  (forall x, In x l -> f x = g x) -> mapM f l = mapM g l.
Proof.
  induction l as [|a l IH]; intros H; [reflexivity|].
  cbn [mapM]. rewrite (H a (or_introl eq_refl)).
  rewrite IH; [reflexivity|]. intros x Hx. apply H. now right.
Qed.

Lemma collectM_ext_in (f g : Coord -> outcome (list Z)) (positions : list Coord) :
  (forall rc, In rc positions -> f rc = g rc) ->
  forall acc, collectM f positions acc = collectM g positions acc.
Proof.
  induction positions as [|rc positions IH]; intros H acc; [reflexivity|].
  rewrite !collectM_cons. rewrite (H rc (or_introl eq_refl)).
  destruct (g rc); [|reflexivity]. apply IH. intros x Hx. apply H. now right.
Qed.

(** X10. When the regions lie inside the grid and no two of them share an
    id, [getAllCandidatesBitmask], which computes the mask of each region
    once and looks it up by id, gives for the empty cells in row-major
    order exactly what [getCandidatesForCellBitmask] gives cell by cell,
    and throws exactly when one of those calls throws. *)
Theorem getAllCandidatesBitmask_agrees_cell_by_cell (grid : Grid)
  (config : SudokuConfig) :
  regionsInGrid grid (regions config) ->
  NoDup (map id (regions config)) ->
  getAllCandidatesBitmask grid config =
  match mapM (fun rc => getCandidatesForCellBitmask grid (fst rc) (snd rc) config)
             (emptyPositions grid) with
  | Ret candidates => Ret (combine (emptyPositions grid) candidates)
  | Throw e => Throw e
  end.
Proof.
  intros Hin Hnd. unfold getAllCandidatesBitmask.
  destruct (regionMasks_spec grid (regions config) Hin Hnd []) as (m & Em & Hm & _).
  rewrite Em.
  transitivity
    (collectM (fun rc => candidatesFromUsed grid config m (fst rc) (snd rc))
              (emptyPositions grid) []).
  { exact (gridLoop_collect
             (fun rc => candidatesFromUsed grid config m (fst rc) (snd rc)) grid 0 []). }
  rewrite (collectM_ext_in _
             (fun rc => getCandidatesForCellBitmask grid (fst rc) (snd rc) config)).
  - rewrite collectM_fresh; [reflexivity | apply emptyPositionsFrom_NoDup | reflexivity].
  - intros [r c] Hrc. apply emptyPositions_In in Hrc as (x & Hx & Hv).
    cbn [fst snd]. now apply (candidatesFromUsed_cell grid config m r c x).
Qed.

Lemma getAllCandidatesBitmask_agrees_cell_by_cell_witness :
  getAllCandidatesBitmask fourByFourPuzzle fourByFourConfig =
  match mapM (fun rc => getCandidatesForCellBitmask fourByFourPuzzle (fst rc) (snd rc)
                          fourByFourConfig)
             (emptyPositions fourByFourPuzzle) with
  | Ret candidates => Ret (combine (emptyPositions fourByFourPuzzle) candidates)
  | Throw e => Throw e
  end.
Proof.
  apply (getAllCandidatesBitmask_agrees_cell_by_cell fourByFourPuzzle fourByFourConfig).
  - apply regionsInGridb_sound. vm_compute. reflexivity.
  - vm_compute. repeat constructor; simpl; intuition discriminate.
Defined.

(** [getExcludedCandidatesFromVariants] of [variants/helpers.ts]: the union
    of what the rules exclude at a cell. *)
Definition getExcludedCandidatesFromVariants (grid : Grid) (row col : Z)
  (config : SudokuConfig) (variantRules : list VariantRule) : outcome (list Z) :=
  foldM (fun excluded rule =>
           match getExcludedCandidates rule with
           | Some f =>
               match f grid row col (view config) with
               | Throw e => Throw e
               | Ret ruleExcluded => Ret (fold_left Set_add ruleExcluded excluded)
               end
           | None => Ret excluded
           end) variantRules [].

(** The configuration with its variant rules taken away. *)
Definition withoutRules (config : SudokuConfig) : SudokuConfig :=
  mkConfig (size config) (blockWidth config) (blockHeight config) (regions config) [].

Lemma Set_has_add (s : list Z) (x v : Z) :
  Set_has (Set_add s x) v = Set_has s v || (v =? x).
Proof.
  unfold Set_has, Set_add. destruct (existsb (Z.eqb x) s) eqn:E.
  - destruct (Z.eqb_spec v x) as [->|Hne]; [now rewrite E | now rewrite orb_false_r].
  - rewrite existsb_app. simpl. now rewrite orb_false_r.
Qed.

Lemma Set_has_fold_add (l : list Z) :
  forall s v, Set_has (fold_left Set_add l s) v = Set_has s v || existsb (Z.eqb v) l.
Proof.
  induction l as [|x l IH]; intros s v; simpl; [now rewrite orb_false_r|].
  rewrite IH, Set_has_add. now rewrite orb_assoc.
Qed.

Lemma exclusion_fold_bits (l : list Z) :
  forall m v, 1 <= v <= 31 ->
    Z.testbit (fold_left (fun mask excludedValue =>
                            Js.and mask (Js.not (valueToBitmask excludedValue))) l m) v
    = Z.testbit m v && negb (existsb (Z.eqb v) l).
Proof.
  induction l as [|x l IH]; intros m v Hv; simpl; [now rewrite andb_true_r|].
  rewrite IH by assumption. rewrite and_not_testbit by lia.
  rewrite valueToBitmask_testbit by lia. rewrite negb_orb, andb_assoc. do 2 f_equal.
  destruct (Z.eqb_spec x v) as [E|E], (Z.eqb_spec v x) as [E2|E2]; try congruence.
  - assert (E' : (0 <? x) = true) by (apply Z.ltb_lt; lia). now rewrite E'.
  - now rewrite andb_false_r.
Qed.

Lemma applyExclusions_bits (grid : Grid) (row col : Z) (config : SudokuConfig)
  (rules : list VariantRule) :
  forall mask acc excluded,
    foldM (fun excluded rule =>
             match getExcludedCandidates rule with
             | Some f =>
                 match f grid row col (view config) with
                 | Throw e => Throw e
                 | Ret ruleExcluded => Ret (fold_left Set_add ruleExcluded excluded)
                 end
             | None => Ret excluded
             end) rules acc = Ret excluded ->
    exists mask' listed,
      applyExclusions grid row col config rules mask = Ret mask' /\
      (forall v, 1 <= v <= 31 ->
                 Z.testbit mask' v = Z.testbit mask v && negb (existsb (Z.eqb v) listed)) /\
      (forall v, Set_has excluded v = Set_has acc v || existsb (Z.eqb v) listed).
Proof.
  induction rules as [|rule rules IH]; intros mask acc excluded H.
  - simpl in H. inversion H; subst. exists mask, []. split; [reflexivity|].
    split; intros v; simpl; [now rewrite andb_true_r | now rewrite orb_false_r].
  - rewrite foldM_cons in H. cbn [applyExclusions].
    destruct (getExcludedCandidates rule) as [f|].
    + destruct (f grid row col (view config)) as [ruleExcluded|e]; [|discriminate].
      destruct (IH (fold_left (fun mask excludedValue =>
                                 Js.and mask (Js.not (valueToBitmask excludedValue)))
                              ruleExcluded mask)
                   (fold_left Set_add ruleExcluded acc) excluded H)
        as (mask' & listed & E' & Hbits & Hset).
      exists mask', (ruleExcluded ++ listed). split; [assumption|]. split.
      * intros v Hv. rewrite (Hbits v Hv), exclusion_fold_bits by assumption.
        rewrite existsb_app, negb_orb. now rewrite andb_assoc.
      * intros v. rewrite Hset, Set_has_fold_add, existsb_app. now rewrite orb_assoc.
    + apply IH. assumption.
Qed.

(** X11. The candidates that [getCandidatesForCellBitmask] computes under
    variant rules are those it computes from the regions alone, with the
    digits that [getExcludedCandidatesFromVariants] collects from the rules
    taken out, in the same order. *)
Theorem candidates_are_region_candidates_minus_exclusions (grid : Grid) (row col : Z)
  (config : SudokuConfig) (fromRegions excluded : list Z) :
  getCandidatesForCellBitmask grid row col (withoutRules config) = Ret fromRegions ->
  getExcludedCandidatesFromVariants grid row col config (variantRules config)
    = Ret excluded ->
  getCandidatesForCellBitmask grid row col config
  = Ret (filter (fun v => negb (Set_has excluded v)) fromRegions).
Proof.
  unfold getCandidatesForCellBitmask, getExcludedCandidatesFromVariants, withoutRules.
  cbn [size regions variantRules].
  destruct (cellAt grid row col) as [cell|e]; [|discriminate].
  destruct (negb (value cell =? 0)).
  { intros H _. inversion H. reflexivity. }
  destruct (createFullBitmask (size config)) as [full|e]; [|discriminate].
  match goal with
  | |- context [foldM ?body (regionsContaining (regions config) row col) full] =>
      destruct (foldM body (regionsContaining (regions config) row col) full)
        as [mask|e]
  end; [|discriminate].
  cbn [applyExclusions]. intros Hbase Hexcl. inversion Hbase; subst fromRegions.
  destruct (applyExclusions_bits grid row col config (variantRules config) mask []
              excluded Hexcl) as (mask' & listed & E' & Hbits & Hset).
  rewrite E'. f_equal. rewrite !valuesFromBitmask_filter, filter_filter.
  apply filter_ext_in. intros v Hv. apply in_map_iff in Hv as (k & <- & Hk).
  apply in_seq in Hk. rewrite Hbits by lia. rewrite Hset. reflexivity.
Qed.

Lemma candidates_are_region_candidates_minus_exclusions_witness :
  getCandidatesForCellBitmask diagonalExampleGrid 3 3 diagonalExampleConfig
  = Ret (filter (fun v => negb (Set_has [1] v)) [1; 2; 3; 4]).
Proof.
  apply (candidates_are_region_candidates_minus_exclusions diagonalExampleGrid 3 3
           diagonalExampleConfig [1; 2; 3; 4] [1]); reflexivity.
Defined.

(* --------------------------------------------------------------------- *)
(** ** Reading and writing cells ([grid/access.ts]) *)

(** What [getCellState] returns: [null] outside the bounds, the cell, or
    [undefined] where a row is shorter than the first. *)
Inductive CellLookup :=
| Lookup_null
| Lookup_undefined
| Lookup_cell (cell : CellState).

Definition getCellState (grid : Grid) (row col : Z) : CellLookup :=
  if (row <? 0) || (row >=? len grid) || (col <? 0) || (col >=? firstRowLength grid)
  then Lookup_null
  else
    match nth_Z grid row with
    | None => Lookup_undefined
    | Some r =>
        match nth_Z r col with
        | None => Lookup_undefined
        | Some cell => Lookup_cell cell
        end
    end.

(** [cell?.value ?? -1] *)
Definition getCellValue (grid : Grid) (row col : Z) : Z :=
  match getCellState grid row col with
  | Lookup_cell cell => value cell
  | _ => -1
  end.

(** A note toggled in a [Set<number>]. *)
Definition Set_toggle (s : list Z) (digit : Z) : list Z :=
  if Set_has s digit then Set_delete s digit else Set_add s digit.

Definition setNotes (n : list Z) (c : CellState) : CellState :=
  mkCell (value c) (isPuzzle c) n (error c) (highlight c) (animationState c).

Definition toggleCellNote (grid : Grid) (row col digit : Z) : outcome Grid :=
  if negb (isValidPosition grid row col) then Ret grid
  else
    match cellAt grid row col with
    | Throw e => Throw e
    | Ret cell =>
        if negb (value cell =? 0) || isPuzzle cell then Ret grid
        else
          Ret (mapi (fun rIndex r =>
                       mapi (fun cIndex c =>
                               if (rIndex =? row) && (cIndex =? col) then
                                 setNotes (Set_toggle (notes c) digit) c
                               else cloneCell c) r) grid)
    end.

Lemma getCellState_cellAt (g : Grid) (r c : Z) :
  getCellState g r c =
  if (r <? 0) || (r >=? len g) || (c <? 0) || (c >=? firstRowLength g)
  then Lookup_null
  else match cellAt g r c with
       | Ret x => Lookup_cell x
       | Throw _ => Lookup_undefined
       end.
Proof.
  unfold getCellState, cellAt.
  destruct ((r <? 0) || (r >=? len g) || (c <? 0) || (c >=? firstRowLength g));
    [reflexivity|].
  destruct (nth_Z g r) as [rw|]; [|reflexivity].
  destruct (nth_Z rw c); reflexivity.
Qed.

Lemma isValidPosition_getCellState (g : Grid) (r c : Z) :
  isValidPosition g r c = false -> getCellState g r c = Lookup_null.
Proof.
  unfold isValidPosition, getCellState. intros H.
  replace ((r <? 0) || (r >=? len g) || (c <? 0) || (c >=? firstRowLength g))
    with true; [reflexivity|].
  symmetry. rewrite !Z.geb_leb in *. rewrite !andb_false_iff in H.
  rewrite !orb_true_iff. rewrite !Z.ltb_lt, !Z.leb_le.
  rewrite !Z.leb_gt, !Z.ltb_ge in H. lia.
Qed.

Lemma cellAt_getCellState (g : Grid) (r c : Z) (x : CellState) :
  rectangular g -> cellAt g r c = Ret x -> getCellState g r c = Lookup_cell x.
Proof.
  intros Hrect Hx. pose proof (isValidPosition_cellAt g r c x Hrect Hx) as Hv.
  unfold isValidPosition in Hv. unfold getCellState.
  replace ((r <? 0) || (r >=? len g) || (c <? 0) || (c >=? firstRowLength g))
    with false.
  - unfold cellAt in Hx. destruct (nth_Z g r) as [rw|]; [|discriminate].
    destruct (nth_Z rw c); [|discriminate]. now inversion Hx.
  - symmetry. rewrite !Z.geb_leb in *. rewrite !andb_true_iff in Hv.
    rewrite !orb_false_iff. rewrite !Z.ltb_ge, !Z.leb_gt.
    rewrite !Z.leb_le, !Z.ltb_lt in Hv. lia.
Qed.

(** X12. Writing a value with [setCellValue] into a cell of a rectangular
    grid that is not a given: the new grid has the shape of the old one,
    [getCellValue] reads the value back at that cell, the notes of the cell
    are cleared, and [getCellState] finds every other cell as it was. *)
Theorem setCellValue_then_read (g : Grid) (r c v : Z) (x : CellState) :
  rectangular g -> cellAt g r c = Ret x -> isPuzzle x = false ->
  exists g',
    setCellValue g r c v false = Ret g' /\
    shape g' = shape g /\
    getCellValue g' r c = v /\
    (exists y, cellAt g' r c = Ret y /\ notes y = [] /\ isPuzzle y = false) /\
    (forall r' c', (r', c') <> (r, c) -> getCellState g' r' c' = getCellState g r' c').
Proof.
  intros Hrect Hx Hp. exists (updGrid g r c (fillCell v)).
  assert (Hshape : shape (updGrid g r c (fillCell v)) = shape g) by apply shape_updGrid.
  assert (Hrect' : rectangular (updGrid g r c (fillCell v))).
  { eapply rectangular_shape; [|exact Hrect]. symmetry. exact Hshape. }
  assert (Hy : cellAt (updGrid g r c (fillCell v)) r c = Ret (fillCell v x)).
  { rewrite cellAt_updGrid, Hx. now rewrite !Z.eqb_refl. }
  split; [now apply (setCellValue_fill g r c v x)|]. split; [assumption|]. split; [|split].
  - unfold getCellValue. now rewrite (cellAt_getCellState _ r c _ Hrect' Hy).
  - exists (fillCell v x). auto.
  - intros r' c' Hne. rewrite !getCellState_cellAt.
    rewrite (len_shape _ _ Hshape), (firstRowLength_shape _ _ Hshape).
    destruct ((r' <? 0) || (r' >=? len g) || (c' <? 0) || (c' >=? firstRowLength g));
      [reflexivity|].
    rewrite cellAt_updGrid.
    assert (E : (r' =? r) && (c' =? c) = false).
    { apply andb_false_iff. destruct (Z.eqb_spec r' r), (Z.eqb_spec c' c); auto.
      subst. congruence. }
    rewrite E. destruct (cellAt g r' c'); reflexivity.
Qed.

Lemma setCellValue_then_read_witness :
  exists g',
    setCellValue fourByFourPuzzle 1 2 1 false = Ret g' /\
    shape g' = shape fourByFourPuzzle /\
    getCellValue g' 1 2 = 1 /\
    (exists y, cellAt g' 1 2 = Ret y /\ notes y = [] /\ isPuzzle y = false) /\
    (forall r' c', (r', c') <> (1, 2) ->
                   getCellState g' r' c' = getCellState fourByFourPuzzle r' c').
Proof.
  apply (setCellValue_then_read fourByFourPuzzle 1 2 1
           (mkCell 0 false [] (Some false) None None)).
  - apply rectangularb_sound. vm_compute. reflexivity.
  - reflexivity.
  - reflexivity.
Defined.

Lemma Set_has_delete (s : list Z) (x v : Z) :
  Set_has (Set_delete s x) v = Set_has s v && negb (v =? x).
Proof.
  unfold Set_has, Set_delete. induction s as [|a s IH]; simpl; [reflexivity|].
  destruct (Z.eqb_spec a x) as [Hax|Hax]; simpl; rewrite IH.
  - destruct (Z.eqb_spec v x) as [Hvx|Hvx]; simpl.
    + now rewrite !andb_false_r.
    + destruct (Z.eqb_spec v a); [congruence|]. reflexivity.
  - destruct (Z.eqb_spec v a) as [Hva|Hva]; simpl; [|reflexivity].
    destruct (Z.eqb_spec v x); [congruence | reflexivity].
Qed.

Lemma Set_has_toggle (s : list Z) (d v : Z) :
  Set_has (Set_toggle s d) v = if v =? d then negb (Set_has s d) else Set_has s v.
Proof.
  unfold Set_toggle. destruct (Set_has s d) eqn:E.
  - rewrite Set_has_delete. destruct (Z.eqb_spec v d) as [->|Hne]; simpl.
    + now rewrite andb_false_r.
    + now rewrite andb_true_r.
  - rewrite Set_has_add. destruct (Z.eqb_spec v d) as [->|Hne]; simpl.
    + now rewrite orb_true_r.
    + now rewrite orb_false_r.
Qed.

Lemma Set_toggle_twice_absent (s : list Z) (d : Z) :
  Set_has s d = false -> Set_toggle (Set_toggle s d) d = s.
Proof.
  intros H. unfold Set_toggle at 1. rewrite Set_has_toggle, Z.eqb_refl, H. simpl.
  unfold Set_toggle. rewrite H. unfold Set_add.
  fold (Set_has s d). rewrite H. unfold Set_delete. rewrite filter_app. simpl.
  rewrite Z.eqb_refl. simpl. rewrite app_nil_r.
  apply forallb_filter_id. apply forallb_forall. intros y Hy.
  apply negb_true_iff. apply Z.eqb_neq. intros ->.
  unfold Set_has in H.
  assert (existsb (Z.eqb d) s = true) by (apply existsb_exists; exists d; split; [assumption | apply Z.eqb_refl]).
  congruence.
Qed.

Lemma toggleCellNote_upd (g : Grid) (r c d : Z) (x : CellState) :
  rectangular g -> cellAt g r c = Ret x -> value x = 0 -> isPuzzle x = false ->
  toggleCellNote g r c d
  = Ret (updGrid g r c (fun cell => setNotes (Set_toggle (notes cell) d) cell)).
Proof.
  intros Hrect Hx Hv Hp. unfold toggleCellNote.
  rewrite (isValidPosition_cellAt g r c x Hrect Hx), Hx, Hv, Hp. simpl.
  f_equal. unfold updGrid, mapi. apply mapi_from_ext. intros i rw.
  apply mapi_from_ext. intros j y. now rewrite cloneCell_id.
Qed.

Lemma updGrid_id (g : Grid) (r c : Z) (F : CellState -> CellState) (x : CellState) :
  cellAt g r c = Ret x -> F x = x -> updGrid g r c F = g.
Proof.
  intros Hx HF. apply grid_ext; [apply shape_updGrid|].
  intros r' c' y Hy. rewrite cellAt_updGrid in Hy.
  destruct (cellAt g r' c') as [y0|] eqn:E; [|discriminate].
  inversion Hy; subst y. clear Hy.
  destruct ((r' =? r) && (c' =? c)) eqn:Erc; [|reflexivity].
  apply andb_true_iff in Erc as [E1 E2]. apply Z.eqb_eq in E1, E2. subst.
  rewrite Hx in E. inversion E; subst. now rewrite HF.
Qed.

Lemma updGrid_twice (g : Grid) (r c : Z) (F G : CellState -> CellState) :
  updGrid (updGrid g r c F) r c G = updGrid g r c (fun x => G (F x)).
Proof.
  apply grid_ext; [now rewrite !shape_updGrid|].
  intros r' c' y Hy. rewrite !cellAt_updGrid in *.
  destruct (cellAt g r' c') as [y0|]; [|discriminate].
  destruct ((r' =? r) && (c' =? c)); assumption.
Qed.

(** X13. [toggleCellNote] leaves a filled cell or a given as it is. On an
    empty cell that is not a given, one toggle flips whether the digit is
    among the notes and touches no other note; a second toggle restores the
    set of notes, and restores the very grid when the digit was not a note
    to begin with. *)
Theorem toggleCellNote_toggles (g : Grid) (r c d : Z) (x : CellState) :
  rectangular g -> cellAt g r c = Ret x ->
  (value x <> 0 \/ isPuzzle x = true -> toggleCellNote g r c d = Ret g) /\
  (value x = 0 -> isPuzzle x = false ->
   exists g1 y1 g2 y2,
     toggleCellNote g r c d = Ret g1 /\ cellAt g1 r c = Ret y1 /\
     (forall d', Set_has (notes y1) d'
                 = if d' =? d then negb (Set_has (notes x) d) else Set_has (notes x) d') /\
     toggleCellNote g1 r c d = Ret g2 /\ cellAt g2 r c = Ret y2 /\
     (forall d', Set_has (notes y2) d' = Set_has (notes x) d') /\
     (Set_has (notes x) d = false -> g2 = g)).
Proof.
  intros Hrect Hx. split.
  - intros Hno. unfold toggleCellNote.
    rewrite (isValidPosition_cellAt g r c x Hrect Hx), Hx. simpl.
    destruct Hno as [Hv | Hp].
    + apply Z.eqb_neq in Hv. now rewrite Hv.
    + rewrite Hp. now rewrite orb_true_r.
  - intros Hv Hp.
    set (F := fun cell => setNotes (Set_toggle (notes cell) d) cell).
    assert (Hshape : shape (updGrid g r c F) = shape g) by apply shape_updGrid.
    assert (Hrect1 : rectangular (updGrid g r c F)).
    { eapply rectangular_shape; [|exact Hrect]. symmetry. exact Hshape. }
    assert (Hy1 : cellAt (updGrid g r c F) r c = Ret (F x)).
    { rewrite cellAt_updGrid, Hx. now rewrite !Z.eqb_refl. }
    assert (Hy2 : cellAt (updGrid (updGrid g r c F) r c F) r c = Ret (F (F x))).
    { rewrite cellAt_updGrid, Hy1. now rewrite !Z.eqb_refl. }
    exists (updGrid g r c F), (F x), (updGrid (updGrid g r c F) r c F), (F (F x)).
    split; [now apply (toggleCellNote_upd g r c d x)|]. split; [assumption|]. split; [|split; [|split; [|split]]].
    + intros d'. apply Set_has_toggle.
    + now apply (toggleCellNote_upd _ r c d (F x)).
    + assumption.
    + intros d'. unfold F. cbn [notes setNotes]. rewrite !Set_has_toggle.
      destruct (d' =? d) eqn:E; [|reflexivity].
      apply Z.eqb_eq in E. subst d'. now rewrite Z.eqb_refl, negb_involutive.
    + intros Habs. rewrite updGrid_twice. apply (updGrid_id g r c _ x Hx).
      unfold F. cbn [notes setNotes]. rewrite Set_toggle_twice_absent by assumption.
      destruct x; reflexivity.
Qed.

Lemma toggleCellNote_toggles_witness :
  (0 <> 0 \/ false = true -> toggleCellNote fourByFourPuzzle 1 2 3 = Ret fourByFourPuzzle) /\
  (0 = 0 -> false = false ->
   exists g1 y1 g2 y2,
     toggleCellNote fourByFourPuzzle 1 2 3 = Ret g1 /\ cellAt g1 1 2 = Ret y1 /\
     (forall d', Set_has (notes y1) d'
                 = if d' =? 3 then negb (Set_has [] 3) else Set_has [] d') /\
     toggleCellNote g1 1 2 3 = Ret g2 /\ cellAt g2 1 2 = Ret y2 /\
     (forall d', Set_has (notes y2) d' = Set_has [] d') /\
     (Set_has [] 3 = false -> g2 = fourByFourPuzzle)).
Proof.
  apply (toggleCellNote_toggles fourByFourPuzzle 1 2 3
           (mkCell 0 false [] (Some false) None None)).
  - apply rectangularb_sound. vm_compute. reflexivity.
  - reflexivity.
Defined.

(* --------------------------------------------------------------------- *)
(** ** The generator: shuffling and digging *)

Lemma swap_length {A} (l : list A) (i j : Z) : List.length (Generator.swap l i j) = List.length l.
Proof.
  unfold Generator.swap. destruct (nth_Z l i); [|reflexivity].
  destruct (nth_Z l j); [|reflexivity]. apply mapi_length.
Qed.

Lemma swap_Permutation {A} (l : list A) (i j : Z) : Permutation l (Generator.swap l i j).
Proof.
  unfold Generator.swap.
  destruct (nth_Z l i) as [x|] eqn:Ei; [|apply Permutation_refl].
  destruct (nth_Z l j) as [y|] eqn:Ej; [|apply Permutation_refl].
  pose proof (nth_Z_Some l i x Ei) as Hi. pose proof (nth_Z_Some l j y Ej) as Hj.
  unfold len in Hi, Hj.
  apply Permutation_nth_error. split; [symmetry; apply mapi_length|].
  exists (fun k => if Z.of_nat k =? i then Z.to_nat j
                   else if Z.of_nat k =? j then Z.to_nat i else k).
  split.
  - intros a b.
    destruct (Z.eqb_spec (Z.of_nat a) i), (Z.eqb_spec (Z.of_nat a) j),
             (Z.eqb_spec (Z.of_nat b) i), (Z.eqb_spec (Z.of_nat b) j); lia.
  - intros k. rewrite <- !nth_Z_of_nat, nth_Z_mapi.
    destruct (Z.eqb_spec (Z.of_nat k) i) as [Hki|Hki].
    + rewrite Z2Nat.id by lia. rewrite Hki, Ei, Ej. reflexivity.
    + destruct (Z.eqb_spec (Z.of_nat k) j) as [Hkj|Hkj].
      * rewrite Z2Nat.id by lia. rewrite Hkj, Ej, Ei. reflexivity.
      * destruct (nth_Z l (Z.of_nat k)); reflexivity.
Qed.

Lemma shuffle_loop_spec {A} (env : Generator.Env) (i : nat) :
  forall (l : list A) (w : Generator.World),
  exists l',
    Generator.shuffle_loop env i l w
    = (Ret l', Generator.mkWorld (Generator.w_stats w) (Generator.clockReads w)
                 (Generator.randomCalls w + i) (Generator.progressCalls w))
    /\ Permutation l l'.
Proof.
  induction i as [|i IH]; intros l w.
  - exists l. split; [|apply Permutation_refl]. simpl. unfold retM.
    rewrite Nat.add_0_r. destruct w; reflexivity.
  - cbn [Generator.shuffle_loop]. unfold bindM, Generator.randomBelow.
    match goal with
    | |- context [Generator.shuffle_loop env i ?l1 ?w1] =>
        destruct (IH l1 w1) as (l' & E & HP); exists l'; split;
        [rewrite E; cbn [Generator.w_stats Generator.clockReads Generator.randomCalls
                          Generator.progressCalls];
         do 2 f_equal; lia
        | eapply Permutation_trans; [apply swap_Permutation | exact HP] ]
    end.
Qed.

(** X14. [shuffleArray] returns a rearrangement of its input, whatever the
    random source yields: the same elements with the same multiplicities.
    It draws one random number for each element but the first, and reads
    no clock. *)
Theorem shuffleArray_permutes {A} (env : Generator.Env) (array : list A)
  (w : Generator.World) :
  exists shuffled,
    Generator.shuffleArray env array w
    = (Ret shuffled,
       Generator.mkWorld (Generator.w_stats w) (Generator.clockReads w)
         (Generator.randomCalls w + (List.length array - 1))
         (Generator.progressCalls w))
    /\ Permutation array shuffled.
Proof. apply shuffle_loop_spec. Qed.

(** What a cell adds to [countGivens]. *)
Definition given (c : CellState) : Z := if negb (value c =? 0) then 1 else 0.

Definition givensOfRow (row : list CellState) : Z :=
  fold_right (fun c n => given c + n) 0 row.

Lemma countRow_fold (row : list CellState) (acc : Z) :
  fold_left (fun count cell => if negb (value cell =? 0) then count + 1 else count)
            row acc
  = acc + givensOfRow row.
Proof.
  revert acc. induction row as [|c row IH]; intros acc; simpl; [lia|].
  rewrite IH. unfold given. destruct (negb (value c =? 0)); lia.
Qed.

Lemma countGivens_sum (g : Grid) :
  Generator.countGivens g = fold_right (fun row n => givensOfRow row + n) 0 g.
Proof.
  unfold Generator.countGivens.
  assert (H : forall acc,
             fold_left (fun count row =>
                          fold_left (fun count cell =>
                                       if negb (value cell =? 0) then count + 1 else count)
                                    row count) g acc
             = acc + fold_right (fun row n => givensOfRow row + n) 0 g).
  { induction g as [|row g IH]; intros acc; simpl; [lia|].
    rewrite IH, countRow_fold. lia. }
  rewrite H. lia.
Qed.

Lemma mapi_from_id {A} (f : Z -> A -> A) (l : list A) :
  forall k, (forall i x, k <= i -> f i x = x) -> mapi_from k f l = l.
Proof.
  induction l as [|a l IH]; intros k H; simpl; [reflexivity|].
  rewrite H by lia. f_equal. apply IH. intros i x Hi. apply H. lia.
Qed.

Lemma givensOfRow_upd (F : CellState -> CellState) (col : Z) (x : CellState)
  (rw : list CellState) :
  forall k, k <= col -> nth_error rw (Z.to_nat (col - k)) = Some x ->
    givensOfRow (mapi_from k (fun cIndex c => if cIndex =? col then F c else c) rw)
    = givensOfRow rw - given x + given (F x).
Proof.
  induction rw as [|a rw IH]; intros k Hk Hx.
  - destruct (Z.to_nat (col - k)); discriminate.
  - simpl. destruct (Z.eqb_spec k col) as [->|Hne].
    + rewrite Z.sub_diag in Hx. simpl in Hx. inversion Hx; subst a.
      rewrite mapi_from_id.
      * lia.
      * intros i y Hi. destruct (Z.eqb_spec i col); [lia | reflexivity].
    + rewrite (IH (k + 1)); [lia | lia |].
      replace (Z.to_nat (col - k)) with (S (Z.to_nat (col - (k + 1)))) in Hx by lia.
      exact Hx.
Qed.

Lemma givensOfRows_upd (F : CellState -> CellState) (row col : Z) (x : CellState)
  (rw : list CellState) (g : Grid) :
  0 <= col -> nth_error rw (Z.to_nat col) = Some x ->
  forall k, k <= row -> nth_error g (Z.to_nat (row - k)) = Some rw ->
    fold_right (fun row n => givensOfRow row + n) 0
      (mapi_from k (fun rIndex r =>
                      mapi (fun cIndex c =>
                              if (rIndex =? row) && (cIndex =? col) then F c else c) r) g)
    = fold_right (fun row n => givensOfRow row + n) 0 g - given x + given (F x).
Proof.
  intros Hcol Hx. induction g as [|a g IH]; intros k Hk Hrw.
  - destruct (Z.to_nat (row - k)); discriminate.
  - cbn [mapi_from fold_right]. destruct (Z.eqb_spec k row) as [Heq|Hne].
    + subst k. rewrite Z.sub_diag in Hrw. simpl in Hrw. inversion Hrw; subst a.
      rewrite (mapi_from_id _ g).
      * unfold mapi.
        rewrite (mapi_from_ext _ (fun cIndex c => if cIndex =? col then F c else c))
          by (intros i y; reflexivity).
        rewrite (givensOfRow_upd F col x rw 0); [lia | lia |].
        now rewrite Z.sub_0_r.
      * intros i r Hi. apply mapi_from_id. intros j y _.
        destruct (Z.eqb_spec i row); [lia | reflexivity].
    + unfold mapi at 1. rewrite (mapi_from_id _ a).
      * rewrite (IH (k + 1)); [lia | lia |].
        replace (Z.to_nat (row - k)) with (S (Z.to_nat (row - (k + 1)))) in Hrw by lia.
        exact Hrw.
      * intros j y _. reflexivity.
Qed.

Lemma countGivens_updGrid (g : Grid) (row col : Z) (F : CellState -> CellState)
  (x : CellState) :
  cellAt g row col = Ret x ->
  Generator.countGivens (updGrid g row col F)
  = Generator.countGivens g - given x + given (F x).
Proof.
  intros Hx. rewrite !countGivens_sum. unfold updGrid, mapi at 1.
  unfold cellAt, nth_Z in Hx.
  destruct (row <? 0) eqn:Er; [discriminate|]. apply Z.ltb_ge in Er.
  destruct (nth_error g (Z.to_nat row)) as [rw|] eqn:Erw; [|discriminate].
  destruct (col <? 0) eqn:Ec; [discriminate|]. apply Z.ltb_ge in Ec.
  destruct (nth_error rw (Z.to_nat col)) as [y|] eqn:Ey; [|discriminate].
  inversion Hx; subst y. clear Hx.
  apply (givensOfRows_upd F row col x rw g Ec Ey 0 Er).
  now rewrite Z.sub_0_r.
Qed.

(** A property of the working grid that every removal keeps is kept by the
    digging loop. A removal happens at a filled cell of the list of
    positions, with more givens than the target, and clears the cell and,
    in symmetric mode, its counterpart. *)
Lemma digLoop_keeps (env : Generator.Env) (solution : Grid) (config : SudokuConfig)
  (options : Generator.DigOptions) (size target : Z) (P : Grid -> Prop)
  (Q : Coord -> Prop) :
  (forall wg row col cell t1 t2,
      P wg -> Q (row, col) -> cellAt wg row col = Ret cell -> value cell <> 0 ->
      target < Generator.countGivens wg ->
      t1 = updGrid wg row col Generator.clearCell ->
      Generator.clearSymmetric t1 row col size options = Ret t2 ->
      P t2) ->
  forall positions workingGrid cannotRemove,
    Forall Q positions -> P workingGrid ->
    returns (Generator.digLoop env solution config options size target positions
               workingGrid cannotRemove) P.
Proof.
  intros Hstep.
  induction positions as [|[row col] rest IH]; intros wg cannot HQ Hwg; simpl.
  - apply returns_ret; assumption.
  - inversion HQ as [|? ? Hq Hrest]; subst.
    eapply returns_bind; [apply returns_true|]. intros t _.
    destruct (t >? Generator.d_timeoutTimestamp options);
      [apply returns_ret; assumption|].
    eapply returns_bind with (R := fun cell => cellAt wg row col = Ret cell).
    { apply returns_lift. auto. }
    intros cell Hcell.
    destruct (Z.eqb_spec (value cell) 0) as [|Hv]; [apply IH; assumption|].
    destruct (existsb (coord_eqb (row, col)) cannot); [apply IH; assumption|].
    eapply returns_bind; [apply returns_true|]. intros [] _.
    destruct (Z.leb_spec (Generator.countGivens wg) target) as [|Hmore];
      [apply returns_ret; assumption|].
    eapply returns_bind with (R := fun t1 => t1 = updGrid wg row col Generator.clearCell).
    { apply returns_lift. intros t1 H1. apply assignCell_upd in H1.
      now rewrite cloneGrid_id in H1. }
    intros t1 H1.
    eapply returns_bind with (R := P).
    { apply returns_lift. intros t2 H2. eapply Hstep; eauto. }
    intros t2 H2.
    eapply returns_bind; [apply returns_true|]. intros canRemove _.
    destruct canRemove.
    + destruct (Generator.d_onProgress options).
      * eapply returns_bind; [apply returns_true|]. intros shouldContinue _.
        destruct (Generator.is_false shouldContinue);
          [apply returns_ret; assumption | apply IH; assumption].
      * apply IH; assumption.
    + apply IH; assumption.
Qed.

Lemma given_clearCell (c : CellState) : given (Generator.clearCell c) = 0.
Proof. reflexivity. Qed.

Lemma clearSymmetric_cases (t : Grid) (row col size : Z)
  (options : Generator.DigOptions) (t' : Grid) :
  Generator.clearSymmetric t row col size options = Ret t' ->
  t' = t \/
  (Generator.d_symmetrical options = true /\
   exists y,
     let p := Generator.getSymmetricPosition row col size
                (Generator.d_symmetryType options) in
     p <> (row, col) /\ cellAt t (fst p) (snd p) = Ret y /\ value y <> 0 /\
     t' = updGrid t (fst p) (snd p) Generator.clearCell).
Proof.
  unfold Generator.clearSymmetric.
  destruct (Generator.d_symmetrical options); [|intros H; inversion H; auto].
  destruct (Generator.getSymmetricPosition row col size
              (Generator.d_symmetryType options)) as [symRow symCol].
  match goal with |- (if ?b then _ else _) = _ -> _ => destruct b eqn:Eb end;
    [|intros H; inversion H; auto].
  destruct (cellAt t symRow symCol) as [y|] eqn:Ey; [|discriminate].
  destruct (Z.eqb_spec (value y) 0) as [|Hy]; simpl; [intros H; inversion H; auto|].
  intros H. apply assignCell_upd in H. right. split; [reflexivity|].
  exists y. simpl. split; [|auto].
  apply andb_true_iff in Eb as [_ Eb]. apply negb_true_iff in Eb.
  intros E. inversion E; subst. now rewrite !Z.eqb_refl in Eb.
Qed.

(** X15. Digging never adds a clue, and never goes below the target by
    more than the symmetric counterpart: the puzzle that [digHoles] returns
    holds at most as many givens as the grid it was given, and at least the
    smaller of that number and the target, less one in symmetric mode
    (where the last removal can take two clues when one was left to take). *)
Theorem digHoles_givens_bounds (env : Generator.Env) (grid solution : Grid)
  (config : SudokuConfig) (options : Generator.DigOptions) (w : Generator.World)
  (p : Grid) :
  fst (Generator.digHoles env grid solution config options w) = Ret (Some p) ->
  let target := Generator.targetGivens options (len grid * len grid) in
  let slack := if Generator.d_symmetrical options then 1 else 0 in
  Z.min (Generator.countGivens grid) (target - slack) <= Generator.countGivens p
  /\ Generator.countGivens p <= Generator.countGivens grid.
Proof.
  intros Hrun target slack.
  set (P := fun g => Z.min (Generator.countGivens grid) (target - slack)
                     <= Generator.countGivens g
                     /\ Generator.countGivens g <= Generator.countGivens grid).
  assert (H : returns (Generator.digHoles env grid solution config options)
                      (fun modified => forall q, modified = Some q -> P q)).
  { unfold Generator.digHoles.
    eapply returns_bind; [apply returns_true|]. intros shuffledPositions _.
    eapply returns_bind with (R := P).
    - apply digLoop_keeps with (Q := fun _ => True).
      + intros wg row col cell t1 t2 [Hlo Hhi] _ Hcell Hv Hmore Ht1 Ht2.
        assert (E1 : Generator.countGivens t1 = Generator.countGivens wg - 1).
        { subst t1. rewrite (countGivens_updGrid wg row col _ cell Hcell).
          rewrite given_clearCell. unfold given.
          destruct (Z.eqb_spec (value cell) 0); [contradiction | simpl; lia]. }
        fold target in Hmore.
        destruct (clearSymmetric_cases _ _ _ _ _ _ Ht2) as [-> | (Hsym & y & Hne & Hy & Hvy & ->)].
        * unfold P. rewrite E1. unfold slack. destruct (Generator.d_symmetrical options); lia.
        * unfold P.
          rewrite (countGivens_updGrid t1 _ _ _ y Hy), given_clearCell, E1.
          unfold given. destruct (Z.eqb_spec (value y) 0); [contradiction|]. simpl.
          unfold slack. rewrite Hsym. lia.
      + apply Forall_forall. auto.
      + rewrite cloneGrid_id. unfold P. lia.
    - intros final Hf. apply returns_ret. intros q Hq. inversion Hq; subst. exact Hf. }
  exact (H w (Some p) Hrun p eq_refl).
Qed.

(** A full 4x4 grid with every cell a given, and digging options that ask
    for symmetric removal with seven givens as the least. *)
Definition fullFour : Grid :=
  createGridFromValues [[2; 3; 1; 4]; [4; 1; 2; 3]; [3; 2; 4; 1]; [1; 4; 3; 2]].

Definition symmetricDigOptions : Generator.DigOptions :=
  Generator.mkDigOptions EASY false 7 8 true Generator.Rotational 30000 None.

Definition symmetricPuzzle : Grid :=
  match fst (Generator.digHoles steadyEnv fullFour fullFour fourByFourConfig
               symmetricDigOptions Generator.initialWorld) with
  | Ret (Some p) => p
  | _ => []
  end.

(** The bound is attained: with seven givens as target and as [minGivens],
    symmetric digging leaves six. *)
Lemma digHoles_givens_bounds_witness :
  fst (Generator.digHoles steadyEnv fullFour fullFour fourByFourConfig
         symmetricDigOptions Generator.initialWorld) = Ret (Some symmetricPuzzle)
  /\ (Z.min (Generator.countGivens fullFour)
            (Generator.targetGivens symmetricDigOptions (len fullFour * len fullFour) - 1)
      <= Generator.countGivens symmetricPuzzle
      /\ Generator.countGivens symmetricPuzzle <= Generator.countGivens fullFour)
  /\ Generator.targetGivens symmetricDigOptions (len fullFour * len fullFour) = 7
  /\ Generator.countGivens symmetricPuzzle = 6.
Proof.
  assert (E : fst (Generator.digHoles steadyEnv fullFour fullFour fourByFourConfig
                     symmetricDigOptions Generator.initialWorld)
              = Ret (Some symmetricPuzzle)) by (vm_compute; reflexivity).
  split; [exact E|]. split.
  - exact (digHoles_givens_bounds _ _ _ _ _ _ _ E).
  - split; vm_compute; reflexivity.
Defined.

(** Whether the cell at a position is empty; a position outside the grid
    holds no cell. *)
Definition isHole (g : Grid) (rc : Coord) : bool :=
  match cellAt g (fst rc) (snd rc) with
  | Ret x => value x =? 0
  | Throw _ => false
  end.

Definition symmetricOf (size : Z) (type : Generator.SymmetryType) (rc : Coord) : Coord :=
  Generator.getSymmetricPosition (fst rc) (snd rc) size type.

(** Within the [size] by [size] square, a cell is empty exactly when its
    counterpart under the symmetry is. *)
Definition holesSymmetric (size : Z) (type : Generator.SymmetryType) (g : Grid) : Prop :=
  forall r c, 0 <= r < size -> 0 <= c < size ->
    isHole g (r, c) = isHole g (symmetricOf size type (r, c)).

Lemma symmetricOf_involutive (size : Z) (type : Generator.SymmetryType) (rc : Coord) :
  symmetricOf size type (symmetricOf size type rc) = rc.
Proof.
  destruct rc as [r c]. unfold symmetricOf.
  destruct type; simpl; f_equal; lia.
Qed.

Lemma symmetricOf_in_range (size : Z) (type : Generator.SymmetryType) (r c : Z) :
  0 <= r < size -> 0 <= c < size ->
  0 <= fst (symmetricOf size type (r, c)) < size /\
  0 <= snd (symmetricOf size type (r, c)) < size.
Proof. intros Hr Hc. unfold symmetricOf. destruct type; simpl; lia. Qed.

Lemma coord_eqb_symmetricOf (size : Z) (type : Generator.SymmetryType) (a b : Coord) :
  coord_eqb (symmetricOf size type a) b = coord_eqb a (symmetricOf size type b).
Proof.
  destruct (coord_eqb a (symmetricOf size type b)) eqn:E.
  - apply coord_eqb_eq in E. subst a. rewrite symmetricOf_involutive.
    apply coord_eqb_refl.
  - apply coord_eqb_neq. apply coord_eqb_neq in E. intros H. apply E.
    rewrite <- H. now rewrite symmetricOf_involutive.
Qed.

Lemma isHole_clear (g : Grid) (row col : Z) (x : CellState) (rc : Coord) :
  cellAt g row col = Ret x ->
  isHole (updGrid g row col Generator.clearCell) rc
  = isHole g rc || coord_eqb rc (row, col).
Proof.
  intros Hx. unfold isHole. rewrite cellAt_updGrid.
  destruct (coord_eqb rc (row, col)) eqn:E.
  - apply coord_eqb_eq in E. subst rc. simpl. rewrite Hx, !Z.eqb_refl. simpl.
    now rewrite orb_true_r.
  - rewrite orb_false_r. unfold coord_eqb in E. simpl in E.
    destruct (cellAt g (fst rc) (snd rc)); [|reflexivity]. now rewrite E.
Qed.

Lemma clearing_keeps_holes_symmetric (size : Z) (options : Generator.DigOptions)
  (wg : Grid) (row col : Z) (cell : CellState) (t2 : Grid) :
  Generator.d_symmetrical options = true ->
  holesSymmetric size (Generator.d_symmetryType options) wg ->
  0 <= row < size -> 0 <= col < size ->
  cellAt wg row col = Ret cell -> value cell <> 0 ->
  Generator.clearSymmetric (updGrid wg row col Generator.clearCell) row col size options
  = Ret t2 ->
  holesSymmetric size (Generator.d_symmetryType options) t2.
Proof.
  intros Hsym Hinv Hrow Hcol Hcell Hv Ht2.
  set (type := Generator.d_symmetryType options) in *.
  set (p := (row, col)).
  assert (Hp : isHole wg p = false).
  { unfold isHole, p. simpl. rewrite Hcell. now apply Z.eqb_neq. }
  assert (Hform : forall rc,
             isHole t2 rc
             = isHole wg rc || coord_eqb rc p || coord_eqb rc (symmetricOf size type p)).
  { unfold Generator.clearSymmetric in Ht2. rewrite Hsym in Ht2.
    fold type in Ht2.
    change (Generator.getSymmetricPosition row col size type)
      with (symmetricOf size type p) in Ht2.
    destruct (symmetricOf_in_range size type row col Hrow Hcol) as [Hr' Hc'].
    fold p in Hr', Hc'.
    destruct (symmetricOf size type p) as [symRow symCol] eqn:Esym.
    simpl in Hr', Hc'.
    replace (symRow >=? 0) with true in Ht2 by (symmetry; apply Z.geb_le; lia).
    replace (symRow <? size) with true in Ht2 by (symmetry; apply Z.ltb_lt; lia).
    replace (symCol >=? 0) with true in Ht2 by (symmetry; apply Z.geb_le; lia).
    replace (symCol <? size) with true in Ht2 by (symmetry; apply Z.ltb_lt; lia).
    cbn [andb] in Ht2.
    change ((symRow =? row) && (symCol =? col))
      with (coord_eqb (symRow, symCol) p) in Ht2.
    destruct (coord_eqb (symRow, symCol) p) eqn:Eself; cbn [negb] in Ht2.
    - inversion Ht2; subst t2. apply coord_eqb_eq in Eself. rewrite Eself.
      intros rc. rewrite (isHole_clear wg row col cell rc Hcell). fold p.
      now rewrite <- orb_assoc, orb_diag.
    - destruct (cellAt (updGrid wg row col Generator.clearCell) symRow symCol)
        as [y|] eqn:Ey; [|discriminate].
      assert (Hy : isHole (updGrid wg row col Generator.clearCell) (symRow, symCol)
                   = (value y =? 0)).
      { unfold isHole. simpl. now rewrite Ey. }
      rewrite (isHole_clear wg row col cell _ Hcell) in Hy. fold p in Hy.
      rewrite Eself, orb_false_r in Hy.
      pose proof (Hinv row col Hrow Hcol) as Hi. fold p in Hi.
      rewrite Hp, Esym in Hi. rewrite <- Hi in Hy. rewrite <- Hy in Ht2. cbn [negb] in Ht2.
      apply assignCell_upd in Ht2. subst t2. intros rc.
      rewrite (isHole_clear _ symRow symCol y rc Ey).
      now rewrite (isHole_clear wg row col cell rc Hcell). }
  intros r c Hr Hc. rewrite !Hform.
  rewrite (Hinv r c Hr Hc).
  rewrite !coord_eqb_symmetricOf, symmetricOf_involutive.
  rewrite <- !orb_assoc. f_equal. apply orb_comm.
Qed.

Lemma shuffleArray_Forall {A} (env : Generator.Env) (Q : A -> Prop) (l : list A) :
  Forall Q l -> returns (Generator.shuffleArray env l) (Forall Q).
Proof.
  intros HQ w l' Hl'. unfold Generator.shuffleArray in Hl'.
  destruct (shuffle_loop_spec env (List.length l - 1) l w) as (l1 & E & HP).
  rewrite E in Hl'. simpl in Hl'. inversion Hl'; subst l1.
  eapply Permutation_Forall; eassumption.
Qed.

Lemma digHoles_positions_in_range (size : Z) :
  Forall (fun rc : Coord => 0 <= fst rc < size /\ 0 <= snd rc < size)
         (flat_map (fun row => map (fun col => (row, col)) (range0 size)) (range0 size)).
Proof.
  apply Forall_forall. intros [r c] Hin. apply in_flat_map in Hin as (r' & Hr' & Hin).
  apply in_map_iff in Hin as (c' & E & Hc'). inversion E; subst. simpl.
  split; apply range0_bounds; assumption.
Qed.

(** X16. In symmetric mode the holes that [digHoles] makes come in
    symmetric pairs: when the grid it is given has its empty cells placed
    symmetrically (a full grid has none), so has the puzzle it returns,
    for each of the three symmetry types. *)
Theorem digHoles_keeps_holes_symmetric (env : Generator.Env) (grid solution : Grid)
  (config : SudokuConfig) (options : Generator.DigOptions) (w : Generator.World)
  (p : Grid) :
  Generator.d_symmetrical options = true ->
  holesSymmetric (len grid) (Generator.d_symmetryType options) grid ->
  fst (Generator.digHoles env grid solution config options w) = Ret (Some p) ->
  holesSymmetric (len grid) (Generator.d_symmetryType options) p.
Proof.
  intros Hsym Hgrid Hrun.
  set (P := holesSymmetric (len grid) (Generator.d_symmetryType options)).
  assert (H : returns (Generator.digHoles env grid solution config options)
                      (fun modified => forall q, modified = Some q -> P q)).
  { unfold Generator.digHoles.
    eapply returns_bind;
      [apply shuffleArray_Forall; apply (digHoles_positions_in_range (len grid))|].
    intros shuffledPositions Hpos.
    eapply returns_bind with (R := P).
    - eapply digLoop_keeps; [| exact Hpos | rewrite cloneGrid_id; exact Hgrid].
      intros wg row col cell t1 t2 Hwg [Hrow Hcol] Hcell Hv _ Ht1 Ht2. subst t1.
      simpl in Hrow, Hcol.
      exact (clearing_keeps_holes_symmetric _ _ wg row col cell t2 Hsym Hwg Hrow Hcol
               Hcell Hv Ht2).
    - intros final Hf. apply returns_ret. intros q Hq. inversion Hq; subst. exact Hf. }
  exact (H w (Some p) Hrun p eq_refl).
Qed.

Lemma digHoles_keeps_holes_symmetric_witness :
  holesSymmetric (len fullFour) (Generator.d_symmetryType symmetricDigOptions)
                 symmetricPuzzle.
Proof.
  apply (digHoles_keeps_holes_symmetric steadyEnv fullFour fullFour fourByFourConfig
           symmetricDigOptions Generator.initialWorld symmetricPuzzle).
  - reflexivity.
  - intros r c Hr Hc.
    assert (Hr' : r = 0 \/ r = 1 \/ r = 2 \/ r = 3) by (change (len fullFour) with 4 in Hr; lia).
    assert (Hc' : c = 0 \/ c = 1 \/ c = 2 \/ c = 3) by (change (len fullFour) with 4 in Hc; lia).
    destruct Hr' as [-> | [-> | [-> | ->]]], Hc' as [-> | [-> | [-> | ->]]];
      vm_compute; reflexivity.
  - vm_compute. reflexivity.
Defined.

(* --------------------------------------------------------------------- *)
(** ** The generator: digging down to the target *)

Lemma givensOfRow_nonneg (rw : list CellState) : 0 <= givensOfRow rw.
Proof.
  induction rw as [|c rw IH]; simpl; [lia|]. unfold given.
  destruct (negb (value c =? 0)); lia.
Qed.

Lemma countGivens_nonneg (g : Grid) : 0 <= Generator.countGivens g.
Proof.
  rewrite countGivens_sum. induction g as [|rw g IH]; simpl; [lia|].
  pose proof (givensOfRow_nonneg rw). lia.
Qed.

Lemma countGivens_positive (g : Grid) (r c : Z) (x : CellState) :
  cellAt g r c = Ret x -> value x <> 0 -> 1 <= Generator.countGivens g.
Proof.
  intros Hx Hv.
  pose proof (countGivens_updGrid g r c Generator.clearCell x Hx) as E.
  pose proof (countGivens_nonneg (updGrid g r c Generator.clearCell)) as Hn.
  rewrite given_clearCell in E. unfold given in E.
  destruct (Z.eqb_spec (value x) 0); [contradiction|]. simpl in E. lia.
Qed.

Lemma givensOfRow_all_empty (rw : list CellState) :
  (forall x, In x rw -> value x = 0) -> givensOfRow rw = 0.
Proof.
  induction rw as [|c rw IH]; intros H; simpl; [reflexivity|].
  rewrite IH by (intros x Hx; apply H; now right).
  unfold given. rewrite (H c) by now left. reflexivity.
Qed.

Lemma countGivens_all_empty (g : Grid) :
  (forall r c x, cellAt g r c = Ret x -> value x = 0) -> Generator.countGivens g = 0.
Proof.
  intros H. rewrite countGivens_sum.
  assert (Hall : forall rw x, In rw g -> In x rw -> value x = 0).
  { intros rw x Hrw Hx. destruct (In_cellAt g rw x Hrw Hx) as (r & c & Hc).
    exact (H r c x Hc). }
  clear H. induction g as [|rw g IH]; simpl; [reflexivity|].
  rewrite (givensOfRow_all_empty rw) by (intros x Hx; apply (Hall rw x); [now left | exact Hx]).
  rewrite IH; [reflexivity|]. intros rw' x Hrw Hx. apply (Hall rw' x); [now right | exact Hx].
Qed.

(** The digging loop when nothing holds it back: no uniqueness check, no
    symmetry, no callback, and a clock that never passes the deadline. *)
Lemma digLoop_plain (env : Generator.Env) (solution : Grid) (config : SudokuConfig)
  (options : Generator.DigOptions) (size target : Z) :
  Generator.d_uniqueSolution options = false ->
  Generator.d_symmetrical options = false ->
  Generator.d_onProgress options = None ->
  (forall n, Generator.clock env n <= Generator.d_timeoutTimestamp options) ->
  forall positions wg w,
    NoDup positions -> Forall (inGrid wg) positions ->
    (forall r c x, cellAt wg r c = Ret x -> value x <> 0 -> In (r, c) positions) ->
    exists p w',
      Generator.digLoop env solution config options size target positions wg [] w
      = (Ret p, w') /\
      Generator.countGivens p = Z.min (Generator.countGivens wg) (Z.max 0 target).
Proof.
  intros Huniq Hsym Hcb Hclock.
  induction positions as [|[row col] rest IH]; intros wg w Hnd Hin Hcover.
  - exists wg, w. split; [reflexivity|].
    rewrite (countGivens_all_empty wg); [lia|].
    intros r c x Hx. destruct (Z.eq_dec (value x) 0) as [|Hv]; [assumption|].
    destruct (Hcover r c x Hx Hv).
  - inversion Hnd as [|? ? Hnotin Hnd']; subst.
    inversion Hin as [|? ? [cell Hcell] Hin']; subst. simpl in Hcell.
    cbn [Generator.digLoop]. unfold bindM at 1. unfold Generator.dateNow at 1.
    assert (Et : (Generator.clock env (Generator.clockReads w)
                  >? Generator.d_timeoutTimestamp options) = false).
    { rewrite Z.gtb_ltb. apply Z.ltb_ge. apply Hclock. }
    rewrite Et. unfold bindM at 1. unfold liftM at 1. rewrite Hcell.
    destruct (Z.eqb_spec (value cell) 0) as [Hv|Hv].
    + apply IH; [assumption | assumption |].
      intros r c x Hx Hvx. destruct (Hcover r c x Hx Hvx) as [E | Hr]; [|assumption].
      inversion E; subst. rewrite Hcell in Hx. inversion Hx; subst. contradiction.
    + cbn [existsb]. unfold bindM at 1. unfold modifyM at 1.
      pose proof (countGivens_positive wg row col cell Hcell Hv) as Hpos.
      destruct (Z.leb_spec (Generator.countGivens wg) target) as [Hle|Hgt].
      * eexists. eexists. split; [reflexivity|]. lia.
      * unfold bindM at 1. unfold liftM at 1. rewrite cloneGrid_id.
        unfold assignCell. rewrite Hcell. fold (updGrid wg row col Generator.clearCell).
        unfold bindM at 1. unfold liftM at 1. unfold Generator.clearSymmetric.
        rewrite Hsym, Huniq. unfold bindM at 1. unfold retM at 1. rewrite Hcb.
        destruct (IH (updGrid wg row col Generator.clearCell)
                     (Generator.incr_digAttempts
                        (Generator.mkWorld (Generator.w_stats w)
                           (S (Generator.clockReads w)) (Generator.randomCalls w)
                           (Generator.progressCalls w))))
          as (p & w' & Hrun & Hcount).
        -- assumption.
        -- rewrite Forall_forall in *. intros rc Hrc.
           apply (inGrid_same_shape wg); [symmetry; apply shape_updGrid | now apply Hin'].
        -- intros r c x Hx Hvx. rewrite cellAt_updGrid in Hx.
           destruct (cellAt wg r c) as [y|] eqn:Ey; [|discriminate].
           destruct ((r =? row) && (c =? col)) eqn:Erc.
           ++ inversion Hx; subst x. simpl in Hvx. contradiction.
           ++ inversion Hx; subst y.
              destruct (Hcover r c x Ey Hvx) as [E | Hr]; [|assumption].
              inversion E; subst. now rewrite !Z.eqb_refl in Erc.
        -- exists p, w'. split; [exact Hrun|]. rewrite Hcount.
           rewrite (countGivens_updGrid wg row col _ cell Hcell), given_clearCell.
           unfold given. destruct (Z.eqb_spec (value cell) 0); [contradiction|].
           simpl. lia.
Qed.

Lemma map_NoDup_injective {A B} (f : A -> B) (l : list A) :
  (forall a b, f a = f b -> a = b) -> NoDup l -> NoDup (map f l).
Proof.
  intros Hf Hl. induction Hl as [|a l Hnotin Hl IH]; simpl; constructor; [|assumption].
  intros Hin. apply in_map_iff in Hin as (b & E & Hb). apply Hf in E. now subst.
Qed.

Lemma range0_NoDup (n : Z) : NoDup (range0 n).
Proof.
  unfold range0. apply map_NoDup_injective; [|apply seq_NoDup].
  intros a b H. lia.
Qed.

Lemma product_NoDup (rows cols : list Z) :
  NoDup rows -> NoDup cols ->
  NoDup (flat_map (fun row => map (fun col => (row, col)) cols) rows).
Proof.
  intros Hr Hc. induction rows as [|r rows IH]; simpl; [constructor|].
  inversion Hr as [|? ? Hnotin Hr']; subst.
  apply NoDup_app.
  - apply map_NoDup_injective; [|assumption]. intros a b H. now inversion H.
  - now apply IH.
  - intros [a b] H1 H2. apply in_map_iff in H1 as (c & E & _). inversion E; subst.
    apply in_flat_map in H2 as (r' & Hr'' & H2).
    apply in_map_iff in H2 as (c' & E' & _). inversion E'; subst. contradiction.
Qed.

(** X27. When nothing holds the digging back (no uniqueness check, no
    symmetry, no progress callback, a clock that never passes the deadline),
    [digHoles] on a square grid returns a puzzle with exactly the target
    number of givens, or with the givens of the grid it was given when these
    are fewer, or with none when the target is negative. *)
Theorem digHoles_reaches_target (env : Generator.Env) (grid solution : Grid)
  (config : SudokuConfig) (options : Generator.DigOptions) (w : Generator.World) :
  Generator.d_uniqueSolution options = false ->
  Generator.d_symmetrical options = false ->
  Generator.d_onProgress options = None ->
  (forall n, Generator.clock env n <= Generator.d_timeoutTimestamp options) ->
  (forall rw, In rw grid -> len rw = len grid) ->
  exists p w',
    Generator.digHoles env grid solution config options w = (Ret (Some p), w') /\
    Generator.countGivens p
    = Z.min (Generator.countGivens grid)
            (Z.max 0 (Generator.targetGivens options (len grid * len grid))).
Proof.
  intros Huniq Hsym Hcb Hclock Hsquare. unfold Generator.digHoles.
  set (positions := flat_map (fun row => map (fun col => (row, col)) (range0 (len grid)))
                             (range0 (len grid))).
  unfold bindM at 1. unfold Generator.shuffleArray.
  destruct (shuffle_loop_spec env (List.length positions - 1) positions w)
    as (shuffled & Eshuffle & Hperm).
  rewrite Eshuffle. rewrite cloneGrid_id.
  assert (Hcell : forall r c, 0 <= r < len grid -> 0 <= c < len grid ->
                              inGrid grid (r, c)).
  { intros r c Hr Hc. unfold inGrid. simpl.
    rewrite <- (Z2Nat.id r), <- (Z2Nat.id c) by lia. rewrite cellAt_of_nat.
    destruct (nth_error grid (Z.to_nat r)) as [rw|] eqn:Erw.
    - pose proof (Hsquare rw (nth_error_In _ _ Erw)) as Hlen.
      destruct (nth_error rw (Z.to_nat c)) as [x|] eqn:Ex; [eauto|].
      apply nth_error_None in Ex. unfold len in *. lia.
    - apply nth_error_None in Erw. unfold len in *. lia. }
  assert (Hbounds : forall r c x, cellAt grid r c = Ret x ->
                                  0 <= r < len grid /\ 0 <= c < len grid).
  { intros r c x Hx. apply cellAt_Ret in Hx as (rw & Hr & Hc & Hr0 & Hc0).
    pose proof (Hsquare rw (nth_error_In _ _ Hr)) as Hlen.
    assert ((Z.to_nat r < List.length grid)%nat) by (apply nth_error_Some; congruence).
    assert ((Z.to_nat c < List.length rw)%nat) by (apply nth_error_Some; congruence).
    unfold len in *. lia. }
  destruct (digLoop_plain env solution config options (len grid)
              (Generator.targetGivens options (len grid * len grid))
              Huniq Hsym Hcb Hclock shuffled grid
              (Generator.mkWorld (Generator.w_stats w) (Generator.clockReads w)
                 (Generator.randomCalls w + (List.length positions - 1))
                 (Generator.progressCalls w)))
    as (p & w' & Hrun & Hcount).
  - apply (Permutation_NoDup Hperm). unfold positions.
    apply product_NoDup; apply range0_NoDup.
  - apply (Permutation_Forall Hperm). apply Forall_forall. intros [r c] Hrc.
    unfold positions in Hrc. apply in_flat_map in Hrc as (r' & Hr' & Hrc).
    apply in_map_iff in Hrc as (c' & E & Hc'). inversion E; subst.
    apply range0_bounds in Hr'. apply range0_bounds in Hc'. now apply Hcell.
  - intros r c x Hx _. apply (Permutation_in _ Hperm). unfold positions.
    destruct (Hbounds r c x Hx) as [Hr Hc].
    apply in_flat_map. exists r. split; [now apply range0_In|].
    apply in_map_iff. exists c. split; [reflexivity | now apply range0_In].
  - exists p, w'. unfold bindM. rewrite Hrun. split; [reflexivity | exact Hcount].
Qed.

(** A clock that stands still, and the options of a plain dig of a 4x4
    grid down to the easy target. *)
Definition frozenEnv : Generator.Env := Generator.mkEnv (fun _ => 0) (fun _ => 0).

Definition plainDigOptions : Generator.DigOptions :=
  Generator.mkDigOptions EASY false 4 8 false Generator.Rotational 30000 None.

Lemma digHoles_reaches_target_witness :
  exists p w',
    Generator.digHoles frozenEnv fullFour fullFour fourByFourConfig plainDigOptions
      Generator.initialWorld = (Ret (Some p), w') /\
    Generator.countGivens p
    = Z.min (Generator.countGivens fullFour)
            (Z.max 0 (Generator.targetGivens plainDigOptions
                        (len fullFour * len fullFour))).
Proof.
  apply (digHoles_reaches_target frozenEnv fullFour fullFour fourByFourConfig
           plainDigOptions Generator.initialWorld).
  - reflexivity.
  - reflexivity.
  - reflexivity.
  - intros n. simpl. lia.
  - intros rw Hrw. simpl in Hrw.
    destruct Hrw as [<- | [<- | [<- | [<- | []]]]]; reflexivity.
Defined.

(* --------------------------------------------------------------------- *)
(** ** The generator: the synthesised grid *)

(** Every cell of the [size] by [size] square that comes before
    [(row, col)] in row-major order is filled. *)
Definition filledBefore (g : Grid) (size row col : Z) : Prop :=
  forall r c, 0 <= r < size -> 0 <= c < size -> r < row \/ (r = row /\ c < col) ->
    exists x, cellAt g r c = Ret x /\ value x <> 0.

(** Every cell of the square holds a digit between 1 and [size]. *)
Definition complete (size : Z) (g : Grid) : Prop :=
  forall r c, 0 <= r < size -> 0 <= c < size ->
    exists x, cellAt g r c = Ret x /\ 1 <= value x <= size.

Definition valuesWithin (size : Z) (g : Grid) : Prop :=
  forall r c x, cellAt g r c = Ret x -> 0 <= value x <= size.

(** [validateAllRegions] returns a result that is valid. *)
Definition passes (g : Grid) (rs : list Region) : Prop :=
  exists v, validateAllRegions g rs = Ret v /\ isValid v = true.

Lemma findNextCell_spec (g : Grid) (size : Z) (turns : nat) :
  forall row col next,
    Generator.findNextCell turns g size row col = Ret next ->
    0 <= row -> 0 <= col < size -> filledBefore g size row col ->
    filledBefore g size (fst next) (snd next) /\
    0 <= fst next /\ 0 <= snd next < size /\
    (fst next < size ->
     exists x, cellAt g (fst next) (snd next) = Ret x /\ value x = 0).
Proof.
  induction turns as [|turns IH]; intros row col next H Hrow Hcol Hbefore.
  - cbn [Generator.findNextCell] in H.
    destruct (Z.ltb_spec row size) as [Hlt|Hge].
    + destruct (cellAt g row col) as [x|] eqn:Ex; [|discriminate].
      destruct (Z.eqb_spec (value x) 0) as [Hv|Hv]; cbn [negb] in H; [|discriminate].
      inversion H; subst next. simpl. repeat split; try lia; try assumption.
      intros _. eauto.
    + inversion H; subst next. simpl. repeat split; try lia; try assumption.
  - cbn [Generator.findNextCell] in H.
    destruct (Z.ltb_spec row size) as [Hlt|Hge].
    + destruct (cellAt g row col) as [x|] eqn:Ex; [|discriminate].
      destruct (Z.eqb_spec (value x) 0) as [Hv|Hv]; cbn [negb] in H.
      * inversion H; subst next. simpl. repeat split; try lia; try assumption.
        intros _. eauto.
      * destruct (Z.geb_spec (col + 1) size) as [Hend|Hmore].
        -- apply (IH _ _ _ H); [lia | lia |].
           intros r c Hr Hc Hlt'.
           destruct (Z.eq_dec r row) as [->|Hne].
           ++ destruct (Z.eq_dec c col) as [->|Hnc]; [eauto|].
              apply Hbefore; try assumption. right. lia.
           ++ apply Hbefore; try assumption. left. lia.
        -- apply (IH _ _ _ H); [lia | lia |].
           intros r c Hr Hc Hlt'.
           destruct (Z.eq_dec r row) as [->|Hne].
           ++ destruct (Z.eq_dec c col) as [->|Hnc]; [eauto|].
              apply Hbefore; try assumption. right. lia.
           ++ apply Hbefore; try assumption. left. lia.
    + inversion H; subst next. simpl. repeat split; try lia; try assumption.
Qed.

Lemma copyBack_shape (grid tempGrid g' : Grid) :
  Generator.copyBack grid tempGrid = Ret g' -> shape g' = shape grid.
Proof.
  unfold Generator.copyBack. intros H. unfold shape. apply list_ext_nth.
  - rewrite !length_map. rewrite (mapM_length _ _ _ H). apply mapi_length.
  - intros n k Hn. rewrite nth_error_map in *.
    destruct (nth_error g' n) as [rw'|] eqn:Eg'; [|discriminate].
    simpl in Hn. inversion Hn; subst k. clear Hn.
    destruct (mapM_nth _ _ _ H _ _ Eg') as ([i row] & Hi & Hf).
    unfold mapi in Hi. rewrite mapi_from_nth in Hi.
    destruct (nth_error grid n) as [row0|]; [|discriminate].
    simpl in Hi. inversion Hi; subst i row0. clear Hi. simpl in Hf.
    match type of Hf with
    | context [nth_Z tempGrid ?k] => destruct (nth_Z tempGrid k) as [trow|]
    end; [|discriminate].
    simpl. f_equal. rewrite (mapM_length _ _ _ Hf). now rewrite mapi_length.
Qed.

Lemma copyBack_same (grid tempGrid g' : Grid) :
  shape tempGrid = shape grid ->
  Generator.copyBack grid tempGrid = Ret g' -> g' = tempGrid.
Proof.
  intros Hs H. apply grid_ext.
  - rewrite (copyBack_shape _ _ _ H). now symmetry.
  - apply (copyBack_cells _ _ _ H).
Qed.

Lemma len_range0 (n : Z) : 0 <= n -> len (range0 n) = n.
Proof. intros H. unfold len, range0. rewrite length_map, length_seq. lia. Qed.

Lemma createEmptyGrid_cell (size r c : Z) :
  0 <= r < size -> 0 <= c < size ->
  cellAt (createEmptyGrid size) r c = Ret createEmptyCell.
Proof.
  intros Hr Hc. rewrite <- (Z2Nat.id r), <- (Z2Nat.id c) by lia.
  rewrite cellAt_of_nat. unfold createEmptyGrid, range0.
  rewrite nth_error_map.
  assert (Hr' : (Z.to_nat r < Z.to_nat size)%nat) by lia.
  assert (Hc' : (Z.to_nat c < Z.to_nat size)%nat) by lia.
  assert (E : forall k, (k < Z.to_nat size)%nat ->
                        exists i, nth_error (map Z.of_nat (seq 0 (Z.to_nat size))) k = Some i).
  { intros k Hk.
    destruct (nth_error (map Z.of_nat (seq 0 (Z.to_nat size))) k) eqn:E; [eauto|].
    apply nth_error_None in E. rewrite length_map, length_seq in E. lia. }
  destruct (E _ Hr') as [i ->]. simpl. rewrite nth_error_map.
  destruct (E _ Hc') as [j ->]. reflexivity.
Qed.

Lemma createEmptyGrid_cells (size r c : Z) (x : CellState) :
  cellAt (createEmptyGrid size) r c = Ret x -> x = createEmptyCell.
Proof.
  intros H. apply cellAt_In in H as (rw & Hrw & Hx).
  unfold createEmptyGrid in Hrw. apply in_map_iff in Hrw as (i & <- & _).
  apply in_map_iff in Hx as (j & <- & _). reflexivity.
Qed.

Lemma createEmptyGrid_len (size : Z) : 0 <= size -> len (createEmptyGrid size) = size.
Proof.
  intros H. unfold createEmptyGrid, len. rewrite length_map.
  apply (len_range0 size H).
Qed.

Lemma createEmptyGrid_rectangular (size : Z) : rectangular (createEmptyGrid size).
Proof.
  intros rw Hin. unfold createEmptyGrid in *.
  apply in_map_iff in Hin as (i & <- & Hi).
  unfold firstRowLength. destruct (range0 size) as [|a l]; [contradiction|].
  reflexivity.
Qed.

Lemma fill_sound (env : Generator.Env) (config : SudokuConfig)
  (solveCallback : option (Grid -> M Generator.World (option bool))) (stack : nat) :
  forall grid row col,
    rectangular grid -> noGivens grid -> valuesWithin (len grid) grid ->
    0 <= row -> 0 <= col < len grid -> filledBefore grid (len grid) row col ->
    returns (Generator.fillGridWithBacktracking stack env grid row col config
               solveCallback)
            (fun res => fst res = true ->
                        shape (snd res) = shape grid /\
                        complete (len grid) (snd res) /\
                        (snd res = grid \/ passes (snd res) (regions config))).
Proof.
  induction stack as [|stack IH]; intros grid row col Hrect Hng Hvals Hrow Hcol Hbefore.
  - intros w a H. discriminate.
  - simpl.
    eapply returns_bind with
      (R := fun next => Generator.findNextCell (Z.to_nat (len grid * len grid)) grid
                          (len grid) row col = Ret next).
    { apply returns_lift. auto. }
    intros next Hnext.
    destruct (findNextCell_spec _ _ _ _ _ _ Hnext Hrow Hcol Hbefore)
      as (Hb & Hr0 & Hc0 & Hcell).
    destruct (Z.geb_spec (fst next) (len grid)) as [Hleaf|Hin].
    { apply returns_ret. intros _. simpl. split; [reflexivity|]. split; [|now left].
      intros r c Hr Hc. destruct (Hb r c Hr Hc) as (x & Hx & Hv); [left; lia|].
      exists x. split; [assumption|]. specialize (Hvals r c x Hx). lia. }
    destruct (Hcell Hin) as (x0 & Hx0 & Hv0).
    eapply returns_bind with (R := Forall (fun n => 1 <= n <= len grid)).
    { apply shuffleArray_Forall. apply Forall_forall. intros n Hn.
      now apply range1_In. }
    intros numbers Hnumbers.
    induction numbers as [|num rest IHn];
      [apply returns_ret; simpl; intros H; discriminate|].
    inversion Hnumbers as [|? ? Hnum Hrest]; subst.
    set (tempGrid := updGrid grid (fst next) (snd next) (fillCell num)).
    eapply returns_bind with (R := fun t => t = tempGrid).
    { apply returns_lift. intros t Ht.
      rewrite (setCellValue_fill grid _ _ num x0 Hrect Hx0 (Hng _ _ _ Hx0)) in Ht.
      now inversion Ht. }
    intros t ->.
    eapply returns_bind with
      (R := fun v => validateAllRegions tempGrid (regions config) = Ret v).
    { apply returns_lift. auto. }
    intros validation Hval.
    destruct (isValid validation) eqn:Evalid; [|exact (IHn Hrest)].
    eapply returns_bind; [apply returns_true|]. intros shouldContinue _.
    destruct (Generator.is_false shouldContinue);
      [apply returns_ret; simpl; intros H; discriminate|].
    assert (Hshape : shape tempGrid = shape grid) by apply shape_updGrid.
    assert (Hlen : len tempGrid = len grid) by (apply len_shape; exact Hshape).
    eapply returns_bind.
    { apply (IH tempGrid).
      - eapply rectangular_shape; [symmetry; exact Hshape | exact Hrect].
      - intros r c x Hx. unfold tempGrid in Hx. rewrite cellAt_updGrid in Hx.
        destruct (cellAt grid r c) as [y|] eqn:Ey; [|discriminate].
        inversion Hx; subst x.
        destruct ((r =? fst next) && (c =? snd next)); [reflexivity|].
        exact (Hng _ _ _ Ey).
      - rewrite Hlen. intros r c x Hx. unfold tempGrid in Hx.
        rewrite cellAt_updGrid in Hx.
        destruct (cellAt grid r c) as [y|] eqn:Ey; [|discriminate].
        inversion Hx; subst x.
        destruct ((r =? fst next) && (c =? snd next)); [simpl; lia|].
        exact (Hvals _ _ _ Ey).
      - destruct (snd next + 1 >=? len grid); lia.
      - rewrite Hlen.
        destruct (Z.geb_spec (snd next + 1) (len grid)) as [Hend|Hmore].
        + replace (snd next + 1) with (len grid) by lia.
          rewrite Z.rem_same by lia. lia.
        + rewrite Z.rem_small by lia. lia.
      - rewrite Hlen.
        assert (Hnext' :
                  forall r c, 0 <= r < len grid -> 0 <= c < len grid ->
                    r < (if snd next + 1 >=? len grid then fst next + 1 else fst next)
                    \/ (r = (if snd next + 1 >=? len grid then fst next + 1 else fst next)
                        /\ c < Z.rem (snd next + 1) (len grid)) ->
                    (r = fst next /\ c = snd next)
                    \/ r < fst next \/ (r = fst next /\ c < snd next)).
        { intros r c Hr Hc.
          destruct (Z.geb_spec (snd next + 1) (len grid)) as [Hend|Hmore].
          - replace (snd next + 1) with (len grid) by lia.
            rewrite Z.rem_same by lia. lia.
          - rewrite Z.rem_small by lia. lia. }
        intros r c Hr Hc Hlt. unfold tempGrid. rewrite cellAt_updGrid.
        destruct (Hnext' r c Hr Hc Hlt) as [[-> ->] | Hprev].
        + rewrite Hx0, !Z.eqb_refl. eexists. split; [reflexivity|]. simpl. lia.
        + destruct (Hb r c Hr Hc Hprev) as (y & Hy & Hvy). rewrite Hy.
          destruct ((r =? fst next) && (c =? snd next)); eexists; split;
            try reflexivity; simpl; try lia; assumption. }
    intros filled Hfilled.
    destruct (fst filled) eqn:Efst; [|exact (IHn Hrest)].
    destruct (Hfilled Efst) as (Hs & Hcomplete & Hpass).
    eapply returns_bind with (R := fun g' => g' = snd filled).
    { apply returns_lift. intros g' Hg'. apply (copyBack_same grid); [|exact Hg'].
      now rewrite Hs. }
    intros g' ->. apply returns_ret. intros _. simpl.
    split; [now rewrite Hs|]. split; [now rewrite <- Hlen|].
    right. destruct Hpass as [-> | Hp]; [|exact Hp].
    exists validation. split; assumption.
Qed.

Lemma generateFilledGrid_sound (stackLimit : nat) (env : Generator.Env)
  (config : SudokuConfig) solveCallback :
  1 <= size config ->
  returns (Generator.generateFilledGrid stackLimit env config solveCallback)
          (fun filledGrid => forall g, filledGrid = Some g ->
             shape g = shape (createEmptyGrid (size config)) /\
             complete (size config) g /\ passes g (regions config)).
Proof.
  intros Hsize. unfold Generator.generateFilledGrid.
  assert (Hlen : len (createEmptyGrid (size config)) = size config)
    by (apply createEmptyGrid_len; lia).
  eapply returns_bind; [apply returns_true|]. intros startTime _.
  eapply returns_bind.
  { apply (fill_sound env config solveCallback stackLimit
             (createEmptyGrid (size config)) 0 0).
    - apply createEmptyGrid_rectangular.
    - apply noGivens_createEmptyGrid.
    - intros r c x Hx. apply createEmptyGrid_cells in Hx. subst x. simpl. lia.
    - lia.
    - lia.
    - intros r c Hr Hc Hlt. lia. }
  intros filled Hf.
  eapply returns_bind; [apply returns_true|]. intros endTime _.
  rewrite Hlen in Hf.
  destruct (fst filled); apply returns_ret; intros g Hg; [|discriminate].
  inversion Hg; subst g. clear Hg.
  destruct (Hf eq_refl) as (Hs & Hc & Hp).
  split; [assumption|]. split; [assumption|].
  destruct Hp as [E | Hp]; [|assumption].
  exfalso. destruct (Hc 0 0) as (x & Hx & Hv); [lia | lia |].
  rewrite E, createEmptyGrid_cell in Hx by lia. inversion Hx; subst x.
  simpl in Hv. lia.
Qed.

(* --------------------------------------------------------------------- *)
(** ** The generator: what the result object holds *)

(** From a state that satisfies [Pre], [m] either returns a value that [R]
    relates to the state it leaves, or throws and leaves a state that
    satisfies [E]. *)
Definition xspec {S A} (Pre : S -> Prop) (m : M S A) (R : A -> S -> Prop)
  (E : S -> Prop) : Prop :=
  forall s, Pre s ->
    match fst (m s) with
    | Ret a => R a (snd (m s))
    | Throw _ => E (snd (m s))
    end.

Lemma xspec_ret {S A} (Pre : S -> Prop) (a : A) (R : A -> S -> Prop) (E : S -> Prop) :
  (forall s, Pre s -> R a s) -> xspec Pre (retM a) R E.
Proof. intros H s Hs. simpl. auto. Qed.

Lemma xspec_bind {S A B} (Pre : S -> Prop) (m : M S A) (R : A -> S -> Prop)
  (k : A -> M S B) (R' : B -> S -> Prop) (E : S -> Prop) :
  xspec Pre m R E -> (forall a, xspec (R a) (k a) R' E) -> xspec Pre (bindM m k) R' E.
Proof.
  intros Hm Hk s Hs. specialize (Hm s Hs). unfold bindM.
  destruct (m s) as [[a|e] s1]; simpl in *.
  - apply Hk. exact Hm.
  - exact Hm.
Qed.

Lemma xspec_weaken {S A} (Pre Pre' : S -> Prop) (m : M S A) (R R' : A -> S -> Prop)
  (E : S -> Prop) :
  xspec Pre' m R' E -> (forall s, Pre s -> Pre' s) -> (forall a s, R' a s -> R a s) ->
  xspec Pre m R E.
Proof.
  intros H HP HR s Hs. specialize (H s (HP s Hs)).
  destruct (fst (m s)); auto.
Qed.

Lemma xspec_exn {S A} (Pre : S -> Prop) (m : M S A) (R : A -> S -> Prop)
  (E E' : S -> Prop) :
  xspec Pre m R E' -> (forall s, E' s -> E s) -> xspec Pre m R E.
Proof.
  intros H HE s Hs. specialize (H s Hs). destruct (fst (m s)); auto.
Qed.

Lemma xspec_onWorld {A} (m : M Generator.World A) (R : A -> Prop)
  (Q : Generator.GeneratorResult -> Prop) :
  returns m R ->
  xspec (fun st => Q (fst st)) (Generator.onWorld m)
        (fun a st => Q (fst st) /\ R a) (fun st => Q (fst st)).
Proof.
  intros Hm [r w] Hs. unfold Generator.onWorld. simpl in *.
  specialize (Hm w). destruct (m w) as [[a|e] w']; simpl in *; auto.
Qed.

Lemma xspec_onResult (f : Generator.GeneratorResult -> Generator.GeneratorResult)
  (Q Q' : Generator.GeneratorResult -> Prop) (E : Generator.GenState -> Prop) :
  (forall r, Q r -> Q' (f r)) ->
  xspec (fun st => Q (fst st)) (Generator.onResult f) (fun _ st => Q' (fst st)) E.
Proof. intros Hf [r w] Hs. simpl in *. auto. Qed.

(** A result object in which nothing but the solution, the finish reason
    and the statistics has been written. *)
Definition Blank (r : Generator.GeneratorResult) : Prop :=
  Generator.success r = false /\ Generator.puzzle r = None /\
  Generator.errorMessage r = None /\ Generator.givensCount r = None /\
  Generator.difficulty r = None.

(** A synthesised grid: square, complete, and valid in every region. *)
Definition Sound (config : SudokuConfig) (g : Grid) : Prop :=
  1 <= size config ->
  shape g = shape (createEmptyGrid (size config)) /\
  complete (size config) g /\ passes g (regions config).

(** The two ways in which the [try] block of [generateSudoku] ends when it
    does not throw. *)
Definition Outcome (config : SudokuConfig) (difficulty : DifficultyLevel)
  (r : Generator.GeneratorResult) : Prop :=
  (Generator.success r = true /\
   exists p s,
     Generator.puzzle r = Some p /\ Generator.solution r = Some s /\
     Generator.finishReason r = Generator.FR_success /\
     Generator.errorMessage r = None /\
     Generator.givensCount r = Some (Generator.countGivens p) /\
     Generator.difficulty r = Some difficulty /\ Sound config s)
  \/ (Blank r /\ Generator.finishReason r = Generator.FR_error).

Lemma generateFilledGrid_Sound (stackLimit : nat) (env : Generator.Env)
  (config : SudokuConfig) solveCallback :
  returns (Generator.generateFilledGrid stackLimit env config solveCallback)
          (fun filledGrid => forall g, filledGrid = Some g -> Sound config g).
Proof.
  intros w a Ha g Hg Hsize.
  exact (generateFilledGrid_sound stackLimit env config solveCallback Hsize w a Ha g Hg).
Qed.

Lemma synthesise_Sound (stackLimit : nat) (env : Generator.Env) (config : SudokuConfig)
  (onProgress : option Generator.GeneratorCallback) (timeoutTimestamp : Z)
  (remaining : nat) :
  xspec (fun st => Blank (fst st))
        (Generator.synthesise remaining stackLimit env config onProgress timeoutTimestamp)
        (fun filledGrid st =>
           Blank (fst st) /\ forall g, filledGrid = Some g -> Sound config g)
        (fun st => Blank (fst st)).
Proof.
  induction remaining as [|remaining IH]; simpl.
  - apply xspec_ret. intros st Hst. split; [assumption | discriminate].
  - eapply xspec_bind.
    { apply (xspec_onWorld _ (fun _ => True) Blank). apply returns_true. }
    intros []. eapply xspec_weaken with (Pre' := fun st => Blank (fst st));
      [| intros st [H _]; exact H | intros a st H; exact H].
    eapply xspec_bind.
    { apply (xspec_onWorld _ (fun _ => True) Blank). apply returns_true. }
    intros t. eapply xspec_weaken with (Pre' := fun st => Blank (fst st));
      [| intros st [H _]; exact H | intros a st H; exact H].
    destruct (t >? timeoutTimestamp).
    + eapply xspec_bind.
      { apply (xspec_onResult _ Blank Blank). intros r Hr. exact Hr. }
      intros []. apply xspec_ret. intros st Hst. split; [assumption | discriminate].
    + eapply xspec_bind.
      { apply (xspec_onWorld _ (fun filledGrid => forall g, filledGrid = Some g ->
                                                            Sound config g) Blank).
        apply generateFilledGrid_Sound. }
      intros [g|].
      * apply xspec_ret. intros st Hst. exact Hst.
      * eapply xspec_weaken with (Pre' := fun st => Blank (fst st));
          [exact IH | intros st [H _]; exact H | intros a st H; exact H].
Qed.

Lemma generateSudoku_try_Outcome (stackLimit : nat) (env : Generator.Env)
  (config : SudokuConfig) difficulty uniqueSolution minGivens maxGivens symmetrical
  symmetryType timeoutTimestamp onProgress :
  xspec (fun st => Blank (fst st))
        (Generator.generateSudoku_try stackLimit env config difficulty uniqueSolution
           minGivens maxGivens symmetrical symmetryType timeoutTimestamp onProgress)
        (fun _ st => Outcome config difficulty (fst st))
        (fun st => Blank (fst st)).
Proof.
  unfold Generator.generateSudoku_try.
  eapply xspec_bind; [apply synthesise_Sound|]. intros [filledGrid|].
  - eapply xspec_weaken with
      (Pre' := fun st => Blank (fst st) /\ Sound config filledGrid)
      (R' := fun _ st => Outcome config difficulty (fst st));
      [| intros st [H1 H2]; split; [exact H1 | exact (H2 _ eq_refl)] | auto].
    intros st [Hblank Hsound]. revert st Hblank.
    change (xspec (fun st => Blank (fst st))
              (_ <-- Generator.onWorld (modifyM Generator.incr_fullGridsGenerated) ;;
               _ <-- Generator.onResult
                       (Generator.set_solution (Some (cloneGrid filledGrid))) ;;
               modifiedPuzzle <-- Generator.onWorld
                                    (Generator.digHoles env
                                       (Generator.markGivens
                                          (cloneGrid (cloneGrid filledGrid)))
                                       (cloneGrid filledGrid) config
                                       (Generator.mkDigOptions difficulty uniqueSolution
                                          minGivens maxGivens symmetrical symmetryType
                                          timeoutTimestamp onProgress)) ;;
               match modifiedPuzzle with
               | None => Generator.onResult (Generator.set_finishReason Generator.FR_error)
               | Some modifiedPuzzle =>
                   _ <-- Generator.onResult (Generator.set_success true) ;;
                   _ <-- Generator.onResult (Generator.set_puzzle (Some modifiedPuzzle)) ;;
                   _ <-- Generator.onResult
                           (Generator.set_finishReason Generator.FR_success) ;;
                   _ <-- Generator.onResult
                           (Generator.set_givensCount
                              (Some (Generator.countGivens modifiedPuzzle))) ;;
                   Generator.onResult (Generator.set_difficulty (Some difficulty))
               end)%M
              (fun _ st => Outcome config difficulty (fst st))
              (fun st => Blank (fst st))).
    eapply xspec_bind.
    { apply (xspec_onWorld _ (fun _ => True) Blank). apply returns_true. }
    intros []. eapply xspec_weaken with (Pre' := fun st => Blank (fst st));
      [| intros st [H _]; exact H | intros a st H; exact H].
    eapply xspec_bind.
    { apply (xspec_onResult _ Blank
               (fun r => Blank r /\
                         Generator.solution r = Some (cloneGrid filledGrid))).
      intros r Hr. split; [exact Hr | reflexivity]. }
    intros []. eapply xspec_bind.
    { eapply xspec_exn.
      - apply (xspec_onWorld _ (fun _ => True)
                 (fun r => Blank r /\
                           Generator.solution r = Some (cloneGrid filledGrid))).
        apply returns_true.
      - intros st [H _]. exact H. }
    intros [modifiedPuzzle|].
    + intros [r w] [[Hr Hsol] _]. simpl in *. left. split; [reflexivity|].
      destruct Hr as (_ & _ & Herr & _ & _).
      exists modifiedPuzzle, (cloneGrid filledGrid).
      repeat split; try assumption; try reflexivity; rewrite cloneGrid_id;
        apply Hsound; assumption.
    + intros [r w] [[Hr Hsol] _]. simpl in *. right. split; [exact Hr | reflexivity].
  - intros [r w] [Hr _]. simpl in *. right. split; [exact Hr | reflexivity].
Qed.

(** Every result of [generateSudoku] is of one of three kinds. *)
Lemma generateSudoku_outcome (stackLimit : nat) (env : Generator.Env)
  (config : SudokuConfig) (options : Generator.GeneratorOptions)
  (result : Generator.GeneratorResult) :
  Generator.generateSudoku stackLimit env config options = Ret result ->
  Outcome config (orDefault (Generator.o_difficulty options) MEDIUM) result
  \/ (Generator.success result = false /\ Generator.puzzle result = None /\
      Generator.givensCount result = None /\ Generator.difficulty result = None /\
      Generator.finishReason result = Generator.FR_error /\
      exists msg, Generator.errorMessage result = Some msg).
Proof.
  unfold Generator.generateSudoku.
  unfold bindM at 1. unfold Generator.onWorld at 1. unfold Generator.dateNow at 1.
  cbn [snd fst Generator.initialWorld Generator.clockReads Generator.clock].
  unfold bindM at 1. unfold try_catch_finally.
  match goal with
  | |- context [Generator.generateSudoku_try ?a ?b ?c ?d ?e ?f ?g ?h ?i ?j ?k ?s] =>
      pose proof (generateSudoku_try_Outcome a b c d e f g h i j k s) as HF;
      destruct (Generator.generateSudoku_try a b c d e f g h i j k s) as [[u|e0] [r w]]
  end.
  - cbn. intros H. inversion H; subst result. clear H. left.
    cbn in HF. specialize (HF (conj eq_refl (conj eq_refl (conj eq_refl
                                                  (conj eq_refl eq_refl))))).
    destruct HF as [(Hs & p & s & Hp & Hsol & Hfin & Herr & Hg & Hd & Hsound)
                   | [(H1 & H2 & H3 & H4 & H5) Hfin]].
    + left. split; [exact Hs|]. exists p, s.
      repeat (split; [assumption|]). exact Hsound.
    + right. split; [|exact Hfin]. unfold Blank. cbn. auto.
  - cbn [fst]. unfold Generator.generateSudoku_catch.
    unfold bindM at 1. unfold Generator.onResult at 1. unfold bindM at 1.
    unfold liftM.
    destruct (errorMessageOf e0) as [text|raised]; cbn; intros H; [|discriminate H].
    inversion H; subst result. clear H. right.
    cbn in HF. specialize (HF (conj eq_refl (conj eq_refl (conj eq_refl
                                                  (conj eq_refl eq_refl))))).
    destruct HF as (H1 & H2 & H3 & H4 & H5). cbn.
    repeat split; try assumption. eauto.
Qed.

(** X17. The solution of a successful [generateSudoku] result, for a
    configuration of size at least 1, is a square grid of that size in which
    every cell holds a digit between 1 and the size, and which
    [validateAllRegions] finds valid for the regions of the configuration. *)
Theorem generated_solution_complete_and_valid (stackLimit : nat)
  (env : Generator.Env) (config : SudokuConfig)
  (options : Generator.GeneratorOptions) (result : Generator.GeneratorResult) :
  1 <= size config ->
  Generator.generateSudoku stackLimit env config options = Ret result ->
  Generator.success result = true ->
  exists s, Generator.solution result = Some s /\
            shape s = shape (createEmptyGrid (size config)) /\
            complete (size config) s /\ passes s (regions config).
Proof.
  intros Hsize Hrun Hok.
  destruct (generateSudoku_outcome _ _ _ _ _ Hrun)
    as [[(_ & p & s & _ & Hsol & _ & _ & _ & _ & Hsound) | [(Hno & _) _]] | (Hno & _)];
    try congruence.
  exists s. split; [exact Hsol|]. exact (Hsound Hsize).
Qed.

Lemma generated_solution_complete_and_valid_witness :
  exists s, Generator.solution generatedResult = Some s /\
            shape s = shape (createEmptyGrid (size fourByFourConfig)) /\
            complete (size fourByFourConfig) s /\ passes s (regions fourByFourConfig).
Proof.
  apply (generated_solution_complete_and_valid 30 steadyEnv fourByFourConfig
           uniqueOptions generatedResult).
  - simpl. lia.
  - vm_compute. reflexivity.
  - vm_compute. reflexivity.
Defined.

(** X18. The fields of a [generateSudoku] result go together. A successful
    result has finish reason success, no error message, a puzzle, a
    solution, [givensCount] equal to the number of filled cells of the
    puzzle, and as [difficulty] the difficulty that was asked for (MEDIUM
    by default), whatever the number of givens. An unsuccessful result has
    finish reason error and neither puzzle, givens count nor difficulty. *)
Theorem generateSudoku_result_fields (stackLimit : nat) (env : Generator.Env)
  (config : SudokuConfig) (options : Generator.GeneratorOptions)
  (result : Generator.GeneratorResult) :
  Generator.generateSudoku stackLimit env config options = Ret result ->
  (Generator.success result = true ->
   Generator.finishReason result = Generator.FR_success /\
   Generator.errorMessage result = None /\
   Generator.solution result <> None /\
   Generator.difficulty result
   = Some (orDefault (Generator.o_difficulty options) MEDIUM) /\
   exists p, Generator.puzzle result = Some p /\
             Generator.givensCount result = Some (Generator.countGivens p)) /\
  (Generator.success result = false ->
   Generator.finishReason result = Generator.FR_error /\
   Generator.puzzle result = None /\ Generator.givensCount result = None /\
   Generator.difficulty result = None).
Proof.
  intros Hrun.
  destruct (generateSudoku_outcome _ _ _ _ _ Hrun)
    as [[(Hok & p & s & Hp & Hsol & Hfin & Herr & Hg & Hd & _)
        | [(Hno & Hp & _ & Hg & Hd) Hfin]]
       | (Hno & Hp & Hg & Hd & Hfin & _)].
  - split; [|congruence]. intros _. repeat split; try assumption; [congruence|].
    exists p. split; assumption.
  - split; [congruence|]. intros _. repeat split; assumption.
  - split; [congruence|]. intros _. repeat split; assumption.
Qed.

Lemma generateSudoku_result_fields_witness :
  (Generator.success generatedResult = true ->
   Generator.finishReason generatedResult = Generator.FR_success /\
   Generator.errorMessage generatedResult = None /\
   Generator.solution generatedResult <> None /\
   Generator.difficulty generatedResult
   = Some (orDefault (Generator.o_difficulty uniqueOptions) MEDIUM) /\
   exists p, Generator.puzzle generatedResult = Some p /\
             Generator.givensCount generatedResult = Some (Generator.countGivens p)) /\
  (Generator.success generatedResult = false ->
   Generator.finishReason generatedResult = Generator.FR_error /\
   Generator.puzzle generatedResult = None /\
   Generator.givensCount generatedResult = None /\
   Generator.difficulty generatedResult = None).
Proof.
  apply (generateSudoku_result_fields 30 steadyEnv fourByFourConfig uniqueOptions
           generatedResult).
  vm_compute. reflexivity.
Defined.

(* --------------------------------------------------------------------- *)
(** ** The solver: what the collected solutions are *)

(** A computation that leaves the collected solutions and the interrupted
    flag as they are, whether it returns or throws. *)
Definition quiet {A} (m : M World A) : Prop :=
  forall w, solutions (snd (m w)) = solutions w /\
            interrupted (snd (m w)) = interrupted w.

Lemma quiet_ret {A} (a : A) : quiet (retM a).
Proof. intros w. split; reflexivity. Qed.

Lemma quiet_lift {A} (o : outcome A) : quiet (liftM o).
Proof. intros w. split; reflexivity. Qed.

Lemma quiet_throw {A} (e : exn) : quiet (@throwM World A e).
Proof. intros w. split; reflexivity. Qed.

Lemma quiet_gets {A} (f : World -> A) : quiet (getsM f).
Proof. intros w. split; reflexivity. Qed.

Lemma quiet_modify (f : World -> World) :
  (forall w, solutions (f w) = solutions w /\ interrupted (f w) = interrupted w) ->
  quiet (modifyM f).
Proof. intros H w. exact (H w). Qed.

Lemma quiet_bind {A B} (m : M World A) (k : A -> M World B) :
  quiet m -> (forall a, quiet (k a)) -> quiet (bindM m k).
Proof.
  intros Hm Hk w. unfold bindM. destruct (Hm w) as [H1 H2].
  destruct (m w) as [[a|e] w1]; simpl in *.
  - destruct (Hk a w1) as [H3 H4]. split; congruence.
  - split; assumption.
Qed.

Lemma quiet_dateNow (clock : nat -> Z) : quiet (dateNow clock).
Proof. intros w. split; reflexivity. Qed.

Lemma quiet_closure (grid : Grid) (config : SudokuConfig) (r c : Z) :
  quiet (candidatesClosure grid config r c).
Proof.
  unfold candidatesClosure.
  apply quiet_bind; [apply quiet_modify; intros w; split; reflexivity|]. intros _.
  apply quiet_bind; [apply quiet_lift|]. intros cell.
  destruct (negb (value cell =? 0)); [apply quiet_ret|].
  apply quiet_bind; [apply quiet_gets|]. intros [cached|]; [apply quiet_ret|].
  apply quiet_bind; [apply quiet_lift|]. intros candidates.
  apply quiet_bind; [apply quiet_modify; intros w; split; reflexivity|]. intros _.
  apply quiet_ret.
Qed.

Lemma quiet_bump (context : Context) : quiet (bumpAndCheckTimeout context).
Proof.
  unfold bumpAndCheckTimeout.
  apply quiet_bind.
  { apply quiet_modify. intros w. destruct (recursionCounter w); split; reflexivity. }
  intros _. apply quiet_bind; [apply quiet_gets|]. intros counter.
  destruct (timeoutTimestamp context) as [ts|]; [|apply quiet_ret].
  destruct counter as [n|]; [|apply quiet_ret].
  destruct (negb (ts =? 0) && (Z.rem n TIMEOUT_CHECK_INTERVAL =? 0)); [|apply quiet_ret].
  apply quiet_bind; [apply quiet_dateNow|]. intros t. apply quiet_ret.
Qed.

Lemma quiet_emptyCellsOfRow (calc : Z -> Z -> M World (list Z)) (row : Z)
  (cellsOfRow : list CellState) :
  (forall r c, quiet (calc r c)) ->
  forall col, quiet (emptyCellsOfRow calc row col cellsOfRow).
Proof.
  intros Hcalc. induction cellsOfRow as [|cell rest IH]; intros col; simpl.
  - apply quiet_ret.
  - destruct (value cell =? 0); [|apply IH].
    apply quiet_bind; [apply Hcalc|]. intros l.
    apply quiet_bind; [apply IH|]. intros more. apply quiet_ret.
Qed.

Lemma quiet_emptyCellsFrom (calc : Z -> Z -> M World (list Z)) (rows : Grid) :
  (forall r c, quiet (calc r c)) ->
  forall row, quiet (emptyCellsFrom calc row rows).
Proof.
  intros Hcalc. induction rows as [|rw rest IH]; intros row; simpl.
  - apply quiet_ret.
  - apply quiet_bind; [now apply quiet_emptyCellsOfRow|]. intros here.
    apply quiet_bind; [apply IH|]. intros more. apply quiet_ret.
Qed.

Lemma quiet_select (g : Grid) (config : SudokuConfig)
  (calc : Z -> Z -> M World (list Z)) :
  (forall r c, quiet (calc r c)) -> quiet (selectCellWithMRV g config calc).
Proof.
  intros Hcalc. unfold selectCellWithMRV, getAllEmptyCellsCandidates.
  apply quiet_bind; [now apply quiet_emptyCellsFrom|]. intros infos.
  destruct infos as [|i0 infos]; [apply quiet_ret|].
  destruct (stableSort (fun a b => i_count a - i_count b) (i0 :: infos)) as [|first rest];
    [apply quiet_throw|].
  destruct (i_count first =? 0); [apply quiet_ret|].
  destruct (filter (fun cell => i_count cell =? i_count first) (first :: rest))
    as [|sel [|y ys]].
  - apply quiet_bind; [apply quiet_lift|]. intros a. apply quiet_ret.
  - apply quiet_ret.
  - apply quiet_bind; [apply quiet_lift|]. intros a. apply quiet_ret.
Qed.

(** The list that [getAllEmptyCellsCandidates] returns has one entry for
    each empty cell of the grid. *)
Lemma emptyCellsOfRow_length (calc : Z -> Z -> M World (list Z)) (row : Z)
  (cellsOfRow : list CellState) :
  forall col,
    returns (emptyCellsOfRow calc row col cellsOfRow)
            (fun infos => List.length infos
                          = List.length (emptyPositionsOfRow row col cellsOfRow)).
Proof.
  induction cellsOfRow as [|cell rest IH]; intros col; simpl.
  - apply returns_ret. reflexivity.
  - destruct (value cell =? 0); [|apply IH].
    eapply returns_bind; [apply returns_true|]. intros l _.
    eapply returns_bind; [apply IH|]. intros more Hmore.
    apply returns_ret. simpl. now rewrite Hmore.
Qed.

Lemma emptyCellsFrom_length (calc : Z -> Z -> M World (list Z)) (rows : Grid) :
  forall row,
    returns (emptyCellsFrom calc row rows)
            (fun infos => List.length infos
                          = List.length (emptyPositionsFrom row rows)).
Proof.
  induction rows as [|rw rest IH]; intros row; simpl.
  - apply returns_ret. reflexivity.
  - eapply returns_bind; [apply emptyCellsOfRow_length|]. intros here Hhere.
    eapply returns_bind; [apply IH|]. intros more Hmore.
    apply returns_ret. now rewrite !length_app, Hhere, Hmore.
Qed.

Lemma select_None (g : Grid) (config : SudokuConfig)
  (calc : Z -> Z -> M World (list Z)) :
  returns (selectCellWithMRV g config calc)
          (fun res => res = None -> emptyPositions g = []).
Proof.
  unfold selectCellWithMRV, getAllEmptyCellsCandidates.
  eapply returns_bind; [apply emptyCellsFrom_length|]. intros infos Hlen.
  destruct infos as [|i0 infos].
  - apply returns_ret. intros _. unfold emptyPositions.
    destruct (emptyPositionsFrom 0 g); [reflexivity | discriminate].
  - destruct (stableSort (fun a b => i_count a - i_count b) (i0 :: infos)) as [|first rest].
    + intros w a H. discriminate.
    + destruct (i_count first =? 0); [apply returns_ret; discriminate|].
      destruct (filter (fun cell => i_count cell =? i_count first) (first :: rest))
        as [|sel [|y ys]].
      * eapply returns_bind; [apply returns_true|]. intros a _.
        apply returns_ret. discriminate.
      * apply returns_ret. discriminate.
      * eapply returns_bind; [apply returns_true|]. intros a _.
        apply returns_ret. discriminate.
Qed.

Lemma ispec_and_returns {A} (Pre I : World -> Prop) (m : M World A)
  (R : A -> World -> Prop) (R' : A -> Prop) :
  ispec Pre I m R -> returns m R' -> ispec Pre I m (fun a w => R a w /\ R' a).
Proof.
  intros H H' w Hw. destruct (H w Hw) as [HI HR]. split; [assumption|].
  intros a Ha. split; [now apply HR | exact (H' w a Ha)].
Qed.

Lemma quiet_keeps {A} (J I : World -> Prop) (m : M World A) :
  (forall w w', solutions w' = solutions w -> interrupted w' = interrupted w ->
                J w -> J w') ->
  (forall w, J w -> I w) -> quiet m -> ispec J I m (fun _ => J).
Proof.
  intros HJ HI Hm w Hw. destruct (Hm w) as [H1 H2].
  assert (H : J (snd (m w))) by (eapply HJ; eauto).
  split; [now apply HI | intros; exact H].
Qed.

(** A recorded solution: no cell of it is empty and [validateAllRegions]
    finds it valid. *)
Definition validated (rs : list Region) (s : Grid) : Prop :=
  emptyPositions s = [] /\ passes s rs.

(** The most solutions a search collects. *)
Definition solutionBound (findAll : bool) (maxSols : Z) : Z :=
  if findAll then Z.max 1 maxSols else 1.

Definition Collected (rs : list Region) (B : Z) (l : list Grid) : Prop :=
  len l <= B /\ Forall (validated rs) l.

Section Collecting.

Variable context : Context.

Hypothesis Hcalc : forall r c, quiet (getCandidatesForCell context r c).

Definition searchRegions : list Region := regions (config context).

Definition searchBound : Z :=
  solutionBound (findAllSolutions context) (maxSolutions context).

Definition Bounded (w : World) : Prop := Collected searchRegions searchBound (solutions w).

(** Room for one more solution. *)
Definition Open (w : World) : Prop :=
  Bounded w /\ interrupted w = false /\ len (solutions w) < searchBound.

Definition Ready (w : World) : Prop :=
  Bounded w /\ (interrupted w = true \/ len (solutions w) < searchBound).

Definition Done (res : bool) (w : World) : Prop :=
  Bounded w /\
  (res = false ->
   interrupted w = true \/ len (solutions w) < searchBound \/ findAllSolutions context = true).

Lemma Open_Ready (w : World) : Open w -> Ready w.
Proof. intros (H1 & H2 & H3). split; auto. Qed.

Lemma Open_Bounded (w : World) : Open w -> Bounded w.
Proof. intros (H1 & _). exact H1. Qed.

Lemma Ready_Bounded (w : World) : Ready w -> Bounded w.
Proof. intros (H1 & _). exact H1. Qed.

Lemma Ready_Done (res : bool) (w : World) : Ready w -> Done res w.
Proof. intros (H1 & [H2 | H2]); split; auto. Qed.

Lemma Open_Done (res : bool) (w : World) : Open w -> Done res w.
Proof. intros H. now apply Ready_Done, Open_Ready. Qed.

Lemma Open_respects (w w' : World) :
  solutions w' = solutions w -> interrupted w' = interrupted w -> Open w -> Open w'.
Proof. unfold Open, Bounded. intros -> ->. auto. Qed.

Lemma Ready_respects (w w' : World) :
  solutions w' = solutions w -> interrupted w' = interrupted w -> Ready w -> Ready w'.
Proof. unfold Ready, Bounded. intros -> ->. auto. Qed.

Lemma quiet_Open {A} (m : M World A) : quiet m -> ispec Open Bounded m (fun _ => Open).
Proof. apply quiet_keeps; [apply Open_respects | apply Open_Bounded]. Qed.

Lemma quiet_Ready {A} (m : M World A) : quiet m -> ispec Ready Bounded m (fun _ => Ready).
Proof. apply quiet_keeps; [apply Ready_respects | apply Ready_Bounded]. Qed.

Lemma record_spec (g : Grid) :
  validated searchRegions g ->
  ispec Open Bounded (recordSolution context g)
        (fun stopped w => Bounded w /\ (stopped = true -> interrupted w = true)).
Proof.
  intros Hg w ((Hlen & Hall) & Hint & Hroom).
  unfold recordSolution, bindM, modifyM, retM, callProgress.
  rewrite cloneGrid_id.
  assert (Hw' : Collected searchRegions searchBound (solutions w ++ [g])).
  { split.
    - unfold len in *. rewrite length_app. simpl. lia.
    - apply Forall_app. split; [exact Hall | now constructor]. }
  destruct (onProgress context) as [cb|]; simpl.
  - destruct (cb (progressCalls w) (Ev_solution g)) as [res|e]; simpl.
    + destruct (is_false res); simpl; (split; [exact Hw'|]); intros a Ha;
        inversion Ha; subst; (split; [exact Hw'|]); auto; discriminate.
    + split; [exact Hw' | discriminate].
  - split; [exact Hw'|]. intros a Ha. inversion Ha; subst.
    split; [exact Hw' | discriminate].
Qed.

Lemma notify_spec (r c v : Z) :
  ispec Open Bounded (notifyStep context r c v)
        (fun stopped w => if stopped then Bounded w /\ interrupted w = true else Open w).
Proof.
  intros w Hw. pose proof (Open_Bounded w Hw) as Hb.
  unfold notifyStep, bindM, modifyM, retM, callProgress.
  destruct (onProgress context) as [cb|]; simpl.
  - destruct (cb (progressCalls w) (Ev_step r c v)) as [res|e]; simpl.
    + destruct (is_false res); simpl; (split; [exact Hb|]); intros a Ha;
        inversion Ha; subst; [split; [exact Hb | reflexivity] | exact Hw].
    + split; [exact Hb | discriminate].
  - split; [exact Hb|]. intros a Ha. inversion Ha; subst. exact Hw.
Qed.

Lemma continue_Open (solved : bool) (w : World) :
  solved && negb (findAllSolutions context) = false ->
  Done solved w -> mustStop context w = false -> Open w.
Proof.
  intros E [Hb Hd] Hstop. unfold mustStop in Hstop.
  apply orb_false_iff in Hstop as [Hint Hmax].
  split; [exact Hb|]. split; [exact Hint|].
  destruct (Z.geb_spec (len (solutions w)) (maxSolutions context)) as [|Hlt];
    [discriminate|].
  unfold searchBound, solutionBound in *. destruct (findAllSolutions context).
  - lia.
  - rewrite andb_true_r in E. subst solved.
    destruct (Hd eq_refl) as [H | [H | H]]; [congruence | exact H | discriminate].
Qed.

Lemma stop_Done (solved : bool) (w : World) :
  solved && negb (findAllSolutions context) = false -> Done solved w -> Done false w.
Proof.
  intros E [Hb Hd]. split; [exact Hb|]. intros _.
  destruct (findAllSolutions context); [auto|].
  rewrite andb_true_r in E. subst solved. auto.
Qed.

Lemma backtrack_Done :
  ispec Open Bounded (bindM (modifyM incr_backtracks) (fun _ => retM false)) Done.
Proof.
  eapply ispec_bind.
  { apply quiet_Open. apply quiet_modify. intros w. split; reflexivity. }
  intros []. apply ispec_ret. intros w Hw.
  split; [now apply Open_Bounded | now apply Open_Done].
Qed.

Lemma leaf_validated (g : Grid) (validation : ValidationResult) :
  emptyPositions g = [] -> validateAllRegions g searchRegions = Ret validation ->
  negb (isValid validation) = false -> validated searchRegions g.
Proof.
  intros He Hv Hn. split; [exact He|]. exists validation. split; [exact Hv|].
  now apply negb_false_iff in Hn.
Qed.

Lemma mrv_done (stack : nat) :
  forall g, ispec Ready Bounded (solveWithBacktracking stack context g) Done.
Proof.
  induction stack as [|stack' IH]; intros g.
  - intros w Hw. split; [now apply Ready_Bounded | discriminate].
  - simpl.
    eapply ispec_bind; [apply quiet_Ready, quiet_bump|].
    intros [|].
    { apply ispec_ret. intros w Hw.
      split; [now apply Ready_Bounded | now apply Ready_Done]. }
    eapply ispec_bind with (R := fun b w => Ready w /\ b = interrupted w).
    { apply ispec_gets. intros w Hw. split; [now apply Ready_Bounded | auto]. }
    intros [|].
    { apply ispec_ret. intros w [Hw _].
      split; [now apply Ready_Bounded | now apply Ready_Done]. }
    eapply ispec_weaken with (Pre' := Open) (R' := Done);
      [| intros w [[Hb [Hi | Hr]] Hint]; [congruence | split; auto] | auto].
    eapply ispec_bind.
    { apply ispec_and_returns; [apply quiet_Open, quiet_select, Hcalc | apply select_None]. }
    intros [info|].
    + eapply ispec_weaken with (Pre' := Open) (R' := Done);
        [| intros w [H _]; exact H | auto].
      destruct (len (i_candidates info) =? 0); [apply backtrack_Done|].
      induction (i_candidates info) as [|v rest IHvs]; [apply backtrack_Done|].
      eapply ispec_bind; [apply quiet_Open, quiet_lift|]. intros newGrid.
      eapply ispec_bind.
      { apply quiet_Open. apply quiet_modify. intros w. split; reflexivity. }
      intros [].
      eapply ispec_bind; [apply notify_spec|].
      intros [|].
      { apply ispec_ret. intros w [Hb Hi]. split; [exact Hb|]. split; auto. }
      eapply ispec_bind.
      { eapply ispec_weaken; [apply (IH newGrid) | apply Open_Ready | intros a s H; exact H]. }
      intros solved.
      destruct (solved && negb (findAllSolutions context)) eqn:E.
      { apply ispec_ret. intros w [Hb _]. split; [exact Hb|]. split; [exact Hb|].
        discriminate. }
      eapply ispec_bind with
        (R := fun stop w => Done solved w /\ stop = mustStop context w).
      { apply ispec_gets. intros w Hw. split; [apply Hw | auto]. }
      intros [|].
      * apply ispec_ret. intros w [Hd _].
        split; [apply Hd | exact (stop_Done solved w E Hd)].
      * eapply ispec_weaken with (Pre' := Open) (R' := Done); [exact IHvs | | auto].
        intros w [Hd Hstop]. exact (continue_Open solved w E Hd (eq_sym Hstop)).
    + apply ispec_pre. intros Hnone. specialize (Hnone eq_refl).
      eapply ispec_bind with
        (R := fun validation w => Open w /\ validateAllRegions g searchRegions = Ret validation).
      { apply ispec_lift. intros w Hw. split; [now apply Open_Bounded | auto]. }
      intros validation. apply ispec_pre. intros Hval.
      destruct (negb (isValid validation)) eqn:Evalid; [apply backtrack_Done|].
      eapply ispec_bind;
        [apply (record_spec g (leaf_validated g validation Hnone Hval Evalid))|].
      intros [|].
      { apply ispec_ret. intros w [Hb Hi]. split; [exact Hb|]. split; auto. }
      eapply ispec_bind with (R := fun _ w => Bounded w).
      { apply ispec_gets. intros w [Hb _]. auto. }
      intros count. destruct (count >=? maxSolutions context).
      * apply ispec_ret. intros w Hb. split; [exact Hb|]. split; [exact Hb|].
        discriminate.
      * apply ispec_ret. intros w Hb. split; [exact Hb|]. split; [exact Hb|].
        intros Hf. right. right. now apply negb_false_iff in Hf.
Qed.

Lemma simple_done (stack : nat) :
  forall g, ispec Ready Bounded (solveWithSimpleBacktracking stack context g) Done.
Proof.
  induction stack as [|stack' IH]; intros g.
  - intros w Hw. split; [now apply Ready_Bounded | discriminate].
  - simpl.
    eapply ispec_bind; [apply quiet_Ready, quiet_bump|].
    intros [|].
    { apply ispec_ret. intros w Hw.
      split; [now apply Ready_Bounded | now apply Ready_Done]. }
    eapply ispec_bind with (R := fun b w => Ready w /\ b = interrupted w).
    { apply ispec_gets. intros w Hw. split; [now apply Ready_Bounded | auto]. }
    intros [|].
    { apply ispec_ret. intros w [Hw _].
      split; [now apply Ready_Bounded | now apply Ready_Done]. }
    eapply ispec_weaken with (Pre' := Open) (R' := Done);
      [| intros w [[Hb [Hi | Hr]] Hint]; [congruence | split; auto] | auto].
    eapply ispec_bind; [apply quiet_Open, quiet_lift|]. intros validation0.
    destruct (negb (isValid validation0)); [apply backtrack_Done|].
    destruct (findFirstEmpty g) as [[r c]|] eqn:Efirst.
    + induction (range1 (size (config context))) as [|v rest IHvs];
        [apply backtrack_Done|].
      eapply ispec_bind; [apply quiet_Open, Hcalc|]. intros candidates.
      destruct (negb (Set_has candidates v)); [exact IHvs|].
      eapply ispec_bind; [apply quiet_Open, quiet_lift|]. intros newGrid.
      eapply ispec_bind.
      { apply quiet_Open. apply quiet_modify. intros w. split; reflexivity. }
      intros [].
      eapply ispec_bind; [apply notify_spec|].
      intros [|].
      { apply ispec_ret. intros w [Hb Hi]. split; [exact Hb|]. split; auto. }
      eapply ispec_bind.
      { eapply ispec_weaken; [apply (IH newGrid) | apply Open_Ready | intros a s H; exact H]. }
      intros solved. destruct solved.
      { apply ispec_ret. intros w [Hb _]. split; [exact Hb|]. split; [exact Hb|].
        discriminate. }
      eapply ispec_bind with
        (R := fun stop w => Done false w /\ stop = mustStop context w).
      { apply ispec_gets. intros w Hw. split; [apply Hw | auto]. }
      intros [|].
      * apply ispec_ret. intros w [Hd _]. split; [apply Hd | exact Hd].
      * eapply ispec_weaken with (Pre' := Open) (R' := Done); [exact IHvs | | auto].
        intros w [Hd Hstop]. exact (continue_Open false w eq_refl Hd (eq_sym Hstop)).
    + assert (Hnone : emptyPositions g = []).
      { rewrite findFirstEmpty_spec in Efirst.
        destruct (emptyPositions g); [reflexivity | discriminate]. }
      eapply ispec_bind with
        (R := fun validation w => Open w /\ validateAllRegions g searchRegions = Ret validation).
      { apply ispec_lift. intros w Hw. split; [now apply Open_Bounded | auto]. }
      intros validation. apply ispec_pre. intros Hval.
      destruct (negb (isValid validation)) eqn:Evalid; [apply backtrack_Done|].
      eapply ispec_bind;
        [apply (record_spec g (leaf_validated g validation Hnone Hval Evalid))|].
      intros [|].
      * apply ispec_ret. intros w [Hb Hi]. split; [exact Hb|]. split; auto.
      * apply ispec_ret. intros w [Hb _]. split; [exact Hb|]. split; [exact Hb|].
        intros Hf. right. right. now apply negb_false_iff in Hf.
Qed.

End Collecting.

Lemma Collected_removelast (rs : list Region) (bound : Z) (l : list Grid) :
  Collected rs bound l -> Collected rs bound (removelast l).
Proof.
  intros [Hlen Hall]. split; [|now apply Forall_removelast].
  assert (H : (List.length (removelast l) <= List.length l)%nat).
  { clear. induction l as [|a l IH]; simpl; [lia|]. destruct l; simpl in *; lia. }
  unfold len in *. lia.
Qed.

Lemma ispec_try_catch_finally {S A} (Pre I : S -> Prop) (body : M S A)
  (handler : exn -> M S A) (finalizer : M S unit) :
  ispec Pre I body (fun _ => I) ->
  (forall e, ispec I I (handler e) (fun _ => I)) ->
  ispec I I finalizer (fun _ => I) ->
  ispec Pre I (try_catch_finally body handler finalizer) (fun _ => I).
Proof.
  intros Hb Hh Hf st Hst. unfold try_catch_finally.
  destruct (Hb st Hst) as [H1 _]. destruct (body st) as [[a|e] st1]; simpl in H1.
  - destruct (Hf st1 H1) as [H3 _]. destruct (finalizer st1) as [[u|e3] st3];
      simpl in *; split; auto.
  - destruct (Hh e st1 H1) as [H2 _]. destruct (handler e st1) as [o2 st2]. simpl in H2.
    destruct (Hf st2 H2) as [H3 _]. destruct (finalizer st2) as [[u|e3] st3];
      simpl in *; split; auto.
Qed.

Section CollectedResult.

Variable rs : list Region.
Variable bound : Z.

(** The solutions in the result object and those in the context are
    validated and within the bound. *)
Definition BothCollected (st : SolveState) : Prop :=
  Collected rs bound (r_solutions (fst st)) /\ Collected rs bound (solutions (snd st)).

Lemma collected_onWorld {A} (P : World -> Prop) (m : M World A) (R : A -> World -> Prop) :
  ispec P (fun w => Collected rs bound (solutions w)) m R ->
  ispec (fun st => Collected rs bound (r_solutions (fst st)) /\ P (snd st))
        BothCollected (onWorld m)
        (fun a st => Collected rs bound (r_solutions (fst st)) /\ R a (snd st)).
Proof.
  intros Hm [r w] [Hr Hw]. unfold onWorld. simpl in *.
  destruct (Hm w Hw) as [HI HR]. destruct (m w) as [o w']. simpl in *.
  split; [split; assumption|]. intros a Ha. split; [assumption | now apply HR].
Qed.

Lemma collected_quiet {A} (m : M World A) :
  quiet m -> ispec BothCollected BothCollected (onWorld m) (fun _ => BothCollected).
Proof.
  intros Hm [r w] [Hr Hw]. unfold onWorld. simpl in *.
  destruct (Hm w) as [H1 _]. destruct (m w) as [o w']. simpl in *.
  assert (H : BothCollected (r, w')) by (split; simpl; [assumption | now rewrite H1]).
  split; [exact H | intros; exact H].
Qed.

Lemma collected_onResult (f : SolverResult -> SolverResult) :
  (forall r, r_solutions (f r) = r_solutions r) ->
  ispec BothCollected BothCollected (onResult f) (fun _ => BothCollected).
Proof.
  intros Hf [r w] [Hr Hw]. unfold onResult, BothCollected. simpl. rewrite Hf. auto.
Qed.

Lemma collected_set_solutions (l : list Grid) :
  Collected rs bound l ->
  ispec BothCollected BothCollected (onResult (set_r_solutions l))
        (fun _ => BothCollected).
Proof. intros Hl [r w] [Hr Hw]. unfold onResult, BothCollected. simpl. auto. Qed.

Lemma collected_lift {A} (o : outcome A) :
  ispec BothCollected BothCollected (liftM o) (fun _ => BothCollected).
Proof. apply ispec_lift. intros st Hst. split; [exact Hst | intros; exact Hst]. Qed.

End CollectedResult.

Lemma solveSudoku_try_collected (stackLimit : nat) (context : Context) (grid : Grid)
  (strategy : Strategy) :
  (forall r c, quiet (getCandidatesForCell context r c)) ->
  ispec (fun st => Collected (searchRegions context) (searchBound context)
                     (r_solutions (fst st)) /\ Ready context (snd st))
        (BothCollected (searchRegions context) (searchBound context))
        (solveSudoku_try stackLimit context grid strategy)
        (fun _ => BothCollected (searchRegions context) (searchBound context)).
Proof.
  intros Hcalc. unfold solveSudoku_try.
  set (rs := searchRegions context). set (bound := searchBound context).
  eapply ispec_bind with
    (R := fun _ st => Collected rs bound (r_solutions (fst st)) /\ Ready context (snd st)).
  { apply ispec_lift. intros st [Hr Hw].
    split; [split; [exact Hr | exact (Ready_Bounded context _ Hw)] | intros; split; assumption]. }
  intros initialValidation.
  destruct (negb (isValid initialValidation)).
  { eapply ispec_weaken with (Pre' := BothCollected rs bound)
                             (R' := fun _ => BothCollected rs bound);
      [| intros st [Hr Hw]; split; [exact Hr | exact (Ready_Bounded context _ Hw)] | auto].
    eapply ispec_bind; [apply collected_onResult; reflexivity|]. intros ?.
    apply collected_onResult. reflexivity. }
  eapply ispec_bind.
  { apply (collected_onWorld rs bound (Ready context)).
    destruct strategy; [apply (mrv_done context Hcalc) | apply (simple_done context Hcalc)]. }
  intros solved.
  eapply ispec_weaken with (Pre' := BothCollected rs bound)
                           (R' := fun _ => BothCollected rs bound);
    [| intros st [Hr [Hw _]]; split; assumption | auto].
  eapply ispec_bind with
    (R := fun found st => BothCollected rs bound st /\ Collected rs bound found).
  { intros [r w] [Hr Hw]. unfold onWorld, getsM. simpl.
    split; [split; assumption|]. intros val Hval. inversion Hval; subst.
    split; [split; assumption | exact Hw]. }
  intros found. apply ispec_pre. intros Hfound.
  eapply ispec_bind; [apply (collected_set_solutions rs bound found Hfound)|]. intros ?.
  eapply ispec_bind; [apply collected_quiet, quiet_gets|].
  intros [|].
  - destruct (len found >? 0); [|apply collected_onResult; reflexivity].
    destruct (lastSolution found) as [last|]; [|apply collected_lift].
    eapply ispec_bind; [apply collected_lift|]. intros validation.
    destruct (isValid validation).
    + eapply ispec_bind; [apply collected_onResult; reflexivity|]. intros ?.
      apply collected_onResult. reflexivity.
    + eapply ispec_bind;
        [apply (collected_set_solutions _ _ _ (Collected_removelast _ _ _ Hfound))|].
      intros ?.
      eapply ispec_bind; [apply collected_onResult; reflexivity|]. intros ?.
      apply collected_onResult. reflexivity.
  - eapply ispec_bind with (R := fun _ => BothCollected rs bound).
    { destruct (timeoutTimestamp context) as [ts|]; [|apply ispec_ret; auto].
      destruct (negb (ts =? 0)); [|apply ispec_ret; auto].
      eapply ispec_bind; [apply collected_quiet, quiet_dateNow|]. intros t.
      apply ispec_ret. auto. }
    intros [|].
    + eapply ispec_bind with (R := fun _ => BothCollected rs bound).
      { destruct (len found >? 0); [|apply ispec_ret; auto].
        destruct (lastSolution found) as [last|]; [|apply collected_lift].
        eapply ispec_bind; [apply collected_lift|]. intros validation.
        apply collected_onResult. reflexivity. }
      intros ?. apply collected_onResult. reflexivity.
    + destruct (len found >? 0).
      * eapply ispec_bind; [apply collected_onResult; reflexivity|]. intros ?.
        apply collected_onResult. reflexivity.
      * apply collected_onResult. reflexivity.
Qed.

Lemma Collected_nil (rs : list Region) (bound : Z) : 1 <= bound -> Collected rs bound [].
Proof. intros H. split; [unfold len; simpl; lia | constructor]. Qed.

Lemma solutionBound_pos (findAll : bool) (maxSols : Z) : 1 <= solutionBound findAll maxSols.
Proof. unfold solutionBound. destruct findAll; lia. Qed.

(** What holds of the solutions of every result of [solveSudoku]. *)
Lemma solveSudoku_collected (clock : nat -> Z) (stackLimit : nat) (grid : Grid)
  (config : SudokuConfig) (options : SolverOptions) (result : SolverResult) :
  solveSudoku clock stackLimit grid config options = Ret result ->
  Collected (regions config)
            (solutionBound (orDefault (o_findAllSolutions options) false)
                           (orDefault (o_maxSolutions options) 1))
            (r_solutions result).
Proof.
  unfold solveSudoku.
  set (rs := regions config).
  set (bound := solutionBound (orDefault (o_findAllSolutions options) false)
                              (orDefault (o_maxSolutions options) 1)).
  assert (Hpos : 1 <= bound) by apply solutionBound_pos.
  set (run := bindM (onWorld (dateNow clock)) _).
  set (Start := fun st : SolveState =>
                  r_solutions (fst st) = [] /\ solutions (snd st) = []).
  assert (Hrun : ispec Start (BothCollected rs bound) run
                       (fun r st => Collected rs bound (r_solutions r))).
  { unfold run. eapply ispec_bind with (R := fun _ => Start).
    { intros [r w] [Hr Hw]. unfold onWorld, dateNow. simpl in *.
      split; [|intros; split; assumption].
      split; simpl; [rewrite Hr | rewrite Hw]; apply Collected_nil; exact Hpos. }
    intros startTime.
    eapply ispec_bind with (R := fun _ => BothCollected rs bound).
    { apply ispec_try_catch_finally.
      - eapply ispec_weaken with
          (R' := fun _ => BothCollected rs bound);
          [exact (solveSudoku_try_collected stackLimit
                    (solverContext clock grid config options startTime) grid
                    (orDefault (o_strategy options) Fastest)
                    (quiet_closure grid config))
          | | auto].
        intros [r w] [Hr Hw]. cbn [fst snd] in *. split.
        + rewrite Hr. apply Collected_nil. exact Hpos.
        + split.
          * unfold Bounded. rewrite Hw. apply Collected_nil. exact Hpos.
          * right. rewrite Hw. change (0 < bound). lia.
      - intros e. unfold solveSudoku_catch.
        eapply ispec_bind; [apply collected_lift|]. intros errorMessage.
        eapply ispec_bind; [apply collected_onResult; reflexivity|]. intros ?.
        apply collected_onResult. reflexivity.
      - unfold solveSudoku_finally.
        eapply ispec_bind; [apply collected_quiet, quiet_dateNow|]. intros t.
        eapply ispec_bind.
        { apply collected_quiet. apply quiet_modify. intros w. split; reflexivity. }
        intros ?.
        eapply ispec_bind; [apply collected_quiet, quiet_gets|].
        intros finalStats. apply collected_onResult. reflexivity. }
    intros ?. apply ispec_gets. intros [r w] [Hr Hw]. split; [split; assumption | exact Hr]. }
  intros H.
  destruct (Hrun (mkSolverResult false [] None FR_error None None, initialWorld)) as [_ HR].
  { split; reflexivity. }
  now apply HR.
Qed.

(** X19. [solveSudoku] never returns more solutions than asked for: at most
    one unless [findAllSolutions] is set, and then at most [maxSolutions]
    (1 by default), or one when [maxSolutions] is less than 1. This holds
    for every grid, configuration, strategy, callback, clock and stack
    depth. *)
Theorem solveSudoku_solution_count (clock : nat -> Z) (stackLimit : nat) (grid : Grid)
  (config : SudokuConfig) (options : SolverOptions) (result : SolverResult) :
  solveSudoku clock stackLimit grid config options = Ret result ->
  len (r_solutions result)
  <= (if orDefault (o_findAllSolutions options) false
      then Z.max 1 (orDefault (o_maxSolutions options) 1)
      else 1).
Proof. intros H. exact (proj1 (solveSudoku_collected _ _ _ _ _ _ H)). Qed.

(** The generated 4x4 puzzle has two solutions; searched for all of them
    with [maxSolutions] 2, [solveSudoku] returns two. *)
Definition cappedResult : SolverResult :=
  match solveSudoku (fun n => Z.of_nat n) 30 generatedPuzzle fourByFourConfig
                    capAtTwoOptions with
  | Ret r => r
  | Throw _ => mkSolverResult false [] None FR_error None None
  end.

Lemma solveSudoku_solution_count_witness :
  len (r_solutions cappedResult)
  <= (if orDefault (o_findAllSolutions capAtTwoOptions) false
      then Z.max 1 (orDefault (o_maxSolutions capAtTwoOptions) 1)
      else 1)
  /\ len (r_solutions cappedResult) = 2.
Proof.
  split.
  - apply (solveSudoku_solution_count (fun n => Z.of_nat n) 30 generatedPuzzle
             fourByFourConfig capAtTwoOptions cappedResult).
    vm_compute. reflexivity.
  - vm_compute. reflexivity.
Defined.

(** X20. Every grid among the solutions of a [solveSudoku] result has no
    empty cell and is found valid by [validateAllRegions] for the regions
    of the configuration, whatever the input grid, the configuration, the
    strategy, the callback, the clock and the stack depth. *)
Theorem solveSudoku_solutions_validated (clock : nat -> Z) (stackLimit : nat)
  (grid : Grid) (config : SudokuConfig) (options : SolverOptions)
  (result : SolverResult) :
  solveSudoku clock stackLimit grid config options = Ret result ->
  forall s, In s (r_solutions result) ->
    (forall r c x, cellAt s r c = Ret x -> value x <> 0) /\
    passes s (regions config).
Proof.
  intros H s Hs.
  destruct (solveSudoku_collected _ _ _ _ _ _ H) as [_ Hall].
  rewrite Forall_forall in Hall. destruct (Hall s Hs) as [Hempty Hpass].
  split; [|exact Hpass].
  intros r c x Hx Hv.
  assert (Hin : In (r, c) (emptyPositions s)) by (apply emptyPositions_In; eauto).
  rewrite Hempty in Hin. contradiction.
Qed.

Lemma solveSudoku_solutions_validated_witness :
  (exists s, In s (r_solutions fourByFourResult)) /\
  forall s, In s (r_solutions fourByFourResult) ->
    (forall r c x, cellAt s r c = Ret x -> value x <> 0) /\
    passes s (regions fourByFourConfig).
Proof.
  split.
  - vm_compute. eexists. left. reflexivity.
  - apply (solveSudoku_solutions_validated (fun n => Z.of_nat n) 30 fourByFourPuzzle
             fourByFourConfig findAllOptions fourByFourResult).
    vm_compute. reflexivity.
Defined.

(* --------------------------------------------------------------------- *)
(** ** The solver: what the result object holds *)

Lemma xspec_lift {S A} (Pre : S -> Prop) (o : outcome A) (R : A -> S -> Prop)
  (E : S -> Prop) :
  (forall s, Pre s -> match o with Ret a => R a s | Throw _ => E s end) ->
  xspec Pre (liftM o) R E.
Proof. intros H s Hs. exact (H s Hs). Qed.

Lemma xspec_solver_onWorld {A} (m : M World A) (Q : SolverResult -> Prop) :
  xspec (fun st => Q (fst st)) (onWorld m)
        (fun _ st => Q (fst st)) (fun st => Q (fst st)).
Proof.
  intros [r w] Hs. unfold onWorld. simpl in *.
  destruct (m w) as [[a|e] w']; simpl; exact Hs.
Qed.

Lemma xspec_solver_onResult (f : SolverResult -> SolverResult)
  (Q Q' : SolverResult -> Prop) (E : SolveState -> Prop) :
  (forall r, Q r -> Q' (f r)) ->
  xspec (fun st => Q (fst st)) (onResult f) (fun _ st => Q' (fst st)) E.
Proof. intros Hf [r w] Hs. simpl in *. auto. Qed.

(** The result object while the search runs: nothing but the solutions has
    been written. *)
Definition Unfinished (found : list Grid) (r : SolverResult) : Prop :=
  success r = false /\ r_solutions r = found /\ failReason r = None.

(** How the flags of a result go together. *)
Definition flagsAgree (r : SolverResult) : Prop :=
  match finishReason r with
  | FR_solved | FR_interrupted_with_solution =>
      success r = true /\ r_solutions r <> [] /\ failReason r = None
  | FR_no_solution => success r = false /\ r_solutions r = []
  | FR_interrupted =>
      (success r = true <-> r_solutions r <> []) /\ failReason r = None
  | FR_timeout => (success r = true -> r_solutions r <> []) /\ failReason r = None
  | FR_error => success r = false /\ exists msg, failReason r = Some msg
  end.

Lemma len_positive {A} (l : list A) : (len l >? 0) = true -> l <> [].
Proof. intros H E. subst l. discriminate. Qed.

Lemma len_not_positive {A} (l : list A) : (len l >? 0) = false -> l = [].
Proof.
  intros H. destruct l as [|a l]; [reflexivity|]. unfold len in H.
  rewrite Z.gtb_ltb in H. apply Z.ltb_ge in H. cbn [List.length] in H.
  rewrite Nat2Z.inj_succ in H. lia.
Qed.

Lemma solveSudoku_try_flags (stackLimit : nat) (context : Context) (grid : Grid)
  (strategy : Strategy) :
  xspec (fun st => Unfinished [] (fst st))
        (solveSudoku_try stackLimit context grid strategy)
        (fun _ st => flagsAgree (fst st) /\ finishReason (fst st) <> FR_error)
        (fun st => success (fst st) = false).
Proof.
  unfold solveSudoku_try.
  eapply xspec_bind with (R := fun _ st => Unfinished [] (fst st)).
  { apply xspec_lift. intros st Hst.
    destruct (validateAllRegions grid (regions (config context))); [exact Hst | apply Hst]. }
  intros initialValidation.
  destruct (negb (isValid initialValidation)).
  { eapply xspec_bind.
    - apply (xspec_solver_onResult _ (Unfinished [])
               (fun r => Unfinished [] r /\ finishReason r = FR_no_solution)).
      intros r Hr. split; [exact Hr | reflexivity].
    - intros []. intros [r w] [(H1 & H2 & H3) H4]. simpl in *.
      unfold flagsAgree. simpl. rewrite H4. split; [split; assumption | discriminate]. }
  eapply xspec_bind.
  { eapply xspec_exn; [apply (xspec_solver_onWorld _ (Unfinished []))|].
    intros st H. apply H. }
  intros solved.
  eapply xspec_bind.
  { eapply xspec_exn; [apply (xspec_solver_onWorld _ (Unfinished []))|].
    intros st H. apply H. }
  intros found.
  eapply xspec_bind.
  { apply (xspec_solver_onResult _ (Unfinished []) (Unfinished found)).
    intros r (H1 & H2 & H3). repeat split; assumption. }
  intros [].
  eapply xspec_bind.
  { eapply xspec_exn; [apply (xspec_solver_onWorld _ (Unfinished found))|].
    intros st H. apply H. }
  intros [|].
  - destruct (len found >? 0) eqn:Efound.
    + apply len_positive in Efound.
      destruct (lastSolution found) as [last|];
        [|apply xspec_lift; intros st Hst; apply Hst].
      eapply xspec_bind with (R := fun _ st => Unfinished found (fst st)).
      { apply xspec_lift. intros st Hst.
        destruct (validateAllRegions last (regions (config context)));
          [exact Hst | apply Hst]. }
      intros validation. destruct (isValid validation).
      * eapply xspec_bind.
        { apply (xspec_solver_onResult _ (Unfinished found)
                   (fun r => Unfinished found r /\
                             finishReason r = FR_interrupted_with_solution)).
          intros r Hr. split; [exact Hr | reflexivity]. }
        intros []. intros [r w] [(H1 & H2 & H3) H4]. simpl in *.
        unfold flagsAgree. simpl. rewrite H4.
        split; [|discriminate]. repeat split; congruence.
      * eapply xspec_bind.
        { apply (xspec_solver_onResult _ (Unfinished found)
                   (Unfinished (dropLast found))).
          intros r (H1 & H2 & H3). repeat split; assumption. }
        intros []. eapply xspec_bind.
        { apply (xspec_solver_onResult _ (Unfinished (dropLast found))
                   (fun r => Unfinished (dropLast found) r /\
                             finishReason r = FR_interrupted)).
          intros r Hr. split; [exact Hr | reflexivity]. }
        intros []. intros [r w] [(H1 & H2 & H3) H4]. simpl in *.
        unfold flagsAgree. simpl. rewrite H4. split; [|discriminate].
        split; [|assumption]. rewrite H2.
        destruct (len (dropLast found) >? 0) eqn:Erest.
        -- split; [intros _; now apply len_positive | reflexivity].
        -- apply len_not_positive in Erest. rewrite Erest.
           split; [discriminate | congruence].
    + apply len_not_positive in Efound. subst found.
      intros [r w] (H1 & H2 & H3). simpl in *.
      unfold flagsAgree. simpl. split; [|discriminate].
      split; [|assumption]. rewrite H1, H2. split; [discriminate | congruence].
  - eapply xspec_bind with (R := fun _ st => Unfinished found (fst st)).
    { destruct (timeoutTimestamp context) as [ts|]; [|apply xspec_ret; auto].
      destruct (negb (ts =? 0)); [|apply xspec_ret; auto].
      eapply xspec_bind.
      - eapply xspec_exn; [apply (xspec_solver_onWorld _ (Unfinished found))|].
        intros st H. apply H.
      - intros t. apply xspec_ret. auto. }
    intros [|].
    + eapply xspec_bind with
        (R := fun _ st => (success (fst st) = true -> found <> []) /\
                          r_solutions (fst st) = found /\ failReason (fst st) = None).
      { destruct (len found >? 0) eqn:Efound.
        - apply len_positive in Efound.
          destruct (lastSolution found) as [last|];
            [|apply xspec_lift; intros st Hst; apply Hst].
          eapply xspec_bind with (R := fun _ st => Unfinished found (fst st)).
          { apply xspec_lift. intros st Hst.
            destruct (validateAllRegions last (regions (config context)));
              [exact Hst | apply Hst]. }
          intros validation. intros [r w] (H1 & H2 & H3). simpl in *. auto.
        - apply xspec_ret. intros [r w] (H1 & H2 & H3). simpl in *.
          repeat split; try assumption. congruence. }
      intros []. intros [r w] (H1 & H2 & H3). simpl in *.
      unfold flagsAgree. simpl. split; [|discriminate].
      split; [|assumption]. rewrite H2. exact H1.
    + destruct (len found >? 0) eqn:Efound.
      * apply len_positive in Efound. eapply xspec_bind.
        { apply (xspec_solver_onResult _ (Unfinished found)
                   (fun r => Unfinished found r /\ finishReason r = FR_solved)).
          intros r Hr. split; [exact Hr | reflexivity]. }
        intros []. intros [r w] [(H1 & H2 & H3) H4]. simpl in *.
        unfold flagsAgree. simpl. rewrite H4.
        split; [|discriminate]. repeat split; congruence.
      * apply len_not_positive in Efound. subst found.
        intros [r w] (H1 & H2 & H3). simpl in *.
        unfold flagsAgree. simpl. split; [|discriminate]. split; assumption.
Qed.

(** X21. The flags of every [solveSudoku] result go together. With finish
    reason solved or interrupted-with-solution the result is a success and
    holds a solution; with no-solution it is a failure without solutions;
    with interrupted it is a success exactly when it holds a solution; with
    timeout a success holds a solution; with error it is a failure that
    carries a fail reason. Only a failure carries a [failReason], and
    [stats] is missing exactly when [collectStats] was switched off. *)
Theorem solveSudoku_result_flags (clock : nat -> Z) (stackLimit : nat) (grid : Grid)
  (config : SudokuConfig) (options : SolverOptions) (result : SolverResult) :
  solveSudoku clock stackLimit grid config options = Ret result ->
  flagsAgree result /\
  (success result = true -> r_solutions result <> [] /\ failReason result = None) /\
  (r_stats result = None <-> o_collectStats options = Some false).
Proof.
  unfold solveSudoku.
  unfold bindM at 1. unfold onWorld at 1. unfold dateNow at 1.
  cbn [snd fst]. unfold bindM at 1. unfold try_catch_finally.
  match goal with
  | |- context [solveSudoku_try ?a ?b ?c ?d ?s] =>
      pose proof (solveSudoku_try_flags a b c d s
                    (conj eq_refl (conj eq_refl eq_refl))) as HF;
      destruct (solveSudoku_try a b c d s) as [[u|e0] [r w]]
  end; cbn in HF.
  - cbn; intros H; inversion H; subst result; clear H.
    destruct HF as [Hflags Hne]. unfold flagsAgree in *. cbn.
    split; [exact Hflags|]. split.
    + intros Hok.
      destruct (finishReason r); destruct Hflags as (H1 & H2); split;
        try tauto; congruence.
    + destruct (o_collectStats options) as [[|]|]; cbn; split; intros; congruence.
  - cbn [fst]. unfold solveSudoku_catch. unfold bindM at 1. unfold liftM.
    destruct (errorMessageOf e0) as [text|raised]; cbn; intros H; [|discriminate H].
    inversion H; subst result; clear H.
    unfold flagsAgree. cbn. split; [split; [exact HF | eauto]|]. split.
    + intros Hok. congruence.
    + destruct (o_collectStats options) as [[|]|]; cbn; split; intros; congruence.
Qed.

Lemma solveSudoku_result_flags_witness :
  flagsAgree fourByFourResult /\
  (success fourByFourResult = true ->
   r_solutions fourByFourResult <> [] /\ failReason fourByFourResult = None) /\
  (r_stats fourByFourResult = None <-> o_collectStats findAllOptions = Some false).
Proof.
  apply (solveSudoku_result_flags (fun n => Z.of_nat n) 30 fourByFourPuzzle
           fourByFourConfig findAllOptions fourByFourResult).
  vm_compute. reflexivity.
Defined.

(** A 4x4 grid that holds the digit 1 twice in its first row. *)
Definition clashingGrid : Grid :=
  createGridFromValues [[1; 1; 0; 0]; [0; 0; 0; 0]; [0; 0; 0; 0]; [0; 0; 0; 0]].

Definition clashingValidation : ValidationResult :=
  match validateAllRegions clashingGrid (regions fourByFourConfig) with
  | Ret v => v
  | Throw _ => mkValidation true [] None None
  end.

Lemma solverContext_config (clock : nat -> Z) (grid : Grid) (cfg : SudokuConfig)
  (options : SolverOptions) (startTime : Z) :
  config (solverContext clock grid cfg options startTime) = cfg.
Proof. reflexivity. Qed.

(** X22. A grid that [validateAllRegions] finds invalid is not searched:
    [solveSudoku] returns at once a failure with finish reason no-solution,
    the fixed fail reason, no solution, and statistics that count no
    assignment, backtrack or candidate calculation; the time is the
    difference of the two clock readings. *)
Theorem solveSudoku_invalid_grid (clock : nat -> Z) (stackLimit : nat) (grid : Grid)
  (config : SudokuConfig) (options : SolverOptions) (validation : ValidationResult) :
  validateAllRegions grid (regions config) = Ret validation ->
  isValid validation = false ->
  solveSudoku clock stackLimit grid config options
  = Ret (mkSolverResult false []
           (if orDefault (o_collectStats options) true
            then Some (mkSolverStats (clock 1%nat - clock 0%nat) 0 0 0 0)
            else None)
           FR_no_solution (Some "初始网格无效") None).
Proof.
  intros Hv Hinvalid. unfold solveSudoku, solveSudoku_try.
  unfold bindM at 1. unfold onWorld at 1. unfold dateNow at 1.
  cbn [snd fst]. unfold bindM at 1. unfold try_catch_finally.
  unfold bindM at 1. unfold liftM at 1.
  rewrite solverContext_config, Hv, Hinvalid. cbn.
  destruct (o_collectStats options) as [[|]|]; reflexivity.
Qed.

Lemma solveSudoku_invalid_grid_witness :
  solveSudoku (fun n => Z.of_nat n) 30 clashingGrid fourByFourConfig findAllOptions
  = Ret (mkSolverResult false []
           (if orDefault (o_collectStats findAllOptions) true
            then Some (mkSolverStats (Z.of_nat 1 - Z.of_nat 0) 0 0 0 0)
            else None)
           FR_no_solution (Some "初始网格无效") None).
Proof.
  apply (solveSudoku_invalid_grid (fun n => Z.of_nat n) 30 clashingGrid fourByFourConfig
           findAllOptions clashingValidation).
  - vm_compute. reflexivity.
  - vm_compute. reflexivity.
Defined.

(* --------------------------------------------------------------------- *)
(** ** The standard regions ([regions/helpers.ts]) *)

Lemma filter_map_comm {A B} (p : B -> bool) (f : A -> B) (l : list A) :
  filter p (map f l) = map f (filter (fun x => p (f x)) l).
Proof.
  induction l as [|a l IH]; simpl; [reflexivity|].
  destruct (p (f a)); simpl; now rewrite IH.
Qed.

Lemma filter_none {A} (p : A -> bool) (l : list A) :
  (forall x, In x l -> p x = false) -> filter p l = [].
Proof.
  induction l as [|a l IH]; intros H; simpl; [reflexivity|].
  rewrite (H a) by now left. apply IH. intros x Hx. apply H. now right.
Qed.

Lemma filter_one_of_range (k : Z) (m : nat) :
  forall a : nat,
    (a <= Z.to_nat k < a + m)%nat -> 0 <= k ->
    filter (fun i => i =? k) (map Z.of_nat (seq a m)) = [k].
Proof.
  induction m as [|m IH]; intros a Ha Hk; [lia|].
  simpl. destruct (Z.eqb_spec (Z.of_nat a) k) as [E|E].
  - rewrite filter_none; [now rewrite E|].
    intros x Hx. apply in_map_iff in Hx as (n & <- & Hn). apply in_seq in Hn.
    apply Z.eqb_neq. lia.
  - apply IH; lia.
Qed.

Lemma filter_one_of_range0 (p : Z -> bool) (n k : Z) :
  0 <= k < n ->
  (forall i, 0 <= i < n -> p i = (i =? k)) ->
  filter p (range0 n) = [k].
Proof.
  intros Hk Hp. rewrite (filter_ext_in p (fun i => i =? k)).
  - unfold range0. apply filter_one_of_range; lia.
  - intros i Hi. apply Hp. now apply range0_bounds.
Qed.

Lemma existsb_coord (rc : Coord) (l : list Coord) (b : bool) :
  (In rc l <-> b = true) -> existsb (fun x => coord_eqb x rc) l = b.
Proof.
  intros H. destruct b.
  - apply existsb_exists. exists rc. split; [now apply H | apply coord_eqb_refl].
  - destruct (existsb (fun x => coord_eqb x rc) l) eqn:E; [|reflexivity].
    apply existsb_exists in E as (x & Hx & Ex). apply coord_eqb_eq in Ex. subst x.
    apply H in Hx. discriminate.
Qed.

Lemma in_block (sr sc bw bh r c : Z) :
  In (r, c) (flat_map (fun i => map (fun j => (sr + i, sc + j)) (range0 bw)) (range0 bh))
  <-> (sr <= r < sr + bh /\ sc <= c < sc + bw).
Proof.
  rewrite in_flat_map. split.
  - intros (i & Hi & Hin). apply in_map_iff in Hin as (j & E & Hj).
    apply range0_bounds in Hi. apply range0_bounds in Hj. inversion E; subst. lia.
  - intros [Hr Hc]. exists (r - sr). split; [apply range0_In; lia|].
    apply in_map_iff. exists (c - sc). split; [f_equal; lia | apply range0_In; lia].
Qed.

(** The block that holds the cell [(r, c)], counted row by row. *)
Definition blockOf (bw bh r c : Z) : Z := (r / bh) * bh + c / bw.

Lemma block_index (bw bh r c b : Z) :
  1 <= bw -> 1 <= bh -> 0 <= r < bw * bh -> 0 <= c < bw * bh -> 0 <= b < bw * bh ->
  ((b / bh) * bh <= r < (b / bh) * bh + bh /\
   (Z.rem b bh) * bw <= c < (Z.rem b bh) * bw + bw)
  <-> b = blockOf bw bh r c.
Proof.
  intros Hbw Hbh Hr Hc Hb. unfold blockOf.
  rewrite Z.rem_mod_nonneg by lia.
  pose proof (Z.div_mod b bh ltac:(lia)) as Eb.
  pose proof (Z.mod_pos_bound b bh ltac:(lia)) as Mb.
  pose proof (Z.div_mod r bh ltac:(lia)) as Er.
  pose proof (Z.mod_pos_bound r bh ltac:(lia)) as Mr.
  pose proof (Z.div_mod c bw ltac:(lia)) as Ec.
  pose proof (Z.mod_pos_bound c bw ltac:(lia)) as Mc.
  assert (Hcq : 0 <= c / bw < bh).
  { split; [apply Z.div_pos; lia|]. apply Z.div_lt_upper_bound; lia. }
  split.
  - intros [H1 H2].
    assert (E1 : r / bh = b / bh).
    { symmetry. apply (Z.div_unique r bh (b / bh) (r - (b / bh) * bh)); lia. }
    assert (E2 : c / bw = b mod bh).
    { symmetry. apply (Z.div_unique c bw (b mod bh) (c - (b mod bh) * bw)); lia. }
    rewrite E1, E2. lia.
  - intros ->.
    assert (E1 : (r / bh * bh + c / bw) / bh = r / bh).
    { symmetry. apply (Z.div_unique _ bh (r / bh) (c / bw)); lia. }
    assert (E2 : (r / bh * bh + c / bw) mod bh = c / bw).
    { symmetry. apply (Z.mod_unique _ bh (r / bh) (c / bw)); lia. }
    rewrite E1, E2. lia.
Qed.

(** X23. With blocks of [bw] by [bh] cells in a grid of size [bw * bh],
    each cell of the grid lies in exactly three of the regions that
    [generateStandardRegions] makes, listed in this order: its row, its
    column, and the block that starts at the multiples of the block height
    and width below it. The function makes three regions for each index,
    every region has as many cells as the size, and all of them lie inside
    the grid. *)
Theorem standard_regions_of_a_cell (bw bh r c : Z) :
  1 <= bw -> 1 <= bh -> 0 <= r < bw * bh -> 0 <= c < bw * bh ->
  regionsContaining (generateStandardRegions (bw * bh) bw bh) r c
  = [ mkRegion ("row-" ++ Js.string_of_Z r) RT_row
               (map (fun col => (r, col)) (range0 (bw * bh))) None;
      mkRegion ("col-" ++ Js.string_of_Z c) RT_column
               (map (fun row => (row, c)) (range0 (bw * bh))) None;
      mkRegion ("block-" ++ Js.string_of_Z (blockOf bw bh r c)) RT_block
               (flat_map (fun i => map (fun j => ((r / bh) * bh + i, (c / bw) * bw + j))
                                       (range0 bw))
                         (range0 bh)) None ]
  /\ len (generateStandardRegions (bw * bh) bw bh) = 3 * (bw * bh)
  /\ forall region, In region (generateStandardRegions (bw * bh) bw bh) ->
       len (cells region) = bw * bh /\
       forall rc, In rc (cells region) ->
                  0 <= fst rc < bw * bh /\ 0 <= snd rc < bw * bh.
Proof.
  intros Hbw Hbh Hr Hc.
  assert (Hsize : 0 <= bw * bh) by lia.
  assert (Hper : bw * bh / bw = bh) by (rewrite Z.mul_comm; apply Z.div_mul; lia).
  assert (Hblock : 0 <= blockOf bw bh r c < bw * bh).
  { unfold blockOf.
    pose proof (Z.div_mod r bh ltac:(lia)) as Er.
    pose proof (Z.mod_pos_bound r bh ltac:(lia)) as Mr.
    assert (0 <= r / bh < bw).
    { split; [apply Z.div_pos; lia|]. apply Z.div_lt_upper_bound; lia. }
    assert (0 <= c / bw < bh).
    { split; [apply Z.div_pos; lia|]. apply Z.div_lt_upper_bound; lia. }
    nia. }
  split; [|split].
  - unfold regionsContaining, generateStandardRegions.
    rewrite !filter_app, !filter_map_comm. cbn [cells]. rewrite Hper.
    rewrite (filter_one_of_range0 _ (bw * bh) r Hr).
    2:{ intros i Hi. apply existsb_coord. rewrite in_map_iff. rewrite Z.eqb_eq. split.
        - intros (col & E & _). inversion E. reflexivity.
        - intros ->. exists c. split; [reflexivity | now apply range0_In]. }
    rewrite (filter_one_of_range0 _ (bw * bh) c Hc).
    2:{ intros i Hi. apply existsb_coord. rewrite in_map_iff. rewrite Z.eqb_eq. split.
        - intros (row & E & _). inversion E. reflexivity.
        - intros ->. exists r. split; [reflexivity | now apply range0_In]. }
    rewrite (filter_one_of_range0 _ (bw * bh) (blockOf bw bh r c) Hblock).
    2:{ intros b Hb. apply existsb_coord. rewrite in_block, Z.eqb_eq.
        apply block_index; assumption. }
    cbn [map app]. do 3 f_equal.
    assert (E := proj2 (block_index bw bh r c (blockOf bw bh r c) Hbw Hbh Hr Hc Hblock)
                       eq_refl).
    assert (E1 : blockOf bw bh r c / bh = r / bh).
    { symmetry. unfold blockOf.
      assert (0 <= c / bw < bh).
      { split; [apply Z.div_pos; lia|]. apply Z.div_lt_upper_bound; lia. }
      apply (Z.div_unique _ bh (r / bh) (c / bw)); lia. }
    assert (E2 : Z.rem (blockOf bw bh r c) bh = c / bw).
    { rewrite Z.rem_mod_nonneg by lia. symmetry. unfold blockOf.
      assert (0 <= c / bw < bh).
      { split; [apply Z.div_pos; lia|]. apply Z.div_lt_upper_bound; lia. }
      apply (Z.mod_unique _ bh (r / bh) (c / bw)); lia. }
    rewrite E1, E2. reflexivity.
  - unfold generateStandardRegions, len. rewrite !length_app, !length_map.
    unfold range0. rewrite length_map, length_seq. lia.
  - intros region Hin. unfold generateStandardRegions in Hin.
    rewrite !in_app_iff, !in_map_iff in Hin.
    destruct Hin as [(i & <- & Hi) | [(i & <- & Hi) | (b & <- & Hb)]]; cbn [cells].
    + apply range0_bounds in Hi. split.
      * unfold len. rewrite length_map. apply (len_range0 _ Hsize).
      * intros rc Hrc. apply in_map_iff in Hrc as (j & <- & Hj).
        apply range0_bounds in Hj. simpl. lia.
    + apply range0_bounds in Hi. split.
      * unfold len. rewrite length_map. apply (len_range0 _ Hsize).
      * intros rc Hrc. apply in_map_iff in Hrc as (j & <- & Hj).
        apply range0_bounds in Hj. simpl. lia.
    + apply range0_bounds in Hb. rewrite Hper.
      rewrite Z.rem_mod_nonneg by lia.
      pose proof (Z.div_mod b bh ltac:(lia)) as Eb.
      pose proof (Z.mod_pos_bound b bh ltac:(lia)) as Mb.
      assert (Hq : 0 <= b / bh < bw).
      { split; [apply Z.div_pos; lia|]. apply Z.div_lt_upper_bound; lia. }
      split.
      * unfold len. rewrite (flat_map_constant_length (c := Z.to_nat bw)).
        -- unfold range0. rewrite length_map, length_seq. nia.
        -- intros i _. unfold range0. now rewrite !length_map, length_seq.
      * intros [r' c'] Hrc. apply in_block in Hrc. simpl. nia.
Qed.

Lemma standard_regions_of_a_cell_witness :
  regionsContaining (generateStandardRegions (3 * 2) 3 2) 3 4
  = [ mkRegion ("row-" ++ Js.string_of_Z 3) RT_row
               (map (fun col => (3, col)) (range0 (3 * 2))) None;
      mkRegion ("col-" ++ Js.string_of_Z 4) RT_column
               (map (fun row => (row, 4)) (range0 (3 * 2))) None;
      mkRegion ("block-" ++ Js.string_of_Z (blockOf 3 2 3 4)) RT_block
               (flat_map (fun i => map (fun j => ((3 / 2) * 2 + i, (4 / 3) * 3 + j))
                                       (range0 3))
                         (range0 2)) None ]
  /\ len (generateStandardRegions (3 * 2) 3 2) = 3 * (3 * 2)
  /\ forall region, In region (generateStandardRegions (3 * 2) 3 2) ->
       len (cells region) = 3 * 2 /\
       forall rc, In rc (cells region) ->
                  0 <= fst rc < 3 * 2 /\ 0 <= snd rc < 3 * 2.
Proof. apply (standard_regions_of_a_cell 3 2 3 4); lia. Defined.

(* --------------------------------------------------------------------- *)
(** ** The cell selection heuristics ([solvers/heuristics.ts]) *)

Section SortByKey.

Context {A : Type}.
Variable cmp : A -> A -> Z.
Variable key : A -> Z.
Hypothesis cmp_key : forall a b, cmp a b = key a - key b.

Lemma insertSorted_sorted (x : A) (l : list A) :
  StronglySorted (fun a b => key a <= key b) l ->
  StronglySorted (fun a b => key a <= key b) (insertSorted cmp x l).
Proof.
  induction l as [|y ys IH]; intros Hs; simpl.
  - constructor; constructor.
  - inversion Hs as [|? ? Hys Hy]; subst.
    destruct (Z.leb_spec (cmp x y) 0) as [Hle|Hgt]; rewrite cmp_key in *.
    + constructor; [assumption|]. constructor; [lia|].
      rewrite Forall_forall in *. intros z Hz. specialize (Hy z Hz). lia.
    + constructor; [now apply IH|].
      rewrite Forall_forall in *. intros z Hz. apply insertSorted_In in Hz.
      destruct Hz as [-> | Hz]; [lia | now apply Hy].
Qed.

Lemma stableSort_sorted (l : list A) :
  StronglySorted (fun a b => key a <= key b) (stableSort cmp l).
Proof.
  induction l as [|x l IH]; simpl; [constructor|]. now apply insertSorted_sorted.
Qed.

Lemma stableSort_head (l : list A) (x : A) (rest : list A) :
  stableSort cmp l = x :: rest -> forall y, In y l -> key x <= key y.
Proof.
  intros E y Hy. pose proof (stableSort_sorted l) as Hs. rewrite E in Hs.
  apply (stableSort_In cmp) in Hy. rewrite E in Hy.
  inversion Hs as [|? ? _ Hall]; subst. destruct Hy as [<- | Hy]; [lia|].
  rewrite Forall_forall in Hall. now apply Hall.
Qed.

End SortByKey.

Lemma mapM_covers {A B} (f : A -> outcome B) (xs : list A) :
  forall ys, mapM f xs = Ret ys ->
             forall x, In x xs -> exists y, In y ys /\ f x = Ret y.
Proof.
  induction xs as [|a xs IH]; simpl; intros ys H x Hx; [contradiction|].
  destruct (f a) as [b|] eqn:Ef; [|discriminate].
  destruct (mapM f xs) as [bs|] eqn:Em; [|discriminate].
  inversion H; subst. destruct Hx as [<- | Hx].
  - exists b. split; [now left | assumption].
  - destruct (IH bs eq_refl x Hx) as (y & Hy & Hf). exists y. split; [now right | assumption].
Qed.

(** The record that the tie-break attaches a degree to. *)
Definition withDegree (cell : CellCandidateInfo) (d : Z) : CellCandidateInfo :=
  mkInfo (i_row cell) (i_col cell) (i_candidates cell) (i_count cell) (Some d).

Lemma breakTies_maximum (g : Grid) (config : SudokuConfig)
  (tied : list CellCandidateInfo) (selected : CellCandidateInfo) :
  breakTiesByDegreeHeuristic g config tied = Ret selected ->
  exists info d,
    In info tied /\ selected = withDegree info d /\
    calculateConstraintDegree g config (i_row info) (i_col info) = Ret d /\
    forall o d_o, In o tied ->
      calculateConstraintDegree g config (i_row o) (i_col o) = Ret d_o -> d_o <= d.
Proof.
  unfold breakTiesByDegreeHeuristic.
  match goal with
  | |- match mapM ?f tied with _ => _ end = _ -> _ => set (attach := f)
  end.
  destruct (mapM attach tied) as [tied'|] eqn:Em; [|discriminate].
  destruct (stableSort (fun a b => degreeOrZero b - degreeOrZero a) tied')
    as [|first rest] eqn:Es; [discriminate|].
  intros H. inversion H; subst first. clear H.
  assert (Hin : In selected tied').
  { apply (stableSort_In (fun a b => degreeOrZero b - degreeOrZero a)).
    rewrite Es. now left. }
  destruct (mapM_In _ _ _ Em selected Hin) as (info & Hinfo & Hattach).
  unfold attach in Hattach.
  destruct (calculateConstraintDegree g config (i_row info) (i_col info)) as [d|] eqn:Ed;
    [|discriminate].
  assert (Hsel : selected = withDegree info d) by (inversion Hattach; reflexivity).
  clear Hattach. exists info, d.
  split; [assumption|]. split; [exact Hsel|]. split; [exact Ed|].
  intros o d_o Ho Hd_o.
  destruct (mapM_covers _ _ _ Em o Ho) as (o' & Ho' & Hattach').
  unfold attach in Hattach'. rewrite Hd_o in Hattach'.
  assert (Ho'eq : o' = withDegree o d_o) by (inversion Hattach'; reflexivity).
  assert (Hkey : forall a b : CellCandidateInfo,
             degreeOrZero b - degreeOrZero a = - degreeOrZero a - - degreeOrZero b)
    by (intros; lia).
  pose proof (stableSort_head (fun a b => degreeOrZero b - degreeOrZero a)
                (fun a => - degreeOrZero a) Hkey
                tied' selected rest Es o' Ho') as Hle.
  cbv beta in Hle.
  rewrite Hsel, Ho'eq in Hle. unfold degreeOrZero, withDegree in Hle.
  simpl in Hle. lia.
Qed.

(** X24. [selectCellWithMRV] returns null when
    [getAllEmptyCellsCandidates] finds no empty cell, and only then.
    Otherwise the cell it returns, when it returns, is one of the empty
    cells, none of which has fewer candidates; and when that number is not
    zero, no empty cell with as few candidates has a larger constraint
    degree. It leaves the state as [getAllEmptyCellsCandidates] left it. *)
Theorem selectCellWithMRV_picks_minimum (g : Grid) (config : SudokuConfig)
  (calc : Z -> Z -> M World (list Z)) (w w1 : World) (infos : list CellCandidateInfo) :
  getAllEmptyCellsCandidates g config calc w = (Ret infos, w1) ->
  (infos = [] -> selectCellWithMRV g config calc w = (Ret None, w1)) /\
  (infos <> [] ->
   snd (selectCellWithMRV g config calc w) = w1 /\
   forall res, fst (selectCellWithMRV g config calc w) = Ret res ->
     exists sel info,
       res = Some sel /\ In info infos /\ sameCell sel info /\
       i_count sel = i_count info /\
       (forall o, In o infos -> i_count sel <= i_count o) /\
       (i_count sel <> 0 ->
        forall o d_o d, In o infos -> i_count o = i_count sel ->
          calculateConstraintDegree g config (i_row o) (i_col o) = Ret d_o ->
          calculateConstraintDegree g config (i_row sel) (i_col sel) = Ret d ->
          d_o <= d)).
Proof.
  intros Hall. unfold selectCellWithMRV, bindM. rewrite Hall. split.
  - intros ->. reflexivity.
  - intros Hne. destruct infos as [|i0 rest0]; [congruence|].
    set (emptyCells := i0 :: rest0) in *.
    set (cmp := fun a b => i_count a - i_count b).
    destruct (stableSort cmp emptyCells) as [|first rest] eqn:Es.
    { apply stableSort_nil in Es. discriminate. }
    assert (Hfirst : In first emptyCells).
    { apply (stableSort_In cmp). rewrite Es. now left. }
    assert (Hmin : forall o, In o emptyCells -> i_count first <= i_count o).
    { intros o Ho.
      exact (stableSort_head cmp i_count (fun a b => eq_refl) emptyCells first rest Es
               o Ho). }
    destruct (Z.eqb_spec (i_count first) 0) as [Hzero|Hnz].
    { split; [reflexivity|]. intros res Hres. inversion Hres; subst res.
      exists first, first. repeat split; auto. intros Hc. contradiction. }
    assert (Hfilter : forall o,
               In o (filter (fun cell => i_count cell =? i_count first) (first :: rest))
               <-> In o emptyCells /\ i_count o = i_count first).
    { intros o. rewrite filter_In, <- Es, (stableSort_In cmp), Z.eqb_eq. tauto. }
    destruct (filter (fun cell => i_count cell =? i_count first) (first :: rest))
      as [|sel [|y ys]] eqn:Ef.
    + unfold liftM, retM. simpl. split; [reflexivity | discriminate].
    + split; [reflexivity|]. intros res Hres. inversion Hres; subst res.
      destruct (proj1 (Hfilter sel) (or_introl eq_refl)) as [Hsel Hcount].
      exists sel, sel. repeat split; auto.
      * intros o Ho. rewrite Hcount. now apply Hmin.
      * intros _ o d_o d Ho Hco Hd_o Hd.
        assert (Ho' : In o [sel]) by (apply Hfilter; split; congruence).
        destruct Ho' as [<- | []]. rewrite Hd_o in Hd. inversion Hd. lia.
    + unfold liftM.
      destruct (breakTiesByDegreeHeuristic g config (sel :: y :: ys)) as [selected|e] eqn:Eb;
        simpl; (split; [reflexivity|]); [|discriminate].
      intros res Hres. inversion Hres; subst res.
      destruct (breakTies_maximum g config _ selected Eb)
        as (info & d & Hinfo & Hsel & Hd & Hmax).
      destruct (proj1 (Hfilter info) Hinfo) as [Hin Hcount].
      exists selected, info. subst selected. cbn [withDegree i_count i_row i_col].
      split; [reflexivity|]. split; [assumption|].
      split; [repeat split|]. split; [reflexivity|]. split.
      * intros o Ho. rewrite Hcount. now apply Hmin.
      * intros _ o d_o d' Ho Hco Hd_o Hd'. rewrite Hd in Hd'. inversion Hd'; subst d'.
        apply (Hmax o d_o); [|assumption]. apply Hfilter.
        split; [exact Ho | cbn in Hco; lia].
Qed.

(** The empty cells of [fourByFourPuzzle] with their candidates, as the
    closure of [solveSudoku] computes them at the start of a search. *)
Definition fourByFourScan : outcome (list CellCandidateInfo) * World :=
  getAllEmptyCellsCandidates fourByFourPuzzle fourByFourConfig
    (candidatesClosure fourByFourPuzzle fourByFourConfig) initialWorld.

Definition fourByFourInfos : list CellCandidateInfo :=
  match fst fourByFourScan with
  | Ret infos => infos
  | Throw _ => []
  end.

Lemma selectCellWithMRV_picks_minimum_witness :
  fourByFourInfos <> [] /\
  snd (selectCellWithMRV fourByFourPuzzle fourByFourConfig
         (candidatesClosure fourByFourPuzzle fourByFourConfig) initialWorld)
  = snd fourByFourScan.
Proof.
  split; [vm_compute; discriminate|].
  apply (selectCellWithMRV_picks_minimum fourByFourPuzzle fourByFourConfig
           (candidatesClosure fourByFourPuzzle fourByFourConfig) initialWorld
           (snd fourByFourScan) fourByFourInfos).
  - vm_compute. reflexivity.
  - vm_compute. discriminate.
Defined.

Lemma degree_inner (g : Grid) (r c : Z) (l : list Coord) :
  forall acc acc',
    foldM (fun affectedCells rc =>
             if negb (coord_eqb rc (r, c)) then
               match cellAt g (fst rc) (snd rc) with
               | Throw e => Throw e
               | Ret x => if value x =? 0 then Ret (affectedCells ++ [rc])
                          else Ret affectedCells
               end
             else Ret affectedCells) l acc = Ret acc' ->
    forall rc, In rc acc' <->
               In rc acc \/ (In rc l /\ rc <> (r, c) /\ isHole g rc = true).
Proof.
  induction l as [|a l IH]; intros acc acc' H rc.
  - simpl in H. inversion H; subst. simpl. tauto.
  - rewrite foldM_cons in H.
    destruct (coord_eqb a (r, c)) eqn:Ea; cbn [negb] in H.
    + apply coord_eqb_eq in Ea. rewrite (IH _ _ H). simpl. split.
      * intros [H1 | (H1 & H2 & H3)]; auto.
      * intros [H1 | ([H1 | H1] & H2 & H3)]; auto. congruence.
    + apply coord_eqb_neq in Ea.
      destruct (cellAt g (fst a) (snd a)) as [x|] eqn:Ex; [|discriminate].
      assert (Hhole : isHole g a = (value x =? 0)) by (unfold isHole; now rewrite Ex).
      destruct (value x =? 0) eqn:Ev.
      * rewrite (IH _ _ H), in_app_iff. simpl. split.
        -- intros [[H1 | [<- | []]] | (H1 & H2 & H3)]; auto.
        -- intros [H1 | ([<- | H1] & H2 & H3)]; auto.
      * rewrite (IH _ _ H). simpl. split.
        -- intros [H1 | (H1 & H2 & H3)]; auto.
        -- intros [H1 | ([<- | H1] & H2 & H3)]; auto. congruence.
Qed.

Lemma degree_outer (g : Grid) (r c : Z) (rs : list Region) :
  forall acc acc',
    foldM (fun affectedCells region =>
             foldM (fun affectedCells rc =>
                      if negb (coord_eqb rc (r, c)) then
                        match cellAt g (fst rc) (snd rc) with
                        | Throw e => Throw e
                        | Ret x => if value x =? 0 then Ret (affectedCells ++ [rc])
                                   else Ret affectedCells
                        end
                      else Ret affectedCells) (cells region) affectedCells)
          rs acc = Ret acc' ->
    forall rc, In rc acc' <->
               In rc acc \/
               (rc <> (r, c) /\ isHole g rc = true /\
                exists region, In region rs /\ In rc (cells region)).
Proof.
  induction rs as [|region rs IH]; intros acc acc' H rc.
  - simpl in H. inversion H; subst. split; [auto|].
    intros [H1 | (_ & _ & region & [] & _)]. exact H1.
  - rewrite foldM_cons in H.
    match type of H with
    | match ?m with _ => _ end = _ => destruct m as [acc1|] eqn:E1; [|discriminate]
    end.
    rewrite (IH _ _ H), (degree_inner g r c _ _ _ E1). split.
    + intros [[H1 | (H1 & H2 & H3)] | (H2 & H3 & region' & H4 & H5)]; auto.
      * right. repeat split; auto. exists region. split; [now left | assumption].
      * right. repeat split; auto. exists region'. split; [now right | assumption].
    + intros [H1 | (H2 & H3 & region' & [<- | H4] & H5)]; auto.
      right. repeat split; auto. exists region'. split; assumption.
Qed.

(** X25. The constraint degree of a cell, when [calculateConstraintDegree]
    returns one, is the number of distinct empty cells other than the cell
    itself that share a region with it. *)
Theorem calculateConstraintDegree_counts (g : Grid) (config : SudokuConfig)
  (r c d : Z) :
  calculateConstraintDegree g config r c = Ret d ->
  exists affected,
    NoDup affected /\ d = len affected /\
    forall rc, In rc affected <->
               rc <> (r, c) /\ isHole g rc = true /\
               exists region, In region (regions config) /\
                              In (r, c) (cells region) /\ In rc (cells region).
Proof.
  unfold calculateConstraintDegree.
  destruct (len (regions config) =? 0) eqn:Elen.
  - intros H. inversion H; subst d. exists []. split; [constructor|].
    split; [reflexivity|]. apply len_zero_nil in Elen.
    intros rc. split; [intros []|]. intros (_ & _ & region & Hin & _).
    rewrite Elen in Hin. destruct Hin.
  - match goal with
    | |- match ?m with _ => _ end = _ -> _ => destruct m as [acc|] eqn:E; [|discriminate]
    end.
    intros H. inversion H; subst d. exists (dedupe [] acc).
    split; [apply dedupe_NoDup|]. split; [reflexivity|].
    intros rc. rewrite dedupe_In, (degree_outer g r c _ _ _ E rc). simpl. split.
    + intros [[[] | (H1 & H2 & region & H3 & H4)] _].
      apply regionsContaining_In in H3 as [H3 H5].
      repeat split; auto. exists region. auto.
    + intros (H1 & H2 & region & H3 & H4 & H5). split; [|reflexivity].
      right. repeat split; auto. exists region. split; [|assumption].
      apply regionsContaining_In. auto.
Qed.

Lemma calculateConstraintDegree_counts_witness :
  exists affected,
    NoDup affected /\ 2 = len affected /\
    forall rc, In rc affected <->
               rc <> (1, 2) /\ isHole fourByFourPuzzle rc = true /\
               exists region, In region (regions fourByFourConfig) /\
                              In (1, 2) (cells region) /\ In rc (cells region).
Proof.
  apply (calculateConstraintDegree_counts fourByFourPuzzle fourByFourConfig 1 2 2).
  vm_compute. reflexivity.
Defined.

Lemma emptyCellsOfRow_lists (calc : Z -> Z -> M World (list Z)) (row : Z)
  (cellsOfRow : list CellState) :
  forall col,
    returns (emptyCellsOfRow calc row col cellsOfRow)
            (fun infos =>
               map (fun i => (i_row i, i_col i)) infos
               = emptyPositionsOfRow row col cellsOfRow /\
               Forall (fun i => i_count i = len (i_candidates i) /\
                                i_constraintDegree i = None) infos).
Proof.
  induction cellsOfRow as [|cell rest IH]; intros col; simpl.
  - apply returns_ret. split; [reflexivity | constructor].
  - destruct (value cell =? 0); [|apply IH].
    eapply returns_bind; [apply returns_true|]. intros l _.
    eapply returns_bind; [apply IH|]. intros more [Hmore Hall].
    apply returns_ret. split; [simpl; now rewrite Hmore|].
    constructor; [split; reflexivity | assumption].
Qed.

Lemma emptyCellsFrom_lists (calc : Z -> Z -> M World (list Z)) (rows : Grid) :
  forall row,
    returns (emptyCellsFrom calc row rows)
            (fun infos =>
               map (fun i => (i_row i, i_col i)) infos = emptyPositionsFrom row rows /\
               Forall (fun i => i_count i = len (i_candidates i) /\
                                i_constraintDegree i = None) infos).
Proof.
  induction rows as [|rw rest IH]; intros row; simpl.
  - apply returns_ret. split; [reflexivity | constructor].
  - eapply returns_bind; [apply emptyCellsOfRow_lists|]. intros here [Hhere Hall1].
    eapply returns_bind; [apply IH|]. intros more [Hmore Hall2].
    apply returns_ret. split; [now rewrite map_app, Hhere, Hmore|].
    apply Forall_app. split; assumption.
Qed.

(** X26. The list that [getAllEmptyCellsCandidates] returns names the empty
    cells of the grid, each once, in row-major order; each record counts
    the candidates it holds and carries no constraint degree. This holds
    for every candidates function, whatever state it keeps. *)
Theorem getAllEmptyCellsCandidates_lists_empty_cells (g : Grid)
  (config : SudokuConfig) (calc : Z -> Z -> M World (list Z)) (w : World)
  (infos : list CellCandidateInfo) :
  fst (getAllEmptyCellsCandidates g config calc w) = Ret infos ->
  map (fun i => (i_row i, i_col i)) infos = emptyPositions g /\
  NoDup (map (fun i => (i_row i, i_col i)) infos) /\
  (forall r c, In (r, c) (map (fun i => (i_row i, i_col i)) infos) <->
               exists x, cellAt g r c = Ret x /\ value x = 0) /\
  Forall (fun i => i_count i = len (i_candidates i) /\ i_constraintDegree i = None)
         infos.
Proof.
  intros H. destruct (emptyCellsFrom_lists calc g 0 w infos H) as [Hmap Hall].
  fold (emptyPositions g) in Hmap. rewrite Hmap.
  split; [reflexivity|]. split; [apply emptyPositionsFrom_NoDup|].
  split; [intros r c; apply emptyPositions_In | exact Hall].
Qed.

Lemma getAllEmptyCellsCandidates_lists_empty_cells_witness :
  map (fun i => (i_row i, i_col i)) fourByFourInfos = emptyPositions fourByFourPuzzle /\
  NoDup (map (fun i => (i_row i, i_col i)) fourByFourInfos) /\
  (forall r c, In (r, c) (map (fun i => (i_row i, i_col i)) fourByFourInfos) <->
               exists x, cellAt fourByFourPuzzle r c = Ret x /\ value x = 0) /\
  Forall (fun i => i_count i = len (i_candidates i) /\ i_constraintDegree i = None)
         fourByFourInfos.
Proof.
  apply (getAllEmptyCellsCandidates_lists_empty_cells fourByFourPuzzle fourByFourConfig
           (candidatesClosure fourByFourPuzzle fourByFourConfig) initialWorld
           fourByFourInfos).
  vm_compute. reflexivity.
Defined.
